(** * CBPSim: the speculative tagged branch predictor

    A shallow embedding of the conditional branch predictor of the
    repository: the predictor driven by a learned table order and a
    cyclic prediction counter (the main predictor header), and the
    snapshot-based predictor kept in
    [stash/my_cond_branch_predictor_tage_good.h].

    Conventions.
    - C++ fixed-width integers are [Z] with the wrap-around written out
      ([u8], [u16], [u64], [i8]).
    - [std::vector] and the constant arrays are lists.  Every index into
      them is either a loop counter below the size or a value reduced
      modulo the size, so reads use the total lookup [vget] and writes
      use [vset]; the predictor never resizes them after construction
      (see [shape], which every call preserves).
    - The global history register is a [std::deque<bool>], modelled as a
      list with the oldest bit first.  Its indices are computed from the
      cycle counters, so every access goes through [outcome]: an index
      outside the deque, or an iterator moved past [rend()], is
      [Undefined].
    - [std::map<uint64_t, SpeculativeState>] is a [gmap Z _];
      [operator[]] on a missing key inserts a value-initialised
      (all-zero) record, which [spec_lookup] writes out. *)

From Stdlib Require Import ZArith Lia Bool Sorted Permutation.
From stdpp Require Import base numbers option list gmap.

Local Open Scope Z_scope.

(** ** Outcomes of a call *)

Inductive outcome (A : Type) : Type :=
| Ok (a : A)
| Undefined
| Abort.
Arguments Ok {A} a.
Arguments Undefined {A}.
Arguments Abort {A}.

Definition obind {A B : Type} (m : outcome A) (k : A → outcome B) : outcome B :=
  match m with
  | Ok a => k a
  | Undefined => Undefined
  | Abort => Abort
  end.

Notation "x ←! m ; k" := (obind m (λ x, k))
  (at level 20, m at level 100, k at level 200, right associativity,
   format "x  ←!  m ;  '/' k").

(** [holds_after o P]: the call completed and [P] holds of its result. *)
Definition holds_after {A : Type} (o : outcome A) (P : A → Prop) : Prop :=
  match o with
  | Ok a => P a
  | _ => False
  end.

(** ** Fixed-width integers *)

Definition u8 (z : Z) : Z := z mod 2 ^ 8.
Definition u16 (z : Z) : Z := z mod 2 ^ 16.
Definition u32 (z : Z) : Z := z mod 2 ^ 32.
Definition u64 (z : Z) : Z := z mod 2 ^ 64.
Definition i8 (z : Z) : Z := (z + 2 ^ 7) mod 2 ^ 8 - 2 ^ 7.

(** Arithmetic on [int]: the operands are [int] values, and a result that
    does not fit the type is undefined.  [1 << n] is defined for the
    shifts whose result fits. *)
Definition int_ok (z : Z) : bool := (- 2 ^ 31 <=? z) && (z <? 2 ^ 31).

Definition int_add (a b : Z) : outcome Z :=
  if int_ok a && int_ok b && int_ok (a + b) then Ok (a + b) else Undefined.

Definition int_mul (a b : Z) : outcome Z :=
  if int_ok a && int_ok b && int_ok (a * b) then Ok (a * b) else Undefined.

Definition int_shl1 (n : Z) : outcome Z :=
  if (0 <=? n) && (n <? 31) then Ok (Z.shiftl 1 n) else Undefined.

(** ** Vectors *)

Definition vget {A : Type} `{Inhabited A} (l : list A) (i : Z) : A :=
  l !!! Z.to_nat i.
Definition vset {A : Type} (l : list A) (i : Z) (x : A) : list A :=
  <[Z.to_nat i := x]> l.
Definition vsize {A : Type} (l : list A) : Z := Z.of_nat (length l).

(** ** Configuration defines *)

Definition NUM_TAGGED_TABLES : Z := 12.
Definition BASE_INDEX_BITS : Z := 14.
Definition BASE_PRED_BITS : Z := 2.
Definition MAX_HISTORY : Z := 640.
Definition MAX_HISTORY_BUFFER : Z := 32.
Definition TAGE_PRED_BITS : Z := 3.
Definition TAGE_USEFUL_BITS : Z := 2.
Definition USE_ALT_THRESHOLD : Z := 8.
Definition RL_WEIGHTS_BITS : Z := 4.
Definition LEARNING_RATE : Z := 1.
Definition MAX_BYTES : Z := 192 * 1024.
Definition RESET_PERIOD : Z := 512 * 1024.

Definition WEIGHT_MAX : Z := i8 (Z.shiftl 1 (RL_WEIGHTS_BITS - 1) - 1).
Definition WEIGHT_MIN : Z := i8 (- Z.shiftl 1 (RL_WEIGHTS_BITS - 1)).

Record TableConfig : Type := mkTableConfig {
  hist_len : Z;
  index_bits : Z;
  tag_bits : Z
}.

Definition entries (cfg : TableConfig) : Z := Z.shiftl 1 (index_bits cfg).

Definition TAGGED_CONFIGS : list TableConfig :=
  [ mkTableConfig 4 10 7;
    mkTableConfig 6 10 7;
    mkTableConfig 10 11 8;
    mkTableConfig 16 11 8;
    mkTableConfig 25 11 9;
    mkTableConfig 40 11 10;
    mkTableConfig 64 10 11;
    mkTableConfig 101 10 12;
    mkTableConfig 160 10 12;
    mkTableConfig 254 9 13;
    mkTableConfig 403 9 14;
    mkTableConfig 640 9 15 ].

#[global] Instance TableConfig_inhabited : Inhabited TableConfig :=
  populate (mkTableConfig 0 0 0).

Record TaggedEntry : Type := mkEntry {
  tag : Z;
  ctr : Z;
  u : Z
}.

#[global] Instance TaggedEntry_inhabited : Inhabited TaggedEntry :=
  populate (mkEntry 0 0 0).

Definition set_ctr (e : TaggedEntry) (c : Z) : TaggedEntry :=
  mkEntry (tag e) c (u e).
Definition set_u (e : TaggedEntry) (x : Z) : TaggedEntry :=
  mkEntry (tag e) (ctr e) x.

(** ** Identities *)

Definition get_unique_inst_id (seq_no piece : Z) : Z :=
  Z.lor (u64 (Z.shiftl seq_no 4)) (Z.land piece 15).

(** ** The history hash

    [hash_loop] is the body of the [for] loop of [compute_hash]: [bits]
    is what the reverse iterator still has to visit, newest bit first. *)

Fixpoint hash_loop (hash : Z) (bits : list bool) (bits_used hlen out_bits : Z) : Z :=
  match bits with
  | [] => hash
  | b :: rest =>
      if bits_used <? hlen
      then hash_loop (Z.lxor hash (Z.shiftl (Z.b2z b) (bits_used mod out_bits)))
                     rest (bits_used + 1) hlen out_bits
      else hash
  end.

(** [hist.rbegin() + skip_hist] is a valid iterator only up to [rend()]. *)
Definition compute_hash (pc : Z) (hist : list bool) (hlen skip_hist out_bits : Z)
  : outcome Z :=
  if vsize hist <? skip_hist then Undefined
  else Ok (Z.land (hash_loop pc (drop (Z.to_nat skip_hist) (reverse hist)) 0 hlen out_bits)
                  (Z.shiftl 1 out_bits - 1)).

(** The snapshot predictor's [compute_hash] has no skip argument. *)
Definition compute_hash0 (pc : Z) (hist : list bool) (hlen out_bits : Z) : Z :=
  Z.land (hash_loop pc (reverse hist) 0 hlen out_bits) (Z.shiftl 1 out_bits - 1).

(** ** Saturating steps written as in [update] *)

Definition ctr_step (resolveDir : bool) (c : Z) : Z :=
  if resolveDir
  then i8 (Z.min (c + 1) (Z.shiftl 1 (TAGE_PRED_BITS - 1) - 1))
  else i8 (Z.max (c - 1) (Z.shiftl (-1) (TAGE_PRED_BITS - 1))).

Definition u_step (altpred resolveDir predDir : bool) (x : Z) : Z :=
  if negb (eqb altpred predDir)
  then if eqb resolveDir predDir
       then u8 (Z.min (x + 1) (Z.shiftl 1 TAGE_USEFUL_BITS - 1))
       else u8 (Z.max (x - 1) 0)
  else x.

Definition base_step (resolveDir : bool) (c : Z) : Z :=
  if resolveDir
  then i8 (Z.min (c + 1) (Z.shiftl 1 (BASE_PRED_BITS - 1) - 1))
  else i8 (Z.max (c - 1) (Z.shiftl (-1) (BASE_PRED_BITS - 1))).

Definition meta_step (altpred resolveDir predDir : bool) (m : Z) : Z :=
  if eqb altpred resolveDir && negb (eqb predDir resolveDir)
  then u8 (Z.min (m + 1) 15)
  else if negb (eqb altpred resolveDir) && eqb predDir resolveDir
       then u8 (Z.max (m - 1) 0)
       else m.

Definition age_tables (tables : list (list TaggedEntry)) : list (list TaggedEntry) :=
  map (map (λ e, set_u e (Z.shiftr (u e) 1))) tables.

(** ** The ranges of the counters

    A [TAGE_PRED_BITS]-bit signed counter, a [TAGE_USEFUL_BITS]-bit
    usefulness, a [BASE_PRED_BITS]-bit signed base counter and the 4-bit
    meta-counter. *)
Definition ctr_ok (c : Z) : Prop := -4 ≤ c ≤ 3.
Definition u_ok (x : Z) : Prop := 0 ≤ x ≤ 3.
Definition base_ok (c : Z) : Prop := -2 ≤ c ≤ 1.
Definition meta_ok (m : Z) : Prop := 0 ≤ m ≤ 15.
Definition entry_ok (e : TaggedEntry) : Prop := ctr_ok (ctr e) ∧ u_ok (u e).

(** The sizes that the constructor gives the tagged tables. *)
Definition table_sizes (tables : list (list TaggedEntry)) : Prop :=
  map vsize tables = map entries TAGGED_CONFIGS.

(** [tagged_tables[i][idx] = e]. *)
Definition set_table_entry (tables : list (list TaggedEntry)) (i idx : Z)
           (e : TaggedEntry) : list (list TaggedEntry) :=
  vset tables i (vset (vget tables i) idx e).

(** Writing one bit of the history register: [ghr[i] = b] with the
    index computed in [size_t]. *)
Definition ghr_write (g : list bool) (i : Z) (b : bool) : outcome (list bool) :=
  if u64 i <? vsize g then Ok (vset g (u64 i) b) else Undefined.

(** * The predictor with learned table order and cyclic rollback *)

Module RLTage.

Record SpeculativeState : Type := mkSpec {
  provider_table : Z;
  altpred : bool;
  final_pred : bool;
  st_pred_cycle : Z;
  prediction : list Z
}.

(** What [speculative_states[id]] inserts when [id] has no entry. *)
Definition value_init : SpeculativeState := mkSpec 0 false false 0 [].

Record Predictor : Type := mkPredictor {
  pred_cycle : Z;
  base_table : list Z;
  weights : list (list Z);
  tagged_tables : list (list TaggedEntry);
  ghr : list bool;
  use_alt_on_na : Z;
  reset_counter : Z;
  speculative_states : gmap Z SpeculativeState
}.

Definition spec_lookup (m : gmap Z SpeculativeState) (id : Z) : SpeculativeState :=
  default value_init (m !! id).

(** The constructor [SampleCondPredictor()]. *)
Definition cold : Predictor :=
  {| pred_cycle := 0;
     base_table := replicate (Z.to_nat (Z.shiftl 1 BASE_INDEX_BITS)) 0;
     weights := replicate (Z.to_nat NUM_TAGGED_TABLES)
                          (replicate (Z.to_nat (MAX_HISTORY + 1)) 0);
     tagged_tables := map (λ cfg, replicate (Z.to_nat (entries cfg)) (mkEntry 0 0 0))
                          TAGGED_CONFIGS;
     ghr := [];
     use_alt_on_na := USE_ALT_THRESHOLD;
     reset_counter := 0;
     speculative_states := ∅ |}.

(** ** Memory budget *)

Record Config : Type := mkConfig {
  c_tables : list TableConfig;
  c_base_index_bits : Z;
  c_base_pred_bits : Z;
  c_max_history : Z;
  c_max_history_buffer : Z;
  c_tage_pred_bits : Z;
  c_tage_useful_bits : Z;
  c_rl_weights_bits : Z;
  c_max_bytes : Z
}.

Definition source_config : Config :=
  {| c_tables := TAGGED_CONFIGS;
     c_base_index_bits := BASE_INDEX_BITS;
     c_base_pred_bits := BASE_PRED_BITS;
     c_max_history := MAX_HISTORY;
     c_max_history_buffer := MAX_HISTORY_BUFFER;
     c_tage_pred_bits := TAGE_PRED_BITS;
     c_tage_useful_bits := TAGE_USEFUL_BITS;
     c_rl_weights_bits := RL_WEIGHTS_BITS;
     c_max_bytes := MAX_BYTES |}.

(** [cfg.entries()*(cfg.tag_bits + TAGE_PRED_BITS + TAGE_USEFUL_BITS)],
    an [int] expression. *)
Definition table_bits (c : Config) (cfg : TableConfig) : outcome Z :=
  entries ←! int_shl1 (index_bits cfg);
  width ←! int_add (tag_bits cfg) (c_tage_pred_bits c);
  width ←! int_add width (c_tage_useful_bits c);
  int_mul entries width.

(** The value of [size] just before the conversion to bytes.  Every term
    is computed in [int] and then added to the [size_t]. *)
Definition total_bits (c : Config) : outcome Z :=
  history ←! int_add (c_max_history c) (c_max_history_buffer c);
  let size := u64 history in
  base ←! int_shl1 (c_base_index_bits c);
  base ←! int_mul base (c_base_pred_bits c);
  let size := u64 (size + base) in
  row ←! int_add (c_max_history c) 1;
  rl ←! int_mul (c_rl_weights_bits c) row;
  rl ←! int_mul rl (vsize (c_tables c));
  let size := u64 (size + rl) in
  fold_left (λ acc cfg, size ←! acc; bits ←! table_bits c cfg; Ok (u64 (size + bits)))
            (c_tables c) (Ok size).

(** [size & 7 > 0 ? 1 : 0]: the comparison binds tighter than [&], so
    the condition is [size & (7 > 0)], that is [size & 1]. *)
Definition bits_to_bytes (size : Z) : Z :=
  Z.shiftr size 3 + (if Z.eqb (Z.land size (Z.b2z (0 <? 7))) 0 then 0 else 1).

(** [assert(size <= MAX_BYTES)]: the [int] budget is converted to
    [size_t] for the comparison. *)
Definition check_memory_budget (c : Config) : outcome unit :=
  size ←! total_bits c;
  let size := bits_to_bytes size in
  if int_ok (c_max_bytes c)
  then (if size <=? u64 (c_max_bytes c) then Ok tt else Abort)
  else Undefined.

Definition setup_with (c : Config) (s : Predictor) : outcome Predictor :=
  _ ←! check_memory_budget c; Ok s.

Definition setup (s : Predictor) : outcome Predictor := setup_with source_config s.

(** The bit cost in words: the history register with its rollback
    buffer, the base table, the weight arrays, and every tagged table. *)
Definition table_cost (c : Config) (cfg : TableConfig) : Z :=
  entries cfg * (tag_bits cfg + c_tage_pred_bits c + c_tage_useful_bits c).

Definition tagged_bit_cost (c : Config) : Z :=
  foldr (λ cfg acc, table_cost c cfg + acc) 0 (c_tables c).

Definition bit_cost (c : Config) : Z :=
  (c_max_history c + c_max_history_buffer c)
  + Z.shiftl 1 (c_base_index_bits c) * c_base_pred_bits c
  + c_rl_weights_bits c * (c_max_history c + 1) * vsize (c_tables c)
  + tagged_bit_cost c.

(** The sum over the history register, the base table and the tagged
    tables only. *)
Definition bit_cost_without_weights (c : Config) : Z :=
  (c_max_history c + c_max_history_buffer c)
  + Z.shiftl 1 (c_base_index_bits c) * c_base_pred_bits c
  + tagged_bit_cost c.

(** The source's configuration with a budget of 32000 bytes. *)
Definition tight_config : Config :=
  mkConfig TAGGED_CONFIGS BASE_INDEX_BITS BASE_PRED_BITS MAX_HISTORY MAX_HISTORY_BUFFER
           TAGE_PRED_BITS TAGE_USEFUL_BITS RL_WEIGHTS_BITS 32000.

(** ** Table order

    [get_sorted_indices] sorts the indices by descending score with
    [std::sort], which leaves the order of equal scores unspecified; the
    model keeps equal scores in index order, as the insertion sort run on
    a dozen elements does. *)

Fixpoint insert_desc (arr : list Z) (a : nat) (l : list nat) : list nat :=
  match l with
  | [] => [a]
  | b :: rest =>
      if (arr !!! b) <? (arr !!! a) then a :: b :: rest
      else b :: insert_desc arr a rest
  end.

Definition get_sorted_indices (arr : list Z) : list nat :=
  fold_left (λ acc i, insert_desc arr i acc) (seq 0 (length arr)) [].

(** [desc arr a b]: index [a] may come before index [b] in the sorted
    order. *)
Definition desc (arr : list Z) (a b : nat) : Prop := arr !!! b ≤ arr !!! a.

(** ** predict *)

(** [state.prediction[i]] after the two nested loops. *)
Definition score (s : Predictor) (i : nat) : Z :=
  let w := weights s !!! i in
  let n := Nat.min (Z.to_nat MAX_HISTORY) (length (ghr s)) in
  fold_left (λ acc j, acc + (if (ghr s !!! j : bool) then w !!! j else - (w !!! j)))
            (seq 0 n) 0
  + w !!! (length w - 1)%nat.

(** The slot of table [i] that [PC] selects under the current history,
    the tag computed for it, and whether the slot's tag matches. *)
Definition entry_of (s : Predictor) (PC : Z) (i : nat) : TaggedEntry :=
  let cfg := TAGGED_CONFIGS !!! i in
  let table := tagged_tables s !!! i in
  vget table (compute_hash0 PC (ghr s) (hist_len cfg) (index_bits cfg) mod vsize table).

Definition tag_of (s : Predictor) (PC : Z) (i : nat) : Z :=
  u16 (compute_hash0 PC (ghr s) (hist_len (TAGGED_CONFIGS !!! i))
                     (tag_bits (TAGGED_CONFIGS !!! i))).

Definition hit (s : Predictor) (PC : Z) (i : nat) : bool :=
  tag (entry_of s PC i) =? tag_of s PC i.

Definition taken_bit (e : TaggedEntry) : bool := 0 <=? ctr e.

Definition base_pred (s : Predictor) (PC : Z) : bool :=
  0 <=? vget (base_table s) (PC mod vsize (base_table s)).

Definition weak_and_alt_trusted (s : Predictor) (e : TaggedEntry) : bool :=
  (Z.abs (ctr e) <=? 1) && (USE_ALT_THRESHOLD <=? use_alt_on_na s).

(** The scan over [top_pred_idxs]; returning from the recursion without
    visiting [rest] is the [break]. *)
Fixpoint scan_tables (s : Predictor) (PC : Z) (idxs : list nat)
         (st : SpeculativeState) : outcome SpeculativeState :=
  match idxs with
  | [] => Ok st
  | i :: rest =>
      let cfg := TAGGED_CONFIGS !!! i in
      let table := tagged_tables s !!! i in
      h ←! compute_hash PC (ghr s) (hist_len cfg) 0 (index_bits cfg);
      let idx := h mod vsize table in
      t ←! compute_hash PC (ghr s) (hist_len cfg) 0 (tag_bits cfg);
      let tg := u16 t in
      if provider_table st =? -1 then
        if tag (vget table idx) =? tg
        then scan_tables s PC rest
               (mkSpec (Z.of_nat i) (altpred st) (0 <=? ctr (vget table idx))
                       (st_pred_cycle st) (prediction st))
        else scan_tables s PC rest st
      else
        if tag (vget table idx) =? tg
        then Ok (mkSpec (provider_table st) (0 <=? ctr (vget table idx)) (final_pred st)
                        (st_pred_cycle st) (prediction st))
        else scan_tables s PC rest st
  end.

(** The weak-provider override that follows the scan. *)
Definition use_alt (s : Predictor) (PC : Z) (st : SpeculativeState)
  : outcome SpeculativeState :=
  if provider_table st =? -1 then Ok st
  else
    let cfg := vget TAGGED_CONFIGS (provider_table st) in
    let table := vget (tagged_tables s) (provider_table st) in
    h ←! compute_hash PC (ghr s) (hist_len cfg) 0 (index_bits cfg);
    let entry := vget table (h mod vsize table) in
    if (Z.abs (ctr entry) <=? 1) && (USE_ALT_THRESHOLD <=? use_alt_on_na s)
    then Ok (mkSpec (provider_table st) (altpred st) (altpred st)
                    (st_pred_cycle st) (prediction st))
    else Ok st.

Definition set_specs (s : Predictor) (m : gmap Z SpeculativeState) : Predictor :=
  mkPredictor (pred_cycle s) (base_table s) (weights s) (tagged_tables s) (ghr s)
              (use_alt_on_na s) (reset_counter s) m.

(** [SpeculativeState state;] leaves [state.pred_cycle] without a value;
    [junk] is the byte the field happens to hold. *)
Definition predict (junk : Z) (s : Predictor) (seq_no piece PC : Z)
  : outcome (bool * Predictor) :=
  let id := get_unique_inst_id seq_no piece in
  let base_idx := PC mod vsize (base_table s) in
  let base_pred := 0 <=? vget (base_table s) base_idx in
  let scores := map (score s) (seq 0 (Z.to_nat NUM_TAGGED_TABLES)) in
  let st0 := mkSpec (-1) base_pred base_pred (u8 junk) scores in
  let top_pred_idxs := get_sorted_indices scores in
  st1 ←! scan_tables s PC top_pred_idxs st0;
  st2 ←! use_alt s PC st1;
  Ok (final_pred st2, set_specs s (<[id := st2]> (speculative_states s))).

(** The order in which [predict] visits the tables. *)
Definition table_order (s : Predictor) : list nat :=
  get_sorted_indices (map (score s) (seq 0 (Z.to_nat NUM_TAGGED_TABLES))).

(** The checkpoint in words: along a visiting [order], the provider is
    the first table that hits, the alternate the next one that hits, the
    base predictor stands in for whichever is missing, and the alternate
    bit replaces a weak provider's when the meta-counter says so. *)
Definition checkpoint_along (order : list nat) (junk : Z) (s : Predictor) (PC : Z)
  : SpeculativeState :=
  let scores := map (score s) (seq 0 (Z.to_nat NUM_TAGGED_TABLES)) in
  match List.filter (hit s PC) order with
  | [] => mkSpec (-1) (base_pred s PC) (base_pred s PC) (u8 junk) scores
  | p :: rest =>
      let alt := match rest with
                 | [] => base_pred s PC
                 | a :: _ => taken_bit (entry_of s PC a)
                 end in
      let e := entry_of s PC p in
      mkSpec (Z.of_nat p) alt
             (if weak_and_alt_trusted s e then alt else taken_bit e)
             (u8 junk) scores
  end.

(** ** history_update *)

Definition push_history (g : list bool) (taken : bool) : list bool :=
  let g := g ++ [taken] in
  if MAX_HISTORY + MAX_HISTORY_BUFFER <? vsize g then drop 1 g else g.

Definition history_update (s : Predictor) (seq_no piece PC : Z) (taken : bool)
           (nextPC : Z) : Predictor :=
  let cyc := u8 (pred_cycle s + 1) in
  let g := push_history (ghr s) taken in
  let id := get_unique_inst_id seq_no piece in
  let st := spec_lookup (speculative_states s) id in
  mkPredictor cyc (base_table s) (weights s) (tagged_tables s) g
              (use_alt_on_na s) (reset_counter s)
              (<[id := mkSpec (provider_table st) (altpred st) (final_pred st) cyc
                              (prediction st)]> (speculative_states s)).

(** ** update *)

(** The allocation loop [for (k = provider_table + 1; k < NUM_TAGGED_TABLES; ++k)]
    over the values [ks] that [k] still has to take.  It returns the
    final value of [k] together with the tables. *)
Fixpoint alloc_scan (ks : list Z) (PC : Z) (g : list bool) (delta_cycles : Z)
         (resolveDir : bool) (tables : list (list TaggedEntry))
  : outcome (Z * list (list TaggedEntry)) :=
  match ks with
  | [] => Ok (NUM_TAGGED_TABLES, tables)
  | k :: rest =>
      let alloc_cfg := vget TAGGED_CONFIGS k in
      let alloc_table := vget tables k in
      h ←! compute_hash PC g (hist_len alloc_cfg) delta_cycles (index_bits alloc_cfg);
      let alloc_idx := h mod vsize alloc_table in
      if u (vget alloc_table alloc_idx) =? 0 then
        t ←! compute_hash PC g (hist_len alloc_cfg) delta_cycles (tag_bits alloc_cfg);
        Ok (k, set_table_entry tables k alloc_idx
                 (mkEntry (u16 t) (if resolveDir then 0 else -1) 0))
      else alloc_scan rest PC g delta_cycles resolveDir tables
  end.

(** The slot of table [k] that the allocation loop inspects. *)
Definition alloc_slot (PC : Z) (g : list bool) (delta : Z)
           (tables : list (list TaggedEntry)) (k : Z) : outcome Z :=
  h ←! compute_hash PC g (hist_len (vget TAGGED_CONFIGS k)) delta
                    (index_bits (vget TAGGED_CONFIGS k));
  Ok (h mod vsize (vget tables k)).

(** The tables after the provider's slot has been trained, which is
    what the allocation loop starts from. *)
Definition trained_tables (s : Predictor) (state : SpeculativeState) (idx : Z)
           (resolveDir predDir : bool) : list (list TaggedEntry) :=
  let entry := vget (vget (tagged_tables s) (provider_table state)) idx in
  let entry := set_ctr entry (ctr_step resolveDir (ctr entry)) in
  let entry := set_u entry (u_step (altpred state) resolveDir predDir (u entry)) in
  set_table_entry (tagged_tables s) (provider_table state) idx entry.

(** The tables that the allocation loop visits: those after the
    provider, in ascending order. *)
Definition longer_tables (provider : Z) : list Z :=
  seqZ (provider + 1) (NUM_TAGGED_TABLES - (provider + 1)).

Definition clamp_weight (w : Z) : Z := Z.max (Z.min w WEIGHT_MAX) WEIGHT_MIN.

(** The weight loops for one table [i]; [target] is [i == k]. *)
Definition rl_row (g : list bool) (delta_cycles : Z) (target : bool) (w : list Z)
  : list Z :=
  let n := Nat.min (Z.to_nat MAX_HISTORY) (length g) in
  let w1 :=
    fold_left
      (λ w j,
         let upd := i8 ((if vget g (vsize g - delta_cycles - Z.of_nat j - 1) then 1 else -1)
                        * Z.b2z target * LEARNING_RATE) in
         <[j := clamp_weight (i8 (w !!! j + upd))]> w)
      (seq 0 n) w in
  <[(length w1 - 1)%nat :=
      clamp_weight (i8 (w1 !!! (length w1 - 1)%nat + LEARNING_RATE * Z.b2z target))]> w1.

Definition rl_update (g : list bool) (delta_cycles k : Z) (ws : list (list Z))
  : list (list Z) :=
  imap (λ i w, rl_row g delta_cycles (Z.of_nat i =? k) w) ws.

(** The [if (state.provider_table != -1)] branch of [update]: counter,
    usefulness, allocation and weights. *)
Definition update_provider (s : Predictor) (state : SpeculativeState) (PC : Z)
           (g : list bool) (delta_cycles : Z) (resolveDir predDir : bool)
  : outcome (list (list TaggedEntry) * list (list Z)) :=
  let cfg := vget TAGGED_CONFIGS (provider_table state) in
  let table := vget (tagged_tables s) (provider_table state) in
  h ←! compute_hash PC g (hist_len cfg) delta_cycles (index_bits cfg);
  let idx := h mod vsize table in
  let entry := vget table idx in
  let entry := set_ctr entry (ctr_step resolveDir (ctr entry)) in
  let entry := set_u entry (u_step (altpred state) resolveDir predDir (u entry)) in
  let tables := set_table_entry (tagged_tables s) (provider_table state) idx entry in
  if eqb (negb resolveDir) predDir then
    r ←! alloc_scan (seqZ (provider_table state + 1)
                          (NUM_TAGGED_TABLES - (provider_table state + 1)))
                    PC g delta_cycles resolveDir tables;
    let '(k, tables) := r in
    if delta_cycles + MAX_HISTORY + 1 <=? vsize g
    then Ok (tables, rl_update g delta_cycles k (weights s))
    else Ok (tables, weights s)
  else Ok (tables, weights s).

Definition delta_of (s : Predictor) (state : SpeculativeState) : Z :=
  u8 (pred_cycle s - st_pred_cycle state).

Definition update (s : Predictor) (seq_no piece PC : Z) (resolveDir predDir : bool)
           (nextPC : Z) : outcome Predictor :=
  let id := get_unique_inst_id seq_no piece in
  let state := spec_lookup (speculative_states s) id in
  let delta_cycles := delta_of s state in
  g ←! (if negb (eqb predDir resolveDir)
        then ghr_write (ghr s) (vsize (ghr s) - delta_cycles - 1) resolveDir
        else Ok (ghr s));
  r ←! (if negb (provider_table state =? -1)
        then tw ←! update_provider s state PC g delta_cycles resolveDir predDir;
             Ok (base_table s, tw)
        else
          let base_idx := PC mod vsize (base_table s) in
          Ok (vset (base_table s) base_idx
                   (base_step resolveDir (vget (base_table s) base_idx)),
              (tagged_tables s, weights s)));
  let '(base, (tables, ws)) := r in
  let meta := if negb (provider_table state =? -1)
              then meta_step (altpred state) resolveDir predDir (use_alt_on_na s)
              else use_alt_on_na s in
  let rc := u32 (reset_counter s + 1) in
  let '(rc, tables) := if RESET_PERIOD <=? rc then (0, age_tables tables)
                       else (rc, tables) in
  Ok (mkPredictor (pred_cycle s) base ws tables g meta rc
                  (delete id (speculative_states s))).

(** ** Call sequences *)

Inductive call : Type :=
| CPredict (junk seq_no piece PC : Z)
| CHistoryUpdate (seq_no piece PC : Z) (taken : bool) (nextPC : Z)
| CUpdate (seq_no piece PC : Z) (resolveDir predDir : bool) (nextPC : Z).

Definition call_id (c : call) : Z :=
  match c with
  | CPredict _ seq_no piece _ => get_unique_inst_id seq_no piece
  | CHistoryUpdate seq_no piece _ _ _ => get_unique_inst_id seq_no piece
  | CUpdate seq_no piece _ _ _ _ => get_unique_inst_id seq_no piece
  end.

Definition step (s : Predictor) (c : call) : outcome Predictor :=
  match c with
  | CPredict junk seq_no piece PC =>
      r ←! predict junk s seq_no piece PC; Ok (snd r)
  | CHistoryUpdate seq_no piece PC taken nextPC =>
      Ok (history_update s seq_no piece PC taken nextPC)
  | CUpdate seq_no piece PC resolveDir predDir nextPC =>
      update s seq_no piece PC resolveDir predDir nextPC
  end.

Fixpoint run (s : Predictor) (cs : list call) : outcome Predictor :=
  match cs with
  | [] => Ok s
  | c :: rest => s' ←! step s c; run s' rest
  end.

(** The number of [history_update] calls in a sequence. *)
Definition is_push (c : call) : bool :=
  match c with
  | CHistoryUpdate _ _ _ _ _ => true
  | _ => false
  end.

Fixpoint pushes (cs : list call) : Z :=
  match cs with
  | [] => 0
  | c :: rest => (if is_push c then 1 else 0) + pushes rest
  end.

(** The bit a [history_update] call appends; other calls append none. *)
Definition pushed_bit (c : call) : bool :=
  match c with
  | CHistoryUpdate _ _ _ taken _ => taken
  | _ => false
  end.

(** The bits that the [history_update] calls of a sequence append, in
    order. *)
Definition pushed_bits (cs : list call) : list bool :=
  map pushed_bit (List.filter is_push cs).

Definition is_update (c : call) : bool :=
  match c with
  | CUpdate _ _ _ _ _ _ => true
  | _ => false
  end.

Definition counters_in_range (s : Predictor) : Prop :=
  Forall (Forall entry_ok) (tagged_tables s)
  ∧ Forall base_ok (base_table s)
  ∧ meta_ok (use_alt_on_na s).

(** The sizes of the vectors and the capacity of the history register. *)
Definition shape (s : Predictor) : Prop :=
  vsize (base_table s) = Z.shiftl 1 BASE_INDEX_BITS
  ∧ table_sizes (tagged_tables s)
  ∧ map vsize (weights s)
    = replicate (Z.to_nat NUM_TAGGED_TABLES) (MAX_HISTORY + 1)
  ∧ vsize (ghr s) ≤ MAX_HISTORY + MAX_HISTORY_BUFFER.

(** ** Call sequences used as concrete inputs *)

(** Identity 1 is predicted and pushes its bit; 256 other identities
    then push theirs. *)
Definition overflow_calls : list call :=
  CPredict 0 1 0 4096
  :: CHistoryUpdate 1 0 4096 true 4100
  :: map (λ k, CHistoryUpdate k 0 4096 true 4100) (seqZ 2 256).

(** A branch whose tag hits no table, so that the base predictor
    provides; its predicted bit is then pushed. *)
Definition base_miss_calls : list call :=
  [CPredict 0 1 0 32767; CHistoryUpdate 1 0 32767 true 32771].

(** A training run that makes table 1 alone the highest-scoring table.
    Identity 1 hits no tagged table and pushes 641 bits, all taken but the
    633rd, 634th and 636th; identity 2, at PC 15, hits table 0 only, is
    predicted taken and resolves not taken, which allocates its entry in
    table 1 and trains the weights towards table 1. *)
Definition history_pattern (k : Z) : bool :=
  negb ((k =? 633) || (k =? 634) || (k =? 636)).

Definition warm_up_calls : list call :=
  CPredict 0 1 0 127
  :: map (λ k, CHistoryUpdate 1 0 127 (history_pattern k) 131) (seqZ 1 641)
  ++ [CUpdate 1 0 127 true true 131].

Definition learned_calls : list call :=
  warm_up_calls
  ++ [CPredict 0 2 0 15; CHistoryUpdate 2 0 15 true 19; CUpdate 2 0 15 false true 19].

End RLTage.

(** * The snapshot predictor of the stash *)

Module TageGood.

Record SpeculativeState : Type := mkSpec {
  ghr_snapshot : list bool;
  provider_table : Z;
  altpred : bool;
  final_pred : bool
}.

Definition value_init : SpeculativeState := mkSpec [] 0 false false.

Record Predictor : Type := mkPredictor {
  base_table : list Z;
  tagged_tables : list (list TaggedEntry);
  ghr : list bool;
  max_hist : Z;
  use_alt_on_na : Z;
  reset_counter : Z;
  speculative_states : gmap Z SpeculativeState
}.

Definition spec_lookup (m : gmap Z SpeculativeState) (id : Z) : SpeculativeState :=
  default value_init (m !! id).

Definition cold : Predictor :=
  {| base_table := replicate (Z.to_nat (Z.shiftl 1 BASE_INDEX_BITS)) 0;
     tagged_tables := map (λ cfg, replicate (Z.to_nat (entries cfg)) (mkEntry 0 0 0))
                          TAGGED_CONFIGS;
     ghr := [];
     max_hist := MAX_HISTORY;
     use_alt_on_na := 8;
     reset_counter := 0;
     speculative_states := ∅ |}.

Definition entry_at (tables : list (list TaggedEntry)) (g : list bool) (PC : Z) (i : Z)
  : TaggedEntry :=
  let cfg := vget TAGGED_CONFIGS i in
  let table := vget tables i in
  vget table (compute_hash0 PC g (hist_len cfg) (index_bits cfg) mod vsize table).

Definition tag_at (g : list bool) (PC : Z) (i : Z) : Z :=
  u16 (compute_hash0 PC g (hist_len (vget TAGGED_CONFIGS i)) (tag_bits (vget TAGGED_CONFIGS i))).

(** The inner loop [for (int j = i - 1; j >= 0; --j)] over the values
    [js] that [j] still has to take; [alt] is [state.altpred]. *)
Fixpoint find_alt (s : Predictor) (PC : Z) (js : list Z) (alt : bool) : bool :=
  match js with
  | [] => alt
  | j :: rest =>
      if tag (entry_at (tagged_tables s) (ghr s) PC j) =? tag_at (ghr s) PC j
      then 0 <=? ctr (entry_at (tagged_tables s) (ghr s) PC j)
      else find_alt s PC rest alt
  end.

(** [n - 1, n - 2, ..., 0]: the values of a loop counting down from [n - 1]. *)
Definition down_from (n : Z) : list Z := reverse (seqZ 0 n).

(** In a list of loop values counting down, what follows [i] is what the
    inner loop started at [i - 1] visits. *)
Fixpoint counts_down (l : list Z) : Prop :=
  match l with
  | [] => True
  | i :: rest => down_from i = rest ∧ counts_down rest
  end.

(** The outer loop [for (int i = NUM_TAGGED_TABLES - 1; i >= 0; --i)]. *)
Fixpoint find_provider (s : Predictor) (PC : Z) (is_ : list Z) (st : SpeculativeState)
  : SpeculativeState :=
  match is_ with
  | [] => st
  | i :: rest =>
      if tag (entry_at (tagged_tables s) (ghr s) PC i) =? tag_at (ghr s) PC i
      then mkSpec (ghr_snapshot st) i
                  (find_alt s PC (down_from i) (altpred st))
                  (0 <=? ctr (entry_at (tagged_tables s) (ghr s) PC i))
      else find_provider s PC rest st
  end.

Definition use_alt (s : Predictor) (PC : Z) (st : SpeculativeState) : SpeculativeState :=
  if provider_table st =? -1 then st
  else
    let entry := entry_at (tagged_tables s) (ghr s) PC (provider_table st) in
    if (Z.abs (ctr entry) <=? 1) && (USE_ALT_THRESHOLD <=? use_alt_on_na s)
    then mkSpec (ghr_snapshot st) (provider_table st) (altpred st) (altpred st)
    else st.

Definition set_specs (s : Predictor) (m : gmap Z SpeculativeState) : Predictor :=
  mkPredictor (base_table s) (tagged_tables s) (ghr s) (max_hist s)
              (use_alt_on_na s) (reset_counter s) m.

Definition hit (s : Predictor) (PC : Z) (i : Z) : bool :=
  tag (entry_at (tagged_tables s) (ghr s) PC i) =? tag_at (ghr s) PC i.

Definition taken_bit (e : TaggedEntry) : bool := 0 <=? ctr e.

Definition base_pred (s : Predictor) (PC : Z) : bool :=
  0 <=? vget (base_table s) (PC mod vsize (base_table s)).

Definition weak_and_alt_trusted (s : Predictor) (e : TaggedEntry) : bool :=
  (Z.abs (ctr e) <=? 1) && (USE_ALT_THRESHOLD <=? use_alt_on_na s).

(** The checkpoint in words, along a visiting [order] (see the other
    predictor's [checkpoint_along]). *)
Definition checkpoint_along (order : list Z) (s : Predictor) (PC : Z) : SpeculativeState :=
  match List.filter (hit s PC) order with
  | [] => mkSpec (ghr s) (-1) (base_pred s PC) (base_pred s PC)
  | p :: rest =>
      let alt := match rest with
                 | [] => base_pred s PC
                 | a :: _ => taken_bit (entry_at (tagged_tables s) (ghr s) PC a)
                 end in
      let e := entry_at (tagged_tables s) (ghr s) PC p in
      mkSpec (ghr s) p alt (if weak_and_alt_trusted s e then alt else taken_bit e)
  end.

(** The tables from the longest history to the shortest. *)
Definition longest_first : list Z := [11; 10; 9; 8; 7; 6; 5; 4; 3; 2; 1; 0].

Definition predict (s : Predictor) (seq_no piece PC : Z) : bool * Predictor :=
  let id := get_unique_inst_id seq_no piece in
  let base_idx := PC mod vsize (base_table s) in
  let base_pred := 0 <=? vget (base_table s) base_idx in
  let st0 := mkSpec [] (-1) base_pred base_pred in
  let st1 := find_provider s PC (down_from NUM_TAGGED_TABLES) st0 in
  let st2 := use_alt s PC st1 in
  let st3 := mkSpec (ghr s) (provider_table st2) (altpred st2) (final_pred st2) in
  (final_pred st3, set_specs s (<[id := st3]> (speculative_states s))).

Definition push_history (g : list bool) (b : bool) : list bool :=
  let g := g ++ [b] in
  if MAX_HISTORY <? vsize g then drop 1 g else g.

Definition history_update (s : Predictor) (seq_no piece PC : Z) (taken : bool)
           (nextPC : Z) : Predictor :=
  let id := get_unique_inst_id seq_no piece in
  let st := spec_lookup (speculative_states s) id in
  let snap := push_history (ghr_snapshot st) taken in
  mkPredictor (base_table s) (tagged_tables s) snap (max_hist s)
              (use_alt_on_na s) (reset_counter s)
              (<[id := mkSpec snap (provider_table st) (altpred st) (final_pred st)]>
                 (speculative_states s)).

Definition index_at (tables : list (list TaggedEntry)) (g : list bool) (PC : Z) (i : Z) : Z :=
  compute_hash0 PC g (hist_len (vget TAGGED_CONFIGS i)) (index_bits (vget TAGGED_CONFIGS i))
  mod vsize (vget tables i).

Fixpoint alloc_scan (ks : list Z) (PC : Z) (snap : list bool) (resolveDir : bool)
         (tables : list (list TaggedEntry)) : list (list TaggedEntry) :=
  match ks with
  | [] => tables
  | k :: rest =>
      let alloc_idx := index_at tables snap PC k in
      if u (vget (vget tables k) alloc_idx) =? 0
      then set_table_entry tables k alloc_idx
             (mkEntry (tag_at snap PC k) (if resolveDir then 0 else -1) 0)
      else alloc_scan rest PC snap resolveDir tables
  end.

Definition update_provider (s : Predictor) (state : SpeculativeState) (PC : Z)
           (resolveDir predDir : bool) : list (list TaggedEntry) :=
  let idx := index_at (tagged_tables s) (ghr_snapshot state) PC (provider_table state) in
  let entry := vget (vget (tagged_tables s) (provider_table state)) idx in
  let entry := set_ctr entry (ctr_step resolveDir (ctr entry)) in
  let entry := set_u entry (u_step (altpred state) resolveDir predDir (u entry)) in
  let tables := set_table_entry (tagged_tables s) (provider_table state) idx entry in
  if eqb (negb resolveDir) predDir
  then alloc_scan (seqZ (provider_table state + 1)
                        (NUM_TAGGED_TABLES - (provider_table state + 1)))
                  PC (ghr_snapshot state) resolveDir tables
  else tables.

Definition update (s : Predictor) (seq_no piece PC : Z) (resolveDir predDir : bool)
           (nextPC : Z) : Predictor :=
  let id := get_unique_inst_id seq_no piece in
  let state := spec_lookup (speculative_states s) id in
  let g := if negb (eqb predDir resolveDir)
           then push_history (ghr_snapshot state) resolveDir
           else ghr s in
  let '(base, tables) :=
    if negb (provider_table state =? -1)
    then (base_table s, update_provider s state PC resolveDir predDir)
    else
      let base_idx := PC mod vsize (base_table s) in
      (vset (base_table s) base_idx (base_step resolveDir (vget (base_table s) base_idx)),
       tagged_tables s) in
  let meta := if negb (provider_table state =? -1)
              then meta_step (altpred state) resolveDir predDir (use_alt_on_na s)
              else use_alt_on_na s in
  let rc := u32 (reset_counter s + 1) in
  let '(rc, tables) := if RESET_PERIOD <=? rc then (0, age_tables tables)
                       else (rc, tables) in
  mkPredictor base tables g (max_hist s) meta rc (delete id (speculative_states s)).

Inductive call : Type :=
| CPredict (seq_no piece PC : Z)
| CHistoryUpdate (seq_no piece PC : Z) (taken : bool) (nextPC : Z)
| CUpdate (seq_no piece PC : Z) (resolveDir predDir : bool) (nextPC : Z).

Definition step (s : Predictor) (c : call) : Predictor :=
  match c with
  | CPredict seq_no piece PC => snd (predict s seq_no piece PC)
  | CHistoryUpdate seq_no piece PC taken nextPC =>
      history_update s seq_no piece PC taken nextPC
  | CUpdate seq_no piece PC resolveDir predDir nextPC =>
      update s seq_no piece PC resolveDir predDir nextPC
  end.

Definition run (s : Predictor) (cs : list call) : Predictor := fold_left step cs s.

Definition counters_in_range (s : Predictor) : Prop :=
  Forall (Forall entry_ok) (tagged_tables s)
  ∧ Forall base_ok (base_table s)
  ∧ meta_ok (use_alt_on_na s).

(** The sizes of the vectors. *)
Definition shape (s : Predictor) : Prop :=
  vsize (base_table s) = Z.shiftl 1 BASE_INDEX_BITS
  ∧ table_sizes (tagged_tables s).

End TageGood.

(** * Further notions for the predictor with learned table order *)

Module RLMore.
Import RLTage.

(** The range of an [RL_WEIGHTS_BITS]-bit signed weight. *)
Definition weight_ok (w : Z) : Prop := WEIGHT_MIN ≤ w ≤ WEIGHT_MAX.

Definition weights_in_range (s : Predictor) : Prop :=
  Forall (Forall weight_ok) (weights s).

(** The number of [update] calls in a sequence. *)
Fixpoint updates (cs : list call) : Z :=
  match cs with
  | [] => 0
  | c :: rest => (if is_update c then 1 else 0) + updates rest
  end.

(** The state [s] with [reset_counter] at [n]. *)
Definition with_reset_counter (s : Predictor) (n : Z) : Predictor :=
  mkPredictor (pred_cycle s) (base_table s) (weights s) (tagged_tables s) (ghr s)
              (use_alt_on_na s) n (speculative_states s).

(** Three branches at PC 0x1000, resolved not taken as predicted, raise
    the usefulness of slot 0 of table 0 to 3; identity 9 at PC 0x7FFF,
    which no table matches, is then predicted and pushed. *)
Definition useful_calls : list call :=
  concat (map (λ k, [CPredict 0 k 0 4096; CHistoryUpdate k 0 4096 false 4100;
                     CUpdate k 0 4096 false false 4100]) [1; 2; 3])
  ++ [CPredict 0 9 0 32767; CHistoryUpdate 9 0 32767 true 32771].


(** The newest [n] elements of a list. *)
Definition newest {A : Type} (n : nat) (l : list A) : list A :=
  drop (length l - n) l.

(** A call that rewrites no bit of the history register: anything but an
    [update] with a misprediction. *)
Definition keeps_history (c : call) : bool :=
  match c with
  | CUpdate _ _ _ resolveDir predDir _ => eqb predDir resolveDir
  | _ => true
  end.

End RLMore.

(** * Further notions for the snapshot predictor *)

Module SnapMore.
Import TageGood.

Definition call_id (c : call) : Z :=
  match c with
  | CPredict seq_no piece _ => get_unique_inst_id seq_no piece
  | CHistoryUpdate seq_no piece _ _ _ => get_unique_inst_id seq_no piece
  | CUpdate seq_no piece _ _ _ _ => get_unique_inst_id seq_no piece
  end.

(** Every stored snapshot is within the capacity of the register. *)
Definition snapshots_capped (s : Predictor) : Prop :=
  map_Forall (λ _ st, vsize (ghr_snapshot st) ≤ MAX_HISTORY) (speculative_states s).

End SnapMore.

(** * The seven-table predictor of the stash

    The second predictor of [stash/my_cond_branch_predictor_tage_good.h]:
    seven tagged tables with a valid bit per entry, a bimodal table of
    unsigned 2-bit counters, and one snapshot of the whole history per
    identity, taken by [history_update].  The members [provider_table],
    [altpred_table], [provider_idx], [altpred_idx], [pred_taken] and
    [alt_pred_taken] are scratch fields of the object: [find_provider] and
    [predict] leave their results there and [update] reads them back. *)

Module TageSeven.

Definition NUM_TAGE_TABLES : Z := 7.
Definition TAGE_TABLE_SIZE : list Z := [1024; 512; 512; 256; 256; 128; 128].
Definition TAGE_TAG_BITS : list Z := [12; 10; 10; 8; 8; 7; 7].
Definition TAGE_HIST_LEN : list Z := [4; 8; 16; 32; 64; 96; 128].
Definition TAGE_COUNTER_BITS : Z := 2.
Definition TAGE_USEFUL_BITS : Z := 1.
Definition BIMODAL_SIZE : Z := 1024.
Definition MAX_HISTORY_LENGTH : Z := 128.

Record TageEntry : Type := mkTageEntry {
  valid : bool;
  tag : Z;
  counter : Z;
  useful : Z
}.

(** [TageEntry()]: the default member initialisers. *)
Definition default_entry : TageEntry :=
  mkTageEntry false 0 (Z.shiftl 1 (TAGE_COUNTER_BITS - 1)) 0.

#[global] Instance TageEntry_inhabited : Inhabited TageEntry := populate default_entry.

Record Predictor : Type := mkPredictor {
  tage_tables : list (list TageEntry);
  bimodal : list Z;
  history : list bool;
  ghist_length : Z;
  clock : Z;
  provider_table : Z;
  altpred_table : Z;
  provider_idx : Z;
  altpred_idx : Z;
  pred_taken : bool;
  alt_pred_taken : bool;
  speculative_histories : gmap Z (list bool)
}.

Definition set_tables (s : Predictor) (t : list (list TageEntry)) : Predictor :=
  mkPredictor t (bimodal s) (history s) (ghist_length s) (clock s) (provider_table s)
              (altpred_table s) (provider_idx s) (altpred_idx s) (pred_taken s)
              (alt_pred_taken s) (speculative_histories s).

Definition set_bimodal (s : Predictor) (b : list Z) : Predictor :=
  mkPredictor (tage_tables s) b (history s) (ghist_length s) (clock s) (provider_table s)
              (altpred_table s) (provider_idx s) (altpred_idx s) (pred_taken s)
              (alt_pred_taken s) (speculative_histories s).

Definition set_history (s : Predictor) (h : list bool) : Predictor :=
  mkPredictor (tage_tables s) (bimodal s) h (ghist_length s) (clock s) (provider_table s)
              (altpred_table s) (provider_idx s) (altpred_idx s) (pred_taken s)
              (alt_pred_taken s) (speculative_histories s).

Definition set_clock (s : Predictor) (c : Z) : Predictor :=
  mkPredictor (tage_tables s) (bimodal s) (history s) (ghist_length s) c (provider_table s)
              (altpred_table s) (provider_idx s) (altpred_idx s) (pred_taken s)
              (alt_pred_taken s) (speculative_histories s).

Definition set_provider (s : Predictor) (table idx : Z) : Predictor :=
  mkPredictor (tage_tables s) (bimodal s) (history s) (ghist_length s) (clock s) table
              (altpred_table s) idx (altpred_idx s) (pred_taken s)
              (alt_pred_taken s) (speculative_histories s).

Definition set_altpred (s : Predictor) (table idx : Z) : Predictor :=
  mkPredictor (tage_tables s) (bimodal s) (history s) (ghist_length s) (clock s)
              (provider_table s) table (provider_idx s) idx (pred_taken s)
              (alt_pred_taken s) (speculative_histories s).

Definition set_preds (s : Predictor) (p a : bool) : Predictor :=
  mkPredictor (tage_tables s) (bimodal s) (history s) (ghist_length s) (clock s)
              (provider_table s) (altpred_table s) (provider_idx s) (altpred_idx s) p a
              (speculative_histories s).

Definition set_snapshots (s : Predictor) (m : gmap Z (list bool)) : Predictor :=
  mkPredictor (tage_tables s) (bimodal s) (history s) (ghist_length s) (clock s)
              (provider_table s) (altpred_table s) (provider_idx s) (altpred_idx s)
              (pred_taken s) (alt_pred_taken s) m.

(** [setup()] writes every member but the scratch fields. *)
Definition setup (s : Predictor) : Predictor :=
  mkPredictor (map (λ n, replicate (Z.to_nat n) default_entry) TAGE_TABLE_SIZE)
              (replicate (Z.to_nat BIMODAL_SIZE) 0)
              [] MAX_HISTORY_LENGTH 0
              (provider_table s) (altpred_table s) (provider_idx s) (altpred_idx s)
              (pred_taken s) (alt_pred_taken s) ∅.

Definition terminate (s : Predictor) : Predictor := set_snapshots s ∅.

(** The constructor calls [setup()] on an object whose scratch fields
    hold whatever they hold. *)
Definition construct (provider altpred pidx aidx : Z) (p a : bool) : Predictor :=
  setup (mkPredictor [] [] [] 0 0 provider altpred pidx aidx p a ∅).

(** [get_unique_inst_id] of this predictor asserts [piece < 16]. *)
Definition get_unique_inst_id (seq_no piece : Z) : outcome Z :=
  if piece <? 16
  then Ok (Z.lor (u64 (Z.shiftl seq_no 4)) (Z.land piece 15))
  else Abort.

(** The loop of [fold_history] over the deque, oldest bit first. *)
Fixpoint fold_loop (res i : Z) (bits : list bool) : Z :=
  match bits with
  | [] => res
  | b :: rest => fold_loop (Z.lxor res (Z.shiftl (Z.b2z b) (Z.land i 15))) (i + 1) rest
  end.

Definition fold_history (s : Predictor) (mod_ : Z) : Z :=
  fold_loop 0 0 (history s) mod mod_.

Definition get_index (s : Predictor) (PC bank : Z) : Z :=
  let f := fold_history s (vget TAGE_TABLE_SIZE bank) in
  Z.land (Z.lxor (Z.lxor PC f) (Z.shiftr PC (bank + 1)))
         (vget TAGE_TABLE_SIZE bank - 1).

Definition get_tag (s : Predictor) (PC bank : Z) : Z :=
  let f := fold_history s (Z.shiftl 1 (vget TAGE_TAG_BITS bank)) in
  Z.land (Z.lxor (Z.lxor PC (Z.shiftr f 1)) (Z.shiftr PC (bank + 2)))
         (Z.shiftl 1 (vget TAGE_TAG_BITS bank) - 1).

Definition entry_at (s : Predictor) (bank idx : Z) : TageEntry :=
  vget (vget (tage_tables s) bank) idx.

Definition write_entry (s : Predictor) (bank idx : Z) (e : TageEntry) : Predictor :=
  set_tables s (vset (tage_tables s) bank (vset (vget (tage_tables s) bank) idx e)).

(** The body of the loop of [find_provider] for bank [i]. *)
Definition find_step (PC : Z) (s : Predictor) (i : Z) : Predictor :=
  let idx := get_index s PC i in
  let tg := get_tag s PC i in
  let e := entry_at s i idx in
  if valid e && (tag e =? tg) then
    if provider_table s <? 0 then set_provider s i idx
    else if altpred_table s <? 0 then set_altpred s i idx
    else s
  else s.

(** The banks from the last to the first. *)
Definition banks_down : list Z := reverse (seqZ 0 NUM_TAGE_TABLES).

Definition find_provider (s : Predictor) (PC : Z) : Predictor :=
  fold_left (find_step PC) banks_down
            (set_altpred (set_provider s (-1) (provider_idx s)) (-1) (altpred_idx s)).

Definition counter_taken (e : TageEntry) : bool :=
  Z.shiftl 1 (TAGE_COUNTER_BITS - 1) <=? counter e.

Definition bimodal_taken (s : Predictor) (PC : Z) : bool :=
  2 <=? vget (bimodal s) (PC mod BIMODAL_SIZE).

Definition predict (s : Predictor) (seq_no piece PC : Z) : bool * Predictor :=
  let s := find_provider s PC in
  let s :=
    if 0 <=? provider_table s then
      let e := entry_at s (provider_table s) (provider_idx s) in
      let a := if 0 <=? altpred_table s
               then counter_taken (entry_at s (altpred_table s) (altpred_idx s))
               else bimodal_taken s PC in
      set_preds s (counter_taken e) a
    else set_preds s (bimodal_taken s PC) (bimodal_taken s PC) in
  (pred_taken s, s).

Definition push_history (s : Predictor) (h : list bool) (b : bool) : list bool :=
  let h := h ++ [b] in
  if ghist_length s <? vsize h then drop 1 h else h.

Definition history_update (s : Predictor) (seq_no piece PC : Z) (taken : bool)
           (nextPC : Z) : outcome Predictor :=
  id ←! get_unique_inst_id seq_no piece;
  let s := set_snapshots s (<[id := history s]> (speculative_histories s)) in
  Ok (set_history s (push_history s (history s) taken)).

(** The banks that [allocate_new_entry] visits, in order. *)
Definition banks_after (provider : Z) : list Z :=
  seqZ (provider + 1) (NUM_TAGE_TABLES - (provider + 1)).

Definition free_slot (s : Predictor) (PC : Z) (i : Z) : bool :=
  let e := entry_at s i (get_index s PC i) in
  negb (valid e) || (useful e =? 0).

Definition new_entry (s : Predictor) (PC : Z) (resolve : bool) (i : Z) : TageEntry :=
  mkTageEntry true (u16 (get_tag s PC i))
              (if resolve then u8 (Z.shiftl 1 (TAGE_COUNTER_BITS - 1) + 1)
               else u8 (Z.shiftl 1 (TAGE_COUNTER_BITS - 1) - 1))
              0.

Fixpoint alloc_loop (s : Predictor) (PC : Z) (resolve : bool) (banks : list Z)
  : Predictor :=
  match banks with
  | [] => s
  | i :: rest =>
      if free_slot s PC i
      then write_entry s i (get_index s PC i) (new_entry s PC resolve i)
      else alloc_loop s PC resolve rest
  end.

Definition allocate_new_entry (s : Predictor) (PC : Z) (resolve : bool) : Predictor :=
  alloc_loop s PC resolve (banks_after (provider_table s)).

Definition age_useful_bits (s : Predictor) : Predictor :=
  set_tables s
    (map (map (λ e, mkTageEntry (valid e) (tag e) (counter e) (Z.shiftr (useful e) 1)))
         (tage_tables s)).

Definition counter_step (resolveDir : bool) (c : Z) : Z :=
  if resolveDir
  then if c <? Z.shiftl 1 TAGE_COUNTER_BITS - 1 then u8 (c + 1) else c
  else if 0 <? c then u8 (c - 1) else c.

Definition bimodal_step (resolveDir : bool) (b : Z) : Z :=
  if resolveDir
  then if b <? 3 then u8 (b + 1) else b
  else if 0 <? b then u8 (b - 1) else b.

Definition set_counter (e : TageEntry) (c : Z) : TageEntry :=
  mkTageEntry (valid e) (tag e) c (useful e).
Definition set_useful (e : TageEntry) (x : Z) : TageEntry :=
  mkTageEntry (valid e) (tag e) (counter e) x.

(** The rollback at the head of [update]: the snapshot, when there is
    one, replaces the history and is erased. *)
Definition restore (s : Predictor) (id : Z) : Predictor :=
  match speculative_histories s !! id with
  | Some h => set_snapshots (set_history s h) (delete id (speculative_histories s))
  | None => s
  end.

(** [if (++clock % 1024 == 0) age_useful_bits();] *)
Definition tick (s : Predictor) : Predictor :=
  let s := set_clock s (u64 (clock s + 1)) in
  if clock s mod 1024 =? 0 then age_useful_bits s else s.

(** The training that follows [find_provider] in [update]. *)
Definition train (s : Predictor) (PC : Z) (resolveDir predDir : bool) : Predictor :=
  if 0 <=? provider_table s then
    let e := entry_at s (provider_table s) (provider_idx s) in
    let e := set_counter e (counter_step resolveDir (counter e)) in
    let alt_ok := eqb (alt_pred_taken s) resolveDir in
    if negb (eqb predDir resolveDir) then
      let e := if 0 <? useful e then set_useful e (u8 (useful e - 1)) else e in
      let s := write_entry s (provider_table s) (provider_idx s) e in
      if negb alt_ok then allocate_new_entry s PC resolveDir else s
    else
      let e := if useful e <? Z.shiftl 1 TAGE_USEFUL_BITS - 1
               then set_useful e (u8 (useful e + 1)) else e in
      write_entry s (provider_table s) (provider_idx s) e
  else
    let i := PC mod BIMODAL_SIZE in
    let s := set_bimodal s (vset (bimodal s) i (bimodal_step resolveDir (vget (bimodal s) i))) in
    if negb (eqb predDir resolveDir) then allocate_new_entry s PC resolveDir else s.

Definition update (s : Predictor) (seq_no piece PC : Z) (resolveDir predDir : bool)
           (nextPC : Z) : outcome Predictor :=
  id ←! get_unique_inst_id seq_no piece;
  let s := restore s id in
  let s := tick s in
  let s := find_provider s PC in
  let s := train s PC resolveDir predDir in
  Ok (set_history s (push_history s (history s) resolveDir)).

Inductive call : Type :=
| CPredict (seq_no piece PC : Z)
| CHistoryUpdate (seq_no piece PC : Z) (taken : bool) (nextPC : Z)
| CUpdate (seq_no piece PC : Z) (resolveDir predDir : bool) (nextPC : Z).

Definition step (s : Predictor) (c : call) : outcome Predictor :=
  match c with
  | CPredict seq_no piece PC => Ok (snd (predict s seq_no piece PC))
  | CHistoryUpdate seq_no piece PC taken nextPC =>
      history_update s seq_no piece PC taken nextPC
  | CUpdate seq_no piece PC resolveDir predDir nextPC =>
      update s seq_no piece PC resolveDir predDir nextPC
  end.

Fixpoint run (s : Predictor) (cs : list call) : outcome Predictor :=
  match cs with
  | [] => Ok s
  | c :: rest => s' ←! step s c; run s' rest
  end.

(** The identity a call is about, as [get_unique_inst_id] computes it
    within its assertion. *)
Definition call_id (c : call) : Z :=
  match c with
  | CPredict seq_no piece _
  | CHistoryUpdate seq_no piece _ _ _
  | CUpdate seq_no piece _ _ _ _ => Z.lor (u64 (Z.shiftl seq_no 4)) (Z.land piece 15)
  end.

Definition is_update (c : call) : bool :=
  match c with
  | CUpdate _ _ _ _ _ _ => true
  | _ => false
  end.

Fixpoint updates (cs : list call) : Z :=
  match cs with
  | [] => 0
  | c :: rest => (if is_update c then 1 else 0) + updates rest
  end.

(** Whether bank [i] holds a valid entry with the tag of [PC] in the slot
    that [PC] selects. *)
Definition hit (s : Predictor) (PC : Z) (i : Z) : bool :=
  let e := entry_at s i (get_index s PC i) in
  valid e && (tag e =? get_tag s PC i).

(** The ranges of a [TAGE_COUNTER_BITS]-bit counter, a
    [TAGE_USEFUL_BITS]-bit useful field and a bimodal counter, and the
    sizes that [setup] gives the vectors. *)
Definition entry_ok (e : TageEntry) : Prop :=
  0 ≤ counter e ≤ 3 ∧ 0 ≤ useful e ≤ 1 ∧ 0 ≤ tag e < 2 ^ 16.

Definition well_formed (s : Predictor) : Prop :=
  map vsize (tage_tables s) = TAGE_TABLE_SIZE
  ∧ vsize (bimodal s) = BIMODAL_SIZE
  ∧ ghist_length s = MAX_HISTORY_LENGTH
  ∧ Forall (Forall entry_ok) (tage_tables s)
  ∧ Forall (λ b, 0 ≤ b ≤ 3) (bimodal s)
  ∧ vsize (history s) ≤ MAX_HISTORY_LENGTH
  ∧ map_Forall (λ _ h, vsize h ≤ MAX_HISTORY_LENGTH) (speculative_histories s).

End TageSeven.

(** * Call sequences for the seven-table predictor *)

Module SevenRuns.
Import TageSeven.

(** One branch through its three calls. *)
Definition branch (k PC : Z) (predDir resolveDir : bool) : list call :=
  [CPredict k 0 PC; CHistoryUpdate k 0 PC predDir (PC + 4);
   CUpdate k 0 PC resolveDir predDir (PC + 4)].

(** 1021 taken branches at PC 4096, the first two predicted not taken,
    fill the history with taken bits; then a branch at PC 4200 is
    mispredicted, which allocates its entry, and predicted right by that
    entry on its second pass.  That makes 1023 [update] calls. *)
Definition aging_calls : list call :=
  concat (map (λ k, branch k 4096 (2 <? k) true) (seqZ 1 1021))
  ++ branch 2001 4200 false true
  ++ branch 2002 4200 true true.

End SevenRuns.

(** * The simpler predictors of the stash

    Each of them is a [SampleCondPredictor] with the interface of the
    tagged predictors.  A [std::bitset<N>] is the [Z] of its bits, bit 0
    being [GHR[0]]; a [std::unordered_map] is a [gmap]. *)

(** [b <<= 1] and [b.set(pos, v)] on a [std::bitset<n>]. *)
Definition bitset_shl (n : Z) (g : Z) : Z := Z.shiftl g 1 mod 2 ^ n.
Definition bitset_set (g pos : Z) (v : bool) : Z :=
  if v then Z.setbit g pos else Z.clearbit g pos.

(** [std::unordered_map::emplace]: the element is inserted only when the
    key is not there yet. *)
Definition emplace {A : Type} (k : Z) (x : A) (m : gmap Z A) : gmap Z A :=
  match m !! k with
  | Some _ => m
  | None => <[k := x]> m
  end.

(** ** The two-level predictor
    ([stash/my_cond_branch_predictor_two_level.h]) *)

Module TwoLevel.

Definition HISTORY_LENGTH : Z := 4.
Definition PT_SETS : Z := 256.
Definition PT_ENTRIES : Z := Z.shiftl 1 HISTORY_LENGTH.

Record SampleHist : Type := mkSampleHist {
  ghist : Z;
  tage_pred : bool
}.

Record Predictor : Type := mkPredictor {
  pred_time_histories : gmap Z SampleHist;
  branch_history : gmap Z Z;
  pattern_table : list Z
}.

(** The constructor leaves the three containers empty. *)
Definition construct : Predictor := mkPredictor ∅ ∅ [].

(** [pattern_table.resize(PT_SETS * PT_ENTRIES, 1)] keeps the counters
    that are already there and fills up with 1. *)
Definition setup (s : Predictor) : Predictor :=
  mkPredictor ∅ ∅ (resize (Z.to_nat (PT_SETS * PT_ENTRIES)) 1 (pattern_table s)).

Definition terminate (s : Predictor) : Predictor := s.

Definition get_unique_inst_id (seq_no piece : Z) : outcome Z :=
  if piece <? 16
  then Ok (Z.lor (u64 (Z.shiftl seq_no 4)) (Z.land piece 15))
  else Abort.

(** The history register of [PC] in the first level, 0 when unseen. *)
Definition history_of (s : Predictor) (PC : Z) : Z :=
  default 0 (branch_history s !! PC).

Definition history_mask : Z := Z.shiftl 1 HISTORY_LENGTH - 1.

Definition table_index (PC hist : Z) : Z :=
  u64 ((PC mod PT_SETS) * PT_ENTRIES + Z.land hist history_mask).

(** [pattern_table[i]]: [operator[]] outside the vector is undefined. *)
Definition read_counter (t : list Z) (i : Z) : outcome Z :=
  if i <? vsize t then Ok (vget t i) else Undefined.

Definition predict (s : Predictor) (seq_no piece PC : Z) : outcome (bool * Predictor) :=
  let history := history_of s PC in
  counter ←! read_counter (pattern_table s) (table_index PC history);
  let pred_taken := 2 <=? counter in
  unique_inst_id ←! get_unique_inst_id seq_no piece;
  Ok (pred_taken,
      mkPredictor (emplace unique_inst_id (mkSampleHist history pred_taken)
                           (pred_time_histories s))
                  (branch_history s) (pattern_table s)).

Definition history_update (s : Predictor) (seq_no piece PC : Z) (taken : bool)
           (nextPC : Z) : Predictor :=
  let history := history_of s PC in
  let history := Z.land (Z.lor (u32 (Z.shiftl history 1)) (Z.b2z taken)) history_mask in
  mkPredictor (pred_time_histories s) (<[PC := history]> (branch_history s))
              (pattern_table s).

Definition counter_step (counter : Z) (resolveDir : bool) : Z :=
  if resolveDir
  then (if counter <? 3 then u8 (counter + 1) else counter)
  else (if 0 <? counter then u8 (counter - 1) else counter).

(** The overload of [update] that takes the checkpoint. *)
Definition update_from (s : Predictor) (PC : Z) (resolveDir pred_taken : bool)
           (nextPC : Z) (hist_to_use : SampleHist) : outcome Predictor :=
  let index := table_index PC (ghist hist_to_use) in
  counter ←! read_counter (pattern_table s) index;
  Ok (mkPredictor (pred_time_histories s) (branch_history s)
                  (vset (pattern_table s) index (counter_step counter resolveDir))).

(** [update] asserts that the checkpoint of the identity exists. *)
Definition update (s : Predictor) (seq_no piece PC : Z) (resolveDir predDir : bool)
           (nextPC : Z) : outcome Predictor :=
  unique_inst_id ←! get_unique_inst_id seq_no piece;
  match pred_time_histories s !! unique_inst_id with
  | None => Abort
  | Some cp =>
      s ←! update_from s PC resolveDir predDir nextPC cp;
      Ok (mkPredictor (delete unique_inst_id (pred_time_histories s))
                      (branch_history s) (pattern_table s))
  end.

Inductive call : Type :=
| CPredict (seq_no piece PC : Z)
| CHistoryUpdate (seq_no piece PC : Z) (taken : bool) (nextPC : Z)
| CUpdate (seq_no piece PC : Z) (resolveDir predDir : bool) (nextPC : Z).

Definition step (s : Predictor) (c : call) : outcome Predictor :=
  match c with
  | CPredict seq_no piece PC => r ←! predict s seq_no piece PC; Ok (snd r)
  | CHistoryUpdate seq_no piece PC taken nextPC =>
      Ok (history_update s seq_no piece PC taken nextPC)
  | CUpdate seq_no piece PC resolveDir predDir nextPC =>
      update s seq_no piece PC resolveDir predDir nextPC
  end.

Fixpoint run (s : Predictor) (cs : list call) : outcome Predictor :=
  match cs with
  | [] => Ok s
  | c :: rest => s' ←! step s c; run s' rest
  end.

(** Whether a call is the [update] of the identity [id]. *)
Definition updates_id (id : Z) (c : call) : bool :=
  match c with
  | CUpdate seq_no piece _ _ _ _ =>
      Z.lor (u64 (Z.shiftl seq_no 4)) (Z.land piece 15) =? id
  | _ => false
  end.

Definition well_formed (s : Predictor) : Prop :=
  vsize (pattern_table s) = PT_SETS * PT_ENTRIES
  ∧ Forall (λ c, 0 ≤ c ≤ 3) (pattern_table s)
  ∧ map_Forall (λ _ h, 0 ≤ h < PT_ENTRIES) (branch_history s)
  ∧ map_Forall (λ _ cp, 0 ≤ ghist cp < PT_ENTRIES) (pred_time_histories s).

End TwoLevel.

(** ** The per-identity two-bit counter
    ([stash/my_cond_branch_predictor_2bit_sat_per_branch.h]) *)

Module TwoBit.

(** [SaturatingCounter]: the constructor, [operator+], [operator-] and
    [msb] on the [uint8_t] value. *)
Definition SaturatingCounter (initial : Z) : Z := Z.land initial 3.

Definition plus (value : Z) : Z := if value <? 2 then u8 (value + 1) else value.
Definition minus (value : Z) : Z := if 0 <? value then u8 (value - 1) else value.
Definition msb (value : Z) : bool := negb (Z.land value 2 =? 0).

Record Predictor : Type := mkPredictor {
  pred_histories : gmap Z Z
}.

Definition construct : Predictor := mkPredictor ∅.

Definition get_unique_inst_id (seq_no piece : Z) : outcome Z :=
  if piece <? 16
  then Ok (Z.lor (u64 (Z.shiftl seq_no 4)) (Z.land piece 15))
  else Abort.

(** [if (find(id) == end()) pred_histories[id] = SaturatingCounter();] *)
Definition ensure (m : gmap Z Z) (id : Z) : gmap Z Z :=
  match m !! id with
  | Some _ => m
  | None => <[id := SaturatingCounter 0]> m
  end.

(** [pred_histories.at(id)] throws when the key is missing. *)
Definition at_ (m : gmap Z Z) (id : Z) : outcome Z :=
  match m !! id with
  | Some c => Ok c
  | None => Abort
  end.

Definition predict (s : Predictor) (seq_no piece PC : Z) : outcome (bool * Predictor) :=
  id ←! get_unique_inst_id seq_no piece;
  let m := ensure (pred_histories s) id in
  counter ←! at_ m id;
  Ok (msb counter, mkPredictor m).

Definition history_update (s : Predictor) (seq_no piece PC : Z) (taken : bool)
           (nextPC : Z) : Predictor := s.

Definition update (s : Predictor) (seq_no piece PC : Z) (resolveDir predDir : bool)
           (nextPC : Z) : outcome Predictor :=
  id ←! get_unique_inst_id seq_no piece;
  let m := ensure (pred_histories s) id in
  counter ←! at_ m id;
  Ok (mkPredictor (<[id := if resolveDir then plus counter else minus counter]> m)).

Inductive call : Type :=
| CPredict (seq_no piece PC : Z)
| CHistoryUpdate (seq_no piece PC : Z) (taken : bool) (nextPC : Z)
| CUpdate (seq_no piece PC : Z) (resolveDir predDir : bool) (nextPC : Z).

Definition step (s : Predictor) (c : call) : outcome Predictor :=
  match c with
  | CPredict seq_no piece PC => r ←! predict s seq_no piece PC; Ok (snd r)
  | CHistoryUpdate seq_no piece PC taken nextPC =>
      Ok (history_update s seq_no piece PC taken nextPC)
  | CUpdate seq_no piece PC resolveDir predDir nextPC =>
      update s seq_no piece PC resolveDir predDir nextPC
  end.

Fixpoint run (s : Predictor) (cs : list call) : outcome Predictor :=
  match cs with
  | [] => Ok s
  | c :: rest => s' ←! step s c; run s' rest
  end.

Definition updates_id (id : Z) (c : call) : bool :=
  match c with
  | CUpdate seq_no piece _ _ _ _ =>
      Z.lor (u64 (Z.shiftl seq_no 4)) (Z.land piece 15) =? id
  | _ => false
  end.

(** [operator+] stops at 2, so no stored counter exceeds it. *)
Definition counters_ok (s : Predictor) : Prop :=
  map_Forall (λ _ c, 0 ≤ c ≤ 2) (pred_histories s).

End TwoBit.

(** ** Backward taken, forward not taken
    ([stash/my_cond_branch_predictor_bt_fnt.h]) *)

Module Btfnt.

Record Predictor : Type := mkPredictor {
  next_pc_map : gmap Z Z
}.

Definition construct : Predictor := mkPredictor ∅.

(** [predict] does not compute the identity: the call is commented out. *)
Definition predict (s : Predictor) (seq_no piece PC : Z) : bool :=
  let nextPC := u64 (PC + 4) in
  let nextPC := match next_pc_map s !! PC with
                | Some target => target
                | None => nextPC
                end in
  nextPC <=? PC.

Definition history_update (s : Predictor) (seq_no piece PC : Z) (taken : bool)
           (nextPC : Z) : Predictor :=
  if taken then mkPredictor (<[PC := nextPC]> (next_pc_map s)) else s.

Definition update (s : Predictor) (seq_no piece PC : Z) (resolveDir predDir : bool)
           (nextPC : Z) : Predictor :=
  if resolveDir then mkPredictor (<[PC := nextPC]> (next_pc_map s)) else s.

Inductive call : Type :=
| CPredict (seq_no piece PC : Z)
| CHistoryUpdate (seq_no piece PC : Z) (taken : bool) (nextPC : Z)
| CUpdate (seq_no piece PC : Z) (resolveDir predDir : bool) (nextPC : Z).

Definition step (s : Predictor) (c : call) : Predictor :=
  match c with
  | CPredict seq_no piece PC => s
  | CHistoryUpdate seq_no piece PC taken nextPC =>
      history_update s seq_no piece PC taken nextPC
  | CUpdate seq_no piece PC resolveDir predDir nextPC =>
      update s seq_no piece PC resolveDir predDir nextPC
  end.

Definition run (s : Predictor) (cs : list call) : Predictor := fold_left step cs s.

(** The target that the latest call of [cs] recorded for [PC], if any:
    a [history_update] with [taken] or an [update] with [resolveDir]. *)
Definition records (PC : Z) (c : call) : option Z :=
  match c with
  | CPredict _ _ _ => None
  | CHistoryUpdate _ _ PC' taken nextPC =>
      if taken && (PC' =? PC) then Some nextPC else None
  | CUpdate _ _ PC' resolveDir _ nextPC =>
      if resolveDir && (PC' =? PC) then Some nextPC else None
  end.

Fixpoint last_target (PC : Z) (cs : list call) (found : option Z) : option Z :=
  match cs with
  | [] => found
  | c :: rest =>
      last_target PC rest (match records PC c with Some t => Some t | None => found end)
  end.

End Btfnt.

(** ** The perceptron ([unnamed/part_001]) *)

Module Perceptron.

Definition HISTORY_LENGTH : Z := 32.
Definition WEIGHT_BITS : Z := 8.
Definition THETA : Z := 20.
Definition LEARNING_RATE : Z := 1.
Definition MAX_TABLE_ENTRIES : Z := 4096.
Definition MAX_BYTES : Z := 192 * 1024.
Definition NUM_FEATURES : Z := HISTORY_LENGTH + 1.
Definition WEIGHT_MAX : Z := i8 (Z.shiftl 1 (WEIGHT_BITS - 1) - 1).
Definition WEIGHT_MIN : Z := i8 (- Z.shiftl 1 (WEIGHT_BITS - 1)).

Record Predictor : Type := mkPredictor {
  GHR : Z;
  weights : gmap Z (list Z);
  speculative_GHRs : gmap Z Z
}.

Definition construct : Predictor := mkPredictor 0 ∅ ∅.

Definition check_memory_budget : outcome unit :=
  let bytes_per_entry := NUM_FEATURES * 1 in
  let estimated_total := u64 (MAX_TABLE_ENTRIES * bytes_per_entry) in
  if estimated_total <=? MAX_BYTES then Ok tt else Abort.

Definition setup (s : Predictor) : outcome Predictor :=
  _ ←! check_memory_budget;
  Ok (mkPredictor 0 (weights s) (speculative_GHRs s)).

Definition terminate (s : Predictor) : Predictor := mkPredictor (GHR s) ∅ ∅.

Definition get_unique_inst_id (seq_no piece : Z) : outcome Z :=
  if piece <? 16
  then Ok (Z.lor (u64 (Z.shiftl seq_no 4)) (Z.land piece 15))
  else Abort.

(** [auto& w = weights[PC]; if (w.empty()) w.resize(NUM_FEATURES, 0);] *)
Definition weights_of (s : Predictor) (PC : Z) : list Z :=
  match default [] (weights s !! PC) with
  | [] => replicate (Z.to_nat NUM_FEATURES) 0
  | w => w
  end.

(** The dot product: an [int] that starts at the bias [w[0]].  Thirty-three
    [int8_t] terms stay far inside an [int]. *)
Definition feature (g : Z) (w : list Z) (i : Z) : Z :=
  if Z.testbit g i then vget w (i + 1) else - vget w (i + 1).

Definition score (g : Z) (w : list Z) : Z :=
  fold_left (λ sum i, sum + feature g w i) (seqZ 0 HISTORY_LENGTH) (vget w 0).

Definition shift_in (g : Z) (taken : bool) : Z :=
  bitset_set (bitset_shl HISTORY_LENGTH g) 0 taken.

Definition predict (s : Predictor) (seq_no piece PC : Z) : outcome (bool * Predictor) :=
  let w := weights_of s PC in
  let sum := score (GHR s) w in
  id ←! get_unique_inst_id seq_no piece;
  Ok (0 <=? sum,
      mkPredictor (GHR s) (<[PC := w]> (weights s)) (<[id := GHR s]> (speculative_GHRs s))).

Definition history_update (s : Predictor) (seq_no piece PC : Z) (taken : bool)
           (nextPC : Z) : Predictor :=
  mkPredictor (shift_in (GHR s) taken) (weights s) (speculative_GHRs s).

(** [std::max(std::min((int8_t)(x), WEIGHT_MAX), WEIGHT_MIN)]: the cast
    comes first, and a value outside the type is reduced modulo 256. *)
Definition clamp (x : Z) : Z := Z.max (Z.min (i8 x) WEIGHT_MAX) WEIGHT_MIN.

Definition target_of (resolveDir : bool) : Z := if resolveDir then 1 else -1.

Definition train_step (g target : Z) (w : list Z) (i : Z) : list Z :=
  let update := i8 ((if Z.testbit g i then 1 else -1) * target * LEARNING_RATE) in
  vset w (i + 1) (clamp (vget w (i + 1) + update)).

Definition train (w : list Z) (g : Z) (resolveDir : bool) : list Z :=
  let target := target_of resolveDir in
  let w := vset w 0 (clamp (vget w 0 + LEARNING_RATE * target)) in
  fold_left (train_step g target) (seqZ 0 HISTORY_LENGTH) w.

(** The register after the rollback block of [update]. *)
Definition rolled_back (s : Predictor) (id : Z) (resolveDir predDir : bool) : Z :=
  if negb (eqb resolveDir predDir)
  then match speculative_GHRs s !! id with
       | Some snapshot => shift_in snapshot resolveDir
       | None => GHR s
       end
  else GHR s.

Definition trains (sum : Z) (resolveDir : bool) : bool :=
  negb (eqb resolveDir (0 <=? sum)) || (Z.abs sum <=? THETA).

Definition update (s : Predictor) (seq_no piece PC : Z) (resolveDir predDir : bool)
           (nextPC : Z) : outcome Predictor :=
  id ←! get_unique_inst_id seq_no piece;
  let w := weights_of s PC in
  let g := rolled_back s id resolveDir predDir in
  let sum := score g w in
  let w := if trains sum resolveDir then train w g resolveDir else w in
  Ok (mkPredictor g (<[PC := w]> (weights s)) (delete id (speculative_GHRs s))).

Inductive call : Type :=
| CPredict (seq_no piece PC : Z)
| CHistoryUpdate (seq_no piece PC : Z) (taken : bool) (nextPC : Z)
| CUpdate (seq_no piece PC : Z) (resolveDir predDir : bool) (nextPC : Z).

Definition step (s : Predictor) (c : call) : outcome Predictor :=
  match c with
  | CPredict seq_no piece PC => r ←! predict s seq_no piece PC; Ok (snd r)
  | CHistoryUpdate seq_no piece PC taken nextPC =>
      Ok (history_update s seq_no piece PC taken nextPC)
  | CUpdate seq_no piece PC resolveDir predDir nextPC =>
      update s seq_no piece PC resolveDir predDir nextPC
  end.

Fixpoint run (s : Predictor) (cs : list call) : outcome Predictor :=
  match cs with
  | [] => Ok s
  | c :: rest => s' ←! step s c; run s' rest
  end.

(** What the types of the members guarantee: every weight vector has
    [NUM_FEATURES] weights of eight bits, every register 32 bits. *)
Definition int8_ok (x : Z) : Prop := -128 ≤ x ≤ 127.

Definition well_formed (s : Predictor) : Prop :=
  0 ≤ GHR s < 2 ^ HISTORY_LENGTH
  ∧ map_Forall (λ _ w, vsize w = NUM_FEATURES ∧ Forall int8_ok w) (weights s)
  ∧ map_Forall (λ _ g, 0 ≤ g < 2 ^ HISTORY_LENGTH) (speculative_GHRs s).

(** The direction in which training moves weight [k]. *)
Definition direction (g : Z) (resolveDir : bool) (k : Z) : Z :=
  if k =? 0 then target_of resolveDir
  else (if Z.testbit g (k - 1) then 1 else -1) * target_of resolveDir.

End Perceptron.

(** *** An adversary for the perceptron

    A call sequence that trains the weights of one address.  Each round
    sets the register with 32 [history_update] calls and resolves one
    branch; the adversary chooses the register from the weights so that
    the [update] trains, five rounds out of eight towards taken. *)

Module PerceptronRuns.
Import Perceptron.

(** 32 pushes leave [g] in the register: the bit pushed first ends up as
    bit 31. *)
Definition set_register (g : Z) : list call :=
  map (λ i, CHistoryUpdate 0 0 4096 (Z.testbit g (31 - i)) 4100) (seqZ 0 32).

Definition round (g : Z) (r : bool) : list call :=
  set_register g ++ [CUpdate 0 0 4096 r r 4100].

(** The register bit for weight [i + 1]: the feature takes the sign that
    moves the weight away from zero as long as the score so far, [v],
    stays within [bound], and the opposite sign otherwise. *)
Definition pick (t bound : Z) (w : list Z) (acc : Z * Z) (i : Z) : Z * Z :=
  let s := vget w (i + 1) in
  let aligned := fst acc + Z.abs s <=? bound in
  let delta := if aligned then (if 0 <=? s then 1 else -1)
               else (if 0 <=? s then -1 else 1) in
  (if aligned then fst acc + Z.abs s else fst acc - Z.abs s,
   if delta * t =? 1 then Z.setbit (snd acc) i else snd acc).

Definition pattern (w : list Z) (r : bool) : Z :=
  snd (fold_left (pick (target_of r) (THETA - target_of r * vget w 0) w)
                 (seqZ 0 HISTORY_LENGTH) (0, 0)).

(** [n] rounds from the weights [w], round [k] being the first: the
    calls, and the weights they leave. *)
Fixpoint adversary (n : nat) (k : Z) (w : list Z) : list call * list Z :=
  match n with
  | O => ([], w)
  | S n' =>
      let r := (vget w 0 =? 127) || (k mod 8 <? 5) in
      let g := pattern w r in
      let w' := if trains (score g w) r then train w g r else w in
      let rest := adversary n' (k + 1) w' in
      (round g r ++ fst rest, snd rest)
  end.

(** 493 rounds bring the bias to 127; the register is then set for one
    more round towards taken. *)
Definition wrap_calls : list call :=
  let rounds := adversary 493 0 (replicate (Z.to_nat NUM_FEATURES) 0) in
  fst rounds ++ set_register (pattern (snd rounds) true).

End PerceptronRuns.

(** ** The perceptron conditioned on the address
    ([stash/my_cond_branch_predictor_RL_conditioned.h]) *)

Module Conditioned.

Definition HISTORY_LENGTH : Z := 245.
Definition HISTORY_LENGTH_BUFFER : Z := 64.
Definition ID_LENGTH : Z := 10.
Definition WEIGHT_BITS : Z := 8.
(** [1.93 * HISTORY_LENGTH + 14] is 486.85, which the conversion to
    [uint32_t] truncates. *)
Definition THETA : Z := 486.
Definition LEARNING_RATE : Z := 1.
Definition MAX_TABLE_ENTRIES : Z := 512.
Definition MAX_BYTES : Z := 192 * 1024.
Definition NUM_FEATURES : Z := u16 (HISTORY_LENGTH + ID_LENGTH + 1).
Definition WEIGHT_MAX : Z := i8 (Z.shiftl 1 (WEIGHT_BITS - 1) - 1).
Definition WEIGHT_MIN : Z := i8 (- Z.shiftl 1 (WEIGHT_BITS - 1)).

Record Predictor : Type := mkPredictor {
  pred_cycle : Z;
  GHR : Z;
  weights : gmap Z (list Z);
  speculative_updates : gmap Z Z;
  past_predictions : gmap Z Z
}.

(** The object is a static global whose constructor is empty: the scalar
    member is zero-initialised. *)
Definition construct : Predictor := mkPredictor 0 0 ∅ ∅ ∅.

(** [total_bits & 7 > 0 ? 1 : 0] parses as
    [(total_bits & (7 > 0)) ? 1 : 0]. *)
Definition check_memory_budget : outcome unit :=
  let bits_per_entry := NUM_FEATURES * WEIGHT_BITS in
  let total_bits :=
    u64 (MAX_TABLE_ENTRIES * bits_per_entry + HISTORY_LENGTH + HISTORY_LENGTH_BUFFER + 8) in
  let total_bytes :=
    u64 (Z.shiftr total_bits 3
         + (if negb (Z.land total_bits (Z.b2z (0 <? 7)) =? 0) then 1 else 0)) in
  if total_bytes <=? MAX_BYTES then Ok tt else Abort.

Definition setup (s : Predictor) : outcome Predictor :=
  _ ←! check_memory_budget;
  Ok (mkPredictor 0 0 (weights s) (speculative_updates s) (past_predictions s)).

Definition terminate (s : Predictor) : Predictor :=
  mkPredictor (pred_cycle s) (GHR s) ∅ ∅ (past_predictions s).

Definition get_unique_inst_id (seq_no piece : Z) : outcome Z :=
  if piece <? 16
  then Ok (Z.lor (u64 (Z.shiftl seq_no 4)) (Z.land piece 15))
  else Abort.

Definition get_weights_idx (PC : Z) : Z :=
  Z.shiftr PC ID_LENGTH mod MAX_TABLE_ENTRIES.

Definition weights_of (s : Predictor) (idx : Z) : list Z :=
  match default [] (weights s !! idx) with
  | [] => replicate (Z.to_nat NUM_FEATURES) 0
  | w => w
  end.

Definition history_feature (g : Z) (w : list Z) (i : Z) : Z :=
  if Z.testbit g i then vget w (i + 1) else - vget w (i + 1).

Definition id_feature (PC : Z) (w : list Z) (i : Z) : Z :=
  if Z.testbit PC i then vget w (HISTORY_LENGTH + i) else - vget w (HISTORY_LENGTH + i).

Definition score (g PC : Z) (w : list Z) : Z :=
  let sum := fold_left (λ sum i, sum + history_feature g w i)
                       (seqZ 0 HISTORY_LENGTH) (vget w 0) in
  fold_left (λ sum i, sum + id_feature PC w i) (seqZ 1 ID_LENGTH) sum.

Definition predict (s : Predictor) (seq_no piece PC : Z) : outcome (bool * Predictor) :=
  let idx := get_weights_idx PC in
  let w := weights_of s idx in
  let sum := score (GHR s) PC w in
  id ←! get_unique_inst_id seq_no piece;
  Ok (0 <=? sum,
      mkPredictor (pred_cycle s) (GHR s) (<[idx := w]> (weights s))
                  (speculative_updates s) (<[id := sum]> (past_predictions s))).

Definition history_update (s : Predictor) (seq_no piece PC : Z) (taken : bool)
           (nextPC : Z) : outcome Predictor :=
  let cycle := u8 (pred_cycle s + 1) in
  let g := bitset_set (bitset_shl (HISTORY_LENGTH + HISTORY_LENGTH_BUFFER) (GHR s)) 0 taken in
  id ←! get_unique_inst_id seq_no piece;
  Ok (mkPredictor cycle g (weights s) (<[id := cycle]> (speculative_updates s))
                  (past_predictions s)).

(** [std::max(std::min((int8_t)(x), WEIGHT_MAX), WEIGHT_MIN)]: the cast
    comes first, and a value outside the type is reduced modulo 256. *)
Definition clamp (x : Z) : Z := Z.max (Z.min (i8 x) WEIGHT_MAX) WEIGHT_MIN.

Definition target_of (resolveDir : bool) : Z := if resolveDir then 1 else -1.

(** [w[k] = clamp(w[k] + update)]. *)
Definition bump (w : list Z) (k update : Z) : list Z :=
  vset w k (clamp (vget w k + update)).

Definition trains (sum : Z) (resolveDir : bool) : bool :=
  negb (eqb resolveDir (0 <=? sum)) || (Z.abs sum <=? THETA).

(** The three blocks of the training code: the bias, the history
    weights, read [delta_cycles] bits back in the register, and the
    weights of the address bits. *)
Definition train (w : list Z) (g delta_cycles PC : Z) (resolveDir : bool) : list Z :=
  let target := target_of resolveDir in
  let w := bump w 0 (LEARNING_RATE * target) in
  let w :=
    fold_left
      (λ w i, bump w (i + 1)
                   (i8 ((if Z.testbit g (i + delta_cycles) then 1 else -1)
                        * target * LEARNING_RATE)))
      (seqZ 0 HISTORY_LENGTH) w in
  fold_left
    (λ w i, bump w (HISTORY_LENGTH + i)
                 (i8 ((if Z.testbit PC i then 1 else -1) * target * LEARNING_RATE)))
    (seqZ 1 ID_LENGTH) w.

(** [update].  The function looks the recorded score up, erases it and
    only then reads it through the iterator it had found
    ([it_pp->second] after [past_predictions.erase(id)]); the model gives
    that read the recorded score, which is what the erased element still
    holds when the compiled code reads it.  [GHR.set(delta_cycles, ...)]
    cannot throw: the position is a [uint8_t] and the register has 309
    bits. *)
Definition update (s : Predictor) (seq_no piece PC : Z) (resolveDir predDir : bool)
           (nextPC : Z) : outcome Predictor :=
  id ←! get_unique_inst_id seq_no piece;
  let idx := get_weights_idx PC in
  let w := weights_of s idx in
  let ws := <[idx := w]> (weights s) in
  match speculative_updates s !! id with
  | None =>
      Ok (mkPredictor (pred_cycle s) (GHR s) ws (speculative_updates s)
                      (past_predictions s))
  | Some cycle =>
      let delta_cycles := u8 (pred_cycle s - cycle) in
      let g := if negb (eqb resolveDir predDir)
               then bitset_set (GHR s) delta_cycles resolveDir
               else GHR s in
      let su := delete id (speculative_updates s) in
      match past_predictions s !! id with
      | None => Ok (mkPredictor (pred_cycle s) g ws su (past_predictions s))
      | Some sum =>
          let pp := delete id (past_predictions s) in
          if HISTORY_LENGTH_BUFFER <? delta_cycles
          then Ok (mkPredictor (pred_cycle s) g ws su pp)
          else
            let w := if trains sum resolveDir
                     then train w g delta_cycles PC resolveDir
                     else w in
            Ok (mkPredictor (pred_cycle s) g (<[idx := w]> (weights s)) su pp)
      end
  end.

Inductive call : Type :=
| CPredict (seq_no piece PC : Z)
| CHistoryUpdate (seq_no piece PC : Z) (taken : bool) (nextPC : Z)
| CUpdate (seq_no piece PC : Z) (resolveDir predDir : bool) (nextPC : Z).

Definition step (s : Predictor) (c : call) : outcome Predictor :=
  match c with
  | CPredict seq_no piece PC => r ←! predict s seq_no piece PC; Ok (snd r)
  | CHistoryUpdate seq_no piece PC taken nextPC =>
      history_update s seq_no piece PC taken nextPC
  | CUpdate seq_no piece PC resolveDir predDir nextPC =>
      update s seq_no piece PC resolveDir predDir nextPC
  end.

Fixpoint run (s : Predictor) (cs : list call) : outcome Predictor :=
  match cs with
  | [] => Ok s
  | c :: rest => s' ←! step s c; run s' rest
  end.

(** A [history_update] call of an identity other than [id]. *)
Definition pushes_for_another (id : Z) (c : call) : bool :=
  match c with
  | CHistoryUpdate seq_no piece _ _ _ =>
      negb (Z.lor (u64 (Z.shiftl seq_no 4)) (Z.land piece 15) =? id)
  | _ => false
  end.

End Conditioned.

(** * Facts about the integer helpers, the hash and the outcomes *)

Lemma u8_range z : 0 ≤ u8 z < 256.
Proof. unfold u8. apply Z.mod_pos_bound. lia. Qed.

Lemma u8_small z : 0 ≤ z < 256 → u8 z = z.
Proof. intros. unfold u8. apply Z.mod_small. lia. Qed.

Lemma u8_succ a n : u8 (u8 (a + n) + 1) = u8 (a + (n + 1)).
Proof. unfold u8. rewrite Zplus_mod_idemp_l. f_equal. lia. Qed.

Lemma u8_diff c n : u8 (u8 (c + n) - c) = n mod 256.
Proof. unfold u8. rewrite Zminus_mod_idemp_l. f_equal. lia. Qed.

Lemma vsize_nonneg {A} (l : list A) : 0 ≤ vsize l.
Proof. unfold vsize. lia. Qed.

Lemma compute_hash_skip0 pc g hlen w :
  compute_hash pc g hlen 0 w = Ok (compute_hash0 pc g hlen w).
Proof.
  unfold compute_hash, compute_hash0.
  pose proof (vsize_nonneg g).
  destruct (vsize g <? 0) eqn:E; [lia|]. reflexivity.
Qed.

Lemma compute_hash_defined pc g hlen skip w :
  skip ≤ vsize g → ∃ h, compute_hash pc g hlen skip w = Ok h.
Proof.
  intros Hs. unfold compute_hash.
  destruct (vsize g <? skip) eqn:E; [lia|]. eauto.
Qed.

Lemma compute_hash_undefined pc g hlen skip w :
  vsize g < skip → compute_hash pc g hlen skip w = Undefined.
Proof.
  intros Hs. unfold compute_hash.
  destruct (vsize g <? skip) eqn:E; [reflexivity|lia].
Qed.

Lemma holds_after_ex {A} (o : outcome A) (P : A → Prop) :
  holds_after o P → ∃ a, o = Ok a ∧ P a.
Proof. destruct o; cbn; [eauto | tauto | tauto]. Qed.

Lemma holds_after_ok {A} (o : outcome A) (P : A → Prop) a :
  holds_after o P → o = Ok a → P a.
Proof. intros H ->. exact H. Qed.

Lemma Ok_pair_inj {A B} (a a' : A) (b b' : B) :
  Ok (a, b) = Ok (a', b') → a' = a ∧ b' = b.
Proof. intros [= -> ->]. auto. Qed.

Ltac inv_obind H :=
  match type of H with
  | obind ?m _ = Ok _ =>
      let E := fresh "E" in
      destruct m eqn:E; simpl in H; [| discriminate H | discriminate H]
  end.

(** * The predictor with learned table order: [predict] *)

Module RLFacts.
Import RLTage.

Lemma vget_of_nat {A} `{Inhabited A} (l : list A) (i : nat) :
  vget l (Z.of_nat i) = l !!! i.
Proof. unfold vget. by rewrite Nat2Z.id. Qed.

(** Once a provider is known, the scan only looks for the next hit. *)
Lemma scan_tables_alt s PC idxs st :
  provider_table st ≠ -1 →
  scan_tables s PC idxs st =
  Ok match List.filter (hit s PC) idxs with
     | [] => st
     | a :: _ => mkSpec (provider_table st) (taken_bit (entry_of s PC a)) (final_pred st)
                        (st_pred_cycle st) (prediction st)
     end.
Proof.
  intros Hp. induction idxs as [|i rest IH]; [reflexivity|].
  cbn [scan_tables List.filter]. rewrite !compute_hash_skip0. cbn [obind].
  destruct (provider_table st =? -1) eqn:E; [lia|].
  fold (entry_of s PC i). fold (tag_of s PC i). fold (hit s PC i).
  destruct (hit s PC i); [reflexivity | exact IH].
Qed.

Lemma scan_tables_spec s PC idxs st :
  provider_table st = -1 →
  scan_tables s PC idxs st =
  Ok match List.filter (hit s PC) idxs with
     | [] => st
     | p :: rest =>
         mkSpec (Z.of_nat p)
                match rest with
                | [] => altpred st
                | a :: _ => taken_bit (entry_of s PC a)
                end
                (taken_bit (entry_of s PC p)) (st_pred_cycle st) (prediction st)
     end.
Proof.
  intros Hp. induction idxs as [|i rest IH]; [reflexivity|].
  cbn [scan_tables List.filter]. rewrite !compute_hash_skip0. cbn [obind].
  rewrite Hp. cbn [Z.eqb Pos.eqb].
  fold (entry_of s PC i). fold (tag_of s PC i). fold (hit s PC i).
  destruct (hit s PC i); [|exact IH].
  rewrite scan_tables_alt by (cbn; lia). cbn.
  destruct (List.filter (hit s PC) rest); reflexivity.
Qed.

Lemma predict_spec junk s seq_no piece PC :
  predict junk s seq_no piece PC =
  Ok (final_pred (checkpoint_along (table_order s) junk s PC),
      set_specs s (<[get_unique_inst_id seq_no piece :=
                       checkpoint_along (table_order s) junk s PC]>
                     (speculative_states s))).
Proof.
  unfold predict. rewrite scan_tables_spec by reflexivity.
  unfold checkpoint_along, table_order. cbn [obind].
  destruct (List.filter _ _) as [|p rest]; [reflexivity|].
  unfold use_alt. cbn [provider_table].
  destruct (Z.of_nat p =? -1) eqn:E. { apply Z.eqb_eq in E. lia. }
  rewrite compute_hash_skip0. cbn [obind].
  rewrite !vget_of_nat. fold (entry_of s PC p).
  fold (weak_and_alt_trusted s (entry_of s PC p)).
  destruct (weak_and_alt_trusted s (entry_of s PC p)); reflexivity.
Qed.


(** ** The visiting order is the tables sorted by descending score *)

Lemma insert_desc_perm arr a l : Permutation (insert_desc arr a l) (a :: l).
Proof.
  induction l as [|b rest IH]; cbn [insert_desc]; [reflexivity|].
  destruct (arr !!! b <? arr !!! a); [reflexivity|].
  rewrite IH. apply perm_swap.
Qed.

Lemma insert_desc_sorted arr a l :
  StronglySorted (desc arr) l → StronglySorted (desc arr) (insert_desc arr a l).
Proof.
  induction 1 as [|b rest Hs IH Hb]; cbn [insert_desc].
  - repeat constructor.
  - destruct (arr !!! b <? arr !!! a) eqn:E.
    + apply Z.ltb_lt in E. constructor; [by constructor|].
      constructor; [unfold desc; lia|].
      eapply Forall_impl; [exact Hb|]. unfold desc. intros; cbn in *; lia.
    + apply Z.ltb_ge in E. constructor; [exact IH|].
      rewrite insert_desc_perm. constructor; [exact E | exact Hb].
Qed.

Lemma sort_fold_perm arr xs acc :
  Permutation (fold_left (λ acc i, insert_desc arr i acc) xs acc) (xs ++ acc).
Proof.
  revert acc. induction xs as [|x xs IH]; intros acc; cbn; [reflexivity|].
  rewrite IH, insert_desc_perm. by rewrite Permutation_middle.
Qed.

Lemma sort_fold_sorted arr xs acc :
  StronglySorted (desc arr) acc →
  StronglySorted (desc arr) (fold_left (λ acc i, insert_desc arr i acc) xs acc).
Proof.
  revert acc. induction xs as [|x xs IH]; intros acc Hs; cbn; [exact Hs|].
  apply IH, insert_desc_sorted, Hs.
Qed.

Lemma get_sorted_indices_perm arr :
  Permutation (get_sorted_indices arr) (seq 0 (length arr)).
Proof. unfold get_sorted_indices. rewrite sort_fold_perm. by rewrite app_nil_r. Qed.

Lemma get_sorted_indices_sorted arr :
  StronglySorted (desc arr) (get_sorted_indices arr).
Proof. apply sort_fold_sorted. constructor. Qed.

Lemma StronglySorted_on {A} (R R' : A → A → Prop) (P : A → Prop) l :
  (∀ a b, P a → P b → R a b → R' a b) →
  Forall P l → StronglySorted R l → StronglySorted R' l.
Proof.
  intros HR HP Hs. induction Hs as [|a l Hs IH Ha]; [constructor|].
  inversion HP as [|? ? Pa Pl]; subst.
  constructor; [by apply IH|].
  rewrite Forall_forall in *. intros b Hb. apply HR; auto.
Qed.

Lemma table_order_perm s :
  Permutation (table_order s) (seq 0 (Z.to_nat NUM_TAGGED_TABLES)).
Proof.
  unfold table_order. rewrite get_sorted_indices_perm.
  by rewrite length_map, length_seq.
Qed.

Lemma table_order_sorted s :
  StronglySorted (λ a b, score s b ≤ score s a) (table_order s).
Proof.
  apply (StronglySorted_on
           (desc (map (score s) (seq 0 (Z.to_nat NUM_TAGGED_TABLES))))
           _ (λ i, (i < Z.to_nat NUM_TAGGED_TABLES)%nat)).
  - intros a b Ha Hb. unfold desc.
    assert (Hl : ∀ i, (i < Z.to_nat NUM_TAGGED_TABLES)%nat →
                 map (score s) (seq 0 (Z.to_nat NUM_TAGGED_TABLES)) !!! i = score s i).
    { intros i Hi. apply list_lookup_total_correct.
      change (map (score s)) with (fmap (M:=list) (score s)).
      by rewrite list_lookup_fmap, lookup_seq_lt by lia. }
    by rewrite !Hl.
  - rewrite Forall_forall. intros i Hi.
    rewrite (table_order_perm s) in Hi. apply elem_of_seq in Hi. lia.
  - apply get_sorted_indices_sorted.
Qed.

(** ** [update]: what a completed call leaves behind *)

Lemma alloc_scan_defined ks PC g delta r tables :
  delta ≤ vsize g → ∃ kt, alloc_scan ks PC g delta r tables = Ok kt.
Proof.
  intros Hd. induction ks as [|k rest IH]; cbn [alloc_scan]; [eauto|].
  destruct (compute_hash_defined PC g (hist_len (vget TAGGED_CONFIGS k)) delta
              (index_bits (vget TAGGED_CONFIGS k)) Hd) as [h ->].
  destruct (compute_hash_defined PC g (hist_len (vget TAGGED_CONFIGS k)) delta
              (tag_bits (vget TAGGED_CONFIGS k)) Hd) as [t ->].
  cbn [obind]. destruct (u _ =? 0); eauto.
Qed.

Lemma update_provider_defined s st PC g delta r p :
  delta ≤ vsize g → ∃ tw, update_provider s st PC g delta r p = Ok tw.
Proof.
  intros Hd. unfold update_provider.
  destruct (compute_hash_defined PC g (hist_len (vget TAGGED_CONFIGS (provider_table st)))
              delta (index_bits (vget TAGGED_CONFIGS (provider_table st))) Hd) as [h ->].
  cbn [obind]. destruct (eqb (negb r) p); [|eauto].
  match goal with |- context [alloc_scan ?ks ?a ?b ?c ?d ?e] =>
    destruct (alloc_scan_defined ks a b c d e Hd) as [[k t] ->] end.
  cbn [obind]. destruct (_ <=? _); eauto.
Qed.

Lemma update_inv s seq_no piece PC r p nextPC s' :
  update s seq_no piece PC r p nextPC = Ok s' →
  let id := get_unique_inst_id seq_no piece in
  let delta := delta_of s (spec_lookup (speculative_states s) id) in
  pred_cycle s' = pred_cycle s
  ∧ speculative_states s' = delete id (speculative_states s)
  ∧ (if negb (eqb p r)
     then ghr_write (ghr s) (vsize (ghr s) - delta - 1) r
     else Ok (ghr s)) = Ok (ghr s').
Proof.
  unfold update. intros H.
  inv_obind H. inv_obind H. destruct a0 as [base [tables ws]].
  destruct (RESET_PERIOD <=? _); injection H as <-; cbn; auto.
Qed.

Lemma update_defined s seq_no piece PC r p nextPC g :
  let id := get_unique_inst_id seq_no piece in
  let delta := delta_of s (spec_lookup (speculative_states s) id) in
  (if negb (eqb p r)
   then ghr_write (ghr s) (vsize (ghr s) - delta - 1) r
   else Ok (ghr s)) = Ok g →
  delta ≤ vsize g →
  ∃ s', update s seq_no piece PC r p nextPC = Ok s'.
Proof.
  intros id delta Hg Hd. unfold update. fold id. fold delta. rewrite Hg. cbn [obind].
  destruct (negb (provider_table _ =? -1)).
  - destruct (update_provider_defined s (spec_lookup (speculative_states s) id)
                PC g delta r p Hd) as [[t w] ->].
    cbn [obind]. destruct (RESET_PERIOD <=? _); eauto.
  - cbn [obind]. destruct (RESET_PERIOD <=? _); eauto.
Qed.


(** ** The cycle counter and the checkpoints along a call sequence *)

Lemma pushes_nonneg cs : 0 ≤ pushes cs.
Proof. induction cs as [|c cs IH]; cbn; [lia|]. destruct (is_push c); lia. Qed.

Lemma step_other s c s' id st :
  call_id c ≠ id → step s c = Ok s' →
  speculative_states s !! id = Some st →
  speculative_states s' !! id = Some st
  ∧ pred_cycle s' = (if is_push c then u8 (pred_cycle s + 1) else pred_cycle s).
Proof.
  intros Hid Hstep Hst. destruct c; cbn in Hid, Hstep.
  - rewrite predict_spec in Hstep. cbn in Hstep. injection Hstep as <-.
    cbn. by rewrite lookup_insert_ne.
  - injection Hstep as <-. cbn. by rewrite lookup_insert_ne.
  - apply update_inv in Hstep as (Hc & Hm & _). cbn.
    rewrite Hm, Hc. by rewrite lookup_delete_ne.
Qed.

Lemma run_other cs : ∀ s s' id st c0 n,
  Forall (λ c, call_id c ≠ id) cs → run s cs = Ok s' →
  speculative_states s !! id = Some st →
  pred_cycle s = u8 (c0 + n) →
  speculative_states s' !! id = Some st ∧ pred_cycle s' = u8 (c0 + (n + pushes cs)).
Proof.
  induction cs as [|c cs IH]; intros s s' id st c0 n Hall Hrun Hst Hc.
  - injection Hrun as <-. cbn. rewrite Z.add_0_r. auto.
  - inversion Hall as [|? ? Hid Hall']; subst. cbn [run] in Hrun. inv_obind Hrun.
    destruct (step_other _ _ _ _ _ Hid E Hst) as [Hst' Hc'].
    cbn [pushes]. destruct (is_push c).
    + rewrite Hc, u8_succ in Hc'.
      destruct (IH _ _ _ _ _ _ Hall' Hrun Hst' Hc') as [? ->].
      split; [done|]. f_equal. lia.
    + rewrite Hc in Hc'.
      destruct (IH _ _ _ _ _ _ Hall' Hrun Hst' Hc') as [? ->].
      split; [done|]. f_equal; lia.
Qed.

Lemma history_update_checkpoint s seq_no piece PC taken nextPC :
  ∃ st, speculative_states (history_update s seq_no piece PC taken nextPC)
          !! get_unique_inst_id seq_no piece = Some st
        ∧ st_pred_cycle st = pred_cycle (history_update s seq_no piece PC taken nextPC)
        ∧ provider_table st
          = provider_table (spec_lookup (speculative_states s)
                                        (get_unique_inst_id seq_no piece)).
Proof. eexists. cbn. rewrite lookup_insert_eq. split; [reflexivity|]. by cbn. Qed.

Lemma delta_after_calls s seq_no piece PC taken nextPC cs s' :
  Forall (λ c, call_id c ≠ get_unique_inst_id seq_no piece) cs →
  run (history_update s seq_no piece PC taken nextPC) cs = Ok s' →
  delta_of s' (spec_lookup (speculative_states s') (get_unique_inst_id seq_no piece))
  = pushes cs mod 256.
Proof.
  intros Hall Hrun.
  destruct (history_update_checkpoint s seq_no piece PC taken nextPC) as (st & Hst & Hc & _).
  assert (Hc0 : pred_cycle (history_update s seq_no piece PC taken nextPC)
                = u8 (st_pred_cycle st + 0)).
  { rewrite Hc, Z.add_0_r. cbn. unfold u8. by rewrite Z.mod_mod. }
  destruct (run_other _ _ _ _ _ _ _ Hall Hrun Hst Hc0) as [Hst' Hc'].
  unfold delta_of, spec_lookup. rewrite Hst', Hc'. cbn. rewrite Z.add_0_l.
  apply u8_diff.
Qed.

(** ** The history register along a call sequence *)

Lemma push_history_keeps older bits b :
  vsize bits < MAX_HISTORY + MAX_HISTORY_BUFFER →
  ∃ older', push_history (older ++ bits) b = older' ++ bits ++ [b].
Proof.
  intros Hlen. unfold push_history.
  destruct (_ <? _) eqn:E.
  - apply Z.ltb_lt in E. destruct older as [|x older].
    + exfalso. revert E Hlen. unfold vsize. cbn. rewrite length_app. cbn. lia.
    + exists older. cbn. by rewrite <- app_assoc.
  - exists older. by rewrite <- app_assoc.
Qed.

Lemma push_history_size g b :
  vsize g ≤ MAX_HISTORY + MAX_HISTORY_BUFFER →
  vsize (push_history g b) = Z.min (vsize g + 1) (MAX_HISTORY + MAX_HISTORY_BUFFER).
Proof.
  unfold push_history, vsize. intros Hg.
  destruct (_ <? _) eqn:E.
  - apply Z.ltb_lt in E. rewrite length_app in E. cbn [length] in E.
    rewrite length_drop, length_app. cbn [length]. lia.
  - apply Z.ltb_ge in E. rewrite length_app in *. cbn [length] in *. lia.
Qed.

Lemma push_history_cap g b :
  vsize g ≤ MAX_HISTORY + MAX_HISTORY_BUFFER →
  vsize (push_history g b) ≤ MAX_HISTORY + MAX_HISTORY_BUFFER.
Proof. intros Hg. rewrite push_history_size by exact Hg. lia. Qed.

Lemma ghr_write_size g i b g' : ghr_write g i b = Ok g' → vsize g' = vsize g.
Proof.
  unfold ghr_write. destruct (_ <? _); [|discriminate].
  intros [= <-]. unfold vsize, vset. by rewrite length_insert.
Qed.

Lemma step_ghr_size s c s' :
  vsize (ghr s) ≤ MAX_HISTORY + MAX_HISTORY_BUFFER →
  step s c = Ok s' →
  vsize (ghr s')
  = (if is_push c then Z.min (vsize (ghr s) + 1) (MAX_HISTORY + MAX_HISTORY_BUFFER)
     else vsize (ghr s)).
Proof.
  intros Hcap Hstep. destruct c; cbn [step is_push] in *.
  - rewrite predict_spec in Hstep. cbn [obind snd] in Hstep. by injection Hstep as <-.
  - injection Hstep as <-. cbn [ghr history_update]. by apply push_history_size.
  - apply update_inv in Hstep as (_ & _ & Hg).
    destruct (negb (eqb predDir resolveDir)); [by eapply ghr_write_size|].
    by injection Hg as <-.
Qed.

Lemma run_ghr_size cs : ∀ s s',
  vsize (ghr s) ≤ MAX_HISTORY + MAX_HISTORY_BUFFER →
  run s cs = Ok s' →
  vsize (ghr s') = Z.min (vsize (ghr s) + pushes cs) (MAX_HISTORY + MAX_HISTORY_BUFFER).
Proof.
  induction cs as [|c cs IH]; intros s s' Hcap Hrun; cbn [run pushes] in *.
  - injection Hrun as <-. lia.
  - inv_obind Hrun. pose proof (step_ghr_size _ _ _ Hcap E) as Hsz.
    pose proof (pushes_nonneg cs).
    rewrite (IH a s'); [| |exact Hrun]; destruct (is_push c); lia.
Qed.

(** Calls other than [update] leave the bits of the register alone:
    what was pushed stays, followed by what the sequence pushes. *)
Lemma run_without_updates cs : ∀ s s' older bits,
  Forall (λ c, is_update c = false) cs →
  ghr s = older ++ bits →
  vsize bits + pushes cs ≤ MAX_HISTORY + MAX_HISTORY_BUFFER →
  run s cs = Ok s' →
  ∃ older', ghr s' = older' ++ bits ++ pushed_bits cs.
Proof.
  induction cs as [|c cs IH]; intros s s' older bits Hall Hg Hlen Hrun.
  - injection Hrun as <-. exists older. unfold pushed_bits. cbn. by rewrite app_nil_r.
  - inversion Hall as [|? ? Hc Hall']; subst. pose proof (pushes_nonneg cs) as Hn.
    cbn [run pushes] in *. inv_obind Hrun.
    destruct c as [junk seq_no piece PC | seq_no piece PC taken nextPC |]; [| |done].
    + cbn [step] in E. rewrite predict_spec in E. cbn [obind snd] in E.
      apply (f_equal (λ o, holds_after o (λ x, ghr x = ghr s))) in E.
      cbn in E. assert (Ha : ghr a = ghr s) by (by rewrite <- E).
      cbn [is_push] in Hlen. rewrite <- Ha in Hg.
      destruct (IH _ s' older bits Hall' Hg ltac:(lia) Hrun) as [older' Hg'].
      exists older'. exact Hg'.
    + cbn [step] in E. injection E as <-. cbn [is_push] in Hlen.
      destruct (push_history_keeps older bits taken ltac:(lia)) as [older1 Hp].
      destruct (IH (history_update s seq_no piece PC taken nextPC) s' older1
                  (bits ++ [taken]) Hall') as [older' Hg']; [| |exact Hrun|].
      * cbn. by rewrite Hg.
      * unfold vsize in *. rewrite length_app. cbn [length]. lia.
      * exists older'. rewrite Hg'. unfold pushed_bits. cbn. by rewrite <- app_assoc.
Qed.

Lemma length_pushed_bits cs : vsize (pushed_bits cs) = pushes cs.
Proof.
  unfold pushed_bits, vsize. rewrite length_map.
  induction cs as [|c cs IH]; cbn [List.filter pushes length]; [reflexivity|].
  destruct (is_push c); cbn [length]; lia.
Qed.

(** ** [update] never aborts, and reads the checkpoint through [spec_lookup] only *)

Lemma compute_hash_not_abort pc g hlen skip w : compute_hash pc g hlen skip w ≠ Abort.
Proof. unfold compute_hash. by destruct (_ <? _). Qed.

Lemma alloc_scan_not_abort ks PC g delta r tables :
  alloc_scan ks PC g delta r tables ≠ Abort.
Proof.
  induction ks as [|k rest IH]; cbn [alloc_scan]; [done|].
  destruct (compute_hash PC g _ delta (index_bits _)) eqn:E1; cbn [obind];
    [| done | by apply compute_hash_not_abort in E1].
  destruct (u _ =? 0); [|exact IH].
  destruct (compute_hash PC g _ delta (tag_bits _)) eqn:E2; cbn [obind];
    [done | done | by apply compute_hash_not_abort in E2].
Qed.

Lemma update_provider_not_abort s st PC g delta r p :
  update_provider s st PC g delta r p ≠ Abort.
Proof.
  unfold update_provider.
  destruct (compute_hash PC g _ delta _) eqn:E1; cbn [obind];
    [| done | by apply compute_hash_not_abort in E1].
  destruct (eqb (negb r) p); [|done].
  destruct (alloc_scan _ PC g delta r _) as [[k t]| |] eqn:E2; cbn [obind];
    [| done | by apply alloc_scan_not_abort in E2].
  by destruct (_ <=? _).
Qed.

Lemma update_not_abort s seq_no piece PC r p nextPC :
  update s seq_no piece PC r p nextPC ≠ Abort.
Proof.
  unfold update.
  set (st := spec_lookup _ _). set (delta := delta_of _ _).
  assert (Hg : ∀ (k : list bool → outcome Predictor),
             (∀ g, k g ≠ Abort) →
             obind (if negb (eqb p r)
                    then ghr_write (ghr s) (vsize (ghr s) - delta - 1) r
                    else Ok (ghr s)) k ≠ Abort).
  { intros k Hk. destruct (negb (eqb p r)); [|apply Hk].
    unfold ghr_write. destruct (_ <? _); [apply Hk | done]. }
  apply Hg. intros g.
  destruct (negb (provider_table st =? -1)).
  - destruct (update_provider s st PC g delta r p) as [[t w]| |] eqn:E; cbn [obind];
      [| done | by apply update_provider_not_abort in E].
    by destruct (RESET_PERIOD <=? _).
  - cbn [obind]. by destruct (RESET_PERIOD <=? _).
Qed.

Lemma update_default_checkpoint s seq_no piece PC r p nextPC :
  speculative_states s !! get_unique_inst_id seq_no piece = None →
  update s seq_no piece PC r p nextPC
  = update (set_specs s (<[get_unique_inst_id seq_no piece := value_init]>
                           (speculative_states s)))
           seq_no piece PC r p nextPC.
Proof.
  intros Hnone.
  set (id := get_unique_inst_id seq_no piece) in *.
  assert (E : spec_lookup (<[id := value_init]> (speculative_states s)) id
              = spec_lookup (speculative_states s) id).
  { unfold spec_lookup. by rewrite lookup_insert_eq, Hnone. }
  unfold update, update_provider, delta_of. fold id.
  cbn [set_specs speculative_states ghr pred_cycle base_table tagged_tables weights
       use_alt_on_na reset_counter].
  rewrite E, delete_insert_eq. reflexivity.
Qed.


Lemma checkpoint_along_cycle order junk s PC :
  st_pred_cycle (checkpoint_along order junk s PC) = u8 junk.
Proof. unfold checkpoint_along. by destruct (List.filter _ _). Qed.

Lemma checkpoint_along_junk order junk s PC :
  checkpoint_along order junk s PC
  = let st := checkpoint_along order 0 s PC in
    mkSpec (provider_table st) (altpred st) (final_pred st) (u8 junk) (prediction st).
Proof. unfold checkpoint_along. by destruct (List.filter _ _). Qed.

Lemma ghr_write_below g i b :
  vsize g ≤ MAX_HISTORY + MAX_HISTORY_BUFFER → -256 ≤ i < 0 →
  ghr_write g i b = Undefined.
Proof.
  intros Hcap Hi. unfold ghr_write.
  assert (Hu : u64 i = 2 ^ 64 + i).
  { unfold u64. symmetry. apply (Z.mod_unique_pos _ _ (-1)); lia. }
  rewrite Hu. destruct (_ <? _) eqn:E; [|reflexivity].
  apply Z.ltb_lt in E. unfold MAX_HISTORY, MAX_HISTORY_BUFFER in Hcap. lia.
Qed.


(** ** Allocation *)

Lemma alloc_scan_first_free ks PC g delta r tables k tables' :
  alloc_scan ks PC g delta r tables = Ok (k, tables') →
  (k = NUM_TAGGED_TABLES ∧ tables' = tables
   ∧ Forall (λ j, ∃ idx, alloc_slot PC g delta tables j = Ok idx
                         ∧ u (vget (vget tables j) idx) ≠ 0) ks)
  ∨ (∃ before after idx t,
        ks = before ++ k :: after
        ∧ Forall (λ j, ∃ idx, alloc_slot PC g delta tables j = Ok idx
                              ∧ u (vget (vget tables j) idx) ≠ 0) before
        ∧ alloc_slot PC g delta tables k = Ok idx
        ∧ u (vget (vget tables k) idx) = 0
        ∧ compute_hash PC g (hist_len (vget TAGGED_CONFIGS k)) delta
                       (tag_bits (vget TAGGED_CONFIGS k)) = Ok t
        ∧ tables' = set_table_entry tables k idx
                      (mkEntry (u16 t) (if r then 0 else -1) 0)).
Proof.
  induction ks as [|j rest IH]; cbn [alloc_scan]; intros H.
  - injection H as <- <-. left. repeat split. constructor.
  - inv_obind H.
    destruct (u (vget (vget tables j) (a mod vsize (vget tables j))) =? 0) eqn:Eu.
    + inv_obind H. injection H as <- <-. right.
      exists [], rest, (a mod vsize (vget tables j)), a0.
      apply Z.eqb_eq in Eu. unfold alloc_slot. rewrite E. cbn [obind].
      repeat split; first [done | constructor].
    + apply Z.eqb_neq in Eu.
      assert (Hj : ∃ idx, alloc_slot PC g delta tables j = Ok idx
                          ∧ u (vget (vget tables j) idx) ≠ 0).
      { eexists. unfold alloc_slot. rewrite E. cbn [obind]. split; [reflexivity|exact Eu]. }
      destruct (IH H) as [(-> & -> & Hall) | (before & after & idx & t & -> & Hall & Hrest)].
      * left. repeat split. by constructor.
      * right. exists (j :: before), after, idx, t. split; [reflexivity|].
        split; [by constructor | exact Hrest].
Qed.


(** Training the provider's slot hashes the history with the rollback
    distance skipped, which needs that many bits to be there. *)
Lemma update_hit_needs_history s seq_no piece PC r nextPC :
  let st := spec_lookup (speculative_states s) (get_unique_inst_id seq_no piece) in
  provider_table st ≠ -1 →
  vsize (ghr s) < delta_of s st →
  update s seq_no piece PC r r nextPC = Undefined.
Proof.
  intros st Hp Hd. unfold update. fold st.
  rewrite eqb_reflx. cbn [negb obind].
  destruct (provider_table st =? -1) eqn:E; [apply Z.eqb_eq in E; lia|].
  cbn [negb]. unfold update_provider. rewrite compute_hash_undefined by exact Hd.
  reflexivity.
Qed.

Lemma predict_junk junk s seq_no piece PC :
  u8 junk = 0 → predict junk s seq_no piece PC = predict 0 s seq_no piece PC.
Proof.
  intros Hj. rewrite !predict_spec.
  rewrite (checkpoint_along_junk _ junk), (checkpoint_along_junk _ 0), Hj.
  reflexivity.
Qed.


Lemma predict_result junk s seq_no piece PC b s1 :
  predict junk s seq_no piece PC = Ok (b, s1) →
  b = final_pred (checkpoint_along (table_order s) junk s PC)
  ∧ s1 = set_specs s (<[get_unique_inst_id seq_no piece :=
                          checkpoint_along (table_order s) junk s PC]>
                        (speculative_states s)).
Proof. rewrite predict_spec. apply Ok_pair_inj. Qed.


(** [!resolveDir == predDir] holds exactly on a misprediction. *)
Lemma misprediction_test (r p : bool) : eqb (negb r) p = true ↔ r ≠ p.
Proof. destruct r, p; cbn; split; congruence. Qed.

(** On a misprediction with a tagged provider, the tables after the
    provider are scanned in ascending order and the first slot with
    usefulness 0 gets the new tag, a weak counter towards the resolved
    direction and usefulness 0; with no such slot nothing is planted. *)
Lemma allocation_on_tagged_misprediction s st PC g delta r p tables ws :
  r ≠ p →
  update_provider s st PC g delta r p = Ok (tables, ws) →
  ∃ idx0, alloc_slot PC g delta (tagged_tables s) (provider_table st) = Ok idx0 ∧
    let trained := trained_tables s st idx0 r p in
    let full j := ∃ idx, alloc_slot PC g delta trained j = Ok idx
                         ∧ u (vget (vget trained j) idx) ≠ 0 in
    (tables = trained ∧ Forall full (longer_tables (provider_table st)))
    ∨ (∃ before k after idx t,
          longer_tables (provider_table st) = before ++ k :: after
          ∧ Forall full before
          ∧ alloc_slot PC g delta trained k = Ok idx
          ∧ u (vget (vget trained k) idx) = 0
          ∧ compute_hash PC g (hist_len (vget TAGGED_CONFIGS k)) delta
                         (tag_bits (vget TAGGED_CONFIGS k)) = Ok t
          ∧ tables = set_table_entry trained k idx
                       (mkEntry (u16 t) (if r then 0 else -1) 0)).
Proof.
  intros Hne%misprediction_test. unfold update_provider. rewrite Hne. intros H.
  inv_obind H. exists (a mod vsize (vget (tagged_tables s) (provider_table st))).
  split; [unfold alloc_slot; by rewrite E|].
  inv_obind H. destruct a0 as [k tables1].
  assert (Ht : tables = tables1) by (destruct (_ <=? _); by injection H as <- _).
  subst tables1. fold (longer_tables (provider_table st)) in E0.
  fold (trained_tables s st (a mod vsize (vget (tagged_tables s) (provider_table st))) r p)
    in E0.
  apply alloc_scan_first_free in E0
    as [(_ & -> & Hall) | (before & after & idx & t & Hks & Hall & Hrest)].
  - left. by split.
  - right. exists before, k, after, idx, t. by split.
Qed.

End RLFacts.

(** * The snapshot predictor: [predict] *)

Module TageFacts.
Import TageGood.

Lemma find_alt_spec s PC js alt :
  find_alt s PC js alt
  = match List.filter (hit s PC) js with
    | [] => alt
    | a :: _ => taken_bit (entry_at (tagged_tables s) (ghr s) PC a)
    end.
Proof.
  induction js as [|j rest IH]; [reflexivity|].
  cbn [find_alt List.filter]. fold (hit s PC j).
  destruct (hit s PC j); [reflexivity | exact IH].
Qed.

Lemma find_provider_spec s PC l st :
  counts_down l →
  find_provider s PC l st
  = match List.filter (hit s PC) l with
    | [] => st
    | p :: rest =>
        mkSpec (ghr_snapshot st) p
               match rest with
               | [] => altpred st
               | a :: _ => taken_bit (entry_at (tagged_tables s) (ghr s) PC a)
               end
               (taken_bit (entry_at (tagged_tables s) (ghr s) PC p))
    end.
Proof.
  induction l as [|i rest IH]; intros Hl; [reflexivity|].
  destruct Hl as [Hi Hrest].
  cbn [find_provider List.filter]. fold (hit s PC i).
  destruct (hit s PC i); [|exact (IH Hrest)].
  rewrite find_alt_spec, Hi.
  destruct (List.filter (hit s PC) rest); reflexivity.
Qed.

Lemma longest_first_counts_down :
  down_from NUM_TAGGED_TABLES = longest_first ∧ counts_down longest_first.
Proof. cbn. repeat split. Qed.

Lemma snap_predict_spec s seq_no piece PC :
  predict s seq_no piece PC
  = (final_pred (checkpoint_along longest_first s PC),
     set_specs s (<[get_unique_inst_id seq_no piece := checkpoint_along longest_first s PC]>
                    (speculative_states s))).
Proof.
  unfold predict. destruct longest_first_counts_down as [-> Hc].
  rewrite (find_provider_spec _ _ _ _ Hc). unfold checkpoint_along.
  destruct (List.filter (hit s PC) longest_first) as [|p rest] eqn:E; [reflexivity|].
  unfold use_alt. cbn [provider_table altpred final_pred ghr_snapshot].
  assert (Hp : (p =? -1) = false).
  { assert (Hin : In p (List.filter (hit s PC) longest_first)) by (rewrite E; by left).
    apply filter_In in Hin as [Hin _]. apply Z.eqb_neq. cbn in Hin. lia. }
  rewrite Hp.
  fold (weak_and_alt_trusted s (entry_at (tagged_tables s) (ghr s) PC p)).
  destruct (weak_and_alt_trusted s _); reflexivity.
Qed.

(** The rollback of the snapshot predictor replaces the register by the
    identity's snapshot followed by the resolved bit. *)
Lemma snap_rollback s seq_no piece PC r p nextPC :
  r ≠ p →
  ghr (update s seq_no piece PC r p nextPC)
  = push_history
      (ghr_snapshot (spec_lookup (speculative_states s) (get_unique_inst_id seq_no piece))) r.
Proof.
  intros Hne. unfold update.
  assert (Hp : negb (eqb p r) = true) by (destruct p, r; done). rewrite Hp.
  destruct (negb (provider_table _ =? -1)); destruct (RESET_PERIOD <=? _); reflexivity.
Qed.

(** Two branches in flight: A (identity 1) and B (identity 2) each push
    a taken bit, then A resolves not taken.  The register afterwards
    holds A's pushed bit and the resolved bit; B's bit is gone. *)
Lemma snap_rollback_drops_later_bits :
  ghr (run cold [CPredict 1 0 4096; CHistoryUpdate 1 0 4096 true 4100;
                 CPredict 2 0 4200; CHistoryUpdate 2 0 4200 true 4204])
  = [true; true]
  ∧ ghr (run cold [CPredict 1 0 4096; CHistoryUpdate 1 0 4096 true 4100;
                   CPredict 2 0 4200; CHistoryUpdate 2 0 4200 true 4204;
                   CUpdate 1 0 4096 false true 4100])
    = [true; false].
Proof. vm_compute. split; reflexivity. Qed.

End TageFacts.

(** * Saturation *)

Lemma i8_small z : -128 ≤ z < 128 → i8 z = z.
Proof. intros Hz. unfold i8. rewrite Z.mod_small; lia. Qed.

Lemma ctr_step_ok d c : ctr_ok c → ctr_ok (ctr_step d c).
Proof.
  unfold ctr_ok, ctr_step. intros Hc.
  change (Z.shiftl 1 (TAGE_PRED_BITS - 1) - 1) with 3.
  change (Z.shiftl (-1) (TAGE_PRED_BITS - 1)) with (-4).
  destruct d; rewrite i8_small; lia.
Qed.

Lemma u_step_ok a r p x : u_ok x → u_ok (u_step a r p x).
Proof.
  unfold u_ok, u_step. intros Hx.
  change (Z.shiftl 1 TAGE_USEFUL_BITS - 1) with 3.
  destruct (negb (eqb a p)); [|exact Hx].
  destruct (eqb r p); rewrite u8_small; lia.
Qed.

Lemma base_step_ok d c : base_ok c → base_ok (base_step d c).
Proof.
  unfold base_ok, base_step. intros Hc.
  change (Z.shiftl 1 (BASE_PRED_BITS - 1) - 1) with 1.
  change (Z.shiftl (-1) (BASE_PRED_BITS - 1)) with (-2).
  destruct d; rewrite i8_small; lia.
Qed.

Lemma meta_step_ok a r p m : meta_ok m → meta_ok (meta_step a r p m).
Proof.
  unfold meta_ok, meta_step. intros Hm.
  destruct (eqb a r && negb (eqb p r)); [rewrite u8_small; lia|].
  destruct (negb (eqb a r) && eqb p r); [rewrite u8_small; lia | exact Hm].
Qed.

Lemma meta_if_ok (b : bool) a r p m :
  meta_ok m → meta_ok (if b then meta_step a r p m else m).
Proof. intros Hm. destruct b; [by apply meta_step_ok | exact Hm]. Qed.

Lemma ctr_step_up c : ctr_ok c → ctr_step true c = Z.min (c + 1) 3.
Proof.
  unfold ctr_ok, ctr_step. intros Hc.
  change (Z.shiftl 1 (TAGE_PRED_BITS - 1) - 1) with 3. rewrite i8_small; lia.
Qed.

Lemma ctr_step_down c : ctr_ok c → ctr_step false c = Z.max (c - 1) (-4).
Proof.
  unfold ctr_ok, ctr_step. intros Hc.
  change (Z.shiftl (-1) (TAGE_PRED_BITS - 1)) with (-4). rewrite i8_small; lia.
Qed.

Lemma ctr_iter_ok n d c : ctr_ok c → ctr_ok (Nat.iter n (ctr_step d) c).
Proof. intros Hc. induction n as [|n IH]; [exact Hc|]. cbn. by apply ctr_step_ok. Qed.

Lemma ctr_iter_up n c :
  ctr_ok c → Nat.iter n (ctr_step true) c = Z.min (c + Z.of_nat n) 3.
Proof.
  intros Hc. induction n as [|n IH].
  - cbn. unfold ctr_ok in Hc. lia.
  - rewrite Nat.iter_succ. rewrite ctr_step_up by (by apply ctr_iter_ok). rewrite IH. lia.
Qed.

Lemma ctr_iter_down n c :
  ctr_ok c → Nat.iter n (ctr_step false) c = Z.max (c - Z.of_nat n) (-4).
Proof.
  intros Hc. induction n as [|n IH].
  - cbn. unfold ctr_ok in Hc. lia.
  - rewrite Nat.iter_succ. rewrite ctr_step_down by (by apply ctr_iter_ok). rewrite IH. lia.
Qed.

Lemma base_step_up c : base_ok c → base_step true c = Z.min (c + 1) 1.
Proof.
  unfold base_ok, base_step. intros Hc.
  change (Z.shiftl 1 (BASE_PRED_BITS - 1) - 1) with 1. rewrite i8_small; lia.
Qed.

Lemma base_step_down c : base_ok c → base_step false c = Z.max (c - 1) (-2).
Proof.
  unfold base_ok, base_step. intros Hc.
  change (Z.shiftl (-1) (BASE_PRED_BITS - 1)) with (-2). rewrite i8_small; lia.
Qed.

Lemma base_iter_ok n d c : base_ok c → base_ok (Nat.iter n (base_step d) c).
Proof. intros Hc. induction n as [|n IH]; [exact Hc|]. cbn. by apply base_step_ok. Qed.

Lemma base_iter_up n c :
  base_ok c → Nat.iter n (base_step true) c = Z.min (c + Z.of_nat n) 1.
Proof.
  intros Hc. induction n as [|n IH].
  - cbn. unfold base_ok in Hc. lia.
  - rewrite Nat.iter_succ. rewrite base_step_up by (by apply base_iter_ok). rewrite IH. lia.
Qed.

Lemma base_iter_down n c :
  base_ok c → Nat.iter n (base_step false) c = Z.max (c - Z.of_nat n) (-2).
Proof.
  intros Hc. induction n as [|n IH].
  - cbn. unfold base_ok in Hc. lia.
  - rewrite Nat.iter_succ. rewrite base_step_down by (by apply base_iter_ok). rewrite IH. lia.
Qed.

(** ** Tables of counters *)

Lemma vget_ok {A} `{Inhabited A} (P : A → Prop) (l : list A) i :
  P inhabitant → Forall P l → P (vget l i).
Proof.
  intros Hd Hl. unfold vget. rewrite list_lookup_total_alt.
  destruct (l !! Z.to_nat i) eqn:E; [|exact Hd].
  cbn. rewrite Forall_forall in Hl. apply Hl. by eapply list_elem_of_lookup_2.
Qed.

Lemma vset_ok {A} (P : A → Prop) (l : list A) i x :
  Forall P l → P x → Forall P (vset l i x).
Proof. intros. unfold vset. by apply Forall_insert. Qed.

Lemma entry_ok_default : entry_ok inhabitant.
Proof. cbn. unfold entry_ok, ctr_ok, u_ok. cbn. lia. Qed.

Lemma set_table_entry_ok tables i idx e :
  Forall (Forall entry_ok) tables → entry_ok e →
  Forall (Forall entry_ok) (set_table_entry tables i idx e).
Proof.
  intros Ht He. unfold set_table_entry. apply vset_ok; [exact Ht|].
  apply vset_ok; [|exact He]. apply (vget_ok (Forall entry_ok)); [constructor | exact Ht].
Qed.

Lemma table_entry_ok tables i idx :
  Forall (Forall entry_ok) tables → entry_ok (vget (vget tables i) idx).
Proof.
  intros Ht. apply (vget_ok entry_ok); [apply entry_ok_default|].
  apply (vget_ok (Forall entry_ok)); [constructor | exact Ht].
Qed.

Lemma age_tables_ok tables :
  Forall (Forall entry_ok) tables → Forall (Forall entry_ok) (age_tables tables).
Proof.
  intros Ht. unfold age_tables. apply Forall_map.
  eapply Forall_impl; [exact Ht|]. intros t Hrow. apply Forall_map.
  eapply Forall_impl; [exact Hrow|]. intros e [Hc Hu].
  split; [exact Hc|]. cbn. unfold u_ok in *.
  rewrite Z.shiftr_div_pow2 by lia. change (2 ^ 1) with 2.
  split; [apply Z.div_pos; lia | apply Z.div_le_upper_bound; lia].
Qed.

Lemma trained_entry_ok e a r p :
  entry_ok e →
  entry_ok (set_u (set_ctr e (ctr_step r (ctr e))) (u_step a r p (u (set_ctr e (ctr_step r (ctr e)))))).
Proof.
  intros [Hc Hu]. split; cbn; [by apply ctr_step_ok | by apply u_step_ok].
Qed.

Lemma planted_entry_ok t (r : bool) : entry_ok (mkEntry t (if r then 0 else -1) 0).
Proof. unfold entry_ok, ctr_ok, u_ok. cbn. destruct r; lia. Qed.

Lemma replicate_ok {A} (P : A → Prop) n x : P x → Forall P (replicate n x).
Proof. intros Hx. apply Forall_forall. by intros y ->%elem_of_replicate_inv. Qed.

(** ** Sizes *)

Lemma vsize_vset_nat {A} (l : list A) (i : nat) x : vsize (<[i := x]> l) = vsize l.
Proof. unfold vsize. by rewrite length_insert. Qed.

Lemma vsize_vset {A} (l : list A) i x : vsize (vset l i x) = vsize l.
Proof. unfold vsize, vset. by rewrite length_insert. Qed.

Lemma map_vsize_vset {A} `{Inhabited (list A)} (ls : list (list A)) i l :
  vsize l = vsize (vget ls i) → map vsize (vset ls i l) = map vsize ls.
Proof.
  intros Hl. unfold vset, vget in *.
  destruct (decide (Z.to_nat i < length ls)%nat) as [Hi|Hi].
  - change (map vsize) with (fmap (M:=list) (@vsize A)).
    rewrite list_fmap_insert. apply list_insert_id.
    rewrite list_lookup_fmap. destruct (lookup_lt_is_Some_2 ls _ Hi) as [l0 Hl0].
    rewrite Hl0. cbn. rewrite Hl. f_equal. f_equal.
    symmetry. by apply list_lookup_total_correct.
  - by rewrite list_insert_ge by lia.
Qed.

Lemma set_table_entry_sizes tables i idx e :
  table_sizes tables → table_sizes (set_table_entry tables i idx e).
Proof.
  unfold table_sizes, set_table_entry. intros Ht.
  rewrite map_vsize_vset; [exact Ht|]. apply vsize_vset.
Qed.

Lemma age_tables_sizes tables : table_sizes tables → table_sizes (age_tables tables).
Proof.
  unfold table_sizes, age_tables. intros <-. rewrite map_map.
  apply map_ext. intros t. unfold vsize. by rewrite length_map.
Qed.

Lemma cold_base_size :
  vsize (replicate (Z.to_nat (Z.shiftl 1 BASE_INDEX_BITS)) (0 : Z))
  = Z.shiftl 1 BASE_INDEX_BITS.
Proof. unfold vsize. rewrite length_replicate. apply Z2Nat.id. vm_compute. discriminate. Qed.

Lemma cold_table_sizes :
  table_sizes (map (λ cfg, replicate (Z.to_nat (entries cfg)) (mkEntry 0 0 0)) TAGGED_CONFIGS).
Proof. unfold table_sizes. reflexivity. Qed.

Module RLRange.
Import RLTage RLFacts.

Lemma cold_in_range : counters_in_range cold.
Proof.
  unfold counters_in_range, cold. cbn [tagged_tables base_table use_alt_on_na].
  split; [|split].
  - apply Forall_map, Forall_forall. intros cfg _. cbn beta.
    apply replicate_ok. apply entry_ok_default.
  - apply replicate_ok. unfold base_ok. lia.
  - unfold meta_ok, USE_ALT_THRESHOLD. lia.
Qed.

Lemma alloc_scan_ok ks PC g delta r tables k tables' :
  Forall (Forall entry_ok) tables →
  alloc_scan ks PC g delta r tables = Ok (k, tables') →
  Forall (Forall entry_ok) tables'.
Proof.
  intros Ht. induction ks as [|j rest IH]; cbn [alloc_scan]; intros H.
  - by injection H as _ <-.
  - inv_obind H. destruct (u _ =? 0); [|by apply IH].
    inv_obind H. injection H as _ <-.
    apply set_table_entry_ok; [exact Ht | apply planted_entry_ok].
Qed.

Lemma update_provider_ok s st PC g delta r p tables ws :
  Forall (Forall entry_ok) (tagged_tables s) →
  update_provider s st PC g delta r p = Ok (tables, ws) →
  Forall (Forall entry_ok) tables.
Proof.
  intros Ht. unfold update_provider. intros H. inv_obind H.
  match type of H with
  | context [set_table_entry ?t ?i ?idx ?e] =>
      assert (Ht1 : Forall (Forall entry_ok) (set_table_entry t i idx e))
  end.
  { apply set_table_entry_ok; [exact Ht|].
    apply trained_entry_ok. by apply table_entry_ok. }
  destruct (eqb (negb r) p).
  - inv_obind H. destruct a0 as [k tables1].
    apply alloc_scan_ok in E0; [|exact Ht1].
    destruct (_ <=? _); by injection H as <- _.
  - by injection H as <- _.
Qed.

Lemma update_in_range s seq_no piece PC r p nextPC s' :
  counters_in_range s →
  update s seq_no piece PC r p nextPC = Ok s' →
  counters_in_range s'.
Proof.
  intros (Ht & Hb & Hm). unfold update. intros H.
  inv_obind H. inv_obind H. destruct a0 as [base [tables ws]].
  assert (Hr : Forall (Forall entry_ok) tables ∧ Forall base_ok base).
  { destruct (negb (provider_table _ =? -1)).
    - inv_obind E0. destruct a0 as [t w]. injection E0 as <- <- <-.
      split; [|exact Hb]. by eapply update_provider_ok.
    - injection E0 as <- <- <-. split; [exact Ht|].
      apply vset_ok; [exact Hb|]. apply base_step_ok.
      apply (vget_ok base_ok); [unfold base_ok; cbn; lia | exact Hb]. }
  destruct Hr as [Ht' Hb'].
  assert (Hm' : meta_ok (if negb (provider_table
                                    (spec_lookup (speculative_states s)
                                       (get_unique_inst_id seq_no piece)) =? -1)
                         then meta_step
                                (altpred (spec_lookup (speculative_states s)
                                            (get_unique_inst_id seq_no piece)))
                                r p (use_alt_on_na s)
                         else use_alt_on_na s)).
  { by apply meta_if_ok. }
  destruct (RESET_PERIOD <=? _); injection H as <-;
    (split; [|split]); cbn; try done.
  by apply age_tables_ok.
Qed.

Lemma step_in_range s c s' :
  counters_in_range s → step s c = Ok s' → counters_in_range s'.
Proof.
  intros Hs. destruct c; cbn [step]; intros H.
  - rewrite predict_spec in H. cbn in H. injection H as <-. exact Hs.
  - injection H as <-. exact Hs.
  - by eapply update_in_range.
Qed.

Lemma run_in_range cs : ∀ s s',
  counters_in_range s → run s cs = Ok s' → counters_in_range s'.
Proof.
  induction cs as [|c cs IH]; intros s s' Hs H; cbn [run] in H.
  - by injection H as <-.
  - inv_obind H. eapply IH; [|exact H]. by eapply step_in_range.
Qed.

(** *** Sizes are kept *)

Lemma cold_shape : shape cold.
Proof.
  unfold shape, cold. cbn [base_table tagged_tables weights ghr].
  split; [apply cold_base_size|]. split; [apply cold_table_sizes|].
  split; [reflexivity|]. unfold vsize, MAX_HISTORY, MAX_HISTORY_BUFFER. cbn. lia.
Qed.

Lemma alloc_scan_sizes ks PC g delta r tables k tables' :
  table_sizes tables →
  alloc_scan ks PC g delta r tables = Ok (k, tables') →
  table_sizes tables'.
Proof.
  intros Ht. induction ks as [|j rest IH]; cbn [alloc_scan]; intros H.
  - by injection H as _ <-.
  - inv_obind H. destruct (u _ =? 0); [|by apply IH].
    inv_obind H. injection H as _ <-. by apply set_table_entry_sizes.
Qed.

Lemma rl_row_size g delta target w : vsize (rl_row g delta target w) = vsize w.
Proof.
  unfold rl_row. rewrite vsize_vset_nat.
  generalize (seq 0 (Nat.min (Z.to_nat MAX_HISTORY) (length g))). intros js.
  revert w. induction js as [|j js IH]; intros w; cbn [fold_left]; [reflexivity|].
  rewrite IH. unfold vsize. by rewrite length_insert.
Qed.

Lemma rl_update_sizes g delta k ws :
  map vsize (rl_update g delta k ws) = map vsize ws.
Proof.
  unfold rl_update.
  assert (H : ∀ (f : nat → list Z → list Z),
             (∀ i w, vsize (f i w) = vsize w) → map vsize (imap f ws) = map vsize ws).
  { induction ws as [|w ws IH]; intros f Hf; cbn; [reflexivity|].
    rewrite Hf. f_equal. apply IH. intros i w'. apply Hf. }
  apply H. intros i w. apply rl_row_size.
Qed.

Lemma update_provider_sizes s st PC g delta r p tables ws :
  table_sizes (tagged_tables s) →
  update_provider s st PC g delta r p = Ok (tables, ws) →
  table_sizes tables ∧ map vsize ws = map vsize (weights s).
Proof.
  intros Ht. unfold update_provider. intros H. inv_obind H.
  match type of H with
  | context [set_table_entry ?t ?i ?idx ?e] =>
      assert (Ht1 : table_sizes (set_table_entry t i idx e))
        by (by apply set_table_entry_sizes)
  end.
  destruct (eqb (negb r) p).
  - inv_obind H. destruct a0 as [k tables1].
    apply alloc_scan_sizes in E0; [|exact Ht1].
    destruct (_ <=? _); injection H as <- <-; split; try done.
    apply rl_update_sizes.
  - by injection H as <- <-.
Qed.

Lemma update_shape s seq_no piece PC r p nextPC s' :
  shape s → update s seq_no piece PC r p nextPC = Ok s' → shape s'.
Proof.
  intros (Hb & Ht & Hw & Hg). unfold update. intros H.
  inv_obind H. inv_obind H. destruct a0 as [base [tables ws]].
  assert (Hg' : vsize a = vsize (ghr s)).
  { destruct (negb (eqb p r)); [by eapply ghr_write_size | by injection E as <-]. }
  assert (Hr : vsize base = vsize (base_table s) ∧ table_sizes tables
               ∧ map vsize ws = map vsize (weights s)).
  { destruct (negb (provider_table _ =? -1)).
    - inv_obind E0. destruct a0 as [t w]. injection E0 as <- <- <-.
      split; [reflexivity|]. by eapply update_provider_sizes.
    - injection E0 as <- <- <-. split; [apply vsize_vset | by split]. }
  destruct Hr as (Hb' & Ht' & Hw').
  destruct (RESET_PERIOD <=? _); injection H as <-; unfold shape; cbn;
    rewrite Hb', Hw', Hg'; (split; [exact Hb|]); (split; [|by split]); try done.
  by apply age_tables_sizes.
Qed.

Lemma step_shape s c s' : shape s → step s c = Ok s' → shape s'.
Proof.
  intros Hs. destruct c; cbn [step]; intros H.
  - rewrite predict_spec in H. cbn in H. injection H as <-. exact Hs.
  - injection H as <-. destruct Hs as (Hb & Ht & Hw & Hg).
    unfold shape. cbn. split; [exact Hb|]. split; [exact Ht|]. split; [exact Hw|].
    by apply push_history_cap.
  - by eapply update_shape.
Qed.

Lemma run_shape cs : ∀ s s', shape s → run s cs = Ok s' → shape s'.
Proof.
  induction cs as [|c cs IH]; intros s s' Hs H; cbn [run] in H.
  - by injection H as <-.
  - inv_obind H. eapply IH; [|exact H]. by eapply step_shape.
Qed.

(** With these sizes every table is non-empty, so an index reduced
    modulo the size of its table is inside the table. *)
Lemma shape_tables_nonempty s (i : nat) :
  shape s → (i < Z.to_nat NUM_TAGGED_TABLES)%nat → 0 < vsize (tagged_tables s !!! i).
Proof.
  intros (_ & Ht & _) Hi. unfold table_sizes in Ht.
  assert (Hl : map vsize (tagged_tables s) !! i = map entries TAGGED_CONFIGS !! i)
    by (by rewrite Ht).
  change (map vsize) with (fmap (M:=list) (@vsize TaggedEntry)) in Hl.
  rewrite list_lookup_fmap in Hl.
  destruct (tagged_tables s !! i) as [t|] eqn:E.
  - rewrite (list_lookup_total_correct _ _ _ E). cbn in Hl.
    assert (Hpos : Forall (λ n, 0 < n) (map entries TAGGED_CONFIGS))
      by (repeat constructor).
    rewrite Forall_forall in Hpos. apply Hpos.
    eapply list_elem_of_lookup_2. symmetry. exact Hl.
  - exfalso. cbn in Hl. symmetry in Hl. apply lookup_ge_None in Hl.
    change (Z.to_nat NUM_TAGGED_TABLES) with 12%nat in Hi.
    cbn [length] in Hl. lia.
Qed.

Lemma index_in_table (h size : Z) : 0 < size → 0 ≤ h mod size < size.
Proof. intros. by apply Z.mod_pos_bound. Qed.

End RLRange.

Module TageRange.
Import TageGood TageFacts.

Lemma snap_cold_in_range : counters_in_range cold.
Proof.
  unfold counters_in_range, cold. cbn [tagged_tables base_table use_alt_on_na].
  split; [|split].
  - apply Forall_map, Forall_forall. intros cfg _. cbn beta.
    apply replicate_ok. apply entry_ok_default.
  - apply replicate_ok. unfold base_ok. lia.
  - unfold meta_ok. lia.
Qed.

Lemma snap_alloc_scan_ok ks PC snap r tables :
  Forall (Forall entry_ok) tables →
  Forall (Forall entry_ok) (alloc_scan ks PC snap r tables).
Proof.
  intros Ht. induction ks as [|j rest IH]; cbn [alloc_scan]; [exact Ht|].
  destruct (u _ =? 0); [|exact IH].
  apply set_table_entry_ok; [exact Ht | apply planted_entry_ok].
Qed.

Lemma snap_update_provider_ok s st PC r p :
  Forall (Forall entry_ok) (tagged_tables s) →
  Forall (Forall entry_ok) (update_provider s st PC r p).
Proof.
  intros Ht. unfold update_provider.
  match goal with
  | |- context [set_table_entry ?t ?i ?idx ?e] =>
      assert (Ht1 : Forall (Forall entry_ok) (set_table_entry t i idx e))
  end.
  { apply set_table_entry_ok; [exact Ht|].
    apply trained_entry_ok. by apply table_entry_ok. }
  destruct (eqb (negb r) p); [by apply snap_alloc_scan_ok | exact Ht1].
Qed.

Lemma snap_update_in_range s seq_no piece PC r p nextPC :
  counters_in_range s → counters_in_range (update s seq_no piece PC r p nextPC).
Proof.
  intros (Ht & Hb & Hm). unfold update.
  set (st := spec_lookup _ _).
  assert (Hr : ∀ base tables,
             (if negb (provider_table st =? -1)
              then (base_table s, update_provider s st PC r p)
              else (vset (base_table s) (PC mod vsize (base_table s))
                         (base_step r (vget (base_table s) (PC mod vsize (base_table s)))),
                    tagged_tables s)) = (base, tables) →
             Forall (Forall entry_ok) tables ∧ Forall base_ok base).
  { intros base tables. destruct (negb _); intros [= <- <-].
    - split; [by apply snap_update_provider_ok | exact Hb].
    - split; [exact Ht|]. apply vset_ok; [exact Hb|]. apply base_step_ok.
      apply (vget_ok base_ok); [unfold base_ok; cbn; lia | exact Hb]. }
  destruct (if negb (provider_table st =? -1) then _ else _) as [base tables].
  destruct (Hr base tables eq_refl) as [Ht' Hb'].
  assert (Hm' : meta_ok (if negb (provider_table st =? -1)
                         then meta_step (altpred st) r p (use_alt_on_na s)
                         else use_alt_on_na s)) by (by apply meta_if_ok).
  destruct (RESET_PERIOD <=? _); (split; [|split]); cbn; try done.
  by apply age_tables_ok.
Qed.

Lemma snap_step_in_range s c : counters_in_range s → counters_in_range (step s c).
Proof.
  intros Hs. destruct c; cbn [step].
  - rewrite snap_predict_spec. exact Hs.
  - exact Hs.
  - by apply snap_update_in_range.
Qed.

Lemma snap_run_in_range cs : ∀ s, counters_in_range s → counters_in_range (run s cs).
Proof.
  unfold run. induction cs as [|c cs IH]; intros s Hs; cbn [fold_left]; [exact Hs|].
  by apply IH, snap_step_in_range.
Qed.

(** *** Sizes are kept *)

Lemma snap_cold_shape : shape cold.
Proof. split; [apply cold_base_size | apply cold_table_sizes]. Qed.

Lemma snap_alloc_scan_sizes ks PC snap r tables :
  table_sizes tables → table_sizes (alloc_scan ks PC snap r tables).
Proof.
  intros Ht. induction ks as [|j rest IH]; cbn [alloc_scan]; [exact Ht|].
  destruct (u _ =? 0); [by apply set_table_entry_sizes | exact IH].
Qed.

Lemma snap_update_shape s seq_no piece PC r p nextPC :
  shape s → shape (update s seq_no piece PC r p nextPC).
Proof.
  intros (Hb & Ht). unfold update. set (st := spec_lookup _ _).
  assert (Hp : table_sizes (update_provider s st PC r p)).
  { unfold update_provider. destruct (eqb (negb r) p).
    - by apply snap_alloc_scan_sizes, set_table_entry_sizes.
    - by apply set_table_entry_sizes. }
  destruct (negb (provider_table st =? -1));
    destruct (RESET_PERIOD <=? _); split; cbn;
    rewrite ?vsize_vset; try done; by apply age_tables_sizes.
Qed.

Lemma snap_run_shape cs : ∀ s, shape s → shape (run s cs).
Proof.
  unfold run. induction cs as [|c cs IH]; intros s Hs; cbn [fold_left]; [exact Hs|].
  apply IH. destruct c; cbn [step].
  - rewrite snap_predict_spec. exact Hs.
  - exact Hs.
  - by apply snap_update_shape.
Qed.

End TageRange.

(** * The memory budget *)

Module Budget.
Import RLTage.

Lemma int_add_ok a b x : int_add a b = Ok x → x = a + b.
Proof. unfold int_add. destruct (_ && _); [|discriminate]. by intros [= <-]. Qed.

Lemma int_mul_ok a b x : int_mul a b = Ok x → x = a * b.
Proof. unfold int_mul. destruct (_ && _); [|discriminate]. by intros [= <-]. Qed.

Lemma int_shl1_ok n x : int_shl1 n = Ok x → x = Z.shiftl 1 n.
Proof. unfold int_shl1. destruct (_ && _); [|discriminate]. by intros [= <-]. Qed.

(** When the [int] computation of a table's bits is defined, it gives
    the product in words. *)
Lemma table_bits_spec c cfg x : table_bits c cfg = Ok x → x = table_cost c cfg.
Proof.
  unfold table_bits, table_cost, entries. intros H.
  destruct (int_shl1 (index_bits cfg)) as [e| |] eqn:E1; cbn [obind] in H; try discriminate.
  destruct (int_add (tag_bits cfg) (c_tage_pred_bits c)) as [w1| |] eqn:E2;
    cbn [obind] in H; try discriminate.
  destruct (int_add w1 (c_tage_useful_bits c)) as [w2| |] eqn:E3;
    cbn [obind] in H; try discriminate.
  apply int_shl1_ok in E1. apply int_add_ok in E2. apply int_add_ok in E3.
  apply int_mul_ok in H. by subst.
Qed.

Lemma u64_add_l a b : u64 (u64 a + b) = u64 (a + b).
Proof. unfold u64. apply Zplus_mod_idemp_l. Qed.

Lemma u64_range a : 0 ≤ u64 a < 2 ^ 64.
Proof. unfold u64. apply Z.mod_pos_bound. lia. Qed.

Lemma fold_table_bits_undefined c l :
  fold_left (λ acc cfg, size ←! acc; bits ←! table_bits c cfg; Ok (u64 (size + bits)))
            l Undefined = Undefined.
Proof. induction l as [|cfg l IH]; cbn [fold_left obind]; [reflexivity|exact IH]. Qed.

Lemma fold_table_bits c l : ∀ a t,
  fold_left (λ acc cfg, size ←! acc; bits ←! table_bits c cfg; Ok (u64 (size + bits)))
            l (Ok (u64 a)) = Ok t →
  t = u64 (a + foldr (λ cfg acc, table_cost c cfg + acc) 0 l).
Proof.
  induction l as [|cfg l IH]; intros a t H; cbn [fold_left foldr obind] in *.
  - injection H as <-. by rewrite Z.add_0_r.
  - destruct (table_bits c cfg) as [x| |] eqn:E; cbn [obind] in H.
    + apply table_bits_spec in E. subst x. rewrite u64_add_l in H.
      rewrite (IH _ _ H). f_equal. lia.
    + by rewrite fold_table_bits_undefined in H.
    + exfalso. revert E. unfold table_bits, int_shl1, int_add, int_mul.
      repeat (destruct (_ && _); cbn [obind]; try discriminate).
Qed.

(** When every [int] term of [check_memory_budget] is defined, the total
    is the bit cost in words, in the 64 bits of [size_t]. *)
Lemma total_bits_spec c t : total_bits c = Ok t → t = u64 (bit_cost c).
Proof.
  unfold total_bits, bit_cost, tagged_bit_cost. intros H.
  destruct (int_add (c_max_history c) (c_max_history_buffer c)) as [h| |] eqn:E1;
    cbn [obind] in H; try discriminate.
  destruct (int_shl1 (c_base_index_bits c)) as [b0| |] eqn:E2;
    cbn [obind] in H; try discriminate.
  destruct (int_mul b0 (c_base_pred_bits c)) as [b| |] eqn:E3;
    cbn [obind] in H; try discriminate.
  destruct (int_add (c_max_history c) 1) as [row| |] eqn:E4;
    cbn [obind] in H; try discriminate.
  destruct (int_mul (c_rl_weights_bits c) row) as [rl0| |] eqn:E5;
    cbn [obind] in H; try discriminate.
  destruct (int_mul rl0 (vsize (c_tables c))) as [rl| |] eqn:E6;
    cbn [obind] in H; try discriminate.
  cbv zeta in H. rewrite (u64_add_l (u64 h + b) rl) in H.
  apply fold_table_bits in H. rewrite H.
  apply int_add_ok in E1, E4. apply int_shl1_ok in E2.
  apply int_mul_ok in E3, E5, E6. subst.
  rewrite <- !Z.add_assoc. rewrite u64_add_l. f_equal. lia.
Qed.

Lemma total_bits_range c t : total_bits c = Ok t → 0 ≤ t < 2 ^ 64.
Proof. intros H. rewrite (total_bits_spec c t H). apply u64_range. Qed.

Lemma bits_to_bytes_spec size :
  bits_to_bytes size = size / 8 + (if size mod 2 =? 0 then 0 else 1).
Proof.
  unfold bits_to_bytes. rewrite Z.shiftr_div_pow2 by lia.
  change (Z.b2z (0 <? 7)) with (Z.ones 1). rewrite Z.land_ones by lia.
  reflexivity.
Qed.

Lemma bits_to_bytes_le size B : size ≤ 8 * B → bits_to_bytes size ≤ B.
Proof.
  intros Hs. rewrite bits_to_bytes_spec. change (2 ^ 3) with 8. change (2 ^ 1) with 2.
  destruct (size mod 2 =? 0) eqn:E.
  - apply Z.eqb_eq in E. Z.to_euclidean_division_equations. lia.
  - apply Z.eqb_neq in E. Z.to_euclidean_division_equations. lia.
Qed.

Lemma bits_to_bytes_gt size B : 8 * (B + 1) ≤ size → B < bits_to_bytes size.
Proof.
  intros Hs. rewrite bits_to_bytes_spec. change (2 ^ 3) with 8. change (2 ^ 1) with 2.
  destruct (size mod 2 =? 0); Z.to_euclidean_division_equations; lia.
Qed.

End Budget.

(** * Claims about the predictor with learned table order *)

Module RLClaims.
Import RLTage RLFacts.

(** C10.  The rollback distance that [update] uses is the 8-bit
    difference of the cycle counters.  After the identity's own
    [history_update], let other identities make any calls; the distance
    then equals the number of their [history_update] calls modulo 256:
    it is that number while fewer than 256 intervene, and differs from
    it from 256 on. *)
Theorem delta_cycles_mod_256 s seq_no piece PC taken nextPC cs s' :
  let id := get_unique_inst_id seq_no piece in
  Forall (λ c, call_id c ≠ id) cs →
  run (history_update s seq_no piece PC taken nextPC) cs = Ok s' →
  let delta := delta_of s' (spec_lookup (speculative_states s') id) in
  delta = pushes cs mod 256
  ∧ (pushes cs < 256 → delta = pushes cs)
  ∧ (256 ≤ pushes cs → delta ≠ pushes cs).
Proof.
  intros id Hall Hrun delta.
  assert (Hd : delta = pushes cs mod 256).
  { unfold delta, id. eapply delta_after_calls; eassumption. }
  pose proof (pushes_nonneg cs) as Hn.
  pose proof (Z.mod_pos_bound (pushes cs) 256 ltac:(lia)) as Hb.
  split; [exact Hd|]. split; intros Hlt.
  - rewrite Hd. apply Z.mod_small. lia.
  - lia.
Qed.

(** An instance: two pushes by other identities give distance 2. *)
Lemma delta_cycles_mod_256_witness :
  ∃ s', run (history_update cold 1 0 4096 true 4100)
            [CHistoryUpdate 2 0 4200 false 4204; CHistoryUpdate 3 0 4300 true 4400] = Ok s'
        ∧ delta_of s' (spec_lookup (speculative_states s') (get_unique_inst_id 1 0)) = 2.
Proof.
  exists (history_update (history_update (history_update cold 1 0 4096 true 4100)
                                         2 0 4200 false 4204) 3 0 4300 true 4400).
  split; [reflexivity|].
  refine (proj1 (proj2 (delta_cycles_mod_256 cold 1 0 4096 true 4100
            [CHistoryUpdate 2 0 4200 false 4204; CHistoryUpdate 3 0 4300 true 4400]
            _ _ eq_refl)) _).
  - repeat constructor; vm_compute; discriminate.
  - vm_compute. reflexivity.
Defined.

(** C1 (amended).  After the identity's own [history_update], let other
    identities make any calls, [delta] of them [history_update] calls,
    with [delta] below 256 and a register within its capacity.  Then
    [update] with a resolved direction different from the predicted one
    completes and rewrites exactly the bit at position
    [length - delta - 1]; every other bit of the register is the same
    after the call as before.  When none of the other identities resolved
    in between, that position is the bit the identity pushed, and the
    bits the others pushed after it are unchanged. *)
Theorem rollback_rewrites_own_bit s seq_no piece PC taken nextPC cs s1
        PC' resolveDir predDir nextPC' :
  let id := get_unique_inst_id seq_no piece in
  let delta := pushes cs in
  vsize (ghr s) ≤ MAX_HISTORY + MAX_HISTORY_BUFFER →
  Forall (λ c, call_id c ≠ id) cs →
  run (history_update s seq_no piece PC taken nextPC) cs = Ok s1 →
  delta < 256 →
  resolveDir ≠ predDir →
  ∃ s2,
    update s1 seq_no piece PC' resolveDir predDir nextPC' = Ok s2
    ∧ 0 ≤ vsize (ghr s1) - delta - 1 < vsize (ghr s1)
    ∧ ghr s2 = vset (ghr s1) (vsize (ghr s1) - delta - 1) resolveDir
    ∧ (Forall (λ c, is_update c = false) cs →
       ∃ older, ghr s1 = older ++ taken :: pushed_bits cs
                ∧ ghr s2 = older ++ resolveDir :: pushed_bits cs).
Proof.
  intros id delta Hcap Hall Hrun Hlt Hne.
  pose proof (pushes_nonneg cs) as Hn. fold delta in Hn.
  pose proof (vsize_nonneg (ghr s)) as Hs0.
  set (s0 := history_update s seq_no piece PC taken nextPC) in *.
  assert (Hsz0 : vsize (ghr s0)
                 = Z.min (vsize (ghr s) + 1) (MAX_HISTORY + MAX_HISTORY_BUFFER)).
  { subst s0. cbn [ghr history_update]. by apply push_history_size. }
  assert (Hsz1 : vsize (ghr s1)
                 = Z.min (vsize (ghr s0) + delta) (MAX_HISTORY + MAX_HISTORY_BUFFER)).
  { apply run_ghr_size; [lia | exact Hrun]. }
  assert (Hdelta : delta_of s1 (spec_lookup (speculative_states s1) id) = delta).
  { unfold id, s0 in *. erewrite delta_after_calls; [| exact Hall | exact Hrun].
    apply Z.mod_small. lia. }
  assert (Hidx : 0 ≤ vsize (ghr s1) - delta - 1 < vsize (ghr s1)).
  { unfold MAX_HISTORY, MAX_HISTORY_BUFFER in *. lia. }
  assert (Hw : ghr_write (ghr s1) (vsize (ghr s1) - delta - 1) resolveDir
               = Ok (vset (ghr s1) (vsize (ghr s1) - delta - 1) resolveDir)).
  { unfold ghr_write.
    assert (Hu : u64 (vsize (ghr s1) - delta - 1) = vsize (ghr s1) - delta - 1).
    { unfold u64. apply Z.mod_small. unfold MAX_HISTORY, MAX_HISTORY_BUFFER in *. lia. }
    rewrite Hu. destruct (_ <? _) eqn:E; [reflexivity | apply Z.ltb_ge in E; lia]. }
  assert (Hmis : negb (eqb predDir resolveDir) = true)
    by (destruct resolveDir, predDir; done).
  destruct (update_defined s1 seq_no piece PC' resolveDir predDir nextPC'
              (vset (ghr s1) (vsize (ghr s1) - delta - 1) resolveDir)) as [s2 Hup].
  { fold id. rewrite Hdelta, Hmis. exact Hw. }
  { fold id. rewrite Hdelta. unfold vset, vsize in *. rewrite length_insert. lia. }
  exists s2. split; [exact Hup|]. split; [exact Hidx|].
  apply update_inv in Hup as (_ & _ & Hg2). fold id in Hg2.
  rewrite Hdelta, Hmis, Hw in Hg2. injection Hg2 as Hg2.
  split; [by symmetry|].
  intros Hnoup.
  destruct (push_history_keeps (ghr s) [] taken) as [older0 Hp0]; [by cbn|].
  rewrite app_nil_r in Hp0. cbn [app] in Hp0.
  destruct (run_without_updates cs s0 s1 older0 [taken] Hnoup) as [older Hg1];
    [exact Hp0 | | exact Hrun |].
  { change (vsize [taken]) with 1. unfold MAX_HISTORY, MAX_HISTORY_BUFFER. fold delta. lia. }
  cbn [app] in Hg1. exists older. split; [exact Hg1|].
  rewrite <- Hg2, Hg1.
  assert (Hpos : vsize (older ++ taken :: pushed_bits cs) - delta - 1 = vsize older).
  { unfold vsize at 1. rewrite length_app. cbn [length].
    pose proof (length_pushed_bits cs) as Hl. unfold vsize in *. fold delta in Hl. lia. }
  rewrite Hpos. unfold vset, vsize. rewrite Nat2Z.id.
  rewrite insert_app_r_alt by lia. by rewrite Nat.sub_diag.
Qed.

(** An instance: identities 2 and 3 are predicted and push after identity 1;
    the rollback of identity 1 rewrites bit 0 only. *)
Lemma rollback_rewrites_own_bit_witness :
  ∃ s1 s2,
    run (history_update cold 1 0 4096 true 4100)
        [CPredict 0 2 0 4200; CHistoryUpdate 2 0 4200 true 4204;
         CPredict 0 3 0 4300; CHistoryUpdate 3 0 4300 true 4400] = Ok s1
    ∧ update s1 1 0 4096 false true 4100 = Ok s2
    ∧ ghr s1 = [true; true; true]
    ∧ ghr s2 = vset (ghr s1) 0 false.
Proof.
  assert (H : holds_after
                (run (history_update cold 1 0 4096 true 4100)
                     [CPredict 0 2 0 4200; CHistoryUpdate 2 0 4200 true 4204;
                      CPredict 0 3 0 4300; CHistoryUpdate 3 0 4300 true 4400])
                (λ s1, ghr s1 = [true; true; true])) by (vm_compute; reflexivity).
  apply holds_after_ex in H as (s1 & Hrun & Hg1). exists s1.
  destruct (rollback_rewrites_own_bit cold 1 0 4096 true 4100
              [CPredict 0 2 0 4200; CHistoryUpdate 2 0 4200 true 4204;
               CPredict 0 3 0 4300; CHistoryUpdate 3 0 4300 true 4400]
              s1 4096 false true 4100)
    as (s2 & Hup & _ & Hg2 & _); [| | exact Hrun | | |].
  - vm_compute. discriminate.
  - repeat constructor; vm_compute; discriminate.
  - vm_compute. reflexivity.
  - discriminate.
  - exists s2. split; [exact Hrun|]. split; [exact Hup|]. split; [exact Hg1|].
    rewrite Hg2, Hg1. reflexivity.
Defined.

(** C1 (as stated, refuted).  Identity 1 pushes its predicted bit and
    256 other identities push theirs.  [update] for identity 1 with a
    resolved direction different from the predicted one then leaves the
    bit of identity 1 (position [length - 256 - 1 = 0]) as it was and
    overwrites the newest bit, which another identity pushed. *)
Lemma rollback_misses_after_256_pushes :
  Forall (λ c, call_id c ≠ get_unique_inst_id 1 0) (drop 2 overflow_calls)
  ∧ pushes (drop 2 overflow_calls) = 256
  ∧ holds_after (run cold overflow_calls) (λ s1,
      vsize (ghr s1) = 257
      ∧ holds_after (update s1 1 0 4096 false true 4100) (λ s2,
          ghr s2 ≠ vset (ghr s1) (vsize (ghr s1) - 256 - 1) false
          ∧ ghr s1 !! 0%nat = Some true ∧ ghr s2 !! 0%nat = Some true
          ∧ ghr s1 !! 256%nat = Some true ∧ ghr s2 !! 256%nat = Some false)).
Proof.
  split; [|split].
  - unfold overflow_calls. cbn [drop]. apply Forall_map, Forall_forall.
    intros k Hk. apply elem_of_seqZ in Hk. cbn. unfold get_unique_inst_id.
    intros Heq.
    assert (H4 : Z.shiftr (Z.lor (u64 (Z.shiftl k 4)) (Z.land 0 15)) 4
                 = Z.shiftr (Z.lor (u64 (Z.shiftl 1 4)) (Z.land 0 15)) 4) by (by rewrite Heq).
    revert H4. rewrite Z.land_0_l, !Z.lor_0_r. unfold u64.
    rewrite !Z.shiftl_mul_pow2, !Z.shiftr_div_pow2 by lia.
    rewrite (Z.mod_small (k * 2 ^ 4)) by lia.
    rewrite Z.div_mul by lia.
    replace (((1 * 2 ^ 4) `mod` 2 ^ 64) `div` 2 ^ 4) with 1 by reflexivity. lia.
  - vm_compute. reflexivity.
  - vm_compute. repeat split; discriminate.
Qed.

(** Reading back a slot that has just been written, and the counter of
    a slot across the aging of the usefulness fields. *)
Lemma set_table_entry_get tables k i e :
  0 ≤ k < vsize tables → 0 ≤ i < vsize (vget tables k) →
  vget (vget (set_table_entry tables k i e) k) i = e.
Proof.
  intros Hk Hi. unfold set_table_entry, vget, vset, vsize in *.
  rewrite list_lookup_total_insert_eq by lia.
  apply list_lookup_total_insert_eq. lia.
Qed.

Lemma aged_row (tables : list (list TaggedEntry)) k :
  vget (age_tables tables) k
  = map (λ e, set_u e (Z.shiftr (u e) 1)) (vget tables k).
Proof.
  unfold vget, age_tables.
  change (map (map (λ e, set_u e (Z.shiftr (u e) 1))) tables)
    with (fmap (M:=list) (map (λ e, set_u e (Z.shiftr (u e) 1))) tables).
  rewrite !list_lookup_total_alt, list_lookup_fmap.
  by destruct (tables !! Z.to_nat k).
Qed.

Lemma aged_row_ctr (row : list TaggedEntry) i :
  ctr (vget (map (λ e, set_u e (Z.shiftr (u e) 1)) row) i) = ctr (vget row i).
Proof.
  unfold vget.
  change (map (λ e, set_u e (Z.shiftr (u e) 1)) row)
    with (fmap (M:=list) (λ e, set_u e (Z.shiftr (u e) 1)) row).
  rewrite !list_lookup_total_alt, list_lookup_fmap.
  by destruct (row !! Z.to_nat i).
Qed.

Lemma aged_ctr tables k i :
  ctr (vget (vget (age_tables tables) k) i) = ctr (vget (vget tables k) i).
Proof. by rewrite aged_row, aged_row_ctr. Qed.

Lemma shape_table_0 s :
  shape s → 0 < vsize (tagged_tables s) ∧ 0 < vsize (vget (tagged_tables s) 0).
Proof.
  intros Hs. split.
  - destruct Hs as (_ & Ht & _). unfold table_sizes in Ht.
    apply (f_equal (@length Z)) in Ht. rewrite !length_map in Ht.
    unfold vsize. rewrite Ht. by vm_compute.
  - exact (RLRange.shape_tables_nonempty s 0 Hs ltac:(vm_compute; lia)).
Qed.

(** One [update] of an identity that has no checkpoint, for a branch
    predicted right: [speculative_states[id]] makes the all-zero record,
    whose provider is table 0, and the call trains the slot of table 0
    that [PC] and the history select. *)
Lemma update_without_checkpoint_step s seq_no piece PC r nextPC :
  let id := get_unique_inst_id seq_no piece in
  let delta := delta_of s value_init in
  shape s →
  speculative_states s !! id = None →
  delta ≤ vsize (ghr s) →
  ∃ h s',
    compute_hash PC (ghr s) (hist_len (vget TAGGED_CONFIGS 0)) delta
                 (index_bits (vget TAGGED_CONFIGS 0)) = Ok h
    ∧ update s seq_no piece PC r r nextPC = Ok s'
    ∧ ctr (vget (vget (tagged_tables s') 0) (h mod vsize (vget (tagged_tables s) 0)))
      = ctr_step r (ctr (vget (vget (tagged_tables s) 0)
                              (h mod vsize (vget (tagged_tables s) 0))))
    ∧ base_table s' = base_table s
    ∧ ghr s' = ghr s
    ∧ pred_cycle s' = pred_cycle s
    ∧ speculative_states s' !! id = None
    ∧ vsize (vget (tagged_tables s') 0) = vsize (vget (tagged_tables s) 0).
Proof.
  intros id delta Hs Hnone Hd.
  destruct (shape_table_0 s Hs) as [Hn H0].
  destruct (compute_hash_defined PC (ghr s) (hist_len (vget TAGGED_CONFIGS 0)) delta
              (index_bits (vget TAGGED_CONFIGS 0)) Hd) as [h Hh].
  pose proof (RLRange.index_in_table h _ H0) as Hidx.
  assert (Hlook : spec_lookup (speculative_states s) id = value_init)
    by (unfold spec_lookup; by rewrite Hnone).
  assert (Hup : update_provider s value_init PC (ghr s) delta r r
                = Ok (trained_tables s value_init (h mod vsize (vget (tagged_tables s) 0)) r r,
                      weights s)).
  { unfold update_provider. change (provider_table value_init) with 0.
    rewrite Hh. cbn [obind].
    replace (eqb (negb r) r) with false by (by destruct r). reflexivity. }
  set (idx := h mod vsize (vget (tagged_tables s) 0)) in *.
  assert (Hget : ctr (vget (vget (trained_tables s value_init idx r r) 0) idx)
                 = ctr_step r (ctr (vget (vget (tagged_tables s) 0) idx))).
  { unfold trained_tables. change (provider_table value_init) with 0.
    rewrite set_table_entry_get by lia. reflexivity. }
  assert (Hsz : vsize (vget (trained_tables s value_init idx r r) 0)
                = vsize (vget (tagged_tables s) 0)).
  { unfold trained_tables, set_table_entry. change (provider_table value_init) with 0.
    unfold vget at 1. unfold vset at 1.
    rewrite list_lookup_total_insert_eq by (unfold vsize in Hn; lia).
    apply vsize_vset. }
  exists h.
  unfold update. fold id. rewrite Hlook. fold delta.
  replace (negb (eqb r r)) with false by (by destruct r).
  cbn [obind]. change (provider_table value_init) with 0.
  change (negb (0 =? -1)) with true. cbv iota. rewrite Hup. cbn [obind].
  destruct (RESET_PERIOD <=? u32 (reset_counter s + 1)).
  - eexists. split; [exact Hh|]. split; [reflexivity|].
    cbn [tagged_tables base_table ghr pred_cycle speculative_states].
    split; [by rewrite aged_ctr|]. split; [reflexivity|]. split; [reflexivity|].
    split; [reflexivity|]. split; [apply lookup_delete_eq|].
    rewrite <- Hsz, aged_row. unfold vsize. by rewrite length_map.
  - eexists. split; [exact Hh|]. split; [reflexivity|].
    cbn [tagged_tables base_table ghr pred_cycle speculative_states].
    split; [exact Hget|]. split; [reflexivity|]. split; [reflexivity|].
    split; [reflexivity|]. split; [apply lookup_delete_eq|]. exact Hsz.
Qed.

(** C2 (the code at the failing input).  [update] for an identity
    without a checkpoint does not fail: [speculative_states[id]] creates
    the all-zero record (provider table 0, cycle 0); for a branch
    predicted right the call completes, steps the counter of the slot of
    tagged table 0 that [PC] and the history select, and leaves no
    checkpoint; a second [update] of the same identity completes again
    and steps the same counter once more. *)
Theorem update_without_checkpoint_trains_table_0 s seq_no piece PC r nextPC :
  let id := get_unique_inst_id seq_no piece in
  let delta := delta_of s value_init in
  shape s →
  speculative_states s !! id = None →
  delta ≤ vsize (ghr s) →
  ∃ h, compute_hash PC (ghr s) (hist_len (vget TAGGED_CONFIGS 0)) delta
                    (index_bits (vget TAGGED_CONFIGS 0)) = Ok h
       ∧ let idx := h mod vsize (vget (tagged_tables s) 0) in
         let c := ctr (vget (vget (tagged_tables s) 0) idx) in
         holds_after (update s seq_no piece PC r r nextPC) (λ s',
           ctr (vget (vget (tagged_tables s') 0) idx) = ctr_step r c
           ∧ base_table s' = base_table s
           ∧ speculative_states s' !! id = None
           ∧ holds_after (update s' seq_no piece PC r r nextPC) (λ s'',
               ctr (vget (vget (tagged_tables s'') 0) idx) = ctr_step r (ctr_step r c)
               ∧ speculative_states s'' !! id = None)).
Proof.
  intros id delta Hs Hnone Hd.
  destruct (update_without_checkpoint_step s seq_no piece PC r nextPC Hs Hnone Hd)
    as (h & s' & Hh & Hup & Hc & Hb & Hg & Hp & Hnone' & Hsz).
  exists h. split; [exact Hh|]. cbv zeta. rewrite Hup. cbn [holds_after].
  split; [exact Hc|]. split; [exact Hb|]. split; [exact Hnone'|].
  assert (Hs' : shape s') by (eapply RLRange.update_shape; eassumption).
  assert (Hdelta : delta_of s' value_init = delta_of s value_init)
    by (unfold delta_of; by rewrite Hp).
  destruct (update_without_checkpoint_step s' seq_no piece PC r nextPC Hs' Hnone')
    as (h' & s'' & Hh' & Hup' & Hc' & _ & _ & _ & Hnone'' & _).
  { rewrite Hdelta, Hg. exact Hd. }
  rewrite Hdelta, Hg in Hh'. unfold delta in Hh. rewrite Hh in Hh'. injection Hh' as <-.
  rewrite Hup'. cbn [holds_after]. rewrite Hsz in Hc'. rewrite Hc', Hc.
  split; [reflexivity|exact Hnone''].
Qed.

(** The failing input: on the constructor's state no identity has a
    checkpoint; [update] for identity (1, 0) at PC 0x1000, resolved taken
    as predicted, completes twice and takes the counter of slot 0 of
    table 0 from 0 to 1 and to 2. *)
Lemma update_without_checkpoint_trains_table_0_witness :
  speculative_states cold !! get_unique_inst_id 1 0 = None
  ∧ ctr (vget (vget (tagged_tables cold) 0) 0) = 0
  ∧ holds_after (update cold 1 0 4096 true true 4100) (λ s',
      ctr (vget (vget (tagged_tables s') 0) 0) = 1
      ∧ base_table s' = base_table cold
      ∧ speculative_states s' !! get_unique_inst_id 1 0 = None
      ∧ holds_after (update s' 1 0 4096 true true 4100) (λ s'',
          ctr (vget (vget (tagged_tables s'') 0) 0) = 2
          ∧ speculative_states s'' !! get_unique_inst_id 1 0 = None)).
Proof.
  split; [reflexivity|]. split; [reflexivity|].
  destruct (update_without_checkpoint_trains_table_0 cold 1 0 4096 true 4100
              RLRange.cold_shape eq_refl ltac:(vm_compute; discriminate))
    as (h & Hh & H).
  assert (E : h = 0).
  { vm_compute in Hh. by injection Hh as <-. }
  subst h.
  change (0 mod vsize (vget (tagged_tables cold) 0)) with 0 in H.
  change (ctr (vget (vget (tagged_tables cold) 0) 0)) with 0 in H.
  exact H.
Defined.

(** C9 (the code at the failing input).  [predict] leaves the cycle
    field of the checkpoint unwritten, so without a [history_update] the
    distance that [update] computes is whatever the byte [junk] makes
    it; when that distance reaches the length of the register, the
    rollback write of a mispredicted branch is outside the register. *)
Theorem update_without_history_update_unsafe junk s seq_no piece PC PC' r p nextPC :
  let id := get_unique_inst_id seq_no piece in
  let delta := u8 (pred_cycle s - u8 junk) in
  vsize (ghr s) ≤ MAX_HISTORY + MAX_HISTORY_BUFFER →
  vsize (ghr s) ≤ delta →
  r ≠ p →
  ∃ b s1, predict junk s seq_no piece PC = Ok (b, s1)
    ∧ delta_of s1 (spec_lookup (speculative_states s1) id) = delta
    ∧ update s1 seq_no piece PC' r p nextPC = Undefined.
Proof.
  intros id delta Hcap Hlen Hne. rewrite predict_spec. eexists _, _.
  split; [reflexivity|].
  assert (Hd : delta_of (set_specs s (<[id := checkpoint_along (table_order s) junk s PC]>
                                        (speculative_states s)))
                 (spec_lookup (<[id := checkpoint_along (table_order s) junk s PC]>
                                 (speculative_states s)) id) = delta).
  { unfold delta_of, spec_lookup. rewrite lookup_insert_eq. cbn.
    by rewrite checkpoint_along_cycle. }
  split; [exact Hd|].
  unfold update. fold id. cbn [speculative_states set_specs] in *. rewrite Hd.
  cbn [ghr set_specs].
  assert (Hp : negb (eqb p r) = true) by (destruct p, r; done).
  rewrite Hp. rewrite ghr_write_below; [reflexivity | exact Hcap |].
  pose proof (u8_range (pred_cycle s - u8 junk)). fold delta in H.
  pose proof (vsize_nonneg (ghr s)). lia.
Qed.

(** An instance: on the cold predictor, with 7 as the unwritten byte. *)
Lemma update_without_history_update_unsafe_witness :
  ∃ b s1, predict 7 cold 1 0 4096 = Ok (b, s1)
    ∧ delta_of s1 (spec_lookup (speculative_states s1) (get_unique_inst_id 1 0)) = 249
    ∧ update s1 1 0 4096 false true 4100 = Undefined.
Proof.
  apply (update_without_history_update_unsafe 7 cold 1 0 4096 4096 false true 4100).
  - vm_compute. discriminate.
  - vm_compute. discriminate.
  - discriminate.
Defined.


(** Without a misprediction the unwritten cycle field still matters: when
    a tagged table provided and the distance exceeds the length of the
    register, the hash that locates the provider's slot is undefined. *)
Lemma update_without_history_update_cannot_train junk s seq_no piece PC PC' r nextPC :
  Z.of_nat
    (length (List.filter (hit s PC) (table_order s))) ≠ 0 →
  vsize (ghr s) < u8 (pred_cycle s - u8 junk) →
  ∃ b s1, predict junk s seq_no piece PC = Ok (b, s1)
    ∧ update s1 seq_no piece PC' r r nextPC = Undefined.
Proof.
  intros Hhit Hlen. rewrite predict_spec. eexists _, _. split; [reflexivity|].
  apply update_hit_needs_history; unfold spec_lookup;
    cbn [speculative_states set_specs ghr pred_cycle]; rewrite lookup_insert_eq;
    cbn [default from_option id].
  - unfold checkpoint_along. destruct (List.filter _ _); [done|]. cbn. lia.
  - unfold delta_of. cbn [pred_cycle set_specs]. by rewrite checkpoint_along_cycle.
Qed.

(** C4 (the code at the failing input).  When the base predictor was
    the provider, [update] allocates nothing, also when the resolved
    direction differs from the predicted one: the tagged tables and the
    weights come out as they went in, except for the periodic halving of
    the usefulness counters. *)
Theorem no_allocation_when_base_provides s seq_no piece PC r p nextPC st s' :
  speculative_states s !! get_unique_inst_id seq_no piece = Some st →
  provider_table st = -1 →
  update s seq_no piece PC r p nextPC = Ok s' →
  tagged_tables s'
  = (if RESET_PERIOD <=? u32 (reset_counter s + 1)
     then age_tables (tagged_tables s) else tagged_tables s)
  ∧ weights s' = weights s.
Proof.
  intros Hst Hp.
  assert (E : spec_lookup (speculative_states s) (get_unique_inst_id seq_no piece) = st).
  { unfold spec_lookup. by rewrite Hst. }
  unfold update. rewrite E, Hp. cbn [Z.eqb Pos.eqb negb].
  intros H. inv_obind H.
  destruct (RESET_PERIOD <=? _); injection H as <-; cbn; auto.
Qed.

(** An instance: after [base_miss_calls] the base predictor was the
    provider and table 0 has a free slot for the branch; the mispredicted
    [update] leaves the tagged tables as they were. *)
Lemma no_allocation_when_base_provides_witness :
  ∃ s s', run cold base_miss_calls = Ok s
    ∧ update s 1 0 32767 false true 32771 = Ok s'
    ∧ u (vget (vget (tagged_tables s) 0)
              (compute_hash0 32767 (ghr s) 4 10 mod vsize (vget (tagged_tables s) 0))) = 0
    ∧ tagged_tables s' = tagged_tables s
    ∧ weights s' = weights s.
Proof.
  assert (H : holds_after (run cold base_miss_calls) (λ s,
                speculative_states s !! get_unique_inst_id 1 0
                = Some (mkSpec (-1) true true 1 [0; 0; 0; 0; 0; 0; 0; 0; 0; 0; 0; 0])
                ∧ reset_counter s = 0
                ∧ u (vget (vget (tagged_tables s) 0)
                       (compute_hash0 32767 (ghr s) 4 10
                        mod vsize (vget (tagged_tables s) 0))) = 0
                ∧ holds_after (update s 1 0 32767 false true 32771) (λ _, True))).
  { vm_compute. repeat split. }
  apply holds_after_ex in H as (s & Hrun & Hst & Hrc & Hu & Hup).
  apply holds_after_ex in Hup as (s' & Hup & _).
  exists s, s'. split; [exact Hrun|]. split; [exact Hup|]. split; [exact Hu|].
  pose proof (no_allocation_when_base_provides s 1 0 32767 false true 32771 _ s'
                Hst eq_refl Hup) as [Ht Hw].
  rewrite Hrc in Ht. split; [exact Ht | exact Hw].
Defined.

(** C6 (as stated, refuted).  On the cold predictor [predict] for
    PC 0x1000 returns taken, and after [update] with a taken resolution
    the base counter of PC 0x1000 is still 0. *)
Lemma cold_predict_is_taken_and_base_untouched :
  vget (base_table cold) (4096 mod vsize (base_table cold)) = 0
  ∧ holds_after (predict 0 cold 1 0 4096) (λ r1,
      r1.1 = true
      ∧ holds_after (update r1.2 1 0 4096 true true 4100) (λ s2,
          vget (base_table s2) (4096 mod vsize (base_table s2)) = 0)).
Proof. vm_compute. repeat split. Qed.


(** C6 (amended).  On the cold predictor, which passes [setup],
    [predict] for PC 0x1000 returns taken: the cold fill 0 of the base
    counter reads as taken, and tagged table 0, whose cold tag 0 matches
    the tag of PC 0x1000, is the provider.  Whenever the following
    [update] with a taken resolution completes, the base counter of
    PC 0x1000 is unchanged, the provider's counter in tagged table 0 has
    moved one step up, from 0 to 1, the history register is unchanged,
    and a second [predict] for the same PC returns taken. *)
Theorem cold_scenario junk nextPC b s1 s2 :
  predict junk cold 1 0 4096 = Ok (b, s1) →
  update s1 1 0 4096 true true nextPC = Ok s2 →
  setup cold = Ok cold
  ∧ b = true
  ∧ base_pred cold 4096 = true
  ∧ provider_table (spec_lookup (speculative_states s1) (get_unique_inst_id 1 0)) = 0
  ∧ vget (base_table cold) (4096 mod vsize (base_table cold)) = 0
  ∧ vget (base_table s2) (4096 mod vsize (base_table s2)) = 0
  ∧ ctr (entry_of s1 4096 0) = 0
  ∧ ctr (entry_of s2 4096 0) = 1
  ∧ ghr s2 = ghr cold
  ∧ ∀ junk' seq_no piece, ∃ s3, predict junk' s2 seq_no piece 4096 = Ok (true, s3).
Proof.
  intros H1 H2.
  assert (Hst : provider_table (spec_lookup (speculative_states s1) (get_unique_inst_id 1 0))
                = 0 ∧ ghr s1 = [] ∧ pred_cycle s1 = 0
                ∧ st_pred_cycle (spec_lookup (speculative_states s1) (get_unique_inst_id 1 0))
                  = u8 junk).
  { assert (Hcp : checkpoint_along (table_order cold) 0 cold 4096
                  = mkSpec 0 true true 0 [0; 0; 0; 0; 0; 0; 0; 0; 0; 0; 0; 0])
      by (vm_compute; reflexivity).
    apply predict_result in H1 as [_ ->]. unfold spec_lookup.
    cbn [speculative_states set_specs ghr pred_cycle]. rewrite lookup_insert_eq.
    cbn [default from_option id]. rewrite checkpoint_along_cycle.
    rewrite checkpoint_along_junk, Hcp. repeat split. }
  destruct Hst as (Hprov & Hg & Hc & Hcyc).
  assert (Hj : u8 junk = 0).
  { destruct (Z.eq_dec (u8 junk) 0) as [|Hne]; [done|]. exfalso.
    rewrite update_hit_needs_history in H2; [discriminate | by rewrite Hprov |].
    unfold delta_of. rewrite Hg, Hc, Hcyc. change (vsize (@nil bool)) with 0.
    pose proof (u8_range junk) as Hr. pose proof (u8_range (0 - u8 junk)) as Hr'.
    assert (Hnz : u8 (0 - u8 junk) ≠ 0); [|lia].
    unfold u8 at 1. intros Hz. apply Z.mod_divide in Hz; [|lia].
    destruct Hz as [k Hk]. lia. }
  rewrite (predict_junk _ _ _ _ _ Hj) in H1.
  assert (Hall : holds_after (predict 0 cold 1 0 4096) (λ r1,
            setup cold = Ok cold
            ∧ r1.1 = true
            ∧ base_pred cold 4096 = true
            ∧ vget (base_table cold) (4096 mod vsize (base_table cold)) = 0
            ∧ ctr (entry_of r1.2 4096 0) = 0
            ∧ holds_after (update r1.2 1 0 4096 true true nextPC) (λ s2,
                vget (base_table s2) (4096 mod vsize (base_table s2)) = 0
                ∧ ctr (entry_of s2 4096 0) = 1
                ∧ ghr s2 = ghr cold
                ∧ final_pred (checkpoint_along (table_order s2) 0 s2 4096) = true))).
  { vm_compute. repeat split. }
  apply (holds_after_ok _ _ _ Hall) in H1 as (Hs & Hb & Hbase & Hb0 & Hc0 & Hup).
  apply (holds_after_ok _ _ _ Hup) in H2 as (Hb2 & Hc2 & Hg2 & Hf).
  cbn [fst snd] in Hb, Hc0.
  split; [exact Hs|]. split; [exact Hb|]. split; [exact Hbase|].
  split; [exact Hprov|]. split; [exact Hb0|]. split; [exact Hb2|].
  split; [exact Hc0|]. split; [exact Hc2|]. split; [exact Hg2|].
  intros junk' seq_no piece. rewrite predict_spec. eexists.
  rewrite checkpoint_along_junk. cbn [final_pred]. rewrite Hf. reflexivity.
Qed.

(** An instance: with 0 as the unwritten byte the [update] completes. *)
Lemma cold_scenario_witness :
  ∃ s1 s2, predict 0 cold 1 0 4096 = Ok (true, s1)
    ∧ update s1 1 0 4096 true true 4100 = Ok s2
    ∧ vget (base_table s2) (4096 mod vsize (base_table s2)) = 0
    ∧ ctr (entry_of s2 4096 0) = 1.
Proof.
  assert (H : holds_after (predict 0 cold 1 0 4096) (λ r1,
                r1.1 = true
                ∧ holds_after (update r1.2 1 0 4096 true true 4100) (λ _, True))).
  { vm_compute. repeat split. }
  apply holds_after_ex in H as ([b s1] & H1 & Hb & H2). cbn [fst snd] in *. subst b.
  apply holds_after_ex in H2 as (s2 & H2 & _).
  exists s1, s2. split; [exact H1|]. split; [exact H2|].
  pose proof (cold_scenario 0 4100 true s1 s2 H1 H2) as Hc.
  split; [apply Hc | apply Hc].
Defined.

End RLClaims.

(** * Claims about both predictors *)

(** C3 (as stated, refuted).  On the cold tables every table matches
    PC 0, the longest-history table 11 included, yet [predict] of the
    main predictor makes table 0, the shortest history, the provider.
    After the training run [learned_calls], in which the only tagged hit
    is that of table 0 alone, table 1 has the one non-zero score; at
    PC 190 tables 1 (history 6) and 2 (history 10) both match, and table 1
    is the provider. *)
Lemma shorter_history_table_provides :
  RLTage.hit RLTage.cold 0 11 = true
  ∧ holds_after (RLTage.predict 0 RLTage.cold 1 0 0) (λ r,
      RLTage.provider_table
        (RLTage.spec_lookup (RLTage.speculative_states r.2) (get_unique_inst_id 1 0)) = 0)
  ∧ List.filter (RLTage.hit RLTage.cold 127) (seq 0 12) = []
  ∧ holds_after (RLTage.run RLTage.cold RLTage.warm_up_calls) (λ s,
      List.filter (RLTage.hit s 15) (seq 0 12) = [0%nat])
  ∧ holds_after (RLTage.run RLTage.cold RLTage.learned_calls) (λ s,
      map (RLTage.score s) (seq 0 12) = [0; 627; 0; 0; 0; 0; 0; 0; 0; 0; 0; 0]
      ∧ RLTage.hit s 190 1 = true
      ∧ RLTage.hit s 190 2 = true
      ∧ hist_len (TAGGED_CONFIGS !!! 1%nat) < hist_len (TAGGED_CONFIGS !!! 2%nat)
      ∧ holds_after (RLTage.predict 0 s 3 0 190) (λ r,
          RLTage.provider_table
            (RLTage.spec_lookup (RLTage.speculative_states r.2) (get_unique_inst_id 3 0))
          = 1)).
Proof.
  split; [vm_compute; reflexivity|]. split; [vm_compute; reflexivity|].
  split; [vm_compute; reflexivity|]. split; [vm_compute; reflexivity|].
  vm_compute. repeat split; reflexivity.
Qed.

(** C3 (amended).  [predict] of the main predictor visits the tagged
    tables in the order of their learned scores, highest first: the first
    table in that order whose slot matches is the provider, the next one
    that matches is the alternate, and with no match the base
    prediction stands for both.  [predict] of the snapshot predictor
    does the same along the tables from the longest history to the
    shortest. *)
Theorem provider_follows_the_visiting_order :
  (∀ junk s seq_no piece PC,
     RLTage.predict junk s seq_no piece PC
     = Ok (RLTage.final_pred (RLTage.checkpoint_along (RLTage.table_order s) junk s PC),
           RLTage.set_specs s
             (<[get_unique_inst_id seq_no piece :=
                  RLTage.checkpoint_along (RLTage.table_order s) junk s PC]>
                (RLTage.speculative_states s)))
     ∧ Permutation (RLTage.table_order s) (seq 0 (Z.to_nat NUM_TAGGED_TABLES))
     ∧ StronglySorted (λ a b, RLTage.score s b ≤ RLTage.score s a) (RLTage.table_order s))
  ∧ (∀ s seq_no piece PC,
       TageGood.predict s seq_no piece PC
       = (TageGood.final_pred (TageGood.checkpoint_along TageGood.longest_first s PC),
          TageGood.set_specs s
            (<[get_unique_inst_id seq_no piece :=
                 TageGood.checkpoint_along TageGood.longest_first s PC]>
               (TageGood.speculative_states s)))).
Proof.
  split.
  - intros junk s seq_no piece PC. split; [apply RLFacts.predict_spec|].
    split; [apply RLFacts.table_order_perm | apply RLFacts.table_order_sorted].
  - intros. apply TageFacts.snap_predict_spec.
Qed.

(** C5.  Whenever a tagged table provides, that is, some table in the
    visiting order matches, [predict] returns the sign of the provider's
    counter (taken from 0 up), except that it returns the alternate's
    bit when the provider's counter has magnitude at most 1 and the
    meta-counter is at or above its threshold; the alternate's bit is
    the sign of the next matching table, or the base prediction. *)
Theorem final_bit_is_provider_sign_unless_weak :
  (∀ junk s seq_no piece PC p rest,
     List.filter (RLTage.hit s PC) (RLTage.table_order s) = p :: rest →
     let c := ctr (RLTage.entry_of s PC p) in
     let alt := match rest with
                | [] => RLTage.base_pred s PC
                | a :: _ => 0 <=? ctr (RLTage.entry_of s PC a)
                end in
     ∃ s', RLTage.predict junk s seq_no piece PC
           = Ok (if (Z.abs c <=? 1) && (USE_ALT_THRESHOLD <=? RLTage.use_alt_on_na s)
                 then alt else 0 <=? c, s')
           ∧ RLTage.provider_table
               (RLTage.spec_lookup (RLTage.speculative_states s')
                                   (get_unique_inst_id seq_no piece)) = Z.of_nat p)
  ∧ (∀ s seq_no piece PC p rest,
       List.filter (TageGood.hit s PC) TageGood.longest_first = p :: rest →
       let c := ctr (TageGood.entry_at (TageGood.tagged_tables s) (TageGood.ghr s) PC p) in
       let alt := match rest with
                  | [] => TageGood.base_pred s PC
                  | a :: _ =>
                      0 <=? ctr (TageGood.entry_at (TageGood.tagged_tables s)
                                                   (TageGood.ghr s) PC a)
                  end in
       ∃ s', TageGood.predict s seq_no piece PC
             = (if (Z.abs c <=? 1) && (USE_ALT_THRESHOLD <=? TageGood.use_alt_on_na s)
                then alt else 0 <=? c, s')
             ∧ TageGood.provider_table
                 (TageGood.spec_lookup (TageGood.speculative_states s')
                                       (get_unique_inst_id seq_no piece)) = p).
Proof.
  split.
  - intros junk s seq_no piece PC p rest Hf c alt.
    rewrite RLFacts.predict_spec. eexists. unfold RLTage.checkpoint_along. rewrite Hf.
    cbn [RLTage.final_pred]. split; [reflexivity|].
    unfold RLTage.spec_lookup. cbn [RLTage.speculative_states RLTage.set_specs].
    by rewrite lookup_insert_eq.
  - intros s seq_no piece PC p rest Hf c alt.
    rewrite TageFacts.snap_predict_spec. eexists. unfold TageGood.checkpoint_along. rewrite Hf.
    cbn [TageGood.final_pred]. split; [reflexivity|].
    unfold TageGood.spec_lookup. cbn [TageGood.speculative_states TageGood.set_specs].
    by rewrite lookup_insert_eq.
Qed.

(** Instances: PC 0 on the cold tables of either predictor; the provider's
    counter is 0 and the meta-counter at its threshold, so the alternate's
    bit, taken, is returned. *)
Lemma final_bit_is_provider_sign_unless_weak_witness :
  (∃ s', RLTage.predict 0 RLTage.cold 1 0 0 = Ok (true, s')
         ∧ RLTage.provider_table
             (RLTage.spec_lookup (RLTage.speculative_states s') (get_unique_inst_id 1 0)) = 0)
  ∧ (∃ s', TageGood.predict TageGood.cold 1 0 0 = (true, s')
           ∧ TageGood.provider_table
               (TageGood.spec_lookup (TageGood.speculative_states s')
                                     (get_unique_inst_id 1 0)) = 11).
Proof.
  split.
  - refine (proj1 final_bit_is_provider_sign_unless_weak 0 RLTage.cold 1 0 0 0%nat
              [1; 2; 3; 4; 5; 6; 7; 8; 9; 10; 11]%nat _).
    vm_compute. reflexivity.
  - refine (proj2 final_bit_is_provider_sign_unless_weak TageGood.cold 1 0 0 11
              [10; 9; 8; 7; 6; 5; 4; 3; 2; 1; 0] _).
    vm_compute. reflexivity.
Defined.

(** C7.  Along every sequence of [predict], [history_update] and
    [update] calls from the cold predictor, of either predictor, every
    tagged counter stays within [-4, 3], every usefulness within [0, 3],
    every base counter within [-2, 1] and the meta-counter within
    [0, 15]; [n] consecutive steps in one direction move a counter by
    [n] up to its bound and leave it there. *)
Theorem counters_stay_in_range :
  (∀ cs s, RLTage.run RLTage.cold cs = Ok s → RLTage.counters_in_range s)
  ∧ (∀ cs, TageGood.counters_in_range (TageGood.run TageGood.cold cs))
  ∧ (∀ n c, ctr_ok c →
       Nat.iter n (ctr_step true) c = Z.min (c + Z.of_nat n) 3
       ∧ Nat.iter n (ctr_step false) c = Z.max (c - Z.of_nat n) (-4))
  ∧ (∀ n c, base_ok c →
       Nat.iter n (base_step true) c = Z.min (c + Z.of_nat n) 1
       ∧ Nat.iter n (base_step false) c = Z.max (c - Z.of_nat n) (-2)).
Proof.
  split; [|split; [|split]].
  - intros cs s. apply RLRange.run_in_range, RLRange.cold_in_range.
  - intros cs. apply TageRange.snap_run_in_range, TageRange.snap_cold_in_range.
  - intros n c Hc. split; [by apply ctr_iter_up | by apply ctr_iter_down].
  - intros n c Hc. split; [by apply base_iter_up | by apply base_iter_down].
Qed.

(** Instances: a mispredicted branch on either predictor, and a thousand
    steps up from 0. *)
Lemma counters_stay_in_range_witness :
  (∃ s, RLTage.run RLTage.cold
          (RLTage.base_miss_calls ++ [RLTage.CUpdate 1 0 32767 false true 32771]) = Ok s
        ∧ RLTage.counters_in_range s)
  ∧ TageGood.counters_in_range
      (TageGood.run TageGood.cold
         [TageGood.CPredict 1 0 4096; TageGood.CHistoryUpdate 1 0 4096 true 4100;
          TageGood.CUpdate 1 0 4096 false true 4100])
  ∧ Nat.iter 1000 (ctr_step true) 0 = 3.
Proof.
  split; [|split].
  - assert (H : holds_after
                  (RLTage.run RLTage.cold
                     (RLTage.base_miss_calls ++ [RLTage.CUpdate 1 0 32767 false true 32771]))
                  (λ _, True)) by (vm_compute; exact I).
    apply holds_after_ex in H as (s & Hrun & _). exists s. split; [exact Hrun|].
    exact (proj1 counters_stay_in_range _ s Hrun).
  - exact (proj1 (proj2 counters_stay_in_range) _).
  - refine (proj1 (proj1 (proj2 (proj2 counters_stay_in_range)) 1000%nat 0 _)).
    unfold ctr_ok. lia.
Defined.

(** C8 (as stated, refuted).  For the source's configuration the total
    that [check_memory_budget] computes is not the sum over the history
    register, the base table and the tagged tables: it also counts the
    weight arrays.  With a budget of 32000 bytes that sum is within the
    budget, and [setup] fails. *)
Lemma budget_counts_the_weights :
  RLTage.total_bits RLTage.source_config = Ok 281808
  ∧ RLTage.bit_cost_without_weights RLTage.source_config = 251040
  ∧ RLTage.total_bits RLTage.tight_config = Ok 281808
  ∧ RLTage.bit_cost_without_weights RLTage.tight_config = 251040
  ∧ 251040 ≤ 8 * RLTage.c_max_bytes RLTage.tight_config
  ∧ RLTage.setup_with RLTage.tight_config RLTage.cold = Abort.
Proof. vm_compute. repeat split; discriminate. Qed.

(** C8 (amended).  For a configuration whose [int] terms are all
    defined (no product or sum leaves [int]; [t] is then the total
    [check_memory_budget] reaches) and whose budget is a non-negative
    [int], [setup] computes the total bit cost as the sum over the history
    register with its rollback buffer, the base table, the weight arrays
    and every tagged table (entries times the widths of tag, counter and
    usefulness), in the 64 bits of [size_t]; it turns the total into
    bytes, and either passes or aborts: it passes when the total is at
    most 8 times the budget and aborts when the total exceeds the budget
    by a whole byte or more.  The source's configuration passes. *)
Theorem budget_check c s t :
  RLTage.total_bits c = Ok t →
  0 ≤ RLTage.c_max_bytes c < 2 ^ 31 →
  t = u64 (RLTage.bit_cost c)
  ∧ (0 ≤ RLTage.bit_cost c < 2 ^ 64 → t = RLTage.bit_cost c)
  ∧ (t ≤ 8 * RLTage.c_max_bytes c → RLTage.setup_with c s = Ok s)
  ∧ (8 * (RLTage.c_max_bytes c + 1) ≤ t → RLTage.setup_with c s = Abort)
  ∧ (RLTage.setup_with c s = Ok s ∨ RLTage.setup_with c s = Abort)
  ∧ RLTage.setup s = Ok s.
Proof.
  intros Ht Hb.
  pose proof (Budget.total_bits_spec c t Ht) as Hspec.
  split; [exact Hspec|].
  split; [intros Hr; rewrite Hspec; unfold u64; by apply Z.mod_small|].
  assert (Hok : int_ok (RLTage.c_max_bytes c) = true).
  { unfold int_ok. apply andb_true_iff. split; [apply Z.leb_le|apply Z.ltb_lt]; lia. }
  assert (Hu : u64 (RLTage.c_max_bytes c) = RLTage.c_max_bytes c)
    by (unfold u64; apply Z.mod_small; lia).
  unfold RLTage.setup_with, RLTage.check_memory_budget.
  rewrite Ht. cbn [obind]. rewrite Hok, Hu.
  split; [|split; [|split]].
  - intros H. apply Budget.bits_to_bytes_le in H.
    destruct (_ <=? _) eqn:E; [reflexivity|]. apply Z.leb_gt in E. lia.
  - intros H. apply Budget.bits_to_bytes_gt in H.
    destruct (_ <=? _) eqn:E; [|reflexivity]. apply Z.leb_le in E. lia.
  - destruct (_ <=? _); cbn; auto.
  - reflexivity.
Qed.

(** Instances: the source's configuration passes, and fails with a budget
    of 32000 bytes. *)
Lemma budget_check_witness :
  RLTage.total_bits RLTage.source_config = Ok 281808
  ∧ 281808 = RLTage.bit_cost RLTage.source_config
  ∧ 281808 ≤ 8 * RLTage.c_max_bytes RLTage.source_config
  ∧ RLTage.setup_with RLTage.source_config RLTage.cold = Ok RLTage.cold
  ∧ RLTage.total_bits RLTage.tight_config = Ok 281808
  ∧ 8 * (RLTage.c_max_bytes RLTage.tight_config + 1) ≤ 281808
  ∧ RLTage.setup_with RLTage.tight_config RLTage.cold = Abort.
Proof.
  assert (T1 : RLTage.total_bits RLTage.source_config = Ok 281808) by reflexivity.
  assert (T2 : RLTage.total_bits RLTage.tight_config = Ok 281808) by reflexivity.
  assert (B1 : 0 ≤ RLTage.c_max_bytes RLTage.source_config < 2 ^ 31)
    by (vm_compute; split; [discriminate|reflexivity]).
  assert (B2 : 0 ≤ RLTage.c_max_bytes RLTage.tight_config < 2 ^ 31)
    by (vm_compute; split; [discriminate|reflexivity]).
  assert (H1 : 281808 ≤ 8 * RLTage.c_max_bytes RLTage.source_config)
    by (vm_compute; discriminate).
  assert (H2 : 8 * (RLTage.c_max_bytes RLTage.tight_config + 1) ≤ 281808)
    by (vm_compute; discriminate).
  destruct (budget_check RLTage.source_config RLTage.cold 281808 T1 B1)
    as (_ & Hc & Hpass & _).
  destruct (budget_check RLTage.tight_config RLTage.cold 281808 T2 B2)
    as (_ & _ & _ & Hfail & _).
  split; [exact T1|]. split; [apply Hc; vm_compute; split; [discriminate|reflexivity]|].
  split; [exact H1|]. split; [exact (Hpass H1)|].
  split; [exact T2|]. split; [exact H2|]. exact (Hfail H2).
Defined.

(** Outside that range the [int] arithmetic has no defined result: one
    table of [2 ^ 28] entries with 15 tag bits makes the product
    [entries * 20] leave [int]. *)
Lemma budget_of_a_large_table_is_undefined :
  RLTage.total_bits
    (RLTage.mkConfig [mkTableConfig 4 28 15] 14 2 640 32 3 2 4 (192 * 1024))
  = Undefined.
Proof. reflexivity. Qed.

(** The conversion to bytes adds one for an odd total only: a total of
    10 bits passes a budget of 1 byte. *)
Lemma rounding_adds_the_low_bit_only :
  RLTage.bits_to_bytes 10 = 1
  ∧ RLTage.check_memory_budget (RLTage.mkConfig [] 0 0 10 0 3 2 4 1) = Ok tt.
Proof. vm_compute. split; reflexivity. Qed.

(** * Reading back what was written to a vector *)

Lemma vget_vset_eq {A} `{Inhabited A} (l : list A) i x :
  0 ≤ i < vsize l → vget (vset l i x) i = x.
Proof.
  intros Hi. unfold vget, vset, vsize in *.
  apply list_lookup_total_insert_eq. lia.
Qed.

Lemma vget_vset_ne {A} `{Inhabited A} (l : list A) i j x :
  0 ≤ i → 0 ≤ j → i ≠ j → vget (vset l i x) j = vget l j.
Proof.
  intros Hi Hj Hne. unfold vget, vset.
  apply list_lookup_total_insert_ne. lia.
Qed.

(** * Identities and the history hash *)

Lemma lor_shift_piece s p :
  0 ≤ p < 16 → Z.lor (Z.shiftl s 4) (Z.land p 15) = s * 16 + p.
Proof.
  intros Hp.
  assert (Hl : Z.land p 15 = p).
  { change 15 with (Z.ones 4). rewrite Z.land_ones by lia. apply Z.mod_small. lia. }
  rewrite Hl.
  assert (Hd : Z.land (Z.shiftl s 4) p = 0).
  { rewrite <- Hl. change 15 with (Z.ones 4). apply Z.bits_inj'. intros n Hn.
    rewrite !Z.land_spec, Z.bits_0.
    destruct (Z.ltb_spec n 4).
    - rewrite Z.shiftl_spec_low by lia. reflexivity.
    - rewrite Z.ones_spec_high by lia. by rewrite !andb_false_r. }
  rewrite <- Z.lxor_lor by exact Hd.
  rewrite <- Z.add_nocarry_lxor by exact Hd.
  rewrite Z.shiftl_mul_pow2 by lia. reflexivity.
Qed.

Lemma inst_id_value seq_no piece :
  0 ≤ seq_no < 2 ^ 60 → 0 ≤ piece < 16 →
  get_unique_inst_id seq_no piece = seq_no * 16 + piece.
Proof.
  intros Hs Hp. unfold get_unique_inst_id, u64.
  rewrite Z.mod_small by (rewrite Z.shiftl_mul_pow2 by lia; lia).
  by apply lor_shift_piece.
Qed.

(** Identities are unique within the caller's contract: for sequence
    numbers below 2^60 and pieces below 16, the identity determines both
    (they are its quotient and remainder by 16), so two different pairs
    never share an identity. *)
Theorem inst_id_unique seq_no piece seq_no' piece' :
  0 ≤ seq_no < 2 ^ 60 → 0 ≤ piece < 16 →
  0 ≤ seq_no' < 2 ^ 60 → 0 ≤ piece' < 16 →
  Z.shiftr (get_unique_inst_id seq_no piece) 4 = seq_no
  ∧ Z.land (get_unique_inst_id seq_no piece) 15 = piece
  ∧ (get_unique_inst_id seq_no piece = get_unique_inst_id seq_no' piece' →
     seq_no = seq_no' ∧ piece = piece').
Proof.
  intros Hs Hp Hs' Hp'. rewrite !inst_id_value by assumption.
  rewrite Z.shiftr_div_pow2 by lia. change 15 with (Z.ones 4).
  rewrite Z.land_ones by lia. change (2 ^ 4) with 16.
  split; [|split]; [| |intros Heq]; Z.to_euclidean_division_equations; lia.
Qed.

Lemma inst_id_unique_witness :
  Z.shiftr (get_unique_inst_id 7 3) 4 = 7
  ∧ Z.land (get_unique_inst_id 7 3) 15 = 3
  ∧ (get_unique_inst_id 7 3 = get_unique_inst_id 7 3 → 7 = 7 ∧ 3 = 3).
Proof. apply (inst_id_unique 7 3 7 3); lia. Defined.

(** Outside that contract nothing is checked: the piece is reduced
    modulo 16 and the four top bits of the sequence number are shifted
    out, so such identities coincide with ones inside it. *)
Theorem inst_id_wraps seq_no piece :
  get_unique_inst_id seq_no (piece + 16) = get_unique_inst_id seq_no piece
  ∧ get_unique_inst_id (seq_no + 2 ^ 60) piece = get_unique_inst_id seq_no piece.
Proof.
  unfold get_unique_inst_id, u64. split.
  - f_equal. change 15 with (Z.ones 4). rewrite !Z.land_ones by lia.
    change (2 ^ 4) with 16. rewrite <- (Z.mul_1_l 16) at 1. apply Z_mod_plus_full.
  - f_equal. rewrite !Z.shiftl_mul_pow2 by lia.
    replace ((seq_no + 2 ^ 60) * 2 ^ 4) with (seq_no * 2 ^ 4 + 1 * 2 ^ 64) by lia.
    apply Z_mod_plus_full.
Qed.

Lemma land_out_bits x w : 0 ≤ w → Z.land x (Z.shiftl 1 w - 1) = x mod 2 ^ w.
Proof.
  intros Hw. rewrite Z.shiftl_1_l, Z.sub_1_r, <- Z.ones_equiv. by apply Z.land_ones.
Qed.

Lemma hash_loop_app hash l1 l2 used hlen w :
  hlen - used ≤ Z.of_nat (length l1) →
  hash_loop hash (l1 ++ l2) used hlen w = hash_loop hash l1 used hlen w.
Proof.
  revert hash used. induction l1 as [|b l1 IH]; intros hash used Hl; cbn [app hash_loop].
  - cbn in Hl. destruct l2 as [|b l2]; [reflexivity|]. cbn [hash_loop].
    destruct (used <? hlen) eqn:E; [apply Z.ltb_lt in E; lia | reflexivity].
  - destruct (used <? hlen); [|reflexivity]. apply IH. cbn [length] in Hl. lia.
Qed.

(** The hash evaluated against a rolled-back history.  With [skip_hist]
    set to the number of bits pushed since, [compute_hash] on the advanced
    register gives the hash of the register as it stood, and of that it
    reads the [hist_len] newest bits only; the result is below
    [2 ^ out_bits]. *)
Theorem hash_of_rolled_back_history pc older recent later hlen w :
  hlen ≤ vsize recent → 0 ≤ w →
  compute_hash pc (older ++ recent ++ later) hlen (vsize later) w
  = Ok (compute_hash0 pc recent hlen w)
  ∧ compute_hash pc (recent ++ later) hlen (vsize later) w
    = compute_hash pc recent hlen 0 w
  ∧ 0 ≤ compute_hash0 pc recent hlen w < 2 ^ w.
Proof.
  intros Hl Hw.
  assert (H : ∀ older, compute_hash pc (older ++ recent ++ later) hlen (vsize later) w
                       = Ok (compute_hash0 pc recent hlen w)).
  { intros o. unfold compute_hash, compute_hash0.
    destruct (_ <? _) eqn:E.
    { apply Z.ltb_lt in E. unfold vsize in E. rewrite !length_app in E. lia. }
    unfold vsize. rewrite Nat2Z.id, !reverse_app, <- !app_assoc.
    rewrite drop_app_length' by (by rewrite length_reverse).
    rewrite hash_loop_app; [reflexivity|]. rewrite length_reverse. unfold vsize in Hl. lia. }
  split; [apply H|]. split.
  - rewrite compute_hash_skip0. apply (H []).
  - unfold compute_hash0. rewrite land_out_bits by exact Hw.
    apply Z.mod_pos_bound. lia.
Qed.

Lemma hash_of_rolled_back_history_witness :
  compute_hash 4096 ([false] ++ [true; true; false; true] ++ [true; true]) 4 2 10
  = Ok (compute_hash0 4096 [true; true; false; true] 4 10)
  ∧ compute_hash 4096 ([true; true; false; true] ++ [true; true]) 4 2 10
    = compute_hash 4096 [true; true; false; true] 4 0 10
  ∧ 0 ≤ compute_hash0 4096 [true; true; false; true] 4 10 < 2 ^ 10.
Proof.
  apply (hash_of_rolled_back_history 4096 [false] [true; true; false; true] [true; true] 4 10);
    vm_compute; discriminate.
Defined.

(** * The predictor with learned table order: training against a rolled-back history *)

Module RLTraining.
Import RLTage RLMore RLFacts RLRange.

Lemma compute_hash_skip_app pc h later hlen w :
  compute_hash pc (h ++ later) hlen (vsize later) w = compute_hash pc h hlen 0 w.
Proof.
  rewrite compute_hash_skip0. unfold compute_hash, compute_hash0.
  destruct (_ <? _) eqn:E.
  { apply Z.ltb_lt in E. unfold vsize in E. rewrite length_app in E. lia. }
  unfold vsize. rewrite Nat2Z.id, reverse_app.
  rewrite drop_app_length' by (by rewrite length_reverse). reflexivity.
Qed.

Lemma alloc_scan_skip_app ks PC h later r tables :
  alloc_scan ks PC (h ++ later) (vsize later) r tables = alloc_scan ks PC h 0 r tables.
Proof.
  induction ks as [|k rest IH]; cbn [alloc_scan]; [reflexivity|].
  rewrite !compute_hash_skip_app, IH. reflexivity.
Qed.

Lemma fold_left_ext_in {A B} (f g : A → B → A) (l : list B) :
  (∀ a x, x ∈ l → f a x = g a x) → ∀ a, fold_left f l a = fold_left g l a.
Proof.
  induction l as [|x l IH]; intros H a; cbn [fold_left]; [reflexivity|].
  rewrite H by left. apply IH. intros a' y Hy. apply H. by right.
Qed.

Lemma vget_app_l {A} `{Inhabited A} (l1 l2 : list A) i :
  0 ≤ i < vsize l1 → vget (l1 ++ l2) i = vget l1 i.
Proof.
  intros Hi. unfold vget. apply lookup_total_app_l. unfold vsize in Hi. lia.
Qed.

Lemma rl_row_skip_app h later target w :
  MAX_HISTORY + 1 ≤ vsize h →
  rl_row (h ++ later) (vsize later) target w = rl_row h 0 target w.
Proof.
  intros Hh. unfold rl_row.
  assert (Hn : Nat.min (Z.to_nat MAX_HISTORY) (length (h ++ later))
               = Nat.min (Z.to_nat MAX_HISTORY) (length h)).
  { rewrite length_app. unfold vsize, MAX_HISTORY in *. lia. }
  rewrite Hn.
  assert (Hf : fold_left
                 (λ w j,
                    let upd := i8 ((if vget (h ++ later)
                                         (vsize (h ++ later) - vsize later - Z.of_nat j - 1)
                                    then 1 else -1) * Z.b2z target * LEARNING_RATE) in
                    <[j := clamp_weight (i8 (w !!! j + upd))]> w)
                 (seq 0 (Nat.min (Z.to_nat MAX_HISTORY) (length h))) w
               = fold_left
                   (λ w j,
                      let upd := i8 ((if vget h (vsize h - 0 - Z.of_nat j - 1)
                                      then 1 else -1) * Z.b2z target * LEARNING_RATE) in
                      <[j := clamp_weight (i8 (w !!! j + upd))]> w)
                   (seq 0 (Nat.min (Z.to_nat MAX_HISTORY) (length h))) w).
  { apply fold_left_ext_in. intros a j Hj. apply elem_of_seq in Hj. cbn zeta.
    replace (vsize (h ++ later) - vsize later - Z.of_nat j - 1)
      with (vsize h - 0 - Z.of_nat j - 1)
      by (unfold vsize; rewrite length_app; lia).
    rewrite vget_app_l; [reflexivity|]. unfold vsize, MAX_HISTORY in *. lia. }
  cbn zeta in Hf. rewrite Hf. reflexivity.
Qed.

Lemma rl_update_skip_app h later k ws :
  MAX_HISTORY + 1 ≤ vsize h →
  rl_update (h ++ later) (vsize later) k ws = rl_update h 0 k ws.
Proof.
  intros Hh. unfold rl_update. apply imap_ext. intros i w _.
  by apply rl_row_skip_app.
Qed.

Lemma update_provider_skip_app s st PC h later r p :
  update_provider s st PC (h ++ later) (vsize later) r p
  = update_provider s st PC h 0 r p.
Proof.
  unfold update_provider. rewrite compute_hash_skip_app.
  destruct (compute_hash PC h _ 0 _) as [a| |]; cbn [obind]; [|reflexivity|reflexivity].
  destruct (eqb (negb r) p); [|reflexivity].
  rewrite alloc_scan_skip_app.
  destruct (alloc_scan _ PC h 0 r _) as [[k tables]| |]; cbn [obind];
    [|reflexivity|reflexivity].
  assert (Hg : (vsize later + MAX_HISTORY + 1 <=? vsize (h ++ later))
               = (0 + MAX_HISTORY + 1 <=? vsize h)).
  { unfold vsize. rewrite length_app.
    destruct (Z.leb_spec (0 + MAX_HISTORY + 1) (Z.of_nat (length h)));
      [apply Z.leb_le | apply Z.leb_gt]; lia. }
  rewrite Hg. destruct (0 + MAX_HISTORY + 1 <=? vsize h) eqn:E; [|reflexivity].
  rewrite rl_update_skip_app; [reflexivity|]. apply Z.leb_le in E. lia.
Qed.

(** Training against the rolled-back register.  Whatever was pushed
    after the branch's own bit, the provider branch of [update], run on
    the advanced register with the rollback distance set to the number of
    later bits, trains, allocates and learns exactly as it would on the
    register without those bits and with distance 0. *)
Theorem training_skips_later_bits s st PC h later r p k :
  update_provider s st PC (h ++ later) (vsize later) r p
  = update_provider s st PC h 0 r p
  ∧ alloc_slot PC (h ++ later) (vsize later) (tagged_tables s) k
    = alloc_slot PC h 0 (tagged_tables s) k.
Proof.
  split; [apply update_provider_skip_app|].
  unfold alloc_slot. by rewrite compute_hash_skip_app.
Qed.



(** * The weights *)

Lemma clamp_weight_ok x : weight_ok (clamp_weight x).
Proof.
  unfold weight_ok, clamp_weight.
  change WEIGHT_MAX with 7. change WEIGHT_MIN with (-8). lia.
Qed.

Lemma clamp_weight_id x : weight_ok x → clamp_weight (i8 (x + 0)) = x.
Proof.
  unfold weight_ok, clamp_weight. change WEIGHT_MAX with 7. change WEIGHT_MIN with (-8).
  intros Hx. rewrite Z.add_0_r, i8_small by lia. lia.
Qed.

Lemma weight_ok_default : weight_ok inhabitant.
Proof. unfold weight_ok. change WEIGHT_MAX with 7. change WEIGHT_MIN with (-8). cbn. lia. Qed.

Lemma rl_loop_ok (f : list Z → nat → Z) js w :
  Forall weight_ok w →
  Forall weight_ok (fold_left (λ w j, <[j := clamp_weight (f w j)]> w) js w).
Proof.
  revert w. induction js as [|j js IH]; intros w Hw; cbn [fold_left]; [exact Hw|].
  apply IH. apply Forall_insert; [exact Hw | apply clamp_weight_ok].
Qed.

Lemma rl_row_ok g delta target w :
  Forall weight_ok w → Forall weight_ok (rl_row g delta target w).
Proof.
  intros Hw. unfold rl_row. apply Forall_insert; [|apply clamp_weight_ok].
  apply (rl_loop_ok
           (λ w j, i8 (w !!! j
                       + i8 ((if vget g (vsize g - delta - Z.of_nat j - 1) then 1 else -1)
                             * Z.b2z target * LEARNING_RATE)))).
  exact Hw.
Qed.

Lemma rl_update_ok g delta k ws :
  Forall (Forall weight_ok) ws → Forall (Forall weight_ok) (rl_update g delta k ws).
Proof.
  intros Hws. unfold rl_update. apply Forall_lookup. intros i w Hi.
  rewrite list_lookup_imap in Hi.
  destruct (ws !! i) as [w0|] eqn:E; [|discriminate]. cbn in Hi. injection Hi as <-.
  apply rl_row_ok. by eapply Forall_lookup_1.
Qed.

(** The weights that a completed [update] leaves: those it found, or
    those after one round of learning. *)
Lemma update_weights s seq_no piece PC r p nextPC s' :
  update s seq_no piece PC r p nextPC = Ok s' →
  weights s' = weights s ∨ ∃ g delta k, weights s' = rl_update g delta k (weights s).
Proof.
  unfold update. intros H. inv_obind H. inv_obind H. destruct a0 as [base [tables ws]].
  assert (Hw : ws = weights s ∨ ∃ g delta k, ws = rl_update g delta k (weights s)).
  { destruct (negb (provider_table _ =? -1)).
    - inv_obind E0. destruct a0 as [t w]. injection E0 as _ <- <-.
      unfold update_provider in E1. inv_obind E1.
      destruct (eqb (negb r) p); [|injection E1 as _ <-; by left].
      inv_obind E1. destruct a1 as [k t1].
      destruct (_ <=? _); injection E1 as _ <-; [right; eauto | by left].
    - injection E0 as _ _ <-. by left. }
  destruct (RESET_PERIOD <=? _); injection H as <-; exact Hw.
Qed.

Lemma step_weights_ok s c s' :
  weights_in_range s → step s c = Ok s' → weights_in_range s'.
Proof.
  unfold weights_in_range. intros Hs. destruct c; cbn [step]; intros H.
  - rewrite predict_spec in H. cbn in H. by injection H as <-.
  - by injection H as <-.
  - apply update_weights in H as [-> | (g & delta & k & ->)]; [exact Hs|].
    by apply rl_update_ok.
Qed.

Lemma run_weights_ok cs : ∀ s s',
  weights_in_range s → run s cs = Ok s' → weights_in_range s'.
Proof.
  induction cs as [|c cs IH]; intros s s' Hs H; cbn [run] in H.
  - by injection H as <-.
  - inv_obind H. eapply IH; [|exact H]. by eapply step_weights_ok.
Qed.

Lemma cold_weights_ok : weights_in_range cold.
Proof.
  unfold weights_in_range, cold. cbn [weights].
  apply replicate_ok, replicate_ok.
  unfold weight_ok. change WEIGHT_MAX with 7. change WEIGHT_MIN with (-8). lia.
Qed.

Lemma score_sum_bound (g : list bool) (w : list Z) js :
  Forall weight_ok w →
  ∀ acc, let r := fold_left (λ acc j, acc + (if (g !!! j : bool) then w !!! j
                                             else - (w !!! j))) js acc in
         acc - 8 * Z.of_nat (length js) ≤ r ≤ acc + 8 * Z.of_nat (length js).
Proof.
  intros Hw. induction js as [|j js IH]; intros acc; cbn [fold_left length]; [lia|].
  assert (Hj : weight_ok (w !!! j)).
  { destruct (w !! j) as [x|] eqn:E.
    - rewrite (list_lookup_total_correct _ _ _ E). by eapply Forall_lookup_1.
    - rewrite list_lookup_total_alt, E. apply weight_ok_default. }
  unfold weight_ok in Hj. change WEIGHT_MAX with 7 in Hj. change WEIGHT_MIN with (-8) in Hj.
  specialize (IH (acc + (if (g !!! j : bool) then w !!! j else - (w !!! j)))).
  cbn zeta in IH. destruct (g !!! j : bool); lia.
Qed.

(** The weights stay signed [RL_WEIGHTS_BITS]-bit values, and the scores
    stay small.  Along every call sequence from the constructor's state
    that completes, each weight is within [WEIGHT_MIN, WEIGHT_MAX], that
    is -8 to 7, and the score of each table, a sum of at most 640
    signed weights and the bias, is within -5128 to 5128, far inside the
    32-bit accumulator. *)
Theorem weights_and_scores_stay_in_range cs s (i : nat) :
  run cold cs = Ok s →
  weights_in_range s ∧ -5128 ≤ score s i ≤ 5128.
Proof.
  intros Hrun.
  assert (Hw : weights_in_range s) by (eapply run_weights_ok; [apply cold_weights_ok|exact Hrun]).
  split; [exact Hw|]. unfold score.
  assert (Hrow : Forall weight_ok (weights s !!! i)).
  { destruct (weights s !! i) as [w|] eqn:E.
    - rewrite (list_lookup_total_correct _ _ _ E). by eapply (Forall_lookup_1 _ (weights s)).
    - rewrite list_lookup_total_alt, E. constructor. }
  pose proof (score_sum_bound (ghr s) (weights s !!! i)
                (seq 0 (Nat.min (Z.to_nat MAX_HISTORY) (length (ghr s)))) Hrow 0) as Hsum.
  cbn zeta in Hsum. rewrite length_seq in Hsum.
  assert (Hb : weight_ok ((weights s !!! i) !!! (length (weights s !!! i) - 1)%nat)).
  { destruct ((weights s !!! i) !! (length (weights s !!! i) - 1)%nat) as [x|] eqn:E.
    - rewrite (list_lookup_total_correct _ _ _ E). by eapply Forall_lookup_1.
    - rewrite list_lookup_total_alt, E. apply weight_ok_default. }
  unfold weight_ok in Hb. change WEIGHT_MAX with 7 in Hb. change WEIGHT_MIN with (-8) in Hb.
  change (Z.to_nat MAX_HISTORY) with 640%nat in *. lia.
Qed.

(** An instance: the training run [learned_calls], after which table 1
    has score 627. *)
Lemma weights_and_scores_stay_in_range_witness :
  ∃ s, run cold learned_calls = Ok s
       ∧ score s 1 = 627
       ∧ weights_in_range s ∧ -5128 ≤ score s 1 ≤ 5128.
Proof.
  assert (H : holds_after (run cold learned_calls) (λ s, score s 1 = 627))
    by (vm_compute; reflexivity).
  apply holds_after_ex in H as (s & Hrun & Hsc).
  exists s. split; [exact Hrun|]. split; [exact Hsc|].
  exact (weights_and_scores_stay_in_range learned_calls s 1 Hrun).
Defined.

End RLTraining.

(** * The predictor with learned table order: learning, aging and the registers *)

Module RLState.
Import RLTage RLMore RLFacts RLRange RLTraining.

(** ** Which weights a round of learning moves *)

Lemma weight_ok_lookup (w : list Z) (j : nat) : Forall weight_ok w → weight_ok (w !!! j).
Proof.
  intros Hw. destruct (w !! j) as [x|] eqn:E.
  - rewrite (list_lookup_total_correct _ _ _ E). by eapply Forall_lookup_1.
  - rewrite list_lookup_total_alt, E. apply weight_ok_default.
Qed.

Lemma insert_lookup_total_id (w : list Z) (j : nat) : <[j := w !!! j]> w = w.
Proof.
  apply list_insert_id'. intros Hj.
  destruct (lookup_lt_is_Some_2 w j Hj) as [x E].
  by rewrite (list_lookup_total_correct _ _ _ E).
Qed.

Lemma rl_row_idle g delta w : Forall weight_ok w → rl_row g delta false w = w.
Proof.
  intros Hw. unfold rl_row. cbn [Z.b2z]. rewrite !Z.mul_0_r.
  assert (Hf : ∀ js, fold_left
                 (λ (w : list Z) (j : nat),
                    let upd := i8 ((if vget g (vsize g - delta - Z.of_nat j - 1)
                                    then 1 else -1) * 0 * LEARNING_RATE) in
                    <[j := clamp_weight (i8 (w !!! j + upd))]> w) js w = w).
  { induction js as [|j js IH]; cbn [fold_left]; [reflexivity|].
    rewrite Z.mul_0_r, Z.mul_0_l. change (i8 0) with 0.
    rewrite clamp_weight_id by (by apply weight_ok_lookup).
    rewrite insert_lookup_total_id. exact IH. }
  cbn zeta in Hf. rewrite Hf.
  rewrite clamp_weight_id by (by apply weight_ok_lookup).
  apply insert_lookup_total_id.
Qed.

Lemma fold_insert_length (f : nat → Z → Z) js : ∀ w,
  length (fold_left (λ (w : list Z) (j : nat), <[j := f j (w !!! j)]> w) js w) = length w.
Proof.
  induction js as [|j js IH]; intros w; cbn [fold_left]; [reflexivity|].
  by rewrite IH, length_insert.
Qed.

Lemma fold_insert_lookup (f : nat → Z → Z) (n : nat) (w : list Z) (j : nat) :
  fold_left (λ (w : list Z) (j : nat), <[j := f j (w !!! j)]> w) (seq 0 n) w !!! j
  = if decide (j < n ∧ j < length w)%nat then f j (w !!! j) else w !!! j.
Proof.
  induction n as [|n IH].
  - cbn [seq fold_left]. destruct (decide _) as [[H _]|_]; [lia | reflexivity].
  - rewrite seq_S, fold_left_app. cbn [fold_left plus].
    set (W := fold_left _ (seq 0 n) w) in *.
    assert (HlW : length W = length w) by apply fold_insert_length.
    destruct (decide (j = n)) as [->|Hne].
    + assert (HWn : W !!! n = w !!! n).
      { rewrite IH. destruct (decide (n < n ∧ n < length w)%nat) as [[H _]|_];
          [lia | reflexivity]. }
      clear IH.
      destruct (decide (n < length w)%nat) as [Hlt|Hge].
      * rewrite list_lookup_total_insert_eq by lia. rewrite HWn.
        destruct (decide (n < S n ∧ n < length w)%nat) as [_|H]; [reflexivity | lia].
      * rewrite list_insert_ge by lia. rewrite HWn.
        destruct (decide (n < S n ∧ n < length w)%nat) as [[_ H]|_]; [lia | reflexivity].
    + rewrite list_lookup_total_insert_ne by done. rewrite IH.
      destruct (decide (j < n ∧ j < length w)%nat) as [H|H];
        destruct (decide (j < S n ∧ j < length w)%nat) as [H'|H']; try reflexivity; lia.
Qed.

Lemma clamp_weight_step x d :
  weight_ok x → -1 ≤ d ≤ 1 → clamp_weight (i8 (x + i8 (d * 1 * LEARNING_RATE)))
                              = clamp_weight (x + d).
Proof.
  unfold weight_ok. change WEIGHT_MAX with 7. change WEIGHT_MIN with (-8).
  unfold LEARNING_RATE. intros Hx Hd. rewrite !Z.mul_1_r.
  rewrite (i8_small d) by lia. rewrite i8_small by lia. reflexivity.
Qed.

(** One round of learning moves the row of table [k], the table in which
    the allocation loop stopped, and no other: all other rows are as
    before, and so is every row when the loop found no free slot and [k]
    ended past the last row.  In row [k], weight [j] steps by one towards
    the bit [j] places before the branch's own (the register read from its
    newest end, [delta_cycles] bits skipped), the bias steps up by one,
    and both stop at the bounds. *)
Theorem learning_moves_the_allocated_row g delta k ws :
  Forall (Forall weight_ok) ws →
  (∀ i : nat, Z.of_nat i ≠ k → rl_update g delta k ws !! i = ws !! i)
  ∧ (vsize ws ≤ k → rl_update g delta k ws = ws)
  ∧ (∀ (i j : nat) w,
       Z.of_nat i = k → ws !! i = Some w → vsize w = MAX_HISTORY + 1 →
       (j < Nat.min (Z.to_nat MAX_HISTORY) (length g))%nat →
       ∃ w', rl_update g delta k ws !! i = Some w'
             ∧ w' !!! j
               = clamp_weight (w !!! j + (if vget g (vsize g - delta - Z.of_nat j - 1)
                                          then 1 else -1))
             ∧ w' !!! Z.to_nat MAX_HISTORY
               = clamp_weight (w !!! Z.to_nat MAX_HISTORY + 1)).
Proof.
  intros Hws.
  assert (Hidle : ∀ i : nat, Z.of_nat i ≠ k → rl_update g delta k ws !! i = ws !! i).
  { intros i Hi. unfold rl_update. rewrite list_lookup_imap.
    destruct (ws !! i) as [w|] eqn:E; [|reflexivity]. cbn.
    destruct (Z.of_nat i =? k) eqn:Ek; [apply Z.eqb_eq in Ek; lia|].
    f_equal. apply rl_row_idle. by eapply Forall_lookup_1. }
  split; [exact Hidle|]. split.
  - intros Hk. apply list_eq. intros i.
    destruct (decide (Z.of_nat i = k)) as [Heq|Hne]; [|by apply Hidle].
    unfold rl_update. rewrite list_lookup_imap.
    rewrite (proj2 (lookup_ge_None ws i)) by (unfold vsize in Hk; lia). reflexivity.
  - intros i j w Hi Hw Hlen Hj. exists (rl_row g delta true w). split.
    { unfold rl_update. rewrite list_lookup_imap, Hw. cbn.
      by rewrite (proj2 (Z.eqb_eq _ _) Hi). }
    assert (Hwok : Forall weight_ok w) by (by eapply Forall_lookup_1).
    set (f := λ (j : nat) (x : Z),
                clamp_weight
                  (i8 (x + i8 ((if vget g (vsize g - delta - Z.of_nat j - 1) then 1 else -1)
                               * Z.b2z true * LEARNING_RATE)))).
    set (n := Nat.min (Z.to_nat MAX_HISTORY) (length g)) in *.
    assert (Hrow : rl_row g delta true w
                   = <[(length (fold_left (λ (w : list Z) (j : nat), <[j := f j (w !!! j)]> w)
                                          (seq 0 n) w) - 1)%nat :=
                        clamp_weight
                          (i8 (fold_left (λ (w : list Z) (j : nat), <[j := f j (w !!! j)]> w)
                                         (seq 0 n) w
                               !!! (length (fold_left
                                              (λ (w : list Z) (j : nat), <[j := f j (w !!! j)]> w)
                                              (seq 0 n) w) - 1)%nat
                               + LEARNING_RATE * Z.b2z true))]>
                       (fold_left (λ (w : list Z) (j : nat), <[j := f j (w !!! j)]> w)
                                  (seq 0 n) w))
      by reflexivity.
    rewrite Hrow. clear Hrow. rewrite fold_insert_length.
    assert (Hl : length w = 641%nat) by (unfold vsize, MAX_HISTORY in Hlen; lia).
    assert (Hn : (n ≤ 640)%nat) by (subst n; change (Z.to_nat MAX_HISTORY) with 640%nat; lia).
    rewrite Hl. change (641 - 1)%nat with 640%nat.
    change (Z.to_nat MAX_HISTORY) with 640%nat.
    split.
    + rewrite list_lookup_total_insert_ne by lia.
      rewrite fold_insert_lookup.
      destruct (decide _) as [_|H]; [|lia].
      unfold f. cbn [Z.b2z]. apply clamp_weight_step; [by apply weight_ok_lookup|].
      destruct (vget g _); lia.
    + rewrite list_lookup_total_insert_eq by (rewrite fold_insert_length; lia).
      rewrite fold_insert_lookup.
      destruct (decide _) as [[H _]|_]; [lia|].
      pose proof (weight_ok_lookup w 640 Hwok) as Hb. revert Hb.
      unfold weight_ok, clamp_weight, LEARNING_RATE.
      change WEIGHT_MAX with 7. change WEIGHT_MIN with (-8). cbn [Z.b2z].
      intros Hb. rewrite i8_small by lia. reflexivity.
Qed.

(** An instance: the constructor's weights, a register of 641 taken bits,
    and an allocation in table 1. *)
Lemma learning_moves_the_allocated_row_witness :
  ∃ w', rl_update (replicate 641 true) 0 1 (weights cold) !! 1%nat = Some w'
        ∧ w' !!! 5%nat = 1 ∧ w' !!! 640%nat = 1
        ∧ rl_update (replicate 641 true) 0 1 (weights cold) !! 0%nat = weights cold !! 0%nat
        ∧ rl_update (replicate 641 true) 0 12 (weights cold) = weights cold.
Proof.
  pose proof (learning_moves_the_allocated_row (replicate 641 true) 0 1 (weights cold)
                cold_weights_ok) as (H0 & _ & H1).
  pose proof (learning_moves_the_allocated_row (replicate 641 true) 0 12 (weights cold)
                cold_weights_ok) as (_ & H12 & _).
  destruct (H1 1%nat 5%nat (replicate 641 0)) as (w' & Hw' & H5 & H640);
    [reflexivity | reflexivity | reflexivity | vm_compute; lia |].
  exists w'. split; [exact Hw'|]. split; [exact (eq_trans H5 eq_refl)|].
  split; [exact (eq_trans H640 eq_refl)|]. split.
  - apply H0. lia.
  - apply H12. vm_compute. discriminate.
Defined.

(** ** The reset counter and the aging of the usefulness counters *)

Lemma updates_nonneg cs : 0 ≤ updates cs.
Proof. induction cs as [|c cs IH]; cbn; [lia|]. destruct (is_update c); lia. Qed.

Lemma update_reset_counter s seq_no piece PC r p nextPC s' :
  update s seq_no piece PC r p nextPC = Ok s' →
  reset_counter s'
  = (if RESET_PERIOD <=? u32 (reset_counter s + 1) then 0 else u32 (reset_counter s + 1)).
Proof.
  unfold update. intros H. inv_obind H. inv_obind H. destruct a0 as [base [tables ws]].
  destruct (RESET_PERIOD <=? _); by injection H as <-.
Qed.

Lemma step_reset_counter s c s' :
  0 ≤ reset_counter s < RESET_PERIOD → step s c = Ok s' →
  reset_counter s'
  = (reset_counter s + (if is_update c then 1 else 0)) mod RESET_PERIOD.
Proof.
  intros Hrc. destruct c; cbn [step is_update]; intros H.
  - rewrite predict_spec in H. cbn in H. injection H as <-. cbn.
    rewrite Z.add_0_r. symmetry. by apply Z.mod_small.
  - injection H as <-. cbn. rewrite Z.add_0_r. symmetry. by apply Z.mod_small.
  - apply update_reset_counter in H. rewrite H. clear H. unfold RESET_PERIOD, u32 in *.
    rewrite (Z.mod_small (reset_counter s + 1)) by lia.
    destruct (_ <=? _) eqn:E.
    + apply Z.leb_le in E. replace (reset_counter s + 1) with (512 * 1024) by lia.
      reflexivity.
    + apply Z.leb_gt in E. symmetry. apply Z.mod_small. lia.
Qed.

Lemma run_reset_counter cs : ∀ s s',
  0 ≤ reset_counter s < RESET_PERIOD → run s cs = Ok s' →
  reset_counter s' = (reset_counter s + updates cs) mod RESET_PERIOD.
Proof.
  induction cs as [|c cs IH]; intros s s' Hrc H; cbn [run updates] in *.
  - injection H as <-. rewrite Z.add_0_r. symmetry. by apply Z.mod_small.
  - inv_obind H. pose proof (step_reset_counter _ _ _ Hrc E) as Hstep.
    rewrite (IH a s'); [| |exact H].
    + rewrite Hstep, Zplus_mod_idemp_l. f_equal. lia.
    + rewrite Hstep. apply Z.mod_pos_bound. unfold RESET_PERIOD. lia.
Qed.

(** The reset counter counts the [update] calls.  Along every call
    sequence from the constructor's state that completes, it equals the
    number of [update] calls modulo [RESET_PERIOD]; [predict] and
    [history_update] never move it. *)
Theorem reset_counter_counts_updates cs s :
  run cold cs = Ok s → reset_counter s = updates cs mod RESET_PERIOD.
Proof.
  intros H. rewrite (run_reset_counter cs cold s); [reflexivity| |exact H].
  cbn. unfold RESET_PERIOD. lia.
Qed.

(** An instance: the training run [learned_calls] holds two [update] calls. *)
Lemma reset_counter_counts_updates_witness :
  ∃ s, run cold learned_calls = Ok s ∧ updates learned_calls = 2 ∧ reset_counter s = 2.
Proof.
  assert (H : holds_after (run cold learned_calls) (λ _, True)) by (vm_compute; exact I).
  apply holds_after_ex in H as (s & Hrun & _).
  exists s. split; [exact Hrun|].
  assert (Hu : updates learned_calls = 2) by (vm_compute; reflexivity).
  split; [exact Hu|].
  rewrite (reset_counter_counts_updates learned_calls s Hrun), Hu. reflexivity.
Defined.

(** Aging leaves tag and counter of every entry and halves its
    usefulness. *)
Lemma age_tables_halves tables :
  Forall2 (Forall2 (λ e' e0, tag e' = tag e0 ∧ ctr e' = ctr e0 ∧ u e' = u e0 / 2))
          (age_tables tables) tables.
Proof.
  unfold age_tables.
  change (map (map (λ e, set_u e (Z.shiftr (u e) 1))) tables)
    with (fmap (M:=list) (map (λ e, set_u e (Z.shiftr (u e) 1))) tables).
  apply Forall2_fmap_l, Forall_Forall2_diag, Forall_forall. intros row _.
  change (map (λ e, set_u e (Z.shiftr (u e) 1)) row)
    with (fmap (M:=list) (λ e, set_u e (Z.shiftr (u e) 1)) row).
  apply Forall2_fmap_l, Forall_Forall2_diag, Forall_forall. intros e _.
  cbn. rewrite Z.shiftr_div_pow2 by lia. change (2 ^ 1) with 2. done.
Qed.

(** Aging.  The [update] call that takes the reset counter to
    [RESET_PERIOD] sets it back to 0 and halves every usefulness counter:
    the tables it leaves are those that the same call leaves away from
    the period (the call on the state whose reset counter is 0), with the
    usefulness of every entry divided by two and tags and counters as
    they are.  Every other [update] call adds one to the reset counter
    and leaves the tables of the call away from the period. *)
Theorem usefulness_is_halved_every_period s seq_no piece PC r p nextPC s' :
  0 ≤ reset_counter s < RESET_PERIOD →
  update s seq_no piece PC r p nextPC = Ok s' →
  ∃ s0, update (with_reset_counter s 0) seq_no piece PC r p nextPC = Ok s0
        ∧ if reset_counter s =? RESET_PERIOD - 1
          then reset_counter s' = 0
               ∧ Forall2 (Forall2 (λ e' e0, tag e' = tag e0 ∧ ctr e' = ctr e0
                                            ∧ u e' = u e0 / 2))
                         (tagged_tables s') (tagged_tables s0)
          else reset_counter s' = reset_counter s + 1
               ∧ tagged_tables s' = tagged_tables s0.
Proof.
  intros Hrc H. unfold update in *.
  cbn [with_reset_counter speculative_states ghr pred_cycle base_table tagged_tables
       weights use_alt_on_na reset_counter].
  change (delta_of (with_reset_counter s 0)) with (delta_of s).
  change (update_provider (with_reset_counter s 0)) with (update_provider s).
  inv_obind H. cbn [obind]. inv_obind H. destruct a0 as [base [tables ws]].
  cbn [obind].
  change (RESET_PERIOD <=? u32 (0 + 1)) with false. cbv iota.
  eexists. split; [reflexivity|]. cbn [tagged_tables].
  unfold RESET_PERIOD, u32 in *.
  rewrite (Z.mod_small (reset_counter s + 1)) in H by lia.
  destruct (reset_counter s =? 512 * 1024 - 1) eqn:Ec.
  - apply Z.eqb_eq in Ec.
    destruct (_ <=? _) eqn:Ep; [|apply Z.leb_gt in Ep; lia].
    injection H as <-. cbn. split; [reflexivity|]. apply age_tables_halves.
  - apply Z.eqb_neq in Ec.
    destruct (_ <=? _) eqn:Ep; [apply Z.leb_le in Ep; lia|].
    by injection H as <-.
Qed.

(** An instance: after [useful_calls] slot 0 of table 0 has usefulness
    3; with the reset counter one short of the period, the [update] of
    identity 9 leaves it at 1. *)
Lemma usefulness_is_halved_every_period_witness :
  ∃ s s',
    run cold useful_calls = Ok s
    ∧ u (vget (vget (tagged_tables s) 0) 0) = 3
    ∧ update (with_reset_counter s (RESET_PERIOD - 1)) 9 0 32767 false true 32771 = Ok s'
    ∧ u (vget (vget (tagged_tables s') 0) 0) = 1
    ∧ ∃ s0, update (with_reset_counter (with_reset_counter s (RESET_PERIOD - 1)) 0)
                   9 0 32767 false true 32771 = Ok s0
            ∧ reset_counter s' = 0
            ∧ Forall2 (Forall2 (λ e' e0, tag e' = tag e0 ∧ ctr e' = ctr e0
                                         ∧ u e' = u e0 / 2))
                      (tagged_tables s') (tagged_tables s0).
Proof.
  assert (H : holds_after (run cold useful_calls) (λ s,
                u (vget (vget (tagged_tables s) 0) 0) = 3
                ∧ holds_after
                    (update (with_reset_counter s (RESET_PERIOD - 1))
                            9 0 32767 false true 32771)
                    (λ s', u (vget (vget (tagged_tables s') 0) 0) = 1)))
    by (vm_compute; split; reflexivity).
  apply holds_after_ex in H as (s & Hrun & Hu & H).
  apply holds_after_ex in H as (s' & Hup & Hu').
  exists s, s'. split; [exact Hrun|]. split; [exact Hu|]. split; [exact Hup|].
  split; [exact Hu'|].
  exact (usefulness_is_halved_every_period
           (with_reset_counter s (RESET_PERIOD - 1)) 9 0 32767 false true 32771 s'
           ltac:(cbn; unfold RESET_PERIOD; lia) Hup).
Defined.

(** ** The content of the history register *)

Lemma newest_all {A} (n : nat) (l : list A) : (length l ≤ n)%nat → newest n l = l.
Proof. intros H. unfold newest. by replace (length l - n)%nat with 0%nat by lia. Qed.

Lemma newest_app {A} (n : nat) (l1 l2 : list A) :
  newest n (newest n l1 ++ l2) = newest n (l1 ++ l2).
Proof.
  unfold newest. rewrite <- drop_app_le by lia.
  rewrite drop_drop. f_equal.
  rewrite length_drop, !length_app. lia.
Qed.

Lemma push_history_newest g b :
  vsize g ≤ MAX_HISTORY + MAX_HISTORY_BUFFER →
  push_history g b = newest (Z.to_nat (MAX_HISTORY + MAX_HISTORY_BUFFER)) (g ++ [b]).
Proof.
  intros Hg. unfold push_history, newest, vsize in *. rewrite length_app in *. cbn [length].
  change (Z.to_nat (MAX_HISTORY + MAX_HISTORY_BUFFER)) with 672%nat.
  unfold MAX_HISTORY, MAX_HISTORY_BUFFER in *.
  destruct (_ <? _) eqn:E.
  - apply Z.ltb_lt in E. by replace (length g + 1 - 672)%nat with 1%nat by lia.
  - apply Z.ltb_ge in E. by replace (length g + 1 - 672)%nat with 0%nat by lia.
Qed.

Lemma step_keeps_history s c s' :
  vsize (ghr s) ≤ MAX_HISTORY + MAX_HISTORY_BUFFER →
  keeps_history c = true → step s c = Ok s' →
  ghr s' = newest (Z.to_nat (MAX_HISTORY + MAX_HISTORY_BUFFER))
                  (ghr s ++ pushed_bits [c]).
Proof.
  intros Hcap Hk H.
  assert (Hsame : newest (Z.to_nat (MAX_HISTORY + MAX_HISTORY_BUFFER)) (ghr s ++ []) = ghr s).
  { rewrite app_nil_r. apply newest_all. unfold vsize in Hcap. lia. }
  destruct c as [junk seq_no piece PC | seq_no piece PC taken nextPC
                 | seq_no piece PC resolveDir predDir nextPC]; cbn [step keeps_history] in *.
  - rewrite predict_spec in H. cbn [obind snd] in H. injection H as <-.
    change (pushed_bits [CPredict junk seq_no piece PC]) with (@nil bool).
    cbn [ghr set_specs]. by rewrite Hsame.
  - injection H as <-. cbn [ghr history_update].
    change (pushed_bits [CHistoryUpdate seq_no piece PC taken nextPC]) with [taken].
    by apply push_history_newest.
  - apply update_inv in H as (_ & _ & Hg). rewrite Hk in Hg. cbn [negb] in Hg.
    injection Hg as <-.
    change (pushed_bits [CUpdate seq_no piece PC resolveDir predDir nextPC]) with (@nil bool).
    by rewrite Hsame.
Qed.

Lemma run_keeps_history cs : ∀ s s',
  vsize (ghr s) ≤ MAX_HISTORY + MAX_HISTORY_BUFFER →
  Forall (λ c, keeps_history c = true) cs → run s cs = Ok s' →
  ghr s' = newest (Z.to_nat (MAX_HISTORY + MAX_HISTORY_BUFFER)) (ghr s ++ pushed_bits cs).
Proof.
  induction cs as [|c cs IH]; intros s s' Hcap Hall H; cbn [run] in H.
  - injection H as <-. unfold pushed_bits. cbn. rewrite app_nil_r.
    symmetry. apply newest_all. unfold vsize in Hcap. lia.
  - inversion Hall as [|? ? Hc Hall']; subst. inv_obind H.
    pose proof (step_keeps_history _ _ _ Hcap Hc E) as Hstep.
    assert (Hcap' : vsize (ghr a) ≤ MAX_HISTORY + MAX_HISTORY_BUFFER).
    { rewrite (step_ghr_size _ _ _ Hcap E). destruct (is_push c); lia. }
    rewrite (IH a s' Hcap' Hall' H), Hstep, newest_app.
    f_equal. rewrite <- app_assoc. f_equal.
    unfold pushed_bits. cbn [List.filter]. destruct (is_push c); reflexivity.
Qed.

(** The register is a sliding window over what was pushed.  Along every
    call sequence from the constructor's state that completes, its length
    is the number of [history_update] calls, capped at
    [MAX_HISTORY + MAX_HISTORY_BUFFER]; and as long as no [update]
    mispredicted, it holds the newest 672 of the pushed bits, oldest
    first. *)
Theorem register_is_a_window_of_pushed_bits cs s :
  run cold cs = Ok s →
  vsize (ghr s) = Z.min (pushes cs) (MAX_HISTORY + MAX_HISTORY_BUFFER)
  ∧ (Forall (λ c, keeps_history c = true) cs →
     ghr s = newest (Z.to_nat (MAX_HISTORY + MAX_HISTORY_BUFFER)) (pushed_bits cs)).
Proof.
  intros H. split.
  - rewrite (run_ghr_size cs cold s); [reflexivity| |exact H].
    vm_compute. discriminate.
  - intros Hall. rewrite (run_keeps_history cs cold s); [reflexivity| |exact Hall|exact H].
    vm_compute. discriminate.
Qed.

(** An instance: the 641 pushes of [warm_up_calls]. *)
Lemma register_is_a_window_of_pushed_bits_witness :
  ∃ s, run cold warm_up_calls = Ok s
       ∧ vsize (ghr s) = 641
       ∧ ghr s = pushed_bits warm_up_calls.
Proof.
  assert (H : holds_after (run cold warm_up_calls) (λ _, True)) by (vm_compute; exact I).
  apply holds_after_ex in H as (s & Hrun & _).
  exists s. split; [exact Hrun|].
  destruct (register_is_a_window_of_pushed_bits warm_up_calls s Hrun) as [Hlen Hbits].
  split; [rewrite Hlen; vm_compute; reflexivity|].
  rewrite Hbits; [vm_compute; reflexivity|].
  apply Forall_forall. intros c Hc.
  assert (Hall : forallb keeps_history warm_up_calls = true) by (vm_compute; reflexivity).
  rewrite forallb_forall in Hall. apply Hall. by apply list_elem_of_In.
Defined.

(** ** The checkpoint store *)

Lemma run_own_pushes hus : ∀ s s' id m x,
  Forall (λ c, is_push c = true ∧ call_id c = id) hus →
  speculative_states s = <[id := x]> m →
  run s hus = Ok s' →
  ∃ y, speculative_states s' = <[id := y]> m.
Proof.
  induction hus as [|c hus IH]; intros s s' id m x Hall Hs H; cbn [run] in H.
  - injection H as <-. eauto.
  - inversion Hall as [|? ? [Hp Hid] Hall']; subst.
    destruct c as [| seq_no piece PC taken nextPC |]; try discriminate Hp.
    cbn [step obind] in H. cbn [call_id] in IH, Hall'.
    eapply (IH _ s' _ m); [exact Hall' | | exact H].
    cbn [history_update speculative_states]. rewrite Hs, insert_insert_eq. reflexivity.
Qed.

(** No checkpoint is left behind.  For an identity without a checkpoint,
    the round of [predict], any number of [history_update] calls and
    [update] leaves the checkpoint store exactly as it found it. *)
Theorem checkpoint_round_trip junk s seq_no piece PC hus PC' r p nextPC s' :
  let id := get_unique_inst_id seq_no piece in
  speculative_states s !! id = None →
  Forall (λ c, is_push c = true ∧ call_id c = id) hus →
  run s (CPredict junk seq_no piece PC :: hus ++ [CUpdate seq_no piece PC' r p nextPC])
  = Ok s' →
  speculative_states s' = speculative_states s.
Proof.
  intros id Hnone Hall H. cbn [run step] in H. rewrite predict_spec in H.
  cbn [obind snd] in H.
  assert (Hsplit : ∀ cs1 cs2 s0 s2, run s0 (cs1 ++ cs2) = Ok s2 →
                     ∃ s1, run s0 cs1 = Ok s1 ∧ run s1 cs2 = Ok s2).
  { induction cs1 as [|c cs1 IH1]; intros cs2 s0 s2 Hr; cbn [app run] in *; [eauto|].
    inv_obind Hr. destruct (IH1 _ _ _ Hr) as (s1 & H1 & H2). eauto. }
  apply Hsplit in H as (s1 & H1 & H2).
  destruct (run_own_pushes hus
              (set_specs s (<[id := checkpoint_along (table_order s) junk s PC]>
                              (speculative_states s)))
              s1 id (speculative_states s)
              (checkpoint_along (table_order s) junk s PC) Hall eq_refl H1) as [y Hy].
  cbn [run] in H2. inv_obind H2. injection H2 as <-. cbn [step] in E.
  apply update_inv in E as (_ & Hm & _). fold id in Hm.
  rewrite Hm, Hy, delete_insert_eq. by apply delete_id.
Qed.

(** An instance on the cold predictor, with two [history_update] calls. *)
Lemma checkpoint_round_trip_witness :
  ∃ s', run cold [CPredict 0 1 0 4096; CHistoryUpdate 1 0 4096 true 4100;
                  CHistoryUpdate 1 0 4096 true 4100; CUpdate 1 0 4096 false true 4100]
        = Ok s'
        ∧ speculative_states s' = speculative_states cold.
Proof.
  assert (H : holds_after
                (run cold [CPredict 0 1 0 4096; CHistoryUpdate 1 0 4096 true 4100;
                           CHistoryUpdate 1 0 4096 true 4100; CUpdate 1 0 4096 false true 4100])
                (λ _, True)) by (vm_compute; exact I).
  apply holds_after_ex in H as (s' & Hrun & _).
  exists s'. split; [exact Hrun|].
  refine (checkpoint_round_trip 0 cold 1 0 4096
            [CHistoryUpdate 1 0 4096 true 4100; CHistoryUpdate 1 0 4096 true 4100]
            4096 false true 4100 s' _ _ Hrun).
  - reflexivity.
  - repeat constructor.
Defined.

(** ** Every access is inside its vector *)

Lemma compute_hash_range pc g hlen skip w h :
  0 ≤ w → compute_hash pc g hlen skip w = Ok h → 0 ≤ h < 2 ^ w.
Proof.
  intros Hw. unfold compute_hash. destruct (_ <? _); [discriminate|].
  intros [= <-]. rewrite land_out_bits by exact Hw. apply Z.mod_pos_bound. lia.
Qed.

Lemma shape_table_size s (i : nat) :
  shape s → (i < Z.to_nat NUM_TAGGED_TABLES)%nat →
  vsize (tagged_tables s !!! i) = 2 ^ index_bits (TAGGED_CONFIGS !!! i).
Proof.
  intros (_ & Ht & _) Hi. unfold table_sizes in Ht.
  change (Z.to_nat NUM_TAGGED_TABLES) with 12%nat in Hi.
  assert (Hl : map vsize (tagged_tables s) !! i = map entries TAGGED_CONFIGS !! i)
    by (by rewrite Ht).
  change (map vsize) with (fmap (M:=list) (@vsize TaggedEntry)) in Hl.
  change (map entries) with (fmap (M:=list) entries) in Hl.
  rewrite !list_lookup_fmap in Hl.
  destruct (lookup_lt_is_Some_2 TAGGED_CONFIGS i) as [cfg Hc]; [cbn; lia|].
  rewrite Hc in Hl. cbn in Hl.
  destruct (tagged_tables s !! i) as [t|] eqn:E; [|discriminate].
  cbn in Hl. injection Hl as Hl.
  rewrite (list_lookup_total_correct _ _ _ E), (list_lookup_total_correct _ _ _ Hc), Hl.
  unfold entries. apply Z.shiftl_1_l.
Qed.

Lemma shape_weights_size s (i : nat) :
  shape s → (i < Z.to_nat NUM_TAGGED_TABLES)%nat →
  vsize (weights s !!! i) = MAX_HISTORY + 1.
Proof.
  intros (_ & _ & Hw & _) Hi.
  assert (Hl : map vsize (weights s) !! i
               = replicate (Z.to_nat NUM_TAGGED_TABLES) (MAX_HISTORY + 1) !! i)
    by (by rewrite Hw).
  change (map vsize) with (fmap (M:=list) (@vsize Z)) in Hl.
  rewrite list_lookup_fmap, lookup_replicate_2 in Hl by exact Hi.
  destruct (weights s !! i) as [w|] eqn:E; [|discriminate].
  cbn in Hl. injection Hl as Hl. by rewrite (list_lookup_total_correct _ _ _ E).
Qed.

Lemma config_widths (i : nat) :
  (i < Z.to_nat NUM_TAGGED_TABLES)%nat →
  0 ≤ index_bits (TAGGED_CONFIGS !!! i) ∧ 0 ≤ tag_bits (TAGGED_CONFIGS !!! i) ≤ 16.
Proof.
  change (Z.to_nat NUM_TAGGED_TABLES) with 12%nat. intros Hi.
  do 12 (destruct i as [|i]; [cbn; lia|]). lia.
Qed.

(** No access leaves its vector.  Along every call sequence from the
    constructor's state that completes, each tagged table has
    [2 ^ index_bits] slots, so an index hash is inside its table before
    [% table.size()] is applied, which changes nothing; a tag hash fits
    the 16-bit tag field; the base index [PC % base_table.size()] is
    inside the base table; and each weight row has [MAX_HISTORY + 1]
    entries, the last one being the bias. *)
Theorem slots_are_inside_their_vectors cs s PC g skip (i : nat) :
  run cold cs = Ok s →
  (i < Z.to_nat NUM_TAGGED_TABLES)%nat →
  (∀ h, compute_hash PC g (hist_len (TAGGED_CONFIGS !!! i)) skip
                     (index_bits (TAGGED_CONFIGS !!! i)) = Ok h →
        0 ≤ h < vsize (tagged_tables s !!! i) ∧ h mod vsize (tagged_tables s !!! i) = h)
  ∧ (∀ t, compute_hash PC g (hist_len (TAGGED_CONFIGS !!! i)) skip
                       (tag_bits (TAGGED_CONFIGS !!! i)) = Ok t → u16 t = t)
  ∧ 0 ≤ PC mod vsize (base_table s) < vsize (base_table s)
  ∧ vsize (weights s !!! i) = MAX_HISTORY + 1.
Proof.
  intros Hrun Hi.
  assert (Hs : shape s) by (eapply run_shape; [apply cold_shape | exact Hrun]).
  destruct (config_widths i Hi) as [Hib Htb].
  split; [|split; [|split]].
  - intros h Hh. apply compute_hash_range in Hh; [|exact Hib].
    rewrite (shape_table_size s i Hs Hi). split; [exact Hh|]. by apply Z.mod_small.
  - intros t Ht. apply compute_hash_range in Ht; [|lia].
    unfold u16. apply Z.mod_small.
    assert (2 ^ tag_bits (TAGGED_CONFIGS !!! i) ≤ 2 ^ 16) by (apply Z.pow_le_mono_r; lia).
    lia.
  - destruct Hs as (Hb & _). rewrite Hb. apply Z.mod_pos_bound. reflexivity.
  - by apply shape_weights_size.
Qed.

(** An instance: the state after [learned_calls], table 11. *)
Lemma slots_are_inside_their_vectors_witness :
  ∃ s, run cold learned_calls = Ok s
       ∧ vsize (tagged_tables s !!! 11%nat) = 512
       ∧ 0 ≤ 123456789 mod vsize (base_table s) < vsize (base_table s)
       ∧ vsize (weights s !!! 11%nat) = MAX_HISTORY + 1.
Proof.
  assert (H : holds_after (run cold learned_calls)
                          (λ s, vsize (tagged_tables s !!! 11%nat) = 512))
    by (vm_compute; reflexivity).
  apply holds_after_ex in H as (s & Hrun & Hsz).
  exists s. split; [exact Hrun|]. split; [exact Hsz|].
  destruct (slots_are_inside_their_vectors learned_calls s 123456789 [] 0 11 Hrun)
    as (_ & _ & Hb & Hw); [vm_compute; lia|].
  split; [exact Hb | exact Hw].
Defined.

(** ** The conversion of the bit total to bytes *)

(** [size & 7 > 0] tests the lowest bit of the total only.  For a
    configuration whose [int] terms are all defined and whose budget is a
    non-negative [int], when the total that [check_memory_budget] reaches
    exceeds eight times the budget by fewer than 8 bits, the check passes
    when the excess is even (2, 4 or 6 bits over the budget, or none) and
    aborts when it is odd. *)
Theorem budget_check_rounds_by_the_low_bit c excess :
  0 ≤ excess < 8 →
  0 ≤ c_max_bytes c < 2 ^ 31 →
  total_bits c = Ok (8 * c_max_bytes c + excess) →
  check_memory_budget c = if Z.even excess then Ok tt else Abort.
Proof.
  intros He Hb Ht. unfold check_memory_budget. rewrite Ht. cbn [obind].
  assert (Hok : int_ok (c_max_bytes c) = true).
  { unfold int_ok. apply andb_true_iff. split; [apply Z.leb_le|apply Z.ltb_lt]; lia. }
  assert (Hu : u64 (c_max_bytes c) = c_max_bytes c)
    by (unfold u64; apply Z.mod_small; lia).
  rewrite Hok, Hu, Budget.bits_to_bytes_spec.
  assert (Hd : (8 * c_max_bytes c + excess) / 8 = c_max_bytes c)
    by (Z.to_euclidean_division_equations; lia).
  assert (Hm : (8 * c_max_bytes c + excess) mod 2 = excess mod 2)
    by (Z.to_euclidean_division_equations; lia).
  rewrite Hd, Hm, Zmod_even.
  destruct (Z.even excess); cbn [Z.eqb].
  - rewrite Z.add_0_r, Z.leb_refl. reflexivity.
  - destruct (_ <=? _) eqn:E; [apply Z.leb_le in E; lia | reflexivity].
Qed.

(** Instances: budgets of one byte with totals of 10 and of 9 bits. *)
Lemma budget_check_rounds_by_the_low_bit_witness :
  total_bits (mkConfig [] 0 0 10 0 3 2 4 1) = Ok (8 * 1 + 2)
  ∧ check_memory_budget (mkConfig [] 0 0 10 0 3 2 4 1) = Ok tt
  ∧ total_bits (mkConfig [] 0 0 9 0 3 2 4 1) = Ok (8 * 1 + 1)
  ∧ check_memory_budget (mkConfig [] 0 0 9 0 3 2 4 1) = Abort.
Proof.
  split; [reflexivity|]. split.
  - apply (budget_check_rounds_by_the_low_bit (mkConfig [] 0 0 10 0 3 2 4 1) 2);
      [lia | cbn; lia | reflexivity].
  - split; [reflexivity|].
    apply (budget_check_rounds_by_the_low_bit (mkConfig [] 0 0 9 0 3 2 4 1) 1);
      [lia | cbn; lia | reflexivity].
Defined.

End RLState.

(** * The snapshot predictor: the register and the slot that is trained *)

Module SnapFacts.
Import TageGood SnapMore TageFacts TageRange.

Lemma snap_update_store s seq_no piece PC r p nextPC :
  speculative_states (update s seq_no piece PC r p nextPC)
  = delete (get_unique_inst_id seq_no piece) (speculative_states s).
Proof.
  unfold update.
  destruct (negb (provider_table _ =? -1)); destruct (RESET_PERIOD <=? _); reflexivity.
Qed.

Lemma snap_update_ghr s seq_no piece PC r p nextPC :
  ghr (update s seq_no piece PC r p nextPC)
  = if negb (eqb p r)
    then push_history
           (ghr_snapshot (spec_lookup (speculative_states s)
                                      (get_unique_inst_id seq_no piece))) r
    else ghr s.
Proof.
  unfold update.
  destruct (negb (provider_table _ =? -1)); destruct (RESET_PERIOD <=? _); reflexivity.
Qed.

Lemma snap_lookup_some m i st : m !! i = Some st → spec_lookup m i = st.
Proof. intros E. unfold spec_lookup. by rewrite E. Qed.

Lemma snap_step_other s c id :
  call_id c ≠ id →
  speculative_states (step s c) !! id = speculative_states s !! id.
Proof.
  intros Hid. destruct c; cbn [step call_id] in *.
  - rewrite snap_predict_spec. cbn. by rewrite lookup_insert_ne.
  - cbn. by rewrite lookup_insert_ne.
  - rewrite snap_update_store. by rewrite lookup_delete_ne.
Qed.

Lemma snap_run_other cs : ∀ s id,
  Forall (λ c, call_id c ≠ id) cs →
  speculative_states (run s cs) !! id = speculative_states s !! id.
Proof.
  unfold run. induction cs as [|c cs IH]; intros s id Hall; cbn [fold_left]; [reflexivity|].
  inversion Hall as [|? ? Hc Hall']; subst.
  rewrite (IH _ _ Hall'). by apply snap_step_other.
Qed.

(** The register restarts from the identity's snapshot.  Whatever other
    identities pushed or resolved since the identity's [predict], its
    [history_update] sets the register to the register as of that
    [predict] followed by its bit, and its [update] on a misprediction,
    after that [history_update] and further calls of others, sets it to
    the register as of [predict] followed by the pushed bit and the
    resolved bit. *)
Theorem snap_register_restarts_from_snapshot s seq_no piece PC cs PC' taken nextPC
        cs' PC'' r p nextPC' :
  let id := get_unique_inst_id seq_no piece in
  Forall (λ c, call_id c ≠ id) cs →
  Forall (λ c, call_id c ≠ id) cs' →
  let s1 := run (snd (predict s seq_no piece PC)) cs in
  let s2 := history_update s1 seq_no piece PC' taken nextPC in
  ghr s2 = push_history (ghr s) taken
  ∧ (r ≠ p →
     ghr (update (run s2 cs') seq_no piece PC'' r p nextPC')
     = push_history (push_history (ghr s) taken) r).
Proof.
  intros id Hall Hall' s1 s2.
  assert (H1 : speculative_states s1 !! id = Some (checkpoint_along longest_first s PC)).
  { unfold s1. rewrite (snap_run_other _ _ _ Hall), snap_predict_spec. cbn.
    by rewrite lookup_insert_eq. }
  assert (Hsnap : ghr_snapshot (checkpoint_along longest_first s PC) = ghr s).
  { unfold checkpoint_along. by destruct (List.filter _ _). }
  assert (Hg2 : ghr s2 = push_history (ghr s) taken).
  { unfold s2. cbn [ghr history_update]. fold id.
    by rewrite (snap_lookup_some _ _ _ H1), Hsnap. }
  split; [exact Hg2|]. intros Hne.
  rewrite snap_rollback by exact Hne. fold id.
  erewrite snap_lookup_some.
  2:{ rewrite (snap_run_other _ _ _ Hall'). unfold s2.
      cbn [speculative_states history_update]. fold id. apply lookup_insert_eq. }
  cbn [ghr_snapshot]. by rewrite (snap_lookup_some _ _ _ H1), Hsnap.
Qed.

(** An instance on the cold predictor: identity 2 is predicted and pushes
    a taken bit between the [predict] and the [history_update] of
    identity 1, and again before identity 1 resolves. *)
Lemma snap_register_restarts_from_snapshot_witness :
  ghr (run cold [CPredict 1 0 4096; CPredict 2 0 4200; CHistoryUpdate 2 0 4200 true 4204])
  = [true]
  ∧ ghr (run cold [CPredict 1 0 4096; CPredict 2 0 4200; CHistoryUpdate 2 0 4200 true 4204;
                   CHistoryUpdate 1 0 4096 false 4100])
    = [false]
  ∧ ghr (run cold [CPredict 1 0 4096; CPredict 2 0 4200; CHistoryUpdate 2 0 4200 true 4204;
                   CHistoryUpdate 1 0 4096 false 4100; CHistoryUpdate 2 0 4200 true 4204;
                   CUpdate 1 0 4096 true false 4100])
    = [false; true].
Proof.
  destruct (snap_register_restarts_from_snapshot cold 1 0 4096
              [CPredict 2 0 4200; CHistoryUpdate 2 0 4200 true 4204] 4096 false 4100
              [CHistoryUpdate 2 0 4200 true 4204] 4096 true false 4100) as [H1 H2].
  - repeat constructor; vm_compute; discriminate.
  - repeat constructor; vm_compute; discriminate.
  - split; [vm_compute; reflexivity|]. split.
    + exact (eq_trans H1 eq_refl).
    + exact (eq_trans (H2 ltac:(discriminate)) eq_refl).
Defined.

(** ** The capacity of the register *)

Lemma snap_push_history_cap g b :
  vsize g ≤ MAX_HISTORY → vsize (push_history g b) ≤ MAX_HISTORY.
Proof.
  unfold push_history, vsize. intros Hg.
  destruct (_ <? _) eqn:E.
  - apply Z.ltb_lt in E. rewrite length_app in E. cbn [length] in E.
    rewrite length_drop, length_app. cbn [length]. lia.
  - apply Z.ltb_ge in E. exact E.
Qed.

Lemma snap_lookup_capped s id :
  snapshots_capped s →
  vsize (ghr_snapshot (spec_lookup (speculative_states s) id)) ≤ MAX_HISTORY.
Proof.
  intros Hs. unfold spec_lookup.
  destruct (speculative_states s !! id) as [st|] eqn:E.
  - exact (Hs id st E).
  - vm_compute. discriminate.
Qed.

Lemma snap_step_capped s c :
  vsize (ghr s) ≤ MAX_HISTORY ∧ snapshots_capped s →
  vsize (ghr (step s c)) ≤ MAX_HISTORY ∧ snapshots_capped (step s c).
Proof.
  intros [Hg Hs]. destruct c; cbn [step].
  - rewrite snap_predict_spec. cbn [snd]. split; [exact Hg|].
    unfold snapshots_capped. cbn [speculative_states set_specs].
    apply map_Forall_insert_2; [|exact Hs].
    unfold checkpoint_along. by destruct (List.filter _ _).
  - pose proof (snap_push_history_cap _ taken
                  (snap_lookup_capped s (get_unique_inst_id seq_no piece) Hs)) as Hp.
    split; [exact Hp|].
    unfold snapshots_capped. cbn [speculative_states history_update].
    apply map_Forall_insert_2; [exact Hp | exact Hs].
  - split.
    + rewrite snap_update_ghr. destruct (negb _); [|exact Hg].
      apply snap_push_history_cap, snap_lookup_capped, Hs.
    + unfold snapshots_capped. rewrite snap_update_store.
      by apply map_Forall_delete.
Qed.

(** The register never exceeds [MAX_HISTORY] bits, and neither does any
    stored snapshot, along every call sequence from the constructor's
    state. *)
Theorem snap_register_is_capped cs :
  vsize (ghr (run cold cs)) ≤ MAX_HISTORY ∧ snapshots_capped (run cold cs).
Proof.
  assert (H : ∀ s, vsize (ghr s) ≤ MAX_HISTORY ∧ snapshots_capped s →
                   vsize (ghr (run s cs)) ≤ MAX_HISTORY ∧ snapshots_capped (run s cs)).
  { unfold run. induction cs as [|c cs IH]; intros s Hs; cbn [fold_left]; [exact Hs|].
    by apply IH, snap_step_capped. }
  apply H. split.
  - vm_compute. discriminate.
  - unfold snapshots_capped. cbn [speculative_states cold]. apply map_Forall_empty.
Qed.
(** ** The slot that [update] trains *)

Lemma snap_alloc_scan_keeps_row ks PC snap r tables P :
  0 ≤ P → Forall (λ k, P < k) ks →
  vget (alloc_scan ks PC snap r tables) P = vget tables P.
Proof.
  intros HP Hks. induction ks as [|k rest IH]; cbn [alloc_scan]; [reflexivity|].
  inversion Hks as [|? ? Hk Hrest]; subst.
  destruct (u _ =? 0); [|by apply IH].
  unfold set_table_entry. apply vget_vset_ne; lia.
Qed.

Lemma vget_age_row (tables : list (list TaggedEntry)) P :
  vget (age_tables tables) P
  = map (λ e, set_u e (Z.shiftr (u e) 1)) (vget tables P).
Proof.
  unfold vget, age_tables.
  change (map (map (λ e, set_u e (Z.shiftr (u e) 1))) tables)
    with (fmap (M:=list) (map (λ e, set_u e (Z.shiftr (u e) 1))) tables).
  rewrite !list_lookup_total_alt, list_lookup_fmap.
  by destruct (tables !! Z.to_nat P).
Qed.

Lemma ctr_vget_aged (row : list TaggedEntry) i :
  ctr (vget (map (λ e, set_u e (Z.shiftr (u e) 1)) row) i) = ctr (vget row i).
Proof.
  unfold vget.
  change (map (λ e, set_u e (Z.shiftr (u e) 1)) row)
    with (fmap (M:=list) (λ e, set_u e (Z.shiftr (u e) 1)) row).
  rewrite !list_lookup_total_alt, list_lookup_fmap.
  by destruct (row !! Z.to_nat i).
Qed.

Lemma snap_shape_table_size s P :
  shape s → 0 ≤ P < NUM_TAGGED_TABLES →
  0 < vsize (vget (tagged_tables s) P).
Proof.
  intros (_ & Ht) HP. unfold table_sizes in Ht.
  assert (Hl : map vsize (tagged_tables s) !! Z.to_nat P
               = map entries TAGGED_CONFIGS !! Z.to_nat P) by (by rewrite Ht).
  change (map vsize) with (fmap (M:=list) (@vsize TaggedEntry)) in Hl.
  rewrite list_lookup_fmap in Hl. unfold vget.
  destruct (tagged_tables s !! Z.to_nat P) as [t|] eqn:E.
  - rewrite (list_lookup_total_correct _ _ _ E). cbn in Hl.
    assert (Hpos : Forall (λ n, 0 < n) (map entries TAGGED_CONFIGS))
      by (repeat constructor).
    rewrite Forall_forall in Hpos. apply Hpos.
    eapply list_elem_of_lookup_2. symmetry. exact Hl.
  - exfalso. cbn in Hl. symmetry in Hl. apply lookup_ge_None in Hl.
    unfold NUM_TAGGED_TABLES in HP. cbn [length] in Hl. lia.
Qed.

Lemma snap_checkpoint_provider s PC :
  let st := checkpoint_along longest_first s PC in
  ghr_snapshot st = ghr s
  ∧ (provider_table st = -1 ∨ 0 ≤ provider_table st < NUM_TAGGED_TABLES).
Proof.
  unfold checkpoint_along.
  destruct (List.filter (hit s PC) longest_first) as [|P rest] eqn:E; cbn.
  - split; [reflexivity|]. by left.
  - split; [reflexivity|]. right.
    assert (Hin : In P (List.filter (hit s PC) longest_first)) by (rewrite E; by left).
    apply filter_In in Hin as [Hin _]. unfold NUM_TAGGED_TABLES. cbn in Hin. lia.
Qed.

(** Resolving right after predicting trains what was consulted.  When
    [update] follows the identity's [predict] with no [history_update] in
    between, the counter it steps towards the resolved direction is the
    one [predict] read: the provider's slot under the register as of
    [predict], or the base counter of the PC when no table matched. *)
Theorem snap_update_trains_the_consulted_slot s seq_no piece PC r p nextPC :
  shape s →
  let st := checkpoint_along longest_first s PC in
  let s2 := update (snd (predict s seq_no piece PC)) seq_no piece PC r p nextPC in
  if provider_table st =? -1
  then vget (base_table s2) (PC mod vsize (base_table s))
       = base_step r (vget (base_table s) (PC mod vsize (base_table s)))
  else ctr (entry_at (tagged_tables s2) (ghr s) PC (provider_table st))
       = ctr_step r (ctr (entry_at (tagged_tables s) (ghr s) PC (provider_table st))).
Proof.
  intros Hs st s2. subst s2. rewrite snap_predict_spec. cbn [snd]. fold st.
  destruct (snap_checkpoint_provider s PC) as [Hsnap HP]. fold st in Hsnap, HP.
  unfold update.
  rewrite (snap_lookup_some _ _ st) by (cbn; apply lookup_insert_eq).
  cbn [base_table tagged_tables set_specs ghr use_alt_on_na reset_counter max_hist
       speculative_states].
  destruct (provider_table st =? -1) eqn:Ep; cbn [negb].
  - assert (Hb : 0 ≤ PC mod vsize (base_table s) < vsize (base_table s)).
    { destruct Hs as [Hb _]. rewrite Hb. apply Z.mod_pos_bound. reflexivity. }
    destruct (RESET_PERIOD <=? _); cbn [base_table]; by apply vget_vset_eq.
  - apply Z.eqb_neq in Ep. destruct HP as [HP|HP]; [lia|].
    set (P := provider_table st) in *.
    pose proof (snap_shape_table_size s P Hs HP) as Hsz.
    set (row := vget (tagged_tables s) P) in *.
    set (h := compute_hash0 PC (ghr s) (hist_len (vget TAGGED_CONFIGS P))
                            (index_bits (vget TAGGED_CONFIGS P))).
    assert (Hidx : 0 ≤ h mod vsize row < vsize row) by (by apply Z.mod_pos_bound).
    assert (HPlen : 0 ≤ P < vsize (tagged_tables s)).
    { destruct Hs as [_ Ht]. unfold table_sizes in Ht.
      apply (f_equal length) in Ht. rewrite !length_map in Ht.
      unfold vsize, NUM_TAGGED_TABLES in *. rewrite Ht. cbn. lia. }
    assert (Hrow : ∃ e, vget (update_provider
                                (set_specs s (<[get_unique_inst_id seq_no piece := st]>
                                                (speculative_states s)))
                                st PC r p) P
                        = vset row (h mod vsize row) e
                        ∧ ctr e = ctr_step r (ctr (vget row (h mod vsize row)))).
    { unfold update_provider, index_at. rewrite Hsnap.
      cbn [tagged_tables set_specs]. fold P. fold row. fold h.
      eexists. split.
      - destruct (eqb (negb r) p).
        + rewrite snap_alloc_scan_keeps_row; [| lia |].
          * unfold set_table_entry. fold row. by apply vget_vset_eq.
          * apply Forall_forall. intros k Hk. apply elem_of_seqZ in Hk. lia.
        + unfold set_table_entry. fold row. by apply vget_vset_eq.
      - reflexivity. }
    destruct Hrow as (e & Hrow & He).
    unfold entry_at. fold row. fold h.
    destruct (RESET_PERIOD <=? _); cbn [tagged_tables].
    + rewrite vget_age_row, Hrow.
      assert (Hlen : vsize (map (λ e0, set_u e0 (Z.shiftr (u e0) 1))
                                (vset row (h mod vsize row) e)) = vsize row).
      { unfold vsize, vset. by rewrite length_map, length_insert. }
      rewrite Hlen, ctr_vget_aged, vget_vset_eq by exact Hidx. exact He.
    + rewrite Hrow.
      assert (Hlen : vsize (vset row (h mod vsize row) e) = vsize row).
      { unfold vsize, vset. by rewrite length_insert. }
      rewrite Hlen, vget_vset_eq by exact Hidx. exact He.
Qed.

(** Instances on the cold predictor: PC 4096 hits table 8 and its counter
    goes from 0 to 1; PC 32767 hits no table and its base counter goes
    from 0 to -1. *)
Lemma snap_update_trains_the_consulted_slot_witness :
  provider_table (checkpoint_along longest_first cold 4096) = 8
  ∧ ctr (entry_at (tagged_tables (update (snd (predict cold 1 0 4096)) 1 0 4096 true true 4100))
                  (ghr cold) 4096 8)
    = 1
  ∧ provider_table (checkpoint_along longest_first cold 32767) = -1
  ∧ vget (base_table (update (snd (predict cold 1 0 32767)) 1 0 32767 false true 32771))
         (32767 mod vsize (base_table cold))
    = -1.
Proof.
  pose proof (snap_update_trains_the_consulted_slot cold 1 0 4096 true true 4100
                snap_cold_shape) as H1.
  pose proof (snap_update_trains_the_consulted_slot cold 1 0 32767 false true 32771
                snap_cold_shape) as H2.
  assert (E1 : provider_table (checkpoint_along longest_first cold 4096) = 8)
    by (vm_compute; reflexivity).
  assert (E2 : provider_table (checkpoint_along longest_first cold 32767) = -1)
    by (vm_compute; reflexivity).
  cbn zeta in H1, H2. rewrite E1 in H1. rewrite E2 in H2.
  change (8 =? -1) with false in H1. change (-1 =? -1) with true in H2.
  split; [exact E1|]. split; [exact (eq_trans H1 eq_refl)|].
  split; [exact E2|]. exact (eq_trans H2 eq_refl).
Defined.

End SnapFacts.

(** * The seven-table predictor *)

Module SevenFacts.
Import TageSeven.

(** ** [find_provider] and [predict] *)

(** The scratch fields after the scan, given the banks that hit, longest
    history first. *)
Lemma seven_find_loop_both s PC p ip a ia l :
  0 ≤ p → 0 ≤ a →
  fold_left (find_step PC) l (set_altpred (set_provider s p ip) a ia)
  = set_altpred (set_provider s p ip) a ia.
Proof.
  intros Hp Ha. induction l as [|i l IH]; cbn [fold_left]; [reflexivity|].
  assert (Hstep : find_step PC (set_altpred (set_provider s p ip) a ia) i
                  = set_altpred (set_provider s p ip) a ia).
  { unfold find_step. destruct (valid _ && _); [|reflexivity].
    cbn [provider_table altpred_table set_altpred set_provider].
    destruct (p <? 0) eqn:E1; [apply Z.ltb_lt in E1; lia|].
    destruct (a <? 0) eqn:E2; [apply Z.ltb_lt in E2; lia|]. reflexivity. }
  rewrite Hstep. exact IH.
Qed.

Lemma seven_find_loop_alt s PC p ia l :
  0 ≤ p → Forall (λ i, 0 ≤ i) l →
  fold_left (find_step PC) l (set_altpred (set_provider s p (get_index s PC p)) (-1) ia)
  = match List.filter (hit s PC) l with
    | [] => set_altpred (set_provider s p (get_index s PC p)) (-1) ia
    | a :: _ => set_altpred (set_provider s p (get_index s PC p)) a (get_index s PC a)
    end.
Proof.
  intros Hp Hl. induction l as [|i l IH]; cbn [fold_left List.filter]; [reflexivity|].
  inversion Hl as [|? ? Hi Hl']; subst.
  assert (Hstep : find_step PC (set_altpred (set_provider s p (get_index s PC p)) (-1) ia) i
                  = if hit s PC i
                    then set_altpred (set_provider s p (get_index s PC p)) i (get_index s PC i)
                    else set_altpred (set_provider s p (get_index s PC p)) (-1) ia).
  { unfold find_step, hit.
    change (get_index (set_altpred (set_provider s p (get_index s PC p)) (-1) ia) PC i)
      with (get_index s PC i).
    change (get_tag (set_altpred (set_provider s p (get_index s PC p)) (-1) ia) PC i)
      with (get_tag s PC i).
    change (entry_at (set_altpred (set_provider s p (get_index s PC p)) (-1) ia) i
                     (get_index s PC i))
      with (entry_at s i (get_index s PC i)).
    destruct (valid _ && _); [|reflexivity].
    cbn [provider_table altpred_table set_altpred set_provider].
    destruct (p <? 0) eqn:E1; [apply Z.ltb_lt in E1; lia|]. reflexivity. }
  rewrite Hstep. destruct (hit s PC i); [|exact (IH Hl')].
  by apply seven_find_loop_both.
Qed.

Lemma seven_find_loop_none s PC ip ia l :
  Forall (λ i, 0 ≤ i) l →
  fold_left (find_step PC) l (set_altpred (set_provider s (-1) ip) (-1) ia)
  = match List.filter (hit s PC) l with
    | [] => set_altpred (set_provider s (-1) ip) (-1) ia
    | p :: rest =>
        match rest with
        | [] => set_altpred (set_provider s p (get_index s PC p)) (-1) ia
        | a :: _ => set_altpred (set_provider s p (get_index s PC p)) a (get_index s PC a)
        end
    end.
Proof.
  intros Hl. induction l as [|i l IH]; cbn [fold_left List.filter]; [reflexivity|].
  inversion Hl as [|? ? Hi Hl']; subst.
  assert (Hstep : find_step PC (set_altpred (set_provider s (-1) ip) (-1) ia) i
                  = if hit s PC i
                    then set_altpred (set_provider s i (get_index s PC i)) (-1) ia
                    else set_altpred (set_provider s (-1) ip) (-1) ia).
  { unfold find_step, hit.
    change (get_index (set_altpred (set_provider s (-1) ip) (-1) ia) PC i)
      with (get_index s PC i).
    change (get_tag (set_altpred (set_provider s (-1) ip) (-1) ia) PC i)
      with (get_tag s PC i).
    change (entry_at (set_altpred (set_provider s (-1) ip) (-1) ia) i (get_index s PC i))
      with (entry_at s i (get_index s PC i)).
    destruct (valid _ && _); reflexivity. }
  rewrite Hstep. destruct (hit s PC i); [|exact (IH Hl')].
  by apply seven_find_loop_alt.
Qed.

Lemma banks_down_nonneg : Forall (λ i, 0 ≤ i) banks_down.
Proof. repeat constructor; discriminate. Qed.

Lemma seven_find_provider_spec s PC :
  find_provider s PC
  = match List.filter (hit s PC) banks_down with
    | [] => set_altpred (set_provider s (-1) (provider_idx s)) (-1) (altpred_idx s)
    | p :: rest =>
        match rest with
        | [] => set_altpred (set_provider s p (get_index s PC p)) (-1) (altpred_idx s)
        | a :: _ => set_altpred (set_provider s p (get_index s PC p)) a (get_index s PC a)
        end
    end.
Proof. unfold find_provider. apply seven_find_loop_none, banks_down_nonneg. Qed.

Lemma filter_nonneg (f : Z → bool) l :
  Forall (λ i, 0 ≤ i) l → Forall (λ i, 0 ≤ i) (List.filter f l).
Proof.
  intros Hl. apply Forall_forall. intros x Hx. apply list_elem_of_In in Hx.
  apply filter_In in Hx as [Hx _]. rewrite Forall_forall in Hl.
  apply Hl. by apply list_elem_of_In.
Qed.

(** [predict] scans the banks from the longest history to the shortest.
    The first bank whose slot is valid and carries the tag of the PC is the
    provider and its counter's upper half is the prediction; the next such
    bank gives the alternate bit; the bimodal counter stands in for
    whichever is missing.  [predict] changes the scratch fields only: it
    stores no snapshot. *)
Theorem seven_predict_follows_longest_match s seq_no piece PC :
  let hits := List.filter (hit s PC) banks_down in
  let s' := snd (predict s seq_no piece PC) in
  banks_down = [6; 5; 4; 3; 2; 1; 0]
  ∧ fst (predict s seq_no piece PC)
    = match hits with
      | [] => bimodal_taken s PC
      | p :: _ => counter_taken (entry_at s p (get_index s PC p))
      end
  ∧ pred_taken s' = fst (predict s seq_no piece PC)
  ∧ alt_pred_taken s'
    = match hits with
      | _ :: a :: _ => counter_taken (entry_at s a (get_index s PC a))
      | _ => bimodal_taken s PC
      end
  ∧ provider_table s' = match hits with [] => -1 | p :: _ => p end
  ∧ tage_tables s' = tage_tables s ∧ bimodal s' = bimodal s ∧ history s' = history s
  ∧ clock s' = clock s ∧ speculative_histories s' = speculative_histories s.
Proof.
  intros hits s'. split; [reflexivity|].
  subst s'. unfold predict. rewrite seven_find_provider_spec. fold hits.
  pose proof (filter_nonneg (hit s PC) banks_down banks_down_nonneg) as Hn. fold hits in Hn.
  destruct hits as [|p [|a rest]].
  - cbn. repeat split.
  - inversion Hn as [|? ? Hp _]; subst.
    cbn [provider_table altpred_table set_altpred set_provider].
    destruct (0 <=? p) eqn:E; [|apply Z.leb_gt in E; lia].
    cbn. repeat split.
  - inversion Hn as [|? ? Hp Hn']; subst. inversion Hn' as [|? ? Ha _]; subst.
    cbn [provider_table altpred_table set_altpred set_provider].
    destruct (0 <=? p) eqn:E; [|apply Z.leb_gt in E; lia].
    destruct (0 <=? a) eqn:E'; [|apply Z.leb_gt in E'; lia].
    cbn. repeat split.
Qed.

(** ** Ranges, sizes and bounds *)

Lemma seven_bank_cases i :
  0 ≤ i < NUM_TAGE_TABLES → i = 0 ∨ i = 1 ∨ i = 2 ∨ i = 3 ∨ i = 4 ∨ i = 5 ∨ i = 6.
Proof. unfold NUM_TAGE_TABLES. lia. Qed.

Lemma land_low_bits x k : 0 ≤ k → 0 ≤ Z.land x (Z.ones k) < 2 ^ k.
Proof. intros Hk. rewrite Z.land_ones by exact Hk. apply Z.mod_pos_bound. lia. Qed.

Lemma seven_get_index_range s PC i :
  0 ≤ i < NUM_TAGE_TABLES → 0 ≤ get_index s PC i < vget TAGE_TABLE_SIZE i.
Proof.
  intros Hi. unfold get_index.
  destruct (seven_bank_cases i Hi) as [->|[->|[->|[->|[->|[->| ->]]]]]].
  - change (vget TAGE_TABLE_SIZE 0) with (2 ^ 10).
    change (2 ^ 10 - 1) with (Z.ones 10). apply land_low_bits. lia.
  - change (vget TAGE_TABLE_SIZE 1) with (2 ^ 9).
    change (2 ^ 9 - 1) with (Z.ones 9). apply land_low_bits. lia.
  - change (vget TAGE_TABLE_SIZE 2) with (2 ^ 9).
    change (2 ^ 9 - 1) with (Z.ones 9). apply land_low_bits. lia.
  - change (vget TAGE_TABLE_SIZE 3) with (2 ^ 8).
    change (2 ^ 8 - 1) with (Z.ones 8). apply land_low_bits. lia.
  - change (vget TAGE_TABLE_SIZE 4) with (2 ^ 8).
    change (2 ^ 8 - 1) with (Z.ones 8). apply land_low_bits. lia.
  - change (vget TAGE_TABLE_SIZE 5) with (2 ^ 7).
    change (2 ^ 7 - 1) with (Z.ones 7). apply land_low_bits. lia.
  - change (vget TAGE_TABLE_SIZE 6) with (2 ^ 7).
    change (2 ^ 7 - 1) with (Z.ones 7). apply land_low_bits. lia.
Qed.

Lemma seven_get_tag_range s PC i :
  0 ≤ i < NUM_TAGE_TABLES → 0 ≤ get_tag s PC i < 2 ^ vget TAGE_TAG_BITS i
                            ∧ 0 ≤ vget TAGE_TAG_BITS i ≤ 12.
Proof.
  intros Hi. unfold get_tag.
  assert (Hb : 0 ≤ vget TAGE_TAG_BITS i ≤ 12).
  { destruct (seven_bank_cases i Hi) as [->|[->|[->|[->|[->|[->| ->]]]]]];
      vm_compute; split; discriminate. }
  split; [|exact Hb].
  rewrite Z.shiftl_1_l, Z.sub_1_r, <- Z.ones_equiv. apply land_low_bits. lia.
Qed.

Lemma seven_entry_ok_default : entry_ok inhabitant.
Proof. vm_compute. repeat split; first [discriminate | reflexivity]. Qed.

Lemma seven_entry_at_ok s i idx :
  Forall (Forall entry_ok) (tage_tables s) → entry_ok (entry_at s i idx).
Proof.
  intros Ht. unfold entry_at. apply (vget_ok entry_ok); [apply seven_entry_ok_default|].
  apply (vget_ok (Forall entry_ok)); [constructor | exact Ht].
Qed.

Lemma seven_push_history_cap s h b :
  ghist_length s = MAX_HISTORY_LENGTH →
  vsize h ≤ MAX_HISTORY_LENGTH → vsize (push_history s h b) ≤ MAX_HISTORY_LENGTH.
Proof.
  unfold push_history, vsize. intros -> Hh.
  destruct (_ <? _) eqn:E.
  - apply Z.ltb_lt in E. rewrite length_app in E. cbn [length] in E.
    rewrite length_drop, length_app. cbn [length]. lia.
  - apply Z.ltb_ge in E. exact E.
Qed.

Lemma seven_write_entry_wf s i idx e :
  well_formed s → entry_ok e → well_formed (write_entry s i idx e).
Proof.
  intros (Hsz & Hb & Hg & Ht & Hbm & Hh & Hsn) He.
  unfold well_formed, write_entry. cbn.
  split; [|split; [exact Hb|split; [exact Hg|split; [|split; [exact Hbm|split; [exact Hh|exact Hsn]]]]]].
  - rewrite map_vsize_vset; [exact Hsz|]. apply vsize_vset.
  - apply vset_ok; [exact Ht|]. apply vset_ok; [|exact He].
    apply (vget_ok (Forall entry_ok)); [constructor | exact Ht].
Qed.

Lemma seven_new_entry_ok s PC r i : entry_ok (new_entry s PC r i).
Proof.
  unfold entry_ok, new_entry. cbn [counter useful tag].
  split; [destruct r; vm_compute; split; discriminate|].
  split; [lia|]. unfold u16. apply Z.mod_pos_bound. lia.
Qed.

Lemma seven_alloc_loop_wf s PC r banks :
  well_formed s → well_formed (alloc_loop s PC r banks).
Proof.
  intros Hs. induction banks as [|i rest IH]; cbn [alloc_loop]; [exact Hs|].
  destruct (free_slot s PC i); [|exact IH].
  apply seven_write_entry_wf; [exact Hs | apply seven_new_entry_ok].
Qed.

Lemma seven_counter_step_ok r c : 0 ≤ c ≤ 3 → 0 ≤ counter_step r c ≤ 3.
Proof.
  intros Hc. unfold counter_step, u8.
  change (Z.shiftl 1 TAGE_COUNTER_BITS - 1) with 3.
  destruct r.
  - destruct (c <? 3) eqn:E; [|lia]. apply Z.ltb_lt in E. rewrite Z.mod_small; lia.
  - destruct (0 <? c) eqn:E; [|lia]. apply Z.ltb_lt in E. rewrite Z.mod_small; lia.
Qed.

Lemma seven_bimodal_step_ok r b : 0 ≤ b ≤ 3 → 0 ≤ bimodal_step r b ≤ 3.
Proof.
  intros Hc. unfold bimodal_step, u8.
  destruct r.
  - destruct (b <? 3) eqn:E; [|lia]. apply Z.ltb_lt in E. rewrite Z.mod_small; lia.
  - destruct (0 <? b) eqn:E; [|lia]. apply Z.ltb_lt in E. rewrite Z.mod_small; lia.
Qed.

Lemma seven_find_provider_core s PC :
  let s' := find_provider s PC in
  tage_tables s' = tage_tables s ∧ bimodal s' = bimodal s ∧ history s' = history s
  ∧ ghist_length s' = ghist_length s ∧ clock s' = clock s
  ∧ pred_taken s' = pred_taken s ∧ alt_pred_taken s' = alt_pred_taken s
  ∧ speculative_histories s' = speculative_histories s.
Proof.
  cbn zeta. rewrite seven_find_provider_spec.
  destruct (List.filter (hit s PC) banks_down) as [|p [|a rest]]; cbn; repeat split.
Qed.

Lemma seven_find_provider_wf s PC : well_formed s → well_formed (find_provider s PC).
Proof.
  intros Hs. destruct (seven_find_provider_core s PC) as (H1 & H2 & H3 & H4 & _ & _ & _ & H8).
  unfold well_formed. by rewrite H1, H2, H3, H4, H8.
Qed.

Lemma seven_set_preds_wf s p a : well_formed s → well_formed (set_preds s p a).
Proof. intros Hs. exact Hs. Qed.

Lemma seven_predict_wf s seq_no piece PC :
  well_formed s → well_formed (snd (predict s seq_no piece PC)).
Proof.
  intros Hs. apply (seven_find_provider_wf s PC) in Hs. unfold predict.
  generalize dependent (find_provider s PC). intros X HX. cbv zeta.
  destruct (0 <=? provider_table X); cbn [snd]; by apply seven_set_preds_wf.
Qed.

Lemma seven_age_wf s : well_formed s → well_formed (age_useful_bits s).
Proof.
  intros (Hsz & Hb & Hg & Ht & Hbm & Hh & Hsn).
  unfold well_formed, age_useful_bits. cbn.
  split; [|split; [exact Hb|split; [exact Hg|split; [|split; [exact Hbm|split; [exact Hh|exact Hsn]]]]]].
  - rewrite <- Hsz, map_map. apply map_ext. intros t. unfold vsize. by rewrite length_map.
  - apply Forall_map. eapply Forall_impl; [exact Ht|]. intros t Hrow. apply Forall_map.
    eapply Forall_impl; [exact Hrow|]. intros e (Hc & Hu & Htg).
    unfold entry_ok. cbn. split; [exact Hc|]. split; [|exact Htg].
    rewrite Z.shiftr_div_pow2 by lia. change (2 ^ 1) with 2.
    Z.to_euclidean_division_equations. lia.
Qed.

Lemma seven_restore_wf s id : well_formed s → well_formed (restore s id).
Proof.
  intros Hs. unfold restore.
  destruct (speculative_histories s !! id) as [h|] eqn:E; [|exact Hs].
  destruct Hs as (Hsz & Hb & Hg & Ht & Hbm & Hh & Hsn).
  unfold well_formed. cbn.
  split; [exact Hsz|]. split; [exact Hb|]. split; [exact Hg|]. split; [exact Ht|].
  split; [exact Hbm|]. split; [exact (Hsn id h E)|]. by apply map_Forall_delete.
Qed.

Lemma seven_tick_wf s : well_formed s → well_formed (tick s).
Proof.
  intros Hs. unfold tick.
  assert (Hc : well_formed (set_clock s (u64 (clock s + 1)))) by exact Hs.
  destruct (_ =? 0); [by apply seven_age_wf | exact Hc].
Qed.

Lemma seven_train_wf s PC r p : well_formed s → well_formed (train s PC r p).
Proof.
  intros Hs. unfold train, allocate_new_entry.
  pose proof Hs as (Hsz & Hb & Hg & Ht & Hbm & Hh & Hsn).
  destruct (0 <=? provider_table s).
  - pose proof (seven_entry_at_ok s (provider_table s) (provider_idx s) Ht) as (Hc & Hu & Htg).
    set (e := entry_at s (provider_table s) (provider_idx s)) in *.
    assert (He1 : entry_ok (set_counter e (counter_step r (counter e)))).
    { unfold entry_ok. cbn. split; [by apply seven_counter_step_ok | by split]. }
    destruct (negb (eqb p r)).
    + assert (He2 : entry_ok (if 0 <? useful (set_counter e (counter_step r (counter e)))
                              then set_useful (set_counter e (counter_step r (counter e)))
                                     (u8 (useful (set_counter e (counter_step r (counter e))) - 1))
                              else set_counter e (counter_step r (counter e)))).
      { cbn [useful set_counter]. destruct (0 <? useful e) eqn:E; [|exact He1].
        apply Z.ltb_lt in E. unfold entry_ok. cbn.
        split; [by apply seven_counter_step_ok|]. split; [|exact Htg].
        unfold u8. rewrite Z.mod_small; lia. }
      destruct (negb (eqb (alt_pred_taken s) r)).
      * apply seven_alloc_loop_wf. by apply seven_write_entry_wf.
      * by apply seven_write_entry_wf.
    + apply seven_write_entry_wf; [exact Hs|].
      cbn [useful set_counter].
      change (Z.shiftl 1 TAGE_USEFUL_BITS - 1) with 1.
      destruct (useful e <? 1) eqn:E; [|exact He1].
      apply Z.ltb_lt in E. unfold entry_ok. cbn.
      split; [by apply seven_counter_step_ok|]. split; [|exact Htg].
      unfold u8. rewrite Z.mod_small; lia.
  - assert (Hs1 : well_formed
                    (set_bimodal s
                       (vset (bimodal s) (PC mod BIMODAL_SIZE)
                             (bimodal_step r (vget (bimodal s) (PC mod BIMODAL_SIZE)))))).
    { unfold well_formed. cbn.
      split; [exact Hsz|]. split; [by rewrite vsize_vset|]. split; [exact Hg|].
      split; [exact Ht|]. split; [|by split].
      apply vset_ok; [exact Hbm|]. apply seven_bimodal_step_ok.
      apply (vget_ok (λ b, 0 ≤ b ≤ 3)); [cbn; lia | exact Hbm]. }
    destruct (negb (eqb p r)); [by apply seven_alloc_loop_wf | exact Hs1].
Qed.

Lemma seven_push_wf s b :
  well_formed s → well_formed (set_history s (push_history s (history s) b)).
Proof.
  intros (Hsz & Hb & Hg & Ht & Hbm & Hh & Hsn). unfold well_formed. cbn.
  split; [exact Hsz|]. split; [exact Hb|]. split; [exact Hg|]. split; [exact Ht|].
  split; [exact Hbm|]. split; [by apply seven_push_history_cap | exact Hsn].
Qed.

Lemma Ok_inj {A} (a b : A) : Ok a = Ok b → a = b.
Proof. by intros [= ->]. Qed.

(** Splitting a bind without unfolding what follows it. *)
Ltac split_obind H :=
  match type of H with
  | obind ?m _ = Ok _ =>
      let E := fresh "E" in
      destruct m eqn:E; cbn [obind] in H; [| discriminate H | discriminate H]
  end.

Lemma seven_step_wf s c s' : well_formed s → step s c = Ok s' → well_formed s'.
Proof.
  intros Hs. destruct c; cbn [step]; intros H.
  - apply Ok_inj in H. subst s'. by apply seven_predict_wf.
  - unfold history_update in H. split_obind H. cbv zeta in H. apply Ok_inj in H. subst s'.
    apply (seven_push_wf (set_snapshots s (<[a := history s]> (speculative_histories s)))
                         taken).
    destruct Hs as (Hsz & Hb & Hg & Ht & Hbm & Hh & Hsn). unfold well_formed. cbn.
    split; [exact Hsz|]. split; [exact Hb|]. split; [exact Hg|]. split; [exact Ht|].
    split; [exact Hbm|]. split; [exact Hh|]. by apply map_Forall_insert_2.
  - unfold update in H. split_obind H. cbv zeta in H. apply Ok_inj in H. subst s'.
    pose proof (seven_restore_wf s a Hs) as H1.
    pose proof (seven_tick_wf _ H1) as H2.
    pose proof (seven_find_provider_wf _ PC H2) as H3.
    pose proof (seven_train_wf _ PC resolveDir predDir H3) as H4.
    exact (seven_push_wf _ resolveDir H4).
Qed.

Lemma seven_run_wf cs : ∀ s s', well_formed s → run s cs = Ok s' → well_formed s'.
Proof.
  induction cs as [|c cs IH]; intros s s' Hs H; cbn [run] in H.
  - apply Ok_inj in H. by subst s'.
  - split_obind H. eapply IH; [|exact H]. by eapply seven_step_wf.
Qed.

Lemma seven_construct_wf pt apt pi ai pk ak : well_formed (construct pt apt pi ai pk ak).
Proof.
  unfold well_formed, construct, setup. cbn [tage_tables bimodal history ghist_length
                                            speculative_histories].
  split; [reflexivity|]. split; [reflexivity|]. split; [reflexivity|].
  split; [|split; [|split]].
  - apply Forall_map, Forall_forall. intros n _. cbn beta.
    apply replicate_ok. apply seven_entry_ok_default.
  - apply replicate_ok. lia.
  - vm_compute. discriminate.
  - apply map_Forall_empty.
Qed.

(** The state stays well formed, and no access leaves its vector.  Along
    every call sequence from the constructed predictor that completes:
    every counter is within 0 to 3, every useful field is 0 or 1, every
    bimodal counter is within 0 to 3, the history and every snapshot hold
    at most [MAX_HISTORY_LENGTH] bits, the tables keep the sizes of
    [TAGE_TABLE_SIZE]; and for every PC the index of each bank is inside
    its table, its tag fits the 16-bit tag field, and the bimodal index is
    inside the bimodal table. *)
Theorem seven_state_stays_well_formed pt apt pi ai pk ak cs s PC i :
  run (construct pt apt pi ai pk ak) cs = Ok s →
  0 ≤ i < NUM_TAGE_TABLES →
  well_formed s
  ∧ 0 ≤ get_index s PC i < vsize (vget (tage_tables s) i)
  ∧ u16 (get_tag s PC i) = get_tag s PC i
  ∧ 0 ≤ PC mod BIMODAL_SIZE < vsize (bimodal s).
Proof.
  intros Hrun Hi.
  assert (Hs : well_formed s)
    by (eapply seven_run_wf; [apply seven_construct_wf | exact Hrun]).
  split; [exact Hs|]. destruct Hs as (Hsz & Hb & _).
  split; [|split].
  - assert (Hrow : vsize (vget (tage_tables s) i) = vget TAGE_TABLE_SIZE i).
    { rewrite <- Hsz. unfold vget.
      change (map vsize (tage_tables s))
        with (fmap (M:=list) (@vsize TageEntry) (tage_tables s)).
      rewrite !list_lookup_total_alt, list_lookup_fmap.
      destruct (tage_tables s !! Z.to_nat i) as [t|] eqn:E; [reflexivity|].
      apply lookup_ge_None in E. apply (f_equal length) in Hsz.
      rewrite length_map in Hsz. unfold NUM_TAGE_TABLES in Hi. cbn in Hsz. lia. }
    rewrite Hrow. by apply seven_get_index_range.
  - destruct (seven_get_tag_range s PC i Hi) as [Ht Hw].
    unfold u16. apply Z.mod_small.
    assert (2 ^ vget TAGE_TAG_BITS i ≤ 2 ^ 16) by (apply Z.pow_le_mono_r; lia). lia.
  - rewrite Hb. apply Z.mod_pos_bound. reflexivity.
Qed.

(** An instance: one mispredicted branch on the constructed predictor. *)
Lemma seven_state_stays_well_formed_witness :
  ∃ s, run (construct 0 0 0 0 false false)
           [CPredict 1 0 4096; CHistoryUpdate 1 0 4096 false 4100;
            CUpdate 1 0 4096 true false 4100] = Ok s
       ∧ well_formed s
       ∧ 0 ≤ get_index s 4096 6 < vsize (vget (tage_tables s) 6)
       ∧ u16 (get_tag s 4096 6) = get_tag s 4096 6
       ∧ 0 ≤ 4096 mod BIMODAL_SIZE < vsize (bimodal s).
Proof.
  assert (H : holds_after
                (run (construct 0 0 0 0 false false)
                     [CPredict 1 0 4096; CHistoryUpdate 1 0 4096 false 4100;
                      CUpdate 1 0 4096 true false 4100]) (λ _, True))
    by (vm_compute; exact I).
  apply holds_after_ex in H as (s & Hrun & _).
  exists s. split; [exact Hrun|].
  apply (seven_state_stays_well_formed 0 0 0 0 false false _ s 4096 6 Hrun).
  vm_compute. split; [discriminate | reflexivity].
Defined.

(** ** The rollback *)

Lemma seven_write_entry_core s i idx e :
  let s' := write_entry s i idx e in
  bimodal s' = bimodal s ∧ history s' = history s ∧ ghist_length s' = ghist_length s
  ∧ clock s' = clock s ∧ speculative_histories s' = speculative_histories s
  ∧ provider_table s' = provider_table s ∧ provider_idx s' = provider_idx s.
Proof. cbn. repeat split. Qed.

Lemma seven_alloc_loop_core s PC r banks :
  let s' := alloc_loop s PC r banks in
  bimodal s' = bimodal s ∧ history s' = history s ∧ ghist_length s' = ghist_length s
  ∧ clock s' = clock s ∧ speculative_histories s' = speculative_histories s
  ∧ provider_table s' = provider_table s ∧ provider_idx s' = provider_idx s.
Proof.
  cbn zeta. induction banks as [|i rest IH]; cbn [alloc_loop]; [repeat split|].
  destruct (free_slot s PC i); [apply seven_write_entry_core | exact IH].
Qed.

Lemma seven_train_core s PC r p :
  let s' := train s PC r p in
  history s' = history s ∧ ghist_length s' = ghist_length s
  ∧ clock s' = clock s ∧ speculative_histories s' = speculative_histories s
  ∧ provider_table s' = provider_table s ∧ provider_idx s' = provider_idx s.
Proof.
  cbn zeta. unfold train, allocate_new_entry.
  destruct (0 <=? provider_table s).
  - destruct (negb (eqb p r)).
    + destruct (negb (eqb (alt_pred_taken s) r)).
      * match goal with |- context [alloc_loop ?s0 PC r ?b] =>
          destruct (seven_alloc_loop_core s0 PC r b) as (_ & H1 & H2 & H3 & H4 & H5 & H6) end.
        rewrite H1, H2, H3, H4, H5, H6. cbn. repeat split.
      * cbn. repeat split.
    + cbn. repeat split.
  - destruct (negb (eqb p r)).
    + match goal with |- context [alloc_loop ?s0 PC r ?b] =>
        destruct (seven_alloc_loop_core s0 PC r b) as (_ & H1 & H2 & H3 & H4 & H5 & H6) end.
      rewrite H1, H2, H3, H4, H5, H6. cbn. repeat split.
    + cbn. repeat split.
Qed.

Lemma seven_tick_core s :
  let s' := tick s in
  history s' = history s ∧ ghist_length s' = ghist_length s
  ∧ clock s' = u64 (clock s + 1) ∧ speculative_histories s' = speculative_histories s.
Proof. cbn zeta. unfold tick. destruct (_ =? 0); cbn; repeat split. Qed.

Lemma seven_restore_core s id :
  let s' := restore s id in
  history s' = default (history s) (speculative_histories s !! id)
  ∧ ghist_length s' = ghist_length s ∧ clock s' = clock s
  ∧ speculative_histories s' = delete id (speculative_histories s).
Proof.
  cbn zeta. unfold restore.
  destruct (speculative_histories s !! id) as [h|] eqn:E; cbn; [repeat split|].
  repeat split. symmetry. by apply delete_id.
Qed.

(** What a completed [update] leaves in the history, the clock and the
    snapshot store. *)
Lemma seven_update_inv s seq_no piece PC r p nextPC s' :
  update s seq_no piece PC r p nextPC = Ok s' →
  let id := Z.lor (u64 (Z.shiftl seq_no 4)) (Z.land piece 15) in
  piece < 16
  ∧ history s' = push_history s (default (history s) (speculative_histories s !! id)) r
  ∧ ghist_length s' = ghist_length s
  ∧ clock s' = u64 (clock s + 1)
  ∧ speculative_histories s' = delete id (speculative_histories s).
Proof.
  unfold update, get_unique_inst_id. intros H.
  destruct (piece <? 16) eqn:E; [|discriminate H]. apply Z.ltb_lt in E.
  cbn [obind] in H. cbv zeta in H. apply Ok_inj in H. subst s'.
  set (id := Z.lor _ _).
  destruct (seven_restore_core s id) as (R1 & R2 & R3 & R4).
  destruct (seven_tick_core (restore s id)) as (T1 & T2 & T3 & T4).
  destruct (seven_find_provider_core (tick (restore s id)) PC)
    as (_ & _ & F1 & F2 & F3 & _ & _ & F4).
  destruct (seven_train_core (find_provider (tick (restore s id)) PC) PC r p)
    as (N1 & N2 & N3 & N4 & _).
  generalize dependent (train (find_provider (tick (restore s id)) PC) PC r p).
  intros s4 N1 N2 N3 N4.
  generalize dependent (find_provider (tick (restore s id)) PC). intros s3 F1 F2 F3 F4 N1 N2 N3 N4.
  generalize dependent (tick (restore s id)). intros s2 T1 T2 T3 T4 F1 F2 F3 F4.
  generalize dependent (restore s id). intros s1 R1 R2 R3 R4 T1 T2 T3 T4.
  cbn [history ghist_length clock speculative_histories set_history].
  split; [exact E|]. split.
  - unfold push_history. rewrite N1, N2, F1, F2, T1, T2, R1, R2. reflexivity.
  - split; [congruence|]. split; congruence.
Qed.

Lemma seven_history_update_inv s seq_no piece PC taken nextPC s' :
  history_update s seq_no piece PC taken nextPC = Ok s' →
  let id := Z.lor (u64 (Z.shiftl seq_no 4)) (Z.land piece 15) in
  piece < 16
  ∧ history s' = push_history s (history s) taken
  ∧ ghist_length s' = ghist_length s
  ∧ clock s' = clock s
  ∧ speculative_histories s' = <[id := history s]> (speculative_histories s).
Proof.
  unfold history_update, get_unique_inst_id. intros H.
  destruct (piece <? 16) eqn:E; [|discriminate H]. apply Z.ltb_lt in E.
  cbn [obind] in H. cbv zeta in H. apply Ok_inj in H. subst s'.
  cbn. repeat split. exact E.
Qed.

Lemma seven_predict_core s seq_no piece PC :
  let s' := snd (predict s seq_no piece PC) in
  history s' = history s ∧ ghist_length s' = ghist_length s ∧ clock s' = clock s
  ∧ speculative_histories s' = speculative_histories s.
Proof.
  cbn zeta. unfold predict.
  destruct (seven_find_provider_core s PC) as (_ & _ & F1 & F2 & F3 & _ & _ & F4).
  generalize dependent (find_provider s PC). intros X F1 F2 F3 F4. cbv zeta.
  destruct (0 <=? provider_table X); cbn; by repeat split.
Qed.

Lemma seven_step_other s c s' id :
  call_id c ≠ id → step s c = Ok s' →
  speculative_histories s' !! id = speculative_histories s !! id
  ∧ ghist_length s' = ghist_length s.
Proof.
  intros Hid H. destruct c; cbn [step call_id] in *.
  - apply Ok_inj in H. subst s'.
    destruct (seven_predict_core s seq_no piece PC) as (_ & H2 & _ & H4).
    by rewrite H2, H4.
  - apply seven_history_update_inv in H as (_ & _ & H2 & _ & H4).
    rewrite H2, H4. by rewrite lookup_insert_ne.
  - apply seven_update_inv in H as (_ & _ & H2 & _ & H4).
    rewrite H2, H4. by rewrite lookup_delete_ne.
Qed.

Lemma seven_run_other cs : ∀ s s' id,
  Forall (λ c, call_id c ≠ id) cs → run s cs = Ok s' →
  speculative_histories s' !! id = speculative_histories s !! id
  ∧ ghist_length s' = ghist_length s.
Proof.
  induction cs as [|c cs IH]; intros s s' id Hall H; cbn [run] in H.
  - apply Ok_inj in H. by subst s'.
  - inversion Hall as [|? ? Hc Hall']; subst. split_obind H.
    destruct (seven_step_other _ _ _ _ Hc E) as [H1 H2].
    destruct (IH _ _ _ Hall' H) as [H3 H4]. split; congruence.
Qed.

(** The rollback restores the snapshot.  [history_update] saves the
    history as it is before pushing the identity's bit.  When the identity
    resolves, after whatever calls other identities made in between,
    [update] completes and leaves the history as of that
    [history_update] followed by the resolved bit, whether the prediction
    was right or wrong: the identity's own speculative bit and every bit
    pushed since are dropped, and the snapshot is erased.  With no
    snapshot for the identity, [update] appends the resolved bit to the
    history as it is. *)
Theorem seven_update_restores_the_snapshot s seq_no piece PC taken nextPC s0 cs s1
        PC' r p nextPC' :
  let id := Z.lor (u64 (Z.shiftl seq_no 4)) (Z.land piece 15) in
  history_update s seq_no piece PC taken nextPC = Ok s0 →
  Forall (λ c, call_id c ≠ id) cs →
  run s0 cs = Ok s1 →
  (∃ s2, update s1 seq_no piece PC' r p nextPC' = Ok s2
         ∧ history s2 = push_history s (history s) r
         ∧ speculative_histories s2 !! id = None)
  ∧ (∀ s', speculative_histories s !! id = None →
           update s seq_no piece PC' r p nextPC' = Ok s' →
           history s' = push_history s (history s) r).
Proof.
  intros id H0 Hall Hrun. split.
  - apply seven_history_update_inv in H0 as (Hp & _ & Hg0 & _ & Hm0). fold id in Hm0.
    destruct (seven_run_other cs s0 s1 id Hall Hrun) as [Hm1 Hg1].
    assert (Hdef : ∃ s2, update s1 seq_no piece PC' r p nextPC' = Ok s2).
    { unfold update, get_unique_inst_id.
      destruct (piece <? 16) eqn:E; [|apply Z.ltb_ge in E; lia]. cbn [obind]. eauto. }
    destruct Hdef as [s2 Hup]. exists s2. split; [exact Hup|].
    apply seven_update_inv in Hup as (_ & Hh & _ & _ & Hm2). fold id in Hh, Hm2.
    split.
    + rewrite Hh, Hm1, Hm0, lookup_insert_eq. cbn [default].
      unfold push_history. by rewrite Hg1, Hg0.
    + rewrite Hm2. apply lookup_delete_eq.
  - intros s' Hnone Hup.
    apply seven_update_inv in Hup as (_ & Hh & _). fold id in Hh.
    by rewrite Hh, Hnone.
Qed.

(** An instance: identity 2 pushes two bits after identity 1 pushed its
    own onto the history [true]; the correctly predicted identity 1
    resolves and the history is [true; false]. *)
Lemma seven_update_restores_the_snapshot_witness :
  ∃ s s0 s1 s2,
    run (construct 0 0 0 0 false false)
        [CPredict 9 0 64; CHistoryUpdate 9 0 64 true 68; CPredict 1 0 4096] = Ok s
    ∧ history s = [true]
    ∧ history_update s 1 0 4096 false 4100 = Ok s0
    ∧ run s0 [CPredict 2 0 4200; CHistoryUpdate 2 0 4200 true 4204;
              CHistoryUpdate 2 0 4200 true 4204] = Ok s1
    ∧ history s1 = [true; false; true; true]
    ∧ update s1 1 0 4096 false false 4100 = Ok s2
    ∧ history s2 = [true; false].
Proof.
  assert (H : holds_after
                (run (construct 0 0 0 0 false false)
                     [CPredict 9 0 64; CHistoryUpdate 9 0 64 true 68; CPredict 1 0 4096])
                (λ s, history s = [true]
                      ∧ push_history s (history s) false = [true; false]
                      ∧ holds_after (history_update s 1 0 4096 false 4100) (λ s0,
                          holds_after
                            (run s0 [CPredict 2 0 4200; CHistoryUpdate 2 0 4200 true 4204;
                                     CHistoryUpdate 2 0 4200 true 4204])
                            (λ s1, history s1 = [true; false; true; true]))))
    by (vm_compute; repeat split; reflexivity).
  apply holds_after_ex in H as (s & Hs & Hh & Hpush & H).
  apply holds_after_ex in H as (s0 & Hs0 & H).
  apply holds_after_ex in H as (s1 & Hs1 & Hh1).
  destruct (seven_update_restores_the_snapshot s 1 0 4096 false 4100 s0
              [CPredict 2 0 4200; CHistoryUpdate 2 0 4200 true 4204;
               CHistoryUpdate 2 0 4200 true 4204] s1 4096 false false 4100 Hs0)
    as [(s2 & Hup & Hh2 & _) _]; [| exact Hs1 |].
  - repeat constructor; vm_compute; discriminate.
  - exists s, s0, s1, s2. split; [exact Hs|]. split; [exact Hh|]. split; [exact Hs0|].
    split; [exact Hs1|]. split; [exact Hh1|]. split; [exact Hup|].
    rewrite Hh2. exact Hpush.
Defined.

(** ** Allocation *)

Lemma seven_alloc_loop_spec s PC r banks :
  alloc_loop s PC r banks
  = match List.filter (free_slot s PC) banks with
    | [] => s
    | i :: _ => write_entry s i (get_index s PC i) (new_entry s PC r i)
    end.
Proof.
  induction banks as [|i rest IH]; cbn [alloc_loop List.filter]; [reflexivity|].
  destruct (free_slot s PC i); [reflexivity | exact IH].
Qed.

Lemma seven_row_size s i :
  well_formed s → 0 ≤ i < NUM_TAGE_TABLES →
  vsize (vget (tage_tables s) i) = vget TAGE_TABLE_SIZE i ∧ 0 ≤ i < vsize (tage_tables s).
Proof.
  intros (Hsz & _) Hi.
  assert (Hlen : vsize (tage_tables s) = NUM_TAGE_TABLES).
  { apply (f_equal length) in Hsz. rewrite length_map in Hsz. unfold vsize. rewrite Hsz.
    reflexivity. }
  split; [|lia]. rewrite <- Hsz. unfold vget.
  change (map vsize (tage_tables s))
    with (fmap (M:=list) (@vsize TageEntry) (tage_tables s)).
  rewrite !list_lookup_total_alt, list_lookup_fmap.
  destruct (tage_tables s !! Z.to_nat i) as [t|] eqn:E; [reflexivity|].
  apply lookup_ge_None in E. unfold vsize, NUM_TAGE_TABLES in *. lia.
Qed.

Lemma seven_entry_at_write_eq s i idx e :
  well_formed s → 0 ≤ i < NUM_TAGE_TABLES → 0 ≤ idx < vget TAGE_TABLE_SIZE i →
  entry_at (write_entry s i idx e) i idx = e.
Proof.
  intros Hs Hi Hidx. destruct (seven_row_size s i Hs Hi) as [Hrow Hlen].
  unfold entry_at, write_entry. cbn [tage_tables set_tables].
  rewrite vget_vset_eq by exact Hlen. apply vget_vset_eq. by rewrite Hrow.
Qed.

Lemma seven_new_entry_predicts s PC r i :
  valid (new_entry s PC r i) = true
  ∧ counter_taken (new_entry s PC r i) = r
  ∧ useful (new_entry s PC r i) = 0.
Proof. destruct r; vm_compute; repeat split. Qed.

(** Allocation plants the entry where the next lookup finds it.
    [allocate_new_entry] visits the banks after the provider in ascending
    order and stops at the first one whose slot for the PC is invalid or
    has a useful field of 0; with no such bank it changes nothing.  The
    entry it writes is valid, carries the tag of the PC, and has a
    counter on the side of the resolved direction (3 for taken, 1 for not
    taken) and a useful field of 0, so that under the same history the
    bank hits for this PC and predicts the resolved direction. *)
Theorem seven_allocation_takes_first_free_bank s PC r :
  well_formed s → -1 ≤ provider_table s →
  let s' := allocate_new_entry s PC r in
  match List.filter (free_slot s PC) (banks_after (provider_table s)) with
  | [] => s' = s
  | i :: _ =>
      provider_table s < i < NUM_TAGE_TABLES
      ∧ s' = write_entry s i (get_index s PC i) (new_entry s PC r i)
      ∧ hit s' PC i = true
      ∧ counter_taken (entry_at s' i (get_index s' PC i)) = r
      ∧ useful (entry_at s' i (get_index s' PC i)) = 0
  end.
Proof.
  intros Hs Hp s'. subst s'. unfold allocate_new_entry. rewrite seven_alloc_loop_spec.
  destruct (List.filter (free_slot s PC) (banks_after (provider_table s)))
    as [|i rest] eqn:E; [reflexivity|].
  assert (Hi : provider_table s < i < NUM_TAGE_TABLES).
  { assert (Hin : In i (List.filter (free_slot s PC) (banks_after (provider_table s))))
      by (rewrite E; by left).
    apply filter_In in Hin as [Hin _]. apply list_elem_of_In in Hin.
    unfold banks_after in Hin. apply elem_of_seqZ in Hin. lia. }
  split; [exact Hi|]. split; [reflexivity|].
  assert (Hi' : 0 ≤ i < NUM_TAGE_TABLES) by lia.
  pose proof (seven_get_index_range s PC i Hi') as Hidx.
  destruct (seven_get_tag_range s PC i Hi') as [Htag Hw].
  destruct (seven_new_entry_predicts s PC r i) as (Hv & Hc & Hu).
  assert (He : entry_at (write_entry s i (get_index s PC i) (new_entry s PC r i)) i
                        (get_index s PC i) = new_entry s PC r i)
    by (by apply seven_entry_at_write_eq).
  change (get_index (write_entry s i (get_index s PC i) (new_entry s PC r i)) PC i)
    with (get_index s PC i).
  unfold hit.
  change (get_index (write_entry s i (get_index s PC i) (new_entry s PC r i)) PC i)
    with (get_index s PC i).
  change (get_tag (write_entry s i (get_index s PC i) (new_entry s PC r i)) PC i)
    with (get_tag s PC i).
  rewrite He, Hv. split; [|by split].
  cbn [andb new_entry tag]. apply Z.eqb_eq. unfold u16. apply Z.mod_small.
  assert (2 ^ vget TAGE_TAG_BITS i ≤ 2 ^ 16) by (apply Z.pow_le_mono_r; lia). lia.
Qed.

(** An instance on the constructed predictor after no provider was found:
    bank 0 takes the entry. *)
Lemma seven_allocation_takes_first_free_bank_witness :
  provider_table (find_provider (construct 0 0 0 0 false false) 4096) = -1
  ∧ hit (allocate_new_entry (find_provider (construct 0 0 0 0 false false) 4096) 4096 true)
        4096 0 = true
  ∧ hit (find_provider (construct 0 0 0 0 false false) 4096) 4096 0 = false.
Proof.
  pose proof (seven_allocation_takes_first_free_bank
                (find_provider (construct 0 0 0 0 false false) 4096) 4096 true
                (seven_find_provider_wf _ 4096 (seven_construct_wf 0 0 0 0 false false))) as H.
  assert (Hp : provider_table (find_provider (construct 0 0 0 0 false false) 4096) = -1)
    by (vm_compute; reflexivity).
  assert (Hf : List.filter (free_slot (find_provider (construct 0 0 0 0 false false) 4096) 4096)
                           (banks_after
                              (provider_table
                                 (find_provider (construct 0 0 0 0 false false) 4096)))
               = [0; 1; 2; 3; 4; 5; 6]) by (vm_compute; reflexivity).
  specialize (H ltac:(rewrite Hp; lia)). cbn zeta in H. rewrite Hf in H.
  destruct H as (_ & _ & Hhit & _).
  split; [exact Hp|]. split; [exact Hhit|]. vm_compute. reflexivity.
Defined.

(** ** The clock and the aging of the useful fields *)

Lemma seven_updates_nonneg cs : 0 ≤ updates cs.
Proof. induction cs as [|c cs IH]; cbn; [lia|]. destruct (is_update c); lia. Qed.

Lemma seven_step_clock s c s' :
  step s c = Ok s' → clock s' = if is_update c then u64 (clock s + 1) else clock s.
Proof.
  intros H. destruct c; cbn [step is_update] in *.
  - apply Ok_inj in H. subst s'. by destruct (seven_predict_core s seq_no piece PC) as (_ & _ & -> & _).
  - by apply seven_history_update_inv in H as (_ & _ & _ & -> & _).
  - by apply seven_update_inv in H as (_ & _ & _ & -> & _).
Qed.

Lemma seven_run_clock cs : ∀ s s',
  run s cs = Ok s' → u64 (clock s') = u64 (clock s + updates cs).
Proof.
  induction cs as [|c cs IH]; intros s s' H; cbn [run updates] in H |- *.
  - apply Ok_inj in H. subst s'. by rewrite Z.add_0_r.
  - split_obind H. rewrite (IH _ _ H), (seven_step_clock _ _ _ E).
    destruct (is_update c).
    + unfold u64. rewrite Zplus_mod_idemp_l. f_equal; lia.
    + f_equal; lia.
Qed.

Lemma seven_run_clock_range cs : ∀ s s',
  0 ≤ clock s < 2 ^ 64 → run s cs = Ok s' → 0 ≤ clock s' < 2 ^ 64.
Proof.
  induction cs as [|c cs IH]; intros s s' Hc H; cbn [run] in H.
  - apply Ok_inj in H. by subst s'.
  - split_obind H. eapply IH; [|exact H].
    rewrite (seven_step_clock _ _ _ E). destruct (is_update c); [|exact Hc].
    unfold u64. apply Z.mod_pos_bound. lia.
Qed.

Lemma seven_entry_at_write_ne s i k e j idx :
  0 ≤ i → 0 ≤ k → 0 ≤ j → 0 ≤ idx → j ≠ i ∨ idx ≠ k →
  entry_at (write_entry s i k e) j idx = entry_at s j idx.
Proof.
  intros Hi Hk Hj Hidx Hne. unfold entry_at, write_entry. cbn [tage_tables set_tables].
  destruct (decide (j = i)) as [->|Hji].
  - destruct Hne as [Hne|Hne]; [done|].
    destruct (decide (i < vsize (tage_tables s))) as [Hlt|Hge].
    + rewrite vget_vset_eq by lia. apply vget_vset_ne; lia.
    + unfold vset at 1. rewrite list_insert_ge; [reflexivity|]. unfold vsize in Hge. lia.
  - rewrite vget_vset_ne by lia. reflexivity.
Qed.

Lemma seven_entry_at_write_cases s i k e j idx :
  entry_at (write_entry s i k e) j idx = e
  ∨ entry_at (write_entry s i k e) j idx = entry_at s j idx.
Proof.
  unfold entry_at, write_entry. cbn [tage_tables set_tables]. unfold vget, vset.
  destruct (decide (Z.to_nat i = Z.to_nat j)) as [Hij|Hij].
  - destruct (decide (Z.to_nat i < length (tage_tables s))%nat) as [Hlt|Hge].
    + rewrite Hij in *. rewrite list_lookup_total_insert_eq by lia.
      destruct (decide (Z.to_nat k = Z.to_nat idx)) as [Hk|Hk].
      * destruct (decide (Z.to_nat k < length (tage_tables s !!! Z.to_nat j))%nat).
        -- left. rewrite Hk in *. by apply list_lookup_total_insert_eq.
        -- right. by rewrite list_insert_ge by lia.
      * right. by apply list_lookup_total_insert_ne.
    + right. by rewrite list_insert_ge by lia.
  - right. by rewrite list_lookup_total_insert_ne.
Qed.

Lemma seven_alloc_keeps_cleared s PC r banks j idx :
  useful (entry_at s j idx) = 0 → useful (entry_at (alloc_loop s PC r banks) j idx) = 0.
Proof.
  intros H. rewrite seven_alloc_loop_spec.
  destruct (List.filter (free_slot s PC) banks) as [|i rest]; [exact H|].
  destruct (seven_entry_at_write_cases s i (get_index s PC i) (new_entry s PC r i) j idx)
    as [-> | ->]; [reflexivity | exact H].
Qed.

Lemma seven_train_keeps_cleared s PC r p j idx :
  0 ≤ provider_idx s → 0 ≤ j → 0 ≤ idx →
  j ≠ provider_table s ∨ idx ≠ provider_idx s →
  useful (entry_at s j idx) = 0 →
  useful (entry_at (train s PC r p) j idx) = 0.
Proof.
  intros Hk Hj Hidx Hne H. unfold train, allocate_new_entry.
  destruct (0 <=? provider_table s) eqn:Ep.
  - apply Z.leb_le in Ep.
    assert (Hw : ∀ e, useful (entry_at (write_entry s (provider_table s) (provider_idx s) e)
                                       j idx) = 0).
    { intros e. by rewrite seven_entry_at_write_ne. }
    destruct (negb (eqb p r)); [|apply Hw].
    destruct (negb (eqb (alt_pred_taken s) r)); [|apply Hw].
    apply seven_alloc_keeps_cleared, Hw.
  - destruct (negb (eqb p r)); [|exact H].
    apply seven_alloc_keeps_cleared. exact H.
Qed.

Lemma seven_tick_clears s j idx :
  well_formed s → u64 (clock s + 1) mod 1024 = 0 →
  useful (entry_at (tick s) j idx) = 0.
Proof.
  intros Hs Hc. unfold tick. cbn [clock set_clock]. rewrite Hc. cbn [Z.eqb].
  unfold entry_at, age_useful_bits. cbn [tage_tables set_tables].
  destruct Hs as (_ & _ & _ & Ht & _).
  assert (Hall : Forall (Forall (λ e, useful e = 0))
                   (map (map (λ e, mkTageEntry (valid e) (tag e) (counter e)
                                               (Z.shiftr (useful e) 1)))
                        (tage_tables s))).
  { apply Forall_map. eapply Forall_impl; [exact Ht|]. intros t Hrow. apply Forall_map.
    eapply Forall_impl; [exact Hrow|]. intros e (_ & Hu & _). cbn.
    rewrite Z.shiftr_div_pow2 by lia. change (2 ^ 1) with 2.
    Z.to_euclidean_division_equations. lia. }
  apply (vget_ok (λ e, useful e = 0)); [reflexivity|].
  apply (vget_ok (Forall (λ e, useful e = 0))); [constructor | exact Hall].
Qed.

Lemma seven_find_provider_idx s PC :
  0 ≤ provider_idx s → 0 ≤ provider_idx (find_provider s PC).
Proof.
  intros Hk. rewrite seven_find_provider_spec.
  pose proof (filter_nonneg (hit s PC) banks_down banks_down_nonneg) as Hn.
  assert (Hin : ∀ q, In q (List.filter (hit s PC) banks_down) → 0 ≤ q < NUM_TAGE_TABLES).
  { intros q Hq. apply filter_In in Hq as [Hq _]. unfold NUM_TAGE_TABLES.
    vm_compute in Hq. lia. }
  destruct (List.filter (hit s PC) banks_down) as [|q [|a rest]];
    cbn [provider_idx set_altpred set_provider]; [exact Hk| |];
    apply (proj1 (seven_get_index_range s PC q (Hin q ltac:(by left)))).
Qed.

Lemma seven_set_history_scratch s h :
  provider_table (set_history s h) = provider_table s
  ∧ provider_idx (set_history s h) = provider_idx s
  ∧ ∀ j idx, entry_at (set_history s h) j idx = entry_at s j idx.
Proof. repeat split. Qed.

Lemma seven_step_provider_idx s c s' :
  0 ≤ provider_idx s → step s c = Ok s' → 0 ≤ provider_idx s'.
Proof.
  intros Hk H. destruct c; cbn [step] in H.
  - apply Ok_inj in H. subst s'. unfold predict.
    pose proof (seven_find_provider_idx s PC Hk) as Hf.
    generalize dependent (find_provider s PC). intros X HX. cbv zeta.
    destruct (0 <=? provider_table X); exact HX.
  - unfold history_update in H. split_obind H. cbv zeta in H. apply Ok_inj in H.
    subst s'. exact Hk.
  - unfold update in H. split_obind H. cbv zeta in H. apply Ok_inj in H. subst s'.
    rewrite (proj1 (proj2 (seven_set_history_scratch _ _))).
    destruct (seven_train_core (find_provider (tick (restore s a)) PC) PC resolveDir predDir)
      as (_ & _ & _ & _ & _ & ->).
    apply seven_find_provider_idx.
    assert (Hti : provider_idx (tick (restore s a)) = provider_idx s).
    { unfold tick, restore.
      destruct (speculative_histories s !! a); by destruct (_ =? 0). }
    by rewrite Hti.
Qed.

Lemma seven_run_provider_idx cs : ∀ s s',
  0 ≤ provider_idx s → run s cs = Ok s' → 0 ≤ provider_idx s'.
Proof.
  induction cs as [|c cs IH]; intros s s' Hk H; cbn [run] in H.
  - apply Ok_inj in H. by subst s'.
  - split_obind H. eapply IH; [|exact H]. by eapply seven_step_provider_idx.
Qed.

(** The clock counts the [update] calls, and every 1024th of them clears
    the useful fields.  Along every call sequence from the constructed
    predictor that completes, the clock is the number of [update] calls
    (as a 64-bit value).  When the next [update] is the 1024th, 2048th,
    ... one, every useful field is halved to 0 before the training, so
    that afterwards no slot but the provider's, which the scratch fields of
    the resulting state name, has a useful field other than 0. *)
Theorem seven_every_1024th_update_clears_useful pt apt pi ai pk ak cs s :
  0 ≤ pi →
  run (construct pt apt pi ai pk ak) cs = Ok s →
  clock s = updates cs mod 2 ^ 64
  ∧ ∀ seq_no piece PC r p nextPC s' j idx,
      (updates cs + 1) mod 1024 = 0 →
      update s seq_no piece PC r p nextPC = Ok s' →
      0 ≤ j → 0 ≤ idx →
      j ≠ provider_table s' ∨ idx ≠ provider_idx s' →
      useful (entry_at s' j idx) = 0.
Proof.
  intros Hpi Hrun.
  assert (Hs : well_formed s)
    by (eapply seven_run_wf; [apply seven_construct_wf | exact Hrun]).
  assert (Hclock : clock s = updates cs mod 2 ^ 64).
  { pose proof (seven_run_clock cs _ s Hrun) as Hc.
    assert (H0 : 0 ≤ clock (construct pt apt pi ai pk ak) < 2 ^ 64)
      by (change (clock (construct pt apt pi ai pk ak)) with 0; lia).
    pose proof (seven_run_clock_range cs _ s H0 Hrun) as Hr.
    unfold u64 in Hc. rewrite Z.mod_small in Hc by exact Hr.
    change (clock (construct pt apt pi ai pk ak)) with 0 in Hc.
    rewrite Z.add_0_l in Hc. exact Hc. }
  split; [exact Hclock|].
  intros seq_no piece PC r p nextPC s' j idx H1024 Hup Hj Hidx Hne.
  unfold update in Hup. split_obind Hup. cbv zeta in Hup. apply Ok_inj in Hup. subst s'.
  pose proof (seven_restore_wf s a Hs) as Hs1.
  destruct (seven_restore_core s a) as (_ & _ & Hc1 & _).
  assert (Hidx1 : ∀ id, provider_idx (restore s id) = provider_idx s).
  { intros id. unfold restore. by destruct (speculative_histories s !! id). }
  assert (Ht : u64 (clock (restore s a) + 1) mod 1024 = 0).
  { rewrite Hc1, Hclock. unfold u64.
    replace ((updates cs mod 2 ^ 64 + 1) mod 2 ^ 64)
      with ((updates cs + 1) mod 2 ^ 64) by (by rewrite Zplus_mod_idemp_l).
    rewrite Z.mod_mod_divide; [exact H1024|]. exists (2 ^ 54). reflexivity. }
  pose proof (seven_tick_clears (restore s a) j idx Hs1 Ht) as Hz.
  assert (Hz3 : useful (entry_at (find_provider (tick (restore s a)) PC) j idx) = 0).
  { unfold entry_at.
    destruct (seven_find_provider_core (tick (restore s a)) PC) as (-> & _). exact Hz. }
  assert (Hk3 : 0 ≤ provider_idx (find_provider (tick (restore s a)) PC)).
  { apply seven_find_provider_idx.
    assert (Hti : provider_idx (tick (restore s a)) = provider_idx (restore s a)).
    { unfold tick. by destruct (_ =? 0). }
    rewrite Hti, Hidx1.
    eapply seven_run_provider_idx; [|exact Hrun]. exact Hpi. }
  destruct (seven_train_core (find_provider (tick (restore s a)) PC) PC r p)
    as (_ & _ & _ & _ & Hp4 & Hk4).
  match type of Hne with
  | context [set_history ?X ?h] =>
      destruct (seven_set_history_scratch X h) as (Hq1 & Hq2 & Hq3)
  end.
  rewrite Hq1, Hq2, Hp4, Hk4 in Hne. rewrite Hq3.
  by apply seven_train_keeps_cleared.
Qed.

(** An instance: after the 1023 [update] calls of [aging_calls] the entry
    of PC 4200, slot 92 of bank 0, has a useful field of 1; the next
    [update], whose provider is slot 0 of bank 0, leaves it at 0. *)
Lemma seven_every_1024th_update_clears_useful_witness :
  ∃ s s',
    run (construct 0 0 0 0 false false) SevenRuns.aging_calls = Ok s
    ∧ clock s = 1023
    ∧ useful (entry_at s 0 92) = 1
    ∧ update s 3000 0 4096 true true 4100 = Ok s'
    ∧ provider_table s' = 0 ∧ provider_idx s' = 0
    ∧ useful (entry_at s' 0 92) = 0.
Proof.
  assert (H : holds_after (run (construct 0 0 0 0 false false) SevenRuns.aging_calls)
                (λ s, useful (entry_at s 0 92) = 1
                      ∧ holds_after (update s 3000 0 4096 true true 4100)
                          (λ s', provider_table s' = 0 ∧ provider_idx s' = 0)))
    by (vm_compute; repeat split; reflexivity).
  assert (Hu : updates SevenRuns.aging_calls = 1023) by (vm_compute; reflexivity).
  apply holds_after_ex in H as (s & Hrun & Huse & H).
  apply holds_after_ex in H as (s' & Hup & Hp & Hk).
  destruct (seven_every_1024th_update_clears_useful 0 0 0 0 false false
              SevenRuns.aging_calls s ltac:(lia) Hrun) as [Hclock Hclear].
  exists s, s'. split; [exact Hrun|]. split; [rewrite Hclock, Hu; reflexivity|].
  split; [exact Huse|]. split; [exact Hup|]. split; [exact Hp|]. split; [exact Hk|].
  apply (Hclear 3000 0 4096 true true 4100 s' 0 92); [rewrite Hu; reflexivity | exact Hup | lia | lia |].
  right. rewrite Hk. lia.
Defined.

End SevenFacts.

(** * The simpler predictors *)

Lemma outcome_ok_inj {A} (a b : A) : Ok a = Ok b → a = b.
Proof. by intros [= ->]. Qed.

Lemma emplace_lookup_eq {A} (k : Z) (x : A) (m : gmap Z A) :
  emplace k x m !! k = Some (default x (m !! k)).
Proof.
  unfold emplace. destruct (m !! k) eqn:E; cbn [default].
  - exact E.
  - apply lookup_insert_eq.
Qed.

Lemma emplace_lookup_ne {A} (k j : Z) (x : A) (m : gmap Z A) :
  k ≠ j → emplace k x m !! j = m !! j.
Proof.
  intros Hne. unfold emplace. destruct (m !! k); [reflexivity|].
  by apply lookup_insert_ne.
Qed.

(** ** The two-level predictor *)

Module TwoLevelFacts.
Import TwoLevel.

Lemma two_level_mask_range h : 0 ≤ Z.land h history_mask < PT_ENTRIES.
Proof.
  change history_mask with (Z.ones 4). change PT_ENTRIES with (2 ^ 4).
  rewrite Z.land_ones by lia. apply Z.mod_pos_bound. lia.
Qed.

Lemma two_level_index_value PC h :
  table_index PC h = (PC mod PT_SETS) * PT_ENTRIES + Z.land h history_mask.
Proof.
  unfold table_index, u64.
  pose proof (two_level_mask_range h) as Hm.
  assert (0 ≤ PC mod PT_SETS < PT_SETS) as Hp by (apply Z.mod_pos_bound; reflexivity).
  change PT_ENTRIES with 16 in *. change PT_SETS with 256 in *.
  apply Z.mod_small. lia.
Qed.

Lemma two_level_index_range PC h : 0 ≤ table_index PC h < PT_SETS * PT_ENTRIES.
Proof.
  rewrite two_level_index_value.
  pose proof (two_level_mask_range h) as Hm.
  assert (0 ≤ PC mod PT_SETS < PT_SETS) as Hp by (apply Z.mod_pos_bound; reflexivity).
  change PT_ENTRIES with 16 in *. change PT_SETS with 256 in *. lia.
Qed.

Lemma two_level_read t PC h :
  vsize t = PT_SETS * PT_ENTRIES →
  read_counter t (table_index PC h) = Ok (vget t (table_index PC h)).
Proof.
  intros Ht. unfold read_counter.
  pose proof (two_level_index_range PC h) as Hi.
  destruct (table_index PC h <? vsize t) eqn:E; [reflexivity|].
  apply Z.ltb_ge in E. lia.
Qed.

Lemma two_level_vget_ok (t : list Z) i :
  Forall (λ c, 0 ≤ c ≤ 3) t → 0 ≤ i < vsize t → 0 ≤ vget t i ≤ 3.
Proof.
  intros Ht Hi. unfold vget, vsize in *.
  destruct (lookup_lt_is_Some_2 t (Z.to_nat i) ltac:(lia)) as [x E].
  rewrite (list_lookup_total_correct _ _ _ E).
  exact (Forall_lookup_1 (λ c, 0 ≤ c ≤ 3) _ _ _ Ht E).
Qed.

Lemma two_level_counter_step_ok c r : 0 ≤ c ≤ 3 → 0 ≤ counter_step c r ≤ 3.
Proof.
  intros Hc. unfold counter_step, u8.
  destruct r.
  - destruct (c <? 3) eqn:E; [|lia]. apply Z.ltb_lt in E.
    rewrite Z.mod_small; lia.
  - destruct (0 <? c) eqn:E; [|lia]. apply Z.ltb_lt in E.
    rewrite Z.mod_small; lia.
Qed.

Lemma two_level_history_of_ok s PC :
  map_Forall (λ _ h, 0 ≤ h < PT_ENTRIES) (branch_history s) →
  0 ≤ history_of s PC < PT_ENTRIES.
Proof.
  intros Hb. unfold history_of.
  destruct (branch_history s !! PC) eqn:E; cbn [default].
  - exact (Hb _ _ E).
  - by vm_compute.
Qed.

Lemma two_level_setup_wf : well_formed (setup construct).
Proof.
  unfold well_formed, setup, construct.
  cbn [pattern_table branch_history pred_time_histories].
  rewrite resize_nil.
  split; [|split; [|split]].
  - unfold vsize. rewrite length_replicate. rewrite Z2Nat.id; [reflexivity|by vm_compute].
  - apply Forall_replicate. lia.
  - apply map_Forall_empty.
  - apply map_Forall_empty.
Qed.

Lemma two_level_predict_ok s seq_no piece PC :
  well_formed s → piece < 16 →
  predict s seq_no piece PC
  = Ok (2 <=? vget (pattern_table s) (table_index PC (history_of s PC)),
        mkPredictor
          (emplace (Z.lor (u64 (Z.shiftl seq_no 4)) (Z.land piece 15))
                   (mkSampleHist (history_of s PC)
                      (2 <=? vget (pattern_table s) (table_index PC (history_of s PC))))
                   (pred_time_histories s))
          (branch_history s) (pattern_table s)).
Proof.
  intros (Hsz & _) Hp. unfold predict.
  rewrite (two_level_read _ _ _ Hsz). cbn [obind].
  unfold get_unique_inst_id.
  destruct (piece <? 16) eqn:E; [reflexivity|]. apply Z.ltb_ge in E. lia.
Qed.

Lemma two_level_predict_cases s seq_no piece PC :
  well_formed s →
  predict s seq_no piece PC = Abort
  ∨ ∃ d s', predict s seq_no piece PC = Ok (d, s') ∧ well_formed s'
            ∧ pattern_table s' = pattern_table s
            ∧ branch_history s' = branch_history s.
Proof.
  intros Hs. destruct (Z.lt_ge_cases piece 16) as [Hp|Hp].
  - right. rewrite (two_level_predict_ok s seq_no piece PC Hs Hp).
    eexists _, _. split; [reflexivity|].
    destruct Hs as (Hsz & Hc & Hb & Hcp).
    split; [|split; reflexivity].
    split; [exact Hsz|]. split; [exact Hc|]. split; [exact Hb|].
    cbn [pred_time_histories]. unfold emplace.
    destruct (pred_time_histories s !! _); [exact Hcp|].
    apply map_Forall_insert_2; [|exact Hcp].
    cbn [ghist]. by apply two_level_history_of_ok.
  - left. unfold predict.
    destruct Hs as (Hsz & _).
    rewrite (two_level_read _ _ _ Hsz). cbn [obind].
    unfold get_unique_inst_id.
    destruct (piece <? 16) eqn:E; [apply Z.ltb_lt in E; lia|reflexivity].
Qed.

Lemma two_level_history_update_wf s seq_no piece PC taken nextPC :
  well_formed s → well_formed (history_update s seq_no piece PC taken nextPC).
Proof.
  intros (Hsz & Hc & Hb & Hcp).
  split; [exact Hsz|]. split; [exact Hc|]. split; [|exact Hcp].
  cbn [branch_history history_update].
  apply map_Forall_insert_2; [|exact Hb].
  apply two_level_mask_range.
Qed.

Lemma two_level_update_from s PC r p n cp :
  vsize (pattern_table s) = PT_SETS * PT_ENTRIES →
  update_from s PC r p n cp
  = Ok (mkPredictor (pred_time_histories s) (branch_history s)
          (vset (pattern_table s) (table_index PC (ghist cp))
                (counter_step (vget (pattern_table s) (table_index PC (ghist cp))) r))).
Proof.
  intros Hsz. unfold update_from. by rewrite (two_level_read _ _ _ Hsz).
Qed.

Lemma two_level_update_cases s seq_no piece PC r p n :
  well_formed s →
  update s seq_no piece PC r p n = Abort
  ∨ ∃ s', update s seq_no piece PC r p n = Ok s' ∧ well_formed s'.
Proof.
  intros Hs. unfold update, get_unique_inst_id.
  destruct (piece <? 16); cbn [obind]; [|by left].
  destruct (pred_time_histories s !! _) as [cp|] eqn:E; [|by left].
  right. destruct Hs as (Hsz & Hc & Hb & Hcp).
  rewrite (two_level_update_from _ _ _ _ _ _ Hsz). cbn [obind].
  eexists. split; [reflexivity|].
  unfold well_formed. cbn [pattern_table branch_history pred_time_histories].
  pose proof (two_level_index_range PC (ghist cp)) as Hi.
  split; [|split; [|split]].
  - unfold vsize, vset in *. by rewrite length_insert.
  - unfold vset. apply Forall_insert; [exact Hc|].
    apply two_level_counter_step_ok, two_level_vget_ok; [exact Hc|lia].
  - exact Hb.
  - by apply map_Forall_delete.
Qed.

Lemma two_level_step_cases s c :
  well_formed s → step s c = Abort ∨ ∃ s', step s c = Ok s' ∧ well_formed s'.
Proof.
  intros Hs. destruct c as [seq_no piece PC|seq_no piece PC taken nextPC
                            |seq_no piece PC r p n]; cbn [step].
  - destruct (two_level_predict_cases s seq_no piece PC Hs) as [->|(d & s' & -> & Hw & _)].
    + by left.
    + right. by exists s'.
  - right. eexists. split; [reflexivity|]. by apply two_level_history_update_wf.
  - by apply two_level_update_cases.
Qed.

(** From a well-formed state (the state after [setup] is one) no
    call sequence reads or writes outside the pattern table: a run is
    never undefined, it completes or stops at an assertion, and the state
    it reaches still has 4096 counters between 0 and 3 and histories of
    four bits. *)
Theorem two_level_runs_stay_defined (s : Predictor) (cs : list call) :
  well_formed s →
  match run s cs with
  | Ok s' => well_formed s'
  | Abort => True
  | Undefined => False
  end.
Proof.
  revert s. induction cs as [|c cs IH]; intros s Hs; cbn [run]; [exact Hs|].
  destruct (two_level_step_cases s c Hs) as [->|(s' & -> & Hw)]; cbn [obind].
  - exact I.
  - by apply IH.
Qed.

Lemma two_level_runs_stay_defined_witness :
  well_formed (setup construct)
  ∧ match run (setup construct)
            [CPredict 7 0 4096; CHistoryUpdate 7 0 4096 true 4100;
             CUpdate 7 0 4096 true false 4100; CPredict 8 0 4096] with
    | Ok s' => well_formed s'
    | Abort => True
    | Undefined => False
    end.
Proof.
  split; [exact two_level_setup_wf|].
  apply (two_level_runs_stay_defined (setup construct)). exact two_level_setup_wf.
Defined.

(** [update] consumes the checkpoint of its identity: when it
    completes, a second [update] of the same identity, whatever its other
    arguments, stops at the assertion that the checkpoint exists. *)
Theorem two_level_update_consumes_its_checkpoint
    (s s' : Predictor) (seq_no piece PC PC' : Z) (r p r' p' : bool) (n n' : Z) :
  update s seq_no piece PC r p n = Ok s' →
  update s' seq_no piece PC' r' p' n' = Abort.
Proof.
  unfold update, get_unique_inst_id.
  destruct (piece <? 16); cbn [obind]; [|discriminate].
  destruct (pred_time_histories s !! _) as [cp|]; [|discriminate].
  destruct (update_from s PC r p n cp) as [s1| |] eqn:E; cbn [obind]; try discriminate.
  intros H. apply outcome_ok_inj in H. subst s'.
  cbn [pred_time_histories]. by rewrite lookup_delete_eq.
Qed.

Lemma two_level_update_consumes_its_checkpoint_witness :
  ∃ s s',
    run (setup construct) [CPredict 7 0 4096] = Ok s
    ∧ update s 7 0 4096 true false 4100 = Ok s'
    ∧ update s' 7 0 4096 true false 4100 = Abort.
Proof.
  destruct (run (setup construct) [CPredict 7 0 4096]) as [s| |] eqn:Es;
    [|vm_compute in Es; discriminate|vm_compute in Es; discriminate].
  destruct (update s 7 0 4096 true false 4100) as [s'| |] eqn:Eu.
  - exists s, s'. split; [reflexivity|]. split; [exact Eu|].
    exact (two_level_update_consumes_its_checkpoint s s' 7 0 4096 4096
             true false true false 4100 4100 Eu).
  - exfalso. cbn [run step obind] in Es.
    rewrite (two_level_predict_ok _ 7 0 4096 two_level_setup_wf ltac:(lia)) in Es.
    cbn [obind snd] in Es. apply outcome_ok_inj in Es. subst s.
    vm_compute in Eu. discriminate.
  - exfalso. cbn [run step obind] in Es.
    rewrite (two_level_predict_ok _ 7 0 4096 two_level_setup_wf ltac:(lia)) in Es.
    cbn [obind snd] in Es. apply outcome_ok_inj in Es. subst s.
    vm_compute in Eu. discriminate.
Defined.

(** The checkpoint of an identity outlives every call but the [update]
    of that identity: [predict] inserts with [emplace], which keeps the
    element that is there. *)
Lemma two_level_step_keeps_checkpoint s s' c id cp :
  updates_id id c = false →
  pred_time_histories s !! id = Some cp →
  step s c = Ok s' →
  pred_time_histories s' !! id = Some cp.
Proof.
  intros Hc Hcp H.
  destruct c as [seq_no piece PC|seq_no piece PC taken nextPC
                 |seq_no piece PC r p n]; cbn [step] in H.
  - unfold predict in H.
    destruct (read_counter _ _); cbn [obind] in H; try discriminate.
    unfold get_unique_inst_id in H.
    destruct (piece <? 16); cbn [obind snd] in H; [|discriminate].
    apply outcome_ok_inj in H. subst s'. cbn [pred_time_histories].
    destruct (decide (Z.lor (u64 (Z.shiftl seq_no 4)) (Z.land piece 15) = id)) as [->|Hne].
    + rewrite emplace_lookup_eq, Hcp. reflexivity.
    + by rewrite emplace_lookup_ne.
  - apply outcome_ok_inj in H. subst s'. exact Hcp.
  - cbn [updates_id] in Hc. apply Z.eqb_neq in Hc.
    unfold update, get_unique_inst_id in H.
    destruct (piece <? 16); cbn [obind] in H; [|discriminate].
    destruct (pred_time_histories s !! Z.lor (u64 (Z.shiftl seq_no 4)) (Z.land piece 15))
      as [cp'|]; [|discriminate].
    destruct (update_from s PC r p n cp') as [s1| |] eqn:E; cbn [obind] in H;
      try discriminate.
    apply outcome_ok_inj in H. subst s'. cbn [pred_time_histories].
    rewrite lookup_delete_ne by exact Hc.
    unfold update_from in E.
    destruct (read_counter _ _); cbn [obind] in E; try discriminate.
    apply outcome_ok_inj in E. subst s1. exact Hcp.
Qed.

Lemma two_level_run_keeps_checkpoint cs s s' id cp :
  forallb (λ c, negb (updates_id id c)) cs = true →
  pred_time_histories s !! id = Some cp →
  run s cs = Ok s' →
  pred_time_histories s' !! id = Some cp.
Proof.
  revert s. induction cs as [|c cs IH]; intros s Hcs Hcp H; cbn [run] in H.
  - apply outcome_ok_inj in H. by subst s'.
  - cbn [forallb] in Hcs. apply andb_true_iff in Hcs as [Hc Hcs].
    apply negb_true_iff in Hc.
    destruct (step s c) as [s1| |] eqn:E; cbn [obind] in H; try discriminate.
    apply (IH s1 Hcs); [|exact H].
    exact (two_level_step_keeps_checkpoint s s1 c id cp Hc Hcp E).
Qed.

Lemma two_level_run_wf cs s s' :
  well_formed s → run s cs = Ok s' → well_formed s'.
Proof.
  intros Hs H. revert s Hs H. induction cs as [|c cs IH]; intros s Hs H; cbn [run] in H.
  - apply outcome_ok_inj in H. by subst s'.
  - destruct (two_level_step_cases s c Hs) as [E|(s1 & E & Hw)];
      rewrite E in H; cbn [obind] in H; [discriminate|].
    exact (IH s1 Hw H).
Qed.

(** [update] trains the counter that [predict] read.  When the
    identity has no checkpoint yet, [predict] records the history of the
    branch; whatever calls follow, short of the [update] of that
    identity, the [update] of the branch steps the counter selected by
    the address and the recorded history, which is the counter whose
    value gave the prediction.  The histories of the first level are left
    as they are, also on a misprediction, and the checkpoint is gone. *)
Theorem two_level_update_trains_the_counter_predict_read
    (s s1 s2 : Predictor) (seq_no piece PC : Z) (d r p : bool) (n : Z) (cs : list call) :
  let id := Z.lor (u64 (Z.shiftl seq_no 4)) (Z.land piece 15) in
  let index := table_index PC (history_of s PC) in
  well_formed s →
  pred_time_histories s !! id = None →
  predict s seq_no piece PC = Ok (d, s1) →
  forallb (λ c, negb (updates_id id c)) cs = true →
  run s1 cs = Ok s2 →
  d = (2 <=? vget (pattern_table s) index)
  ∧ holds_after (update s2 seq_no piece PC r p n)
      (λ s3, pattern_table s3
             = vset (pattern_table s2) index
                    (counter_step (vget (pattern_table s2) index) r)
             ∧ branch_history s3 = branch_history s2
             ∧ pred_time_histories s3 !! id = None).
Proof.
  intros id index Hs Hnone Hp Hcs Hrun.
  assert (Hpiece : piece < 16).
  { destruct (Z.lt_ge_cases piece 16) as [Hlt|Hge]; [exact Hlt|].
    exfalso. unfold predict in Hp.
    destruct (read_counter _ _); cbn [obind] in Hp; try discriminate.
    unfold get_unique_inst_id in Hp.
    destruct (piece <? 16) eqn:E; [apply Z.ltb_lt in E; lia|discriminate]. }
  rewrite (two_level_predict_ok s seq_no piece PC Hs Hpiece) in Hp.
  apply outcome_ok_inj in Hp. injection Hp as Hd Hs1.
  fold index in Hd, Hs1. fold id in Hs1.
  split; [by rewrite Hd|].
  assert (Hw1 : well_formed s1).
  { destruct (two_level_predict_cases s seq_no piece PC Hs) as [E|(d' & s' & E & Hw & _)].
    - rewrite (two_level_predict_ok s seq_no piece PC Hs Hpiece) in E. discriminate.
    - rewrite (two_level_predict_ok s seq_no piece PC Hs Hpiece) in E.
      apply outcome_ok_inj in E. injection E as _ E.
      fold index in E. fold id in E. rewrite <- Hs1, E. exact Hw. }
  assert (Hcp1 : pred_time_histories s1 !! id
                 = Some (mkSampleHist (history_of s PC) d)).
  { rewrite <- Hs1. cbn [pred_time_histories].
    rewrite emplace_lookup_eq, Hnone. cbn [default]. by rewrite Hd. }
  pose proof (two_level_run_keeps_checkpoint cs s1 s2 id _ Hcs Hcp1 Hrun) as Hcp2.
  pose proof (two_level_run_wf cs s1 s2 Hw1 Hrun) as (Hsz & _).
  unfold update, get_unique_inst_id.
  destruct (piece <? 16) eqn:E; [|apply Z.ltb_ge in E; lia].
  cbn [obind]. fold id. rewrite Hcp2.
  rewrite (two_level_update_from _ _ _ _ _ _ Hsz). cbn [obind holds_after ghist].
  cbn [pattern_table branch_history pred_time_histories].
  split; [reflexivity|]. split; [reflexivity|]. apply lookup_delete_eq.
Qed.

Lemma two_level_update_trains_the_counter_predict_read_witness :
  ∃ s1 s2,
    predict (setup construct) 7 0 4096 = Ok (false, s1)
    ∧ run s1 [CHistoryUpdate 7 0 4096 true 4100; CPredict 8 0 4096;
              CHistoryUpdate 8 0 4096 true 4100; CPredict 7 0 4096] = Ok s2
    ∧ holds_after (update s2 7 0 4096 true false 4100)
        (λ s3, pattern_table s3
               = vset (pattern_table s2) (table_index 4096 (history_of (setup construct) 4096))
                      (counter_step
                         (vget (pattern_table s2)
                               (table_index 4096 (history_of (setup construct) 4096))) true)
               ∧ branch_history s3 = branch_history s2
               ∧ pred_time_histories s3 !! Z.lor (u64 (Z.shiftl 7 4)) (Z.land 0 15) = None).
Proof.
  destruct (predict (setup construct) 7 0 4096) as [[d s1]| |] eqn:Ep;
    [|vm_compute in Ep; discriminate|vm_compute in Ep; discriminate].
  assert (Hd : d = false).
  { rewrite (two_level_predict_ok _ 7 0 4096 two_level_setup_wf ltac:(lia)) in Ep.
    apply outcome_ok_inj in Ep. apply (f_equal fst) in Ep. cbn [fst] in Ep.
    rewrite <- Ep. by vm_compute. }
  subst d.
  destruct (run s1 [CHistoryUpdate 7 0 4096 true 4100; CPredict 8 0 4096;
                    CHistoryUpdate 8 0 4096 true 4100; CPredict 7 0 4096])
    as [s2| |] eqn:Er.
  - exists s1, s2. split; [reflexivity|]. split; [exact Er|].
    exact (proj2 (two_level_update_trains_the_counter_predict_read
                    (setup construct) s1 s2 7 0 4096 false true false 4100
                    [CHistoryUpdate 7 0 4096 true 4100; CPredict 8 0 4096;
                     CHistoryUpdate 8 0 4096 true 4100; CPredict 7 0 4096]
                    two_level_setup_wf eq_refl Ep eq_refl Er)).
  - exfalso.
    rewrite (two_level_predict_ok _ 7 0 4096 two_level_setup_wf ltac:(lia)) in Ep.
    apply outcome_ok_inj in Ep. apply (f_equal snd) in Ep. cbn [snd] in Ep. subst s1.
    vm_compute in Er. discriminate.
  - exfalso.
    rewrite (two_level_predict_ok _ 7 0 4096 two_level_setup_wf ltac:(lia)) in Ep.
    apply outcome_ok_inj in Ep. apply (f_equal snd) in Ep. cbn [snd] in Ep. subst s1.
    vm_compute in Er. discriminate.
Defined.

End TwoLevelFacts.

(** ** The per-identity two-bit counter *)

Module TwoBitFacts.
Import TwoBit.

Lemma two_bit_plus_ok c : 0 ≤ c ≤ 2 → 0 ≤ plus c ≤ 2.
Proof.
  intros Hc. unfold plus, u8. destruct (c <? 2) eqn:E; [|lia].
  apply Z.ltb_lt in E. rewrite Z.mod_small; lia.
Qed.

Lemma two_bit_minus_ok c : 0 ≤ c ≤ 2 → 0 ≤ minus c ≤ 1.
Proof.
  intros Hc. unfold minus, u8. destruct (0 <? c) eqn:E.
  - apply Z.ltb_lt in E. rewrite Z.mod_small; lia.
  - apply Z.ltb_ge in E. lia.
Qed.

Lemma two_bit_msb_low c : 0 ≤ c ≤ 1 → msb c = false.
Proof.
  intros Hc. assert (c = 0 ∨ c = 1) as [-> | ->] by lia; reflexivity.
Qed.

Lemma two_bit_ensure_eq m id : ensure m id !! id = Some (default 0 (m !! id)).
Proof.
  unfold ensure. destruct (m !! id) eqn:E; cbn [default]; [exact E|].
  apply lookup_insert_eq.
Qed.

Lemma two_bit_ensure_ne m id j : id ≠ j → ensure m id !! j = m !! j.
Proof.
  intros Hne. unfold ensure. destruct (m !! id); [reflexivity|].
  by apply lookup_insert_ne.
Qed.

Lemma two_bit_ensure_ok m id :
  map_Forall (λ _ c, 0 ≤ c ≤ 2) m → map_Forall (λ _ c, 0 ≤ c ≤ 2) (ensure m id).
Proof.
  intros Hm. unfold ensure. destruct (m !! id); [exact Hm|].
  apply map_Forall_insert_2; [|exact Hm]. by vm_compute.
Qed.

Lemma two_bit_predict_ok s seq_no piece PC :
  piece < 16 →
  let id := Z.lor (u64 (Z.shiftl seq_no 4)) (Z.land piece 15) in
  predict s seq_no piece PC
  = Ok (msb (default 0 (pred_histories s !! id)),
        mkPredictor (ensure (pred_histories s) id)).
Proof.
  intros Hp id. unfold predict, get_unique_inst_id.
  destruct (piece <? 16) eqn:E; [|apply Z.ltb_ge in E; lia].
  cbn [obind]. fold id. unfold at_. by rewrite two_bit_ensure_eq.
Qed.

Lemma two_bit_update_ok s seq_no piece PC r p n :
  piece < 16 →
  let id := Z.lor (u64 (Z.shiftl seq_no 4)) (Z.land piece 15) in
  update s seq_no piece PC r p n
  = Ok (mkPredictor
          (<[id := if r then plus (default 0 (pred_histories s !! id))
                   else minus (default 0 (pred_histories s !! id))]>
             (ensure (pred_histories s) id))).
Proof.
  intros Hp id. unfold update, get_unique_inst_id.
  destruct (piece <? 16) eqn:E; [|apply Z.ltb_ge in E; lia].
  cbn [obind]. fold id. unfold at_. by rewrite two_bit_ensure_eq.
Qed.

Lemma two_bit_default_ok s id :
  counters_ok s → 0 ≤ default 0 (pred_histories s !! id) ≤ 2.
Proof.
  intros Hs. destruct (pred_histories s !! id) eqn:E; cbn [default]; [|lia].
  exact (Hs _ _ E).
Qed.

Lemma two_bit_step_inv s s' c :
  step s c = Ok s' →
  match c with
  | CPredict seq_no piece PC =>
      piece < 16
      ∧ s' = mkPredictor (ensure (pred_histories s)
                                 (Z.lor (u64 (Z.shiftl seq_no 4)) (Z.land piece 15)))
  | CHistoryUpdate _ _ _ _ _ => s' = s
  | CUpdate seq_no piece PC r p n =>
      let id := Z.lor (u64 (Z.shiftl seq_no 4)) (Z.land piece 15) in
      piece < 16
      ∧ s' = mkPredictor
               (<[id := if r then plus (default 0 (pred_histories s !! id))
                        else minus (default 0 (pred_histories s !! id))]>
                  (ensure (pred_histories s) id))
  end.
Proof.
  intros H. destruct c as [seq_no piece PC|seq_no piece PC taken nextPC
                           |seq_no piece PC r p n]; cbn [step] in H.
  - destruct (Z.lt_ge_cases piece 16) as [Hp|Hp].
    + rewrite (two_bit_predict_ok s seq_no piece PC Hp) in H. cbn [obind snd] in H.
      apply outcome_ok_inj in H. by subst s'.
    + exfalso. unfold predict, get_unique_inst_id in H.
      destruct (piece <? 16) eqn:E; [apply Z.ltb_lt in E; lia|discriminate].
  - apply outcome_ok_inj in H. by subst s'.
  - destruct (Z.lt_ge_cases piece 16) as [Hp|Hp].
    + rewrite (two_bit_update_ok s seq_no piece PC r p n Hp) in H.
      apply outcome_ok_inj in H. by subst s'.
    + exfalso. unfold update, get_unique_inst_id in H.
      destruct (piece <? 16) eqn:E; [apply Z.ltb_lt in E; lia|discriminate].
Qed.

Lemma two_bit_step_ok s s' c : counters_ok s → step s c = Ok s' → counters_ok s'.
Proof.
  intros Hs H. apply two_bit_step_inv in H.
  destruct c as [seq_no piece PC|seq_no piece PC taken nextPC|seq_no piece PC r p n].
  - destruct H as [_ ->]. by apply two_bit_ensure_ok.
  - by subst s'.
  - destruct H as [_ ->]. unfold counters_ok. cbn [pred_histories].
    apply map_Forall_insert_2; [|by apply two_bit_ensure_ok].
    pose proof (two_bit_default_ok s (Z.lor (u64 (Z.shiftl seq_no 4)) (Z.land piece 15)) Hs)
      as Hd.
    destruct r.
    + by apply two_bit_plus_ok.
    + pose proof (two_bit_minus_ok _ Hd). lia.
Qed.

Lemma two_bit_run_ok cs s s' : counters_ok s → run s cs = Ok s' → counters_ok s'.
Proof.
  revert s. induction cs as [|c cs IH]; intros s Hs H; cbn [run] in H.
  - apply outcome_ok_inj in H. by subst s'.
  - destruct (step s c) as [s1| |] eqn:E; cbn [obind] in H; try discriminate.
    exact (IH s1 (two_bit_step_ok s s1 c Hs E) H).
Qed.

(** The counter stops at 2.  [operator+] increments only below 2, so
    along every call sequence from the constructor's state no stored
    counter exceeds 2, and one [update] with a not-taken outcome is
    enough for the next [predict] of that identity to say not taken,
    however many taken outcomes came before. *)
Theorem two_bit_one_not_taken_outcome_flips_the_prediction
    (cs : list call) (s : Predictor) (seq_no piece PC PC' : Z) (p : bool) (n : Z) :
  run construct cs = Ok s →
  piece < 16 →
  counters_ok s
  ∧ holds_after (update s seq_no piece PC false p n)
      (λ s', holds_after (predict s' seq_no piece PC') (λ r, fst r = false)).
Proof.
  intros Hrun Hp.
  assert (Hs : counters_ok s).
  { apply (two_bit_run_ok cs construct s); [|exact Hrun]. apply map_Forall_empty. }
  split; [exact Hs|].
  rewrite (two_bit_update_ok s seq_no piece PC false p n Hp). cbn [holds_after].
  rewrite (two_bit_predict_ok _ seq_no piece PC' Hp). cbn [holds_after fst pred_histories].
  rewrite lookup_insert_eq. cbn [default].
  apply two_bit_msb_low, two_bit_minus_ok, two_bit_default_ok, Hs.
Qed.

Lemma two_bit_one_not_taken_outcome_flips_the_prediction_witness :
  ∃ s,
    run construct [CPredict 7 0 4096; CUpdate 7 0 4096 true false 4100;
                   CUpdate 7 0 4096 true false 4100; CUpdate 7 0 4096 true true 4100;
                   CUpdate 7 0 4096 true true 4100] = Ok s
    ∧ 0 < 16
    ∧ holds_after (predict s 7 0 4096) (λ r, fst r = true)
    ∧ counters_ok s
    ∧ holds_after (update s 7 0 4096 false true 4100)
        (λ s', holds_after (predict s' 7 0 4096) (λ r, fst r = false)).
Proof.
  eexists. split; [vm_compute; reflexivity|]. split; [lia|].
  split; [vm_compute; reflexivity|].
  eapply (two_bit_one_not_taken_outcome_flips_the_prediction
            [CPredict 7 0 4096; CUpdate 7 0 4096 true false 4100;
             CUpdate 7 0 4096 true false 4100; CUpdate 7 0 4096 true true 4100;
             CUpdate 7 0 4096 true true 4100]); [|lia].
  vm_compute. reflexivity.
Defined.

(** An identity that no call has updated keeps a zero counter. *)
Lemma two_bit_step_fresh s s' c id :
  updates_id id c = false →
  default 0 (pred_histories s !! id) = 0 →
  step s c = Ok s' →
  default 0 (pred_histories s' !! id) = 0.
Proof.
  intros Hc H0 H. apply two_bit_step_inv in H.
  destruct c as [seq_no piece PC|seq_no piece PC taken nextPC|seq_no piece PC r p n].
  - destruct H as [_ ->]. cbn [pred_histories].
    destruct (decide (Z.lor (u64 (Z.shiftl seq_no 4)) (Z.land piece 15) = id)) as [->|Hne].
    + rewrite two_bit_ensure_eq. cbn [default]. exact H0.
    + by rewrite two_bit_ensure_ne.
  - by subst s'.
  - destruct H as [_ ->]. cbn [pred_histories].
    cbn [updates_id] in Hc. apply Z.eqb_neq in Hc.
    rewrite lookup_insert_ne by exact Hc. by rewrite two_bit_ensure_ne.
Qed.

Lemma two_bit_run_fresh cs s s' id :
  forallb (λ c, negb (updates_id id c)) cs = true →
  default 0 (pred_histories s !! id) = 0 →
  run s cs = Ok s' →
  default 0 (pred_histories s' !! id) = 0.
Proof.
  revert s. induction cs as [|c cs IH]; intros s Hcs H0 H; cbn [run] in H.
  - apply outcome_ok_inj in H. by subst s'.
  - cbn [forallb] in Hcs. apply andb_true_iff in Hcs as [Hc Hcs].
    apply negb_true_iff in Hc.
    destruct (step s c) as [s1| |] eqn:E; cbn [obind] in H; try discriminate.
    exact (IH s1 Hcs (two_bit_step_fresh s s1 c id Hc H0 E) H).
Qed.

(** The counters are kept per identity, not per address.  After any call
    sequence from the constructor's state, [predict] says not taken for
    every identity that has had no [update], whatever the outcomes of the
    branches at the same address were. *)
Theorem two_bit_identity_without_update_predicts_not_taken
    (cs : list call) (s : Predictor) (seq_no piece PC : Z) :
  run construct cs = Ok s →
  forallb (λ c, negb (updates_id (Z.lor (u64 (Z.shiftl seq_no 4)) (Z.land piece 15)) c)) cs
  = true →
  piece < 16 →
  holds_after (predict s seq_no piece PC) (λ r, fst r = false).
Proof.
  intros Hrun Hcs Hp.
  rewrite (two_bit_predict_ok s seq_no piece PC Hp). cbn [holds_after fst].
  rewrite (two_bit_run_fresh cs construct s _ Hcs eq_refl Hrun). reflexivity.
Qed.

Lemma two_bit_identity_without_update_predicts_not_taken_witness :
  ∃ s,
    run construct [CPredict 7 0 4096; CUpdate 7 0 4096 true false 4100;
                   CUpdate 7 0 4096 true false 4100; CPredict 8 0 4096] = Ok s
    ∧ holds_after (predict s 7 0 4096) (λ r, fst r = true)
    ∧ holds_after (predict s 8 0 4096) (λ r, fst r = false).
Proof.
  eexists. split; [vm_compute; reflexivity|].
  split; [vm_compute; reflexivity|].
  eapply (two_bit_identity_without_update_predicts_not_taken
            [CPredict 7 0 4096; CUpdate 7 0 4096 true false 4100;
             CUpdate 7 0 4096 true false 4100; CPredict 8 0 4096]);
    [vm_compute; reflexivity|reflexivity|lia].
Defined.

End TwoBitFacts.

(** ** Backward taken, forward not taken *)

Module BtfntFacts.
Import Btfnt.

Lemma btfnt_step_lookup s c PC :
  next_pc_map (step s c) !! PC
  = match records PC c with
    | Some t => Some t
    | None => next_pc_map s !! PC
    end.
Proof.
  destruct c as [seq_no piece PC'|seq_no piece PC' taken nextPC
                 |seq_no piece PC' r p nextPC]; cbn [step records]; [reflexivity| |].
  - unfold history_update. destruct taken; cbn [andb]; [|reflexivity].
    cbn [next_pc_map]. destruct (PC' =? PC) eqn:E.
    + apply Z.eqb_eq in E. subst PC'. apply lookup_insert_eq.
    + apply Z.eqb_neq in E. by apply lookup_insert_ne.
  - unfold update. destruct r; cbn [andb]; [|reflexivity].
    cbn [next_pc_map]. destruct (PC' =? PC) eqn:E.
    + apply Z.eqb_eq in E. subst PC'. apply lookup_insert_eq.
    + apply Z.eqb_neq in E. by apply lookup_insert_ne.
Qed.

Lemma btfnt_run_lookup cs s PC :
  next_pc_map (run s cs) !! PC = last_target PC cs (next_pc_map s !! PC).
Proof.
  unfold run. revert s. induction cs as [|c cs IH]; intros s; cbn [fold_left last_target].
  - reflexivity.
  - rewrite IH, btfnt_step_lookup. reflexivity.
Qed.

(** The prediction for an address is decided by the target that the
    latest taken outcome at that address recorded, be it from a
    [history_update] or from an [update]: taken when that target is not
    above the address.  An address with no taken outcome so far is
    predicted not taken, except the last four addresses of the 64-bit
    space, where [PC + 4] wraps around and the prediction is taken. *)
Theorem btfnt_prediction_follows_the_last_taken_target
    (cs : list call) (seq_no piece PC : Z) :
  0 ≤ PC < 2 ^ 64 →
  predict (run construct cs) seq_no piece PC
  = match last_target PC cs None with
    | Some target => target <=? PC
    | None => 2 ^ 64 - 4 <=? PC
    end.
Proof.
  intros HPC. unfold predict. rewrite btfnt_run_lookup.
  change (next_pc_map construct !! PC) with (@None Z).
  destruct (last_target PC cs None); [reflexivity|].
  unfold u64.
  destruct (2 ^ 64 - 4 <=? PC) eqn:E.
  - apply Z.leb_le in E. apply Z.leb_le.
    replace ((PC + 4) mod 2 ^ 64) with (PC + 4 - 2 ^ 64); [lia|].
    apply Z.mod_unique with 1; [left|]; lia.
  - apply Z.leb_gt in E. apply Z.leb_gt.
    rewrite Z.mod_small; lia.
Qed.

Lemma btfnt_prediction_follows_the_last_taken_target_witness :
  (0 ≤ 4096 < 2 ^ 64)
  ∧ predict (run construct [CHistoryUpdate 1 0 4096 true 5000;
                            CUpdate 1 0 4096 true true 4000;
                            CUpdate 2 0 4096 false true 6000]) 3 0 4096
    = true
  ∧ last_target 4096 [CHistoryUpdate 1 0 4096 true 5000;
                      CUpdate 1 0 4096 true true 4000;
                      CUpdate 2 0 4096 false true 6000] None = Some 4000.
Proof.
  split; [lia|]. split; [|reflexivity].
  rewrite (btfnt_prediction_follows_the_last_taken_target
             [CHistoryUpdate 1 0 4096 true 5000; CUpdate 1 0 4096 true true 4000;
              CUpdate 2 0 4096 false true 6000] 3 0 4096 ltac:(lia)).
  reflexivity.
Defined.

End BtfntFacts.

(** ** The perceptron *)

Module PerceptronFacts.
Import Perceptron.

Lemma perceptron_i8_range x : -128 ≤ i8 x ≤ 127.
Proof.
  unfold i8. pose proof (Z.mod_pos_bound (x + 2 ^ 7) (2 ^ 8) ltac:(lia)). lia.
Qed.

(** With eight-bit weights the bounds are those of [int8_t], and the
    clamp, which sees the value after the cast, changes nothing. *)
Lemma perceptron_clamp_is_the_cast x : clamp x = i8 x.
Proof.
  unfold clamp. change WEIGHT_MAX with 127. change WEIGHT_MIN with (-128).
  pose proof (perceptron_i8_range x). lia.
Qed.

Lemma perceptron_train_step_size g t w i :
  vsize (train_step g t w i) = vsize w.
Proof. unfold train_step, vsize, vset. by rewrite length_insert. Qed.

Lemma perceptron_train_fold g t l : ∀ w k,
  t = 1 ∨ t = -1 →
  NoDup l →
  (∀ i, i ∈ l → 0 ≤ i ∧ i + 1 < vsize w) →
  0 ≤ k →
  vsize (fold_left (train_step g t) l w) = vsize w
  ∧ vget (fold_left (train_step g t) l w) k
    = if bool_decide (k - 1 ∈ l)
      then i8 (vget w k + (if Z.testbit g (k - 1) then 1 else -1) * t)
      else vget w k.
Proof.
  induction l as [|i l IH]; intros w k Ht Hnd Hin Hk; cbn [fold_left].
  - split; [reflexivity|]. rewrite bool_decide_eq_false_2; [reflexivity|].
    apply not_elem_of_nil.
  - apply NoDup_cons in Hnd as [Hi Hnd].
    destruct (Hin i ltac:(left)) as [Hi0 Hi1].
    destruct (IH (train_step g t w i) k Ht Hnd) as [Hsz Hget]; [|exact Hk|].
    { intros j Hj. rewrite perceptron_train_step_size. apply Hin. by right. }
    rewrite perceptron_train_step_size in Hsz. split; [exact Hsz|].
    rewrite Hget. destruct (decide (k - 1 = i)) as [Heq|Hne].
    + subst i. rewrite bool_decide_eq_false_2 by exact Hi.
      rewrite bool_decide_eq_true_2 by (by left).
      unfold train_step. replace (k - 1 + 1) with k by lia.
      rewrite vget_vset_eq by lia. rewrite perceptron_clamp_is_the_cast.
      f_equal. f_equal.
      destruct (Z.testbit g (k - 1)), Ht as [-> | ->]; reflexivity.
    + assert (Hstep : vget (train_step g t w i) k = vget w k).
      { unfold train_step. apply vget_vset_ne; lia. }
      rewrite Hstep.
      destruct (bool_decide (k - 1 ∈ l)) eqn:E.
      * apply bool_decide_eq_true_1 in E.
        rewrite bool_decide_eq_true_2 by (by right). reflexivity.
      * apply bool_decide_eq_false_1 in E.
        rewrite bool_decide_eq_false_2; [reflexivity|].
        intros [H|H]%elem_of_cons; [lia|by apply E].
Qed.

Lemma perceptron_train_spec w g r :
  vsize w = NUM_FEATURES →
  vsize (train w g r) = NUM_FEATURES
  ∧ ∀ k, 0 ≤ k < NUM_FEATURES →
         vget (train w g r) k = i8 (vget w k + direction g r k).
Proof.
  intros Hw. unfold train. cbv zeta.
  set (w0 := vset w 0 (clamp (vget w 0 + LEARNING_RATE * target_of r))).
  assert (Hw0 : vsize w0 = NUM_FEATURES).
  { unfold w0, vsize, vset in *. by rewrite length_insert. }
  assert (Ht : target_of r = 1 ∨ target_of r = -1) by (destruct r; [by left|by right]).
  assert (Hin : ∀ i, i ∈ seqZ 0 HISTORY_LENGTH → 0 ≤ i ∧ i + 1 < vsize w0).
  { intros i Hi%elem_of_seqZ. rewrite Hw0. unfold NUM_FEATURES. lia. }
  split.
  - destruct (perceptron_train_fold g (target_of r) (seqZ 0 HISTORY_LENGTH) w0 0
                Ht (NoDup_seqZ _ _) Hin ltac:(lia)) as [Hsz _].
    by rewrite Hsz.
  - intros k Hk.
    destruct (perceptron_train_fold g (target_of r) (seqZ 0 HISTORY_LENGTH) w0 k
                Ht (NoDup_seqZ _ _) Hin ltac:(lia)) as [_ Hget].
    rewrite Hget. unfold direction.
    destruct (k =? 0) eqn:E.
    + apply Z.eqb_eq in E. subst k.
      rewrite bool_decide_eq_false_2 by (intros H%elem_of_seqZ; lia).
      unfold w0. rewrite vget_vset_eq by (rewrite Hw; unfold NUM_FEATURES, HISTORY_LENGTH; lia).
      rewrite perceptron_clamp_is_the_cast.
      unfold LEARNING_RATE. by rewrite Z.mul_1_l.
    + apply Z.eqb_neq in E.
      rewrite bool_decide_eq_true_2
        by (apply elem_of_seqZ; unfold NUM_FEATURES in Hk; lia).
      unfold w0. rewrite vget_vset_ne by lia. reflexivity.
Qed.

Lemma perceptron_weights_of s PC w :
  weights s !! PC = Some w → vsize w = NUM_FEATURES → weights_of s PC = w.
Proof.
  intros Hl Hw. unfold weights_of. rewrite Hl. cbn [default].
  destruct w; [discriminate Hw|reflexivity].
Qed.

Lemma perceptron_update_ok s seq_no piece PC r p n :
  piece < 16 →
  let id := Z.lor (u64 (Z.shiftl seq_no 4)) (Z.land piece 15) in
  let w := weights_of s PC in
  let g := rolled_back s id r p in
  update s seq_no piece PC r p n
  = Ok (mkPredictor g
          (<[PC := if trains (score g w) r then train w g r else w]> (weights s))
          (delete id (speculative_GHRs s))).
Proof.
  intros Hp id w g. unfold update, get_unique_inst_id.
  destruct (piece <? 16) eqn:E; [reflexivity|]. apply Z.ltb_ge in E. lia.
Qed.

(** Training wraps the weights around.  The clamp of [update] comes
    after the cast to [int8_t], and for eight-bit weights its bounds are
    the bounds of the type; so whenever [update] trains, every weight of
    the address moves by one in its direction modulo 256: a bias of 127
    that is trained towards taken becomes -128, and a weight of -128
    trained downwards becomes 127. *)
Theorem perceptron_training_wraps_the_weights
    (s : Predictor) (seq_no piece PC : Z) (r p : bool) (n : Z) (w : list Z) :
  let id := Z.lor (u64 (Z.shiftl seq_no 4)) (Z.land piece 15) in
  let g := rolled_back s id r p in
  piece < 16 →
  weights s !! PC = Some w →
  vsize w = NUM_FEATURES →
  trains (score g w) r = true →
  holds_after (update s seq_no piece PC r p n)
    (λ s', ∃ w', weights s' !! PC = Some w'
                 ∧ vsize w' = NUM_FEATURES
                 ∧ (∀ k, 0 ≤ k < NUM_FEATURES →
                         vget w' k = i8 (vget w k + direction g r k))
                 ∧ (∀ k, 0 ≤ k < NUM_FEATURES →
                         (vget w k = 127 → direction g r k = 1 → vget w' k = -128)
                         ∧ (vget w k = -128 → direction g r k = -1 → vget w' k = 127))).
Proof.
  intros id g Hp Hl Hw Ht.
  rewrite (perceptron_update_ok s seq_no piece PC r p n Hp).
  fold id. fold g. rewrite (perceptron_weights_of s PC w Hl Hw), Ht.
  cbn [holds_after weights].
  destruct (perceptron_train_spec w g r Hw) as [Hsz Hget].
  exists (train w g r). split; [apply lookup_insert_eq|]. split; [exact Hsz|].
  split; [exact Hget|].
  intros k Hk. rewrite (Hget k Hk).
  split; intros -> ->; reflexivity.
Qed.

(** The adversary's calls complete; they leave the bias of the address
    at 127 and a register under which the next [update] towards taken
    trains. *)
Lemma perceptron_wrap_calls_state :
  ∃ s w,
    run construct PerceptronRuns.wrap_calls = Ok s
    ∧ weights s !! 4096 = Some w
    ∧ vsize w = NUM_FEATURES
    ∧ vget w 0 = 127
    ∧ trains (score (rolled_back s (Z.lor (u64 (Z.shiftl 0 4)) (Z.land 0 15)) true true) w)
             true = true.
Proof.
  eexists _, _. split; [vm_compute; reflexivity|].
  split; [vm_compute; reflexivity|]. split; [vm_compute; reflexivity|].
  split; vm_compute; reflexivity.
Qed.

Lemma perceptron_training_wraps_the_weights_witness :
  ∃ s w,
    run construct PerceptronRuns.wrap_calls = Ok s
    ∧ weights s !! 4096 = Some w
    ∧ vget w 0 = 127
    ∧ holds_after (update s 0 0 4096 true true 4100)
        (λ s', ∃ w', weights s' !! 4096 = Some w' ∧ vget w' 0 = -128).
Proof.
  destruct perceptron_wrap_calls_state as (s & w & Es & Hl & Hw & H127 & Ht).
  exists s, w. split; [exact Es|]. split; [exact Hl|]. split; [exact H127|].
  clear Es.
  pose proof (perceptron_training_wraps_the_weights s 0 0 4096 true true 4100 w
                ltac:(lia) Hl Hw Ht) as H.
  destruct (update s 0 0 4096 true true 4100) as [s'| |]; cbn [holds_after] in *;
    [|exact H|exact H].
  destruct H as (w' & Hl' & _ & _ & Hwrap). exists w'. split; [exact Hl'|].
  apply (proj1 (Hwrap 0 ltac:(unfold NUM_FEATURES, HISTORY_LENGTH; lia)));
    [exact H127|reflexivity].
Defined.

(** The register that [update] leaves after a rollback has the resolved
    direction as its newest bit. *)
Lemma perceptron_shift_in_bit0 g b : Z.testbit (shift_in g b) 0 = b.
Proof.
  unfold shift_in, bitset_set. destruct b.
  - by apply Z.setbit_eq.
  - apply Z.clearbit_eq.
Qed.

(** On a misprediction the first history weight learns nothing.  When the
    snapshot of the identity exists, [update] restores it and shifts the
    resolved direction in before it trains; the newest bit of the
    register then equals the outcome, so the first history weight is
    either left alone or incremented, never decremented, whichever way
    the branch went.  The snapshot is removed. *)
Theorem perceptron_rollback_never_lowers_the_first_history_weight
    (s : Predictor) (seq_no piece PC : Z) (r p : bool) (n : Z) (w : list Z)
    (snapshot : Z) :
  let id := Z.lor (u64 (Z.shiftl seq_no 4)) (Z.land piece 15) in
  piece < 16 →
  weights s !! PC = Some w →
  vsize w = NUM_FEATURES →
  speculative_GHRs s !! id = Some snapshot →
  r ≠ p →
  holds_after (update s seq_no piece PC r p n)
    (λ s', GHR s' = shift_in snapshot r
           ∧ speculative_GHRs s' !! id = None
           ∧ ∃ w', weights s' !! PC = Some w'
                   ∧ (vget w' 1 = vget w 1 ∨ vget w' 1 = i8 (vget w 1 + 1))).
Proof.
  intros id Hp Hl Hw Hsnap Hrp.
  rewrite (perceptron_update_ok s seq_no piece PC r p n Hp).
  fold id. rewrite (perceptron_weights_of s PC w Hl Hw).
  assert (Hg : rolled_back s id r p = shift_in snapshot r).
  { unfold rolled_back. rewrite Hsnap.
    destruct r, p; try reflexivity; by destruct Hrp. }
  rewrite Hg. cbn [holds_after GHR weights speculative_GHRs].
  split; [reflexivity|]. split; [apply lookup_delete_eq|].
  eexists. split; [apply lookup_insert_eq|].
  destruct (trains _ r); [|by left].
  right. destruct (perceptron_train_spec w (shift_in snapshot r) r Hw) as [_ Hget].
  rewrite (Hget 1) by (unfold NUM_FEATURES, HISTORY_LENGTH; lia).
  unfold direction. change (1 =? 0) with false. change (1 - 1) with 0.
  rewrite perceptron_shift_in_bit0. by destruct r.
Qed.

Lemma perceptron_rollback_never_lowers_the_first_history_weight_witness :
  ∃ s w,
    run construct [CPredict 1 0 4096; CHistoryUpdate 1 0 4096 true 4100] = Ok s
    ∧ weights s !! 4096 = Some w
    ∧ vget w 1 = 0
    ∧ holds_after (update s 1 0 4096 false true 4100)
        (λ s', GHR s' = shift_in 0 false
               ∧ speculative_GHRs s' !! Z.lor (u64 (Z.shiftl 1 4)) (Z.land 0 15) = None
               ∧ ∃ w', weights s' !! 4096 = Some w'
                       ∧ (vget w' 1 = vget w 1 ∨ vget w' 1 = i8 (vget w 1 + 1))).
Proof.
  eexists _, _. split; [vm_compute; reflexivity|].
  split; [vm_compute; reflexivity|]. split; [vm_compute; reflexivity|].
  apply (perceptron_rollback_never_lowers_the_first_history_weight
           _ 1 0 4096 false true 4100 _ 0);
    [lia|vm_compute; reflexivity|vm_compute; reflexivity|vm_compute; reflexivity
    |discriminate].
Defined.

End PerceptronFacts.

(** ** The perceptron conditioned on the address *)

Module ConditionedFacts.
Import Conditioned.

Lemma conditioned_clamp_is_the_cast x : clamp x = i8 x.
Proof.
  unfold clamp. change WEIGHT_MAX with 127. change WEIGHT_MIN with (-128).
  pose proof (PerceptronFacts.perceptron_i8_range x). lia.
Qed.

Lemma conditioned_bump_size w k d : vsize (bump w k d) = vsize w.
Proof. unfold bump, vsize, vset. by rewrite length_insert. Qed.

Lemma conditioned_bump_eq w k d :
  0 ≤ k < vsize w → vget (bump w k d) k = i8 (vget w k + d).
Proof.
  intros Hk. unfold bump. rewrite vget_vset_eq by exact Hk.
  apply conditioned_clamp_is_the_cast.
Qed.

Lemma conditioned_bump_ne w k j d :
  0 ≤ k → 0 ≤ j → k ≠ j → vget (bump w k d) j = vget w j.
Proof. intros Hk Hj Hne. unfold bump. by apply vget_vset_ne. Qed.

(** A loop that bumps the weights at the distinct positions [idx i]. *)
Lemma conditioned_fold_bump (idx upd : Z → Z) l : ∀ w,
  NoDup (map idx l) →
  (∀ i, i ∈ l → 0 ≤ idx i < vsize w) →
  vsize (fold_left (λ w i, bump w (idx i) (upd i)) l w) = vsize w
  ∧ (∀ i, i ∈ l →
       vget (fold_left (λ w i, bump w (idx i) (upd i)) l w) (idx i)
       = i8 (vget w (idx i) + upd i))
  ∧ (∀ k, 0 ≤ k → (∀ i, i ∈ l → idx i ≠ k) →
       vget (fold_left (λ w i, bump w (idx i) (upd i)) l w) k = vget w k).
Proof.
  induction l as [|i l IH]; intros w Hnd Hin; cbn [fold_left].
  - split; [reflexivity|]. split; [intros i Hi; by apply elem_of_nil in Hi|]. done.
  - cbn [map] in Hnd. apply NoDup_cons in Hnd as [Hi Hnd].
    assert (Hi' : ∀ j, j ∈ l → idx j ≠ idx i).
    { intros j Hj Heq. apply Hi. rewrite <- Heq.
      change (map idx l) with (idx <$> l). apply list_elem_of_fmap. by exists j. }
    destruct (Hin i ltac:(left)) as [Hi0 Hi1].
    destruct (IH (bump w (idx i) (upd i)) Hnd) as (Hsz & Hget & Hkeep).
    { intros j Hj. rewrite conditioned_bump_size. apply Hin. by right. }
    rewrite conditioned_bump_size in Hsz.
    split; [exact Hsz|]. split.
    + intros j [->|Hj]%elem_of_cons.
      * rewrite Hkeep by (try lia; exact Hi').
        apply conditioned_bump_eq. lia.
      * rewrite (Hget j Hj). f_equal. f_equal.
        apply conditioned_bump_ne; [lia| |by apply not_eq_sym, Hi'].
        apply Hin. by right.
    + intros k Hk Hne. rewrite Hkeep.
      * apply conditioned_bump_ne; [lia|exact Hk|]. apply Hne. by left.
      * exact Hk.
      * intros j Hj. apply Hne. by right.
Qed.

Lemma conditioned_update_value (b r : bool) :
  i8 ((if b then 1 else -1) * target_of r * LEARNING_RATE)
  = (if b then 1 else -1) * target_of r.
Proof. by destruct b, r. Qed.

Lemma conditioned_nodup_shift (a m n : Z) : NoDup (map (λ i, a + i) (seqZ m n)).
Proof.
  change (map (λ i, a + i) (seqZ m n)) with (Z.add a <$> seqZ m n).
  rewrite fmap_add_seqZ. apply NoDup_seqZ.
Qed.

(** What [train] does to each of the 256 weights. *)
Lemma conditioned_train_spec w g delta PC r :
  vsize w = NUM_FEATURES →
  vsize (train w g delta PC r) = NUM_FEATURES
  ∧ vget (train w g delta PC r) 0 = i8 (vget w 0 + target_of r)
  ∧ (∀ j, 0 ≤ j < HISTORY_LENGTH →
       vget (train w g delta PC r) (j + 1)
       = i8 (vget w (j + 1) + (if Z.testbit g (j + delta) then 1 else -1) * target_of r))
  ∧ (∀ i, 1 ≤ i ≤ ID_LENGTH →
       vget (train w g delta PC r) (HISTORY_LENGTH + i)
       = i8 (vget w (HISTORY_LENGTH + i)
             + (if Z.testbit PC i then 1 else -1) * target_of r)).
Proof.
  intros Hw. unfold train. cbv zeta.
  change NUM_FEATURES with 256 in *. change HISTORY_LENGTH with 245.
  change ID_LENGTH with 10.
  set (w0 := bump w 0 (LEARNING_RATE * target_of r)).
  assert (Hw0 : vsize w0 = 256) by (unfold w0; by rewrite conditioned_bump_size).
  set (up1 := λ i : Z, i8 ((if Z.testbit g (i + delta) then 1 else -1)
                           * target_of r * LEARNING_RATE)).
  set (up2 := λ i : Z, i8 ((if Z.testbit PC i then 1 else -1)
                           * target_of r * LEARNING_RATE)).
  destruct (conditioned_fold_bump (λ i, i + 1) up1 (seqZ 0 245) w0) as (Hs1 & Hg1 & Hk1).
  { change (map (λ i, i + 1) (seqZ 0 245)) with (map (λ i, i + 1) (seqZ 0 245)).
    replace (map (λ i : Z, i + 1) (seqZ 0 245)) with (map (λ i, 1 + i) (seqZ 0 245))
      by (apply map_ext; intros; lia).
    apply conditioned_nodup_shift. }
  { intros i Hi%elem_of_seqZ. lia. }
  set (w1 := fold_left (λ w i, bump w (i + 1) (up1 i)) (seqZ 0 245) w0) in *.
  destruct (conditioned_fold_bump (λ i, 245 + i) up2 (seqZ 1 10) w1) as (Hs2 & Hg2 & Hk2).
  { apply conditioned_nodup_shift. }
  { intros i Hi%elem_of_seqZ. lia. }
  set (w2 := fold_left (λ w i, bump w (245 + i) (up2 i)) (seqZ 1 10) w1) in *.
  change (vsize w2 = 256
          ∧ vget w2 0 = i8 (vget w 0 + target_of r)
          ∧ (∀ j, 0 ≤ j < 245 →
               vget w2 (j + 1)
               = i8 (vget w (j + 1)
                     + (if Z.testbit g (j + delta) then 1 else -1) * target_of r))
          ∧ (∀ i, 1 ≤ i ≤ 10 →
               vget w2 (245 + i)
               = i8 (vget w (245 + i) + (if Z.testbit PC i then 1 else -1) * target_of r))).
  split; [lia|]. split; [|split].
  - rewrite Hk2 by (try lia; intros i Hi%elem_of_seqZ; lia).
    rewrite Hk1 by (try lia; intros i Hi%elem_of_seqZ; lia).
    unfold w0. rewrite conditioned_bump_eq by lia.
    unfold LEARNING_RATE. by rewrite Z.mul_1_l.
  - intros j Hj.
    rewrite Hk2 by (try lia; intros i Hi%elem_of_seqZ; lia).
    rewrite (Hg1 j) by (apply elem_of_seqZ; lia).
    unfold w0. rewrite conditioned_bump_ne by lia.
    unfold up1. by rewrite conditioned_update_value.
  - intros i Hi.
    rewrite (Hg2 i) by (apply elem_of_seqZ; lia).
    rewrite Hk1 by (try lia; intros j Hj%elem_of_seqZ; lia).
    unfold w0. rewrite conditioned_bump_ne by lia.
    unfold up2. by rewrite conditioned_update_value.
Qed.

(** ** The register along pushes *)

Lemma conditioned_push_bit0 g b :
  Z.testbit (bitset_set (bitset_shl (HISTORY_LENGTH + HISTORY_LENGTH_BUFFER) g) 0 b) 0 = b.
Proof.
  unfold bitset_set. destruct b; [by apply Z.setbit_eq|apply Z.clearbit_eq].
Qed.

Lemma conditioned_push_bits g b j :
  1 ≤ j < HISTORY_LENGTH + HISTORY_LENGTH_BUFFER →
  Z.testbit (bitset_set (bitset_shl (HISTORY_LENGTH + HISTORY_LENGTH_BUFFER) g) 0 b) j
  = Z.testbit g (j - 1).
Proof.
  intros Hj.
  assert (H : Z.testbit (bitset_shl (HISTORY_LENGTH + HISTORY_LENGTH_BUFFER) g) j
              = Z.testbit g (j - 1)).
  { unfold bitset_shl. rewrite Z.mod_pow2_bits_low by lia.
    apply Z.shiftl_spec. lia. }
  unfold bitset_set. destruct b.
  - rewrite Z.setbit_neq by lia. exact H.
  - rewrite Z.clearbit_neq by lia. exact H.
Qed.

Lemma conditioned_set_bits g k b j :
  0 ≤ k → 0 ≤ j →
  Z.testbit (bitset_set g k b) (j + k) = if j =? 0 then b else Z.testbit g (j + k).
Proof.
  intros Hk Hj. unfold bitset_set. destruct (j =? 0) eqn:E.
  - apply Z.eqb_eq in E. subst j. rewrite Z.add_0_l.
    destruct b; [by apply Z.setbit_eq|apply Z.clearbit_eq].
  - apply Z.eqb_neq in E.
    destruct b; [rewrite Z.setbit_neq by lia|rewrite Z.clearbit_neq by lia]; reflexivity.
Qed.

Lemma conditioned_history_update_inv s seq_no piece PC taken n s' :
  history_update s seq_no piece PC taken n = Ok s' →
  piece < 16
  ∧ s' = mkPredictor (u8 (pred_cycle s + 1))
           (bitset_set (bitset_shl (HISTORY_LENGTH + HISTORY_LENGTH_BUFFER) (GHR s)) 0 taken)
           (weights s)
           (<[Z.lor (u64 (Z.shiftl seq_no 4)) (Z.land piece 15) := u8 (pred_cycle s + 1)]>
              (speculative_updates s))
           (past_predictions s).
Proof.
  unfold history_update, get_unique_inst_id. cbv zeta.
  destruct (piece <? 16) eqn:E; cbn [obind]; [|discriminate].
  apply Z.ltb_lt in E. intros H. apply outcome_ok_inj in H. by subst s'.
Qed.

Lemma conditioned_u8_idem a b : u8 (u8 a + b) = u8 (a + b).
Proof. unfold u8. apply Zplus_mod_idemp_l. Qed.

(** Pushes of other identities leave the weights, the recorded scores
    and the cycle of [id]; they advance the cycle counter and move every
    bit of the register up. *)
Lemma conditioned_run_pushes id others : ∀ s1 s2,
  forallb (pushes_for_another id) others = true →
  run s1 others = Ok s2 →
  weights s2 = weights s1
  ∧ past_predictions s2 = past_predictions s1
  ∧ speculative_updates s2 !! id = speculative_updates s1 !! id
  ∧ u8 (pred_cycle s2) = u8 (pred_cycle s1 + vsize others)
  ∧ ∀ j, 0 ≤ j → j + vsize others < HISTORY_LENGTH + HISTORY_LENGTH_BUFFER →
         Z.testbit (GHR s2) (j + vsize others) = Z.testbit (GHR s1) j.
Proof.
  induction others as [|c cs IH]; intros s1 s2 Hall Hrun; cbn [run] in Hrun.
  - apply outcome_ok_inj in Hrun. subst s2. change (vsize (@nil call)) with 0.
    rewrite !Z.add_0_r. repeat split; try reflexivity.
    intros j _ _. by rewrite Z.add_0_r.
  - cbn [forallb] in Hall. apply andb_true_iff in Hall as [Hc Hall].
    destruct c as [| seq_no piece PC taken n |]; cbn [pushes_for_another] in Hc;
      try discriminate.
    apply negb_true_iff, Z.eqb_neq in Hc.
    cbn [step] in Hrun.
    destruct (history_update s1 seq_no piece PC taken n) as [s| |] eqn:E;
      cbn [obind] in Hrun; try discriminate.
    apply conditioned_history_update_inv in E as [_ ->].
    destruct (IH _ s2 Hall Hrun) as (Hw & Hp & Hs & Hc2 & Hbits).
    cbn [weights past_predictions speculative_updates pred_cycle GHR] in *.
    assert (Hlen : vsize (CHistoryUpdate seq_no piece PC taken n :: cs) = vsize cs + 1).
    { unfold vsize. cbn [length]. lia. }
    pose proof (Zle_0_nat (length cs)) as Hn. fold (vsize cs) in Hn.
    rewrite Hlen.
    split; [exact Hw|]. split; [exact Hp|]. split.
    + rewrite Hs. by apply lookup_insert_ne.
    + split.
      * rewrite Hc2, conditioned_u8_idem. f_equal. lia.
      * intros j Hj Hlt.
        replace (j + (vsize cs + 1)) with ((j + 1) + vsize cs) by lia.
        rewrite Hbits by lia. rewrite conditioned_push_bits by lia.
        f_equal. lia.
Qed.

(** [update] after the push of the branch and the pushes of others, from
    a state that holds the weights [w] and the recorded score [sum]. *)
Lemma conditioned_update_after_pushes
    (s0 s1 s2 : Predictor) (seq_no piece PC : Z) (taken r p : bool) (n : Z)
    (others : list call) (w : list Z) (sum : Z) :
  let id := Z.lor (u64 (Z.shiftl seq_no 4)) (Z.land piece 15) in
  let idx := get_weights_idx PC in
  let own := if eqb r p then taken else r in
  weights s0 !! idx = Some w →
  vsize w = NUM_FEATURES →
  past_predictions s0 !! id = Some sum →
  history_update s0 seq_no piece PC taken n = Ok s1 →
  forallb (pushes_for_another id) others = true →
  vsize others < 256 →
  run s1 others = Ok s2 →
  holds_after (update s2 seq_no piece PC r p n) (λ s3,
    ∃ w', weights s3 !! idx = Some w'
          ∧ if trains sum r && (vsize others <=? HISTORY_LENGTH_BUFFER)
            then vget w' 0 = i8 (vget w 0 + target_of r)
                 ∧ vget w' 1 = i8 (vget w 1 + (if own then 1 else -1) * target_of r)
                 ∧ (∀ j, 1 ≤ j < HISTORY_LENGTH →
                      vget w' (j + 1)
                      = i8 (vget w (j + 1)
                            + (if Z.testbit (GHR s0) (j - 1) then 1 else -1) * target_of r))
                 ∧ (∀ i, 1 ≤ i ≤ ID_LENGTH →
                      vget w' (HISTORY_LENGTH + i)
                      = i8 (vget w (HISTORY_LENGTH + i)
                            + (if Z.testbit PC i then 1 else -1) * target_of r))
            else w' = w).
Proof.
  intros id idx own Hw Hsz Hsum Hpush Hall Hlen Hrun.
  apply conditioned_history_update_inv in Hpush as [Hpiece ->]. fold id in Hrun.
  destruct (conditioned_run_pushes id others _ s2 Hall Hrun)
    as (Hw2 & Hp2 & Hs2 & Hc2 & Hbits).
  cbn [weights past_predictions speculative_updates pred_cycle GHR] in *.
  rewrite lookup_insert_eq in Hs2.
  pose proof (Zle_0_nat (length others)) as Hk. fold (vsize others) in Hk.
  set (k := vsize others) in *.
  assert (Hdelta : u8 (pred_cycle s2 - u8 (pred_cycle s0 + 1)) = k).
  { clear Hrun Hbits. unfold u8 in *. change (2 ^ 8) with 256 in *.
    Z.to_euclidean_division_equations. lia. }
  assert (Hwof : weights_of s2 idx = w).
  { unfold weights_of. rewrite Hw2, Hw. cbn [default].
    destruct w; [discriminate Hsz|reflexivity]. }
  unfold update, get_unique_inst_id.
  destruct (piece <? 16) eqn:E; [|apply Z.ltb_ge in E; lia].
  cbn [obind]. fold id. fold idx. cbv zeta. rewrite Hs2, Hp2, Hsum, Hdelta, Hwof.
  destruct (trains sum r) eqn:Et; cbn [andb].
  - destruct (k <=? HISTORY_LENGTH_BUFFER) eqn:Ek.
    + apply Z.leb_le in Ek.
      destruct (HISTORY_LENGTH_BUFFER <? k) eqn:Ek'; [apply Z.ltb_lt in Ek'; lia|].
      cbn [holds_after weights]. eexists. split; [apply lookup_insert_eq|].
      set (g := if negb (eqb r p) then bitset_set (GHR s2) k r else GHR s2).
      destruct (conditioned_train_spec w g k PC r Hsz) as (_ & H0 & Hh & Hi).
      change HISTORY_LENGTH_BUFFER with 64 in *. change HISTORY_LENGTH with 245 in *.
      assert (Hg : ∀ j, 0 ≤ j < 245 →
                 Z.testbit g (j + k)
                 = if j =? 0 then own
                   else Z.testbit (GHR s0) (j - 1)).
      { intros j Hj. unfold g, own.
        assert (Hplain : Z.testbit (GHR s2) (j + k)
                         = if j =? 0 then taken else Z.testbit (GHR s0) (j - 1)).
        { rewrite Hbits by lia. destruct (j =? 0) eqn:Ej.
          - apply Z.eqb_eq in Ej. subst j. apply conditioned_push_bit0.
          - apply Z.eqb_neq in Ej. apply conditioned_push_bits.
            change HISTORY_LENGTH_BUFFER with 64. change HISTORY_LENGTH with 245. lia. }
        destruct (eqb r p); cbn [negb].
        - exact Hplain.
        - rewrite conditioned_set_bits by lia. rewrite Hplain.
          by destruct (j =? 0). }
      split; [exact H0|]. split; [|split].
      * pose proof (Hh 0 ltac:(lia)) as Hh0. change (0 + 1) with 1 in Hh0.
        rewrite Hh0. by rewrite (Hg 0) by lia.
      * intros j Hj. rewrite (Hh j) by lia. rewrite (Hg j) by lia.
        destruct (j =? 0) eqn:Ej; [apply Z.eqb_eq in Ej; lia|reflexivity].
      * exact Hi.
    + apply Z.leb_gt in Ek.
      destruct (HISTORY_LENGTH_BUFFER <? k) eqn:Ek'; [|apply Z.ltb_ge in Ek'; lia].
      cbn [holds_after weights]. exists w. split; [|reflexivity].
      rewrite lookup_insert_eq. reflexivity.
  - destruct (HISTORY_LENGTH_BUFFER <? k); cbn [holds_after weights];
      exists w; (split; [apply lookup_insert_eq|reflexivity]).
Qed.

Lemma conditioned_predict_inv s seq_no piece PC d s0 :
  predict s seq_no piece PC = Ok (d, s0) →
  d = (0 <=? score (GHR s) PC (weights_of s (get_weights_idx PC)))
  ∧ weights s0 !! get_weights_idx PC = Some (weights_of s (get_weights_idx PC))
  ∧ past_predictions s0 !! Z.lor (u64 (Z.shiftl seq_no 4)) (Z.land piece 15)
    = Some (score (GHR s) PC (weights_of s (get_weights_idx PC)))
  ∧ GHR s0 = GHR s.
Proof.
  unfold predict, get_unique_inst_id.
  generalize (score (GHR s) PC (weights_of s (get_weights_idx PC))). intros sum.
  generalize (weights_of s (get_weights_idx PC)). intros w.
  destruct (piece <? 16); cbn [obind]; [|discriminate].
  intros H. apply outcome_ok_inj in H.
  pose proof (f_equal fst H) as Hd. pose proof (f_equal snd H) as Hs0.
  cbn [fst snd] in Hd, Hs0. subst d s0.
  cbn [weights past_predictions GHR].
  split; [reflexivity|]. split; [apply lookup_insert_eq|].
  split; [apply lookup_insert_eq|reflexivity].
Qed.

(** The features that [update] trains on are the features of [predict]
    moved by one place.  [predict] scores the branch with the weights [w]
    under the register [GHR s], multiplying the history weight
    [w[j + 1]] with bit [j]; the branch is pushed, fewer than 256 pushes
    of other identities follow, and [update] resolves the branch, the
    read of the erased score giving the recorded score.  When the score
    calls for training and at most 64 pushes intervened, every weight
    moves by one, modulo 256: the bias and the weights of the address
    bits as the features of [predict] say, but [w[j + 1]] is trained on
    bit [j - 1] of the register that [predict] read, and [w[1]] on the
    bit of the branch itself, the resolved direction after a
    misprediction and the pushed bit otherwise.  In every other case the
    weights stay. *)
Theorem conditioned_update_trains_on_shifted_history
    (s s0 s1 s2 : Predictor) (seq_no piece PC : Z) (d taken r p : bool) (n : Z)
    (others : list call) :
  let id := Z.lor (u64 (Z.shiftl seq_no 4)) (Z.land piece 15) in
  let idx := get_weights_idx PC in
  let w := weights_of s idx in
  let sum := score (GHR s) PC w in
  let own := if eqb r p then taken else r in
  vsize w = NUM_FEATURES →
  predict s seq_no piece PC = Ok (d, s0) →
  history_update s0 seq_no piece PC taken n = Ok s1 →
  forallb (pushes_for_another id) others = true →
  vsize others < 256 →
  run s1 others = Ok s2 →
  d = (0 <=? sum)
  ∧ holds_after (update s2 seq_no piece PC r p n) (λ s3,
      ∃ w', weights s3 !! idx = Some w'
            ∧ if trains sum r && (vsize others <=? HISTORY_LENGTH_BUFFER)
              then vget w' 0 = i8 (vget w 0 + target_of r)
                   ∧ vget w' 1 = i8 (vget w 1 + (if own then 1 else -1) * target_of r)
                   ∧ (∀ j, 1 ≤ j < HISTORY_LENGTH →
                        vget w' (j + 1)
                        = i8 (vget w (j + 1)
                              + (if Z.testbit (GHR s) (j - 1) then 1 else -1) * target_of r))
                   ∧ (∀ i, 1 ≤ i ≤ ID_LENGTH →
                        vget w' (HISTORY_LENGTH + i)
                        = i8 (vget w (HISTORY_LENGTH + i)
                              + (if Z.testbit PC i then 1 else -1) * target_of r))
              else w' = w).
Proof.
  intros id idx w sum own Hsz Hpred Hpush Hall Hlen Hrun.
  destruct (conditioned_predict_inv _ _ _ _ _ _ Hpred) as (Hd & Hw0 & Hsum0 & Hg).
  split; [exact Hd|].
  rewrite <- Hg.
  exact (conditioned_update_after_pushes s0 s1 s2 seq_no piece PC taken r p n others
           w sum Hw0 Hsz Hsum0 Hpush Hall Hlen Hrun).
Qed.

Lemma conditioned_update_trains_on_shifted_history_witness :
  ∃ s0 s1 s2,
    predict construct 1 0 4096 = Ok (true, s0)
    ∧ history_update s0 1 0 4096 true 4100 = Ok s1
    ∧ run s1 [CHistoryUpdate 2 0 4200 true 4204; CHistoryUpdate 3 0 4300 false 4304] = Ok s2
    ∧ trains (score (GHR construct) 4096 (weights_of construct (get_weights_idx 4096))) false
      && (2 <=? HISTORY_LENGTH_BUFFER) = true
    ∧ holds_after (update s2 1 0 4096 false true 4100) (λ s3,
        ∃ w', weights s3 !! get_weights_idx 4096 = Some w'
              ∧ vget w' 0 = i8 (0 + target_of false)
              ∧ vget w' 1 = i8 (0 + (if false then 1 else -1) * target_of false)
              ∧ vget w' 2 = i8 (0 + (if Z.testbit (GHR construct) 0 then 1 else -1)
                                    * target_of false)).
Proof.
  assert (H : holds_after (predict construct 1 0 4096) (λ ds,
                fst ds = true
                ∧ holds_after (history_update (snd ds) 1 0 4096 true 4100) (λ s1,
                    holds_after (run s1 [CHistoryUpdate 2 0 4200 true 4204;
                                         CHistoryUpdate 3 0 4300 false 4304])
                                (λ _, True))))
    by (vm_compute; repeat split).
  destruct (predict construct 1 0 4096) as [[d s0]| |] eqn:E0; cbn [holds_after] in H;
    [|destruct H|destruct H].
  destruct H as (Hd & H). cbn [fst snd] in Hd, H. subst d.
  destruct (history_update s0 1 0 4096 true 4100) as [s1| |] eqn:E1; cbn [holds_after] in H;
    [|destruct H|destruct H].
  destruct (run s1 [CHistoryUpdate 2 0 4200 true 4204; CHistoryUpdate 3 0 4300 false 4304])
    as [s2| |] eqn:E2; cbn [holds_after] in H; [|destruct H|destruct H].
  exists s0, s1, s2.
  split; [reflexivity|]. split; [exact E1|]. split; [exact E2|]. split; [reflexivity|].
  pose proof (conditioned_update_trains_on_shifted_history
                construct s0 s1 s2 1 0 4096 true true false true 4100
                [CHistoryUpdate 2 0 4200 true 4204; CHistoryUpdate 3 0 4300 false 4304]
                eq_refl E0 E1 eq_refl ltac:(vm_compute; reflexivity) E2) as [_ Hthm].
  destruct (update s2 1 0 4096 false true 4100) as [s3| |]; cbn [holds_after] in *;
    [|exact Hthm|exact Hthm].
  destruct Hthm as (w' & Hl & Ht).
  change (trains (score (GHR construct) 4096 (weights_of construct (get_weights_idx 4096)))
                 false
          && (vsize [CHistoryUpdate 2 0 4200 true 4204; CHistoryUpdate 3 0 4300 false 4304]
              <=? HISTORY_LENGTH_BUFFER)) with true in Ht.
  cbv iota in Ht. destruct Ht as (H0 & H1 & Hh & _).
  exists w'. split; [exact Hl|]. split; [exact H0|]. split; [exact H1|].
  exact (Hh 1 ltac:(vm_compute; split; [discriminate|reflexivity])).
Defined.

End ConditionedFacts.
